(** * ants_dashboard: the statistics engine of [src/App.jsx]

    A shallow embedding of the pure derivations of the dashboard
    ([safeDiv], [parseDate], [filterData], [aggregatedBatting],
    [aggregatedPitching], [teamTrendData], [gameByGameStats],
    [playerBattingTrendData], [playerPitchingTrendData], [rankingData],
    [RankingList]; then [parseCSV], [formatRate], [categories],
    [playerList], [resetFilters], [teamStats], [monthlyBattingTrend],
    [monthlyPitchingTrend], [comparisonScatterData] and the [sortedData] of
    the chart cards and of the two tables) together with the part of the
    JavaScript run-time they rest on.

    Conventions of the embedding.
    - A JavaScript number that holds a rate is an IEEE-754 binary64 value,
      modelled by [spec_float] at precision 53 (module [JsNum]); division,
      addition and subtraction are the correctly rounded operations of the
      standard library's specification of floats.
    - Counting stats are integers.  The source adds them in binary64, which
      is exact below 2^53, so they are kept in [Z] and converted by
      [JsNum.of_Z] where a rate formula divides them.
    - An empty CSV cell of a numeric column is [None]; [row[k] || 0] is
      [cell].  A text cell is [Some s] for the string [s] and [None] when
      the row has no such property ([undefined], as in the rows of a file
      without that column); [r_date] and the like read a cell where the
      source only tests it or defaults it to the empty string, the fields
      [c_date] and the like where [undefined] and the empty string part.
    - A TypeError ends a derivation: the derivations that can raise one
      ([gameByGameStats] on a game without a date, the player trends on a
      key that is an inherited name) return an [option], [None] being the
      error.
    - An object used as a dictionary inherits the properties of
      [Object.prototype] ([JsObject.inherited]): under such a name a lookup
      finds the inherited value even when the object has no entry.  What
      the source then writes into that inherited value is outside the
      embedding.
    - Strings are byte strings, the UTF-8 form of the text (as for the
      Japanese literals of the source).  Their order ([JsString.compare])
      is that of the UTF-16 code units of the source, for all well-formed
      text (lemma [string_compare_units]).
    - The text of a CSV file is a list of UTF-16 code units (module [Csv]),
      as [trim], [split] and [charCodeAt] see it; the records that
      [parseCSV] returns are kept apart from the rows [Row] the derivations
      read.
    - [Number] on a string, and [Number::toString] from 10^21 on, are taken
      from the host.
    - A [Date] is its time value: [Some t] for [t] milliseconds since the
      epoch, [None] for an Invalid Date.  Local time is UTC shifted by a
      fixed offset of the host. *)

From Stdlib Require Import ZArith NArith List String Ascii Bool Lia.
From Stdlib Require Import Permutation Sorted.
From Stdlib Require Import SpecFloat.
Import ListNotations.

Local Open Scope Z_scope.

(* ================================================================== *)
(** * JavaScript numbers (binary64) *)
(* ================================================================== *)

Module JsNum.

Definition prec : Z := 53.
Definition emax : Z := 1024.

Definition num : Type := spec_float.

Definition pzero : num := S754_zero false.
Definition pinf  : num := S754_infinity false.
Definition ninf  : num := S754_infinity true.

(** The binary64 value of an integer literal or integer-valued count. *)
Definition of_Z (z : Z) : num := binary_normalize prec emax z 0 false.

Definition add : num -> num -> num := SFadd prec emax.
Definition sub : num -> num -> num := SFsub prec emax.
Definition mul : num -> num -> num := SFmul prec emax.
Definition div : num -> num -> num := SFdiv prec emax.

(** [a === b], [a < b] on numbers; both are false when an operand is NaN. *)
Definition strict_eq (a b : num) : bool := SFeqb a b.
Definition lt (a b : num) : bool := SFltb a b.
Definition le (a b : num) : bool := SFleb a b.

Definition isNaN (a : num) : bool :=
  match a with S754_nan => true | _ => false end.

Definition isFinite (a : num) : bool :=
  match a with S754_nan | S754_infinity _ => false | _ => true end.

(** A number of the source's domain: no NaN, and a finite one is a
    canonical binary64 representation. *)
Definition wellFormed (a : num) : bool :=
  negb (isNaN a) && valid_binary prec emax a.

(** The binary64 value nearest to the decimal [n / 10^f], that is
    [Number("<n with f decimals>")].  The division of the specification
    rounds the exact quotient of the two integers. *)
Definition dec (s : bool) (n : positive) (f : nat) : num :=
  div (S754_finite s n 0) (S754_finite false (Z.to_pos (10 ^ Z.of_nat f)) 0).

(** [toFixed] step 10: the integer [n] for which [n / 10^f - x] is as
    close to zero as possible, the larger one on a tie; [x = m * 2^e]. *)
Definition toFixed_digits (f : nat) (m : positive) (e : Z) : Z :=
  match e with
  | Zneg k => (2 * Zpos m * 10 ^ Z.of_nat f + 2 ^ Zpos k) / 2 ^ (Zpos k + 1)
  | _ => Zpos m * 2 ^ e * 10 ^ Z.of_nat f
  end.

(** [x >= 10^21], where [toFixed] falls back to [ToString]. *)
Definition ge_1e21 (m : positive) (e : Z) : bool :=
  match e with
  | Zneg k => 10 ^ 21 * 2 ^ Zpos k <=? Zpos m
  | _ => 10 ^ 21 <=? Zpos m * 2 ^ e
  end.

(** [Number(x.toFixed(f))]: the decimal rounding used for every rate. *)
Definition roundTo (f : nat) (x : num) : num :=
  match x with
  | S754_finite s m e =>
      if ge_1e21 m e then x
      else match toFixed_digits f m e with
           | Zpos n => dec s n f
           | _ => S754_zero s
           end
  | S754_zero _ => pzero
  | _ => x
  end.

End JsNum.

(* ================================================================== *)
(** * JavaScript strings *)
(* ================================================================== *)

Module JsString.

(** Truthiness of a string: non-empty. *)
Definition truthy (s : string) : bool := negb (String.eqb s EmptyString).

(** [s || d] on strings. *)
Definition or_else (s d : string) : string := if truthy s then s else d.

(** [s.includes(sub)]. *)
Fixpoint includes (s sub : string) : bool :=
  if String.prefix sub s then true
  else match s with
       | EmptyString => false
       | String _ s' => includes s' sub
       end.

(** [s.split(re)] for a one-character class [re]. *)
Fixpoint split_on (sep : ascii -> bool) (s : string) : list string :=
  match s with
  | EmptyString => [EmptyString]
  | String c s' =>
      if sep c then EmptyString :: split_on sep s'
      else match split_on sep s' with
           | p :: ps => String c p :: ps
           | [] => [String c EmptyString]
           end
  end.

Definition code (c : ascii) : Z := Z.of_N (N_of_ascii c).

(** [String(v)] for a string or [undefined], as a template literal and a
    property key read it; [None] is [undefined]. *)
Definition of_value (v : option string) : string :=
  match v with Some s => s | None => "undefined"%string end.

(** The white space and line terminators of one byte: TAB, LF, VT, FF, CR
    and the space. *)
Definition ws1 (c1 : ascii) : bool :=
  ((9 <=? code c1) && (code c1 <=? 13)) || (code c1 =? 32).

(** U+00A0, the no-break space. *)
Definition ws2 (c1 c2 : ascii) : bool :=
  (code c1 =? 194) && (code c2 =? 160).

(** U+1680, U+2000 to U+200A, U+2028, U+2029, U+202F, U+205F, U+3000 and
    U+FEFF. *)
Definition ws3 (c1 c2 c3 : ascii) : bool :=
  ((code c1 =? 225) && (code c2 =? 154) && (code c3 =? 128))
  || ((code c1 =? 226) && (code c2 =? 128)
      && (((128 <=? code c3) && (code c3 <=? 138))
          || (code c3 =? 168) || (code c3 =? 169) || (code c3 =? 175)))
  || ((code c1 =? 226) && (code c2 =? 129) && (code c3 =? 159))
  || ((code c1 =? 227) && (code c2 =? 128) && (code c3 =? 128))
  || ((code c1 =? 239) && (code c2 =? 187) && (code c3 =? 191)).

(** [s.trimStart()], the white space being that of [parseInt] as well. *)
Fixpoint trimStart (s : string) : string :=
  match s with
  | EmptyString => s
  | String c1 r1 =>
      if ws1 c1 then trimStart r1
      else match r1 with
           | EmptyString => s
           | String c2 r2 =>
               if ws2 c1 c2 then trimStart r2
               else match r2 with
                    | EmptyString => s
                    | String c3 r3 =>
                        if ws3 c1 c2 c3 then trimStart r3 else s
                    end
           end
  end.

Definition digit_val (c : ascii) : option Z :=
  if (48 <=? code c) && (code c <=? 57) then Some (code c - 48) else None.

(** The value of the longest prefix of decimal digits, [acc] being the
    value read so far ([None]: no digit yet). *)
Fixpoint digits_prefix (acc : option Z) (s : string) : option Z :=
  match s with
  | String c s' =>
      match digit_val c with
      | Some d =>
          digits_prefix
            (Some (10 * match acc with Some a => a | None => 0 end + d)) s'
      | None => acc
      end
  | EmptyString => acc
  end.

(** [parseInt(s, 10)]; [None] is NaN. *)
Definition parseInt10 (s : string) : option Z :=
  match trimStart s with
  | String "-"%char s' => option_map Z.opp (digits_prefix None s')
  | String "+"%char s' => digits_prefix None s'
  | s' => digits_prefix None s'
  end.

Definition digit_char (d : Z) : ascii := ascii_of_N (Z.to_N (48 + d)).

Fixpoint digits_of (fuel : nat) (n : Z) (acc : string) : string :=
  match fuel with
  | O => acc
  | S fuel' =>
      let acc' := String (digit_char (n mod 10)) acc in
      if n <? 10 then acc' else digits_of fuel' (n / 10) acc'
  end.

(** [String(n)] for an integer [n]. *)
Definition of_Z (n : Z) : string :=
  if n <? 0 then String "-"%char (digits_of (S (Z.to_nat (Z.log2 (- n)))) (- n) EmptyString)
  else digits_of (S (Z.to_nat (Z.log2 n))) n EmptyString.

(** [s.padStart(2, '0')]. *)
Definition padStart2 (s : string) : string :=
  match s with
  | EmptyString => "00"%string
  | String c EmptyString => String "0"%char s
  | _ => s
  end.

(** [s.substring(n)]. *)
Fixpoint substring_from (n : nat) (s : string) : string :=
  match n, s with
  | O, _ => s
  | S n', String _ s' => substring_from n' s'
  | S _, EmptyString => EmptyString
  end.

(** [s.replace(a, b)] for one-character strings: the first occurrence. *)
Fixpoint replace_first (a b : ascii) (s : string) : string :=
  match s with
  | EmptyString => EmptyString
  | String c s' =>
      if Ascii.eqb c a then String b s' else String c (replace_first a b s')
  end.

(** The place of a byte in the order of UTF-16 code units.  The bytes of
    UTF-8 text are in the order of its characters; the code units are in
    that order too, but for the characters beyond U+FFFF (lead bytes F0
    to F4), whose code units are surrogates, D800 to DFFF, and so come
    before the characters U+E000 to U+FFFF (lead bytes EE and EF).  The
    bytes FE and FF, which no text has, take the places left. *)
Definition unit_weight (c : ascii) : Z :=
  let b := code c in
  if b =? 238 then 254 else if b =? 239 then 255
  else if b =? 254 then 238 else if b =? 255 then 239 else b.

(** The comparison of two strings by their code units (lemma
    [string_compare_units]). *)
Fixpoint compare (a b : string) : comparison :=
  match a, b with
  | EmptyString, EmptyString => Eq
  | EmptyString, String _ _ => Lt
  | String _ _, EmptyString => Gt
  | String x a', String y b' =>
      match Z.compare (unit_weight x) (unit_weight y) with
      | Eq => compare a' b'
      | c => c
      end
  end.

(** [a < b] on strings, also the order of [Array.prototype.sort] without
    a comparator. *)
Definition ltb (a b : string) : bool :=
  match compare a b with Lt => true | _ => false end.

(** [a <= b] *)
Definition leb (a b : string) : bool := negb (ltb b a).

(** The six low bits of a continuation byte of UTF-8. *)
Definition continuation (c : ascii) : option Z :=
  if (128 <=? code c) && (code c <=? 191) then Some (code c - 128) else None.

(** The UTF-16 code units of the first character of UTF-8 text, and the
    text after it; [None] for bytes that do not begin with a character. *)
Definition decode1 (s : string) : option (list Z * string) :=
  match s with
  | EmptyString => None
  | String c1 r1 =>
      let b1 := code c1 in
      if b1 <? 128 then Some ([b1], r1)
      else if (194 <=? b1) && (b1 <=? 223) then
        match r1 with
        | String c2 r2 =>
            match continuation c2 with
            | Some x2 => Some ([(b1 - 192) * 64 + x2], r2)
            | None => None
            end
        | _ => None
        end
      else if (224 <=? b1) && (b1 <=? 239) then
        match r1 with
        | String c2 (String c3 r3) =>
            match continuation c2, continuation c3 with
            | Some x2, Some x3 =>
                let cp := (b1 - 224) * 4096 + x2 * 64 + x3 in
                if (2048 <=? cp) && ((cp <? 55296) || (57343 <? cp))
                then Some ([cp], r3) else None
            | _, _ => None
            end
        | _ => None
        end
      else if (240 <=? b1) && (b1 <=? 244) then
        match r1 with
        | String c2 (String c3 (String c4 r4)) =>
            match continuation c2, continuation c3, continuation c4 with
            | Some x2, Some x3, Some x4 =>
                let cp := (b1 - 240) * 262144 + x2 * 4096 + x3 * 64 + x4 in
                if (65536 <=? cp) && (cp <=? 1114111)
                then Some ([55296 + (cp - 65536) / 1024;
                            56320 + (cp - 65536) mod 1024], r4)
                else None
            | _, _, _ => None
            end
        | _ => None
        end
      else None
  end.

(** The code units of well-formed UTF-8 text, character by character. *)
Fixpoint unitsFrom (fuel : nat) (s : string) : option (list Z) :=
  match s with
  | EmptyString => Some []
  | _ =>
      match fuel with
      | O => None
      | S fuel' =>
          match decode1 s with
          | Some (u, rest) => option_map (app u) (unitsFrom fuel' rest)
          | None => None
          end
      end
  end.

Definition units (s : string) : option (list Z) :=
  unitsFrom (String.length s) s.

(** The comparison of two sequences of code units, as [<] on strings and
    [sort] without a comparator make it. *)
Fixpoint compareUnits (a b : list Z) : comparison :=
  match a, b with
  | [], [] => Eq
  | [], _ :: _ => Lt
  | _ :: _, [] => Gt
  | x :: a', y :: b' =>
      match Z.compare x y with
      | Eq => compareUnits a' b'
      | c => c
      end
  end.

End JsString.

(* ================================================================== *)
(** * JavaScript dates *)
(* ================================================================== *)

Module JsDate.

Definition msPerDay : Z := 86400000.
Definition maxTime : Z := 8640000000000000.

(** An ECMAScript time value; [None] is NaN, the value of an Invalid Date. *)
Definition Date : Type := option Z.

Definition TimeClip (t : Z) : Date :=
  if maxTime <? Z.abs t then None else Some t.

(** Day number of the first-of-month arithmetic: days since the epoch of
    the proleptic Gregorian date [y]-[m]-[d], [m] in 1..12. *)
Definition days_from_civil (y m d : Z) : Z :=
  let y' := if m <=? 2 then y - 1 else y in
  let era := y' / 400 in
  let yoe := y' - era * 400 in
  let mp := (m + 9) mod 12 in
  let doy := (153 * mp + 2) / 5 + d - 1 in
  let doe := yoe * 365 + yoe / 4 - yoe / 100 + doy in
  era * 146097 + doe - 719468.

(** Year, month (1..12) and day of a day number. *)
Definition civil_from_days (z : Z) : Z * Z * Z :=
  let z' := z + 719468 in
  let era := z' / 146097 in
  let doe := z' - era * 146097 in
  let yoe := (doe - doe / 1460 + doe / 36524 - doe / 146096) / 365 in
  let doy := doe - (365 * yoe + yoe / 4 - yoe / 100) in
  let mp := (5 * doy + 2) / 153 in
  let d := doy - (153 * mp + 2) / 5 + 1 in
  let m := if mp <? 10 then mp + 3 else mp - 9 in
  let y := yoe + era * 400 in
  (if m <=? 2 then y + 1 else y, m, d).

(** [MakeDay(year, month, date)], [month] being 0-based and unbounded. *)
Definition MakeDay (year month date : Z) : Z :=
  let ym := year + month / 12 in
  let mn := month mod 12 in
  days_from_civil ym (mn + 1) 1 + date - 1.

(** Two-digit years of the [Date] constructor are years of the 1900s. *)
Definition MakeFullYear (y : Z) : Z :=
  if (0 <=? y) && (y <=? 99) then 1900 + y else y.

Definition Day (t : Z) : Z := t / msPerDay.
Definition TimeWithinDay (t : Z) : Z := t mod msPerDay.

Section LocalTime.

(** Offset of local time from UTC, in milliseconds. *)
Variable tza : Z.

(** [new Date(year, monthIndex, day)]: local midnight of that day. *)
Definition Date_ymd (year monthIndex day : Z) : Date :=
  TimeClip (MakeDay (MakeFullYear year) monthIndex day * msPerDay - tza).

Definition getFullYear (t : Z) : Z :=
  fst (fst (civil_from_days (Day (t + tza)))).

(** [getMonth()], 0-based. *)
Definition getMonth (t : Z) : Z :=
  snd (fst (civil_from_days (Day (t + tza)))) - 1.

(** [getDate()], the day of the month. *)
Definition getDate (t : Z) : Z :=
  snd (civil_from_days (Day (t + tza))).

(** [setDate(date)] on a valid date: the day of the month is replaced in
    local time, the time within the day is kept. *)
Definition setDate (t : Z) (date : Z) : Date :=
  let local := t + tza in
  let year := fst (fst (civil_from_days (Day local))) in
  let month := snd (fst (civil_from_days (Day local))) - 1 in
  TimeClip (MakeDay year month date * msPerDay + TimeWithinDay local - tza).

(** [d.setDate(d.getDate() + 1)]; an Invalid Date stays invalid. *)
Definition nextDay (d : Date) : Date :=
  match d with
  | Some t => setDate t (getDate t + 1)
  | None => None
  end.

End LocalTime.

(** [a < b] and [a >= b] on dates compare the time values as numbers. *)
Definition ltb (a b : Date) : bool :=
  match a, b with Some x, Some y => x <? y | _, _ => false end.

Definition geb (a b : Date) : bool :=
  match a, b with Some x, Some y => y <=? x | _, _ => false end.

Definition isInvalid (d : Date) : bool :=
  match d with None => true | Some _ => false end.

End JsDate.

(* ================================================================== *)
(** * Arrays, maps and objects *)
(* ================================================================== *)

Module JsArray.

Section Sort.
Context {A : Type}.

(** [gt a b] holds when the comparator's result on [(a, b)] is
    positive, the one case in which [b] goes before [a]. *)
Variable gt : A -> A -> bool.

Fixpoint insert (x : A) (l : list A) : list A :=
  match l with
  | [] => [x]
  | y :: l' => if gt x y then y :: insert x l' else x :: y :: l'
  end.

(** [Array.prototype.sort(comparefn)]: stable, elements that compare
    equal (or incomparable) keep their order. *)
Fixpoint sort (l : list A) : list A :=
  match l with
  | [] => []
  | x :: l' => insert x (sort l')
  end.
End Sort.

End JsArray.

(** A [Map] with string keys: entries in insertion order. *)
Module JsMap.

Section Map.
Context {V : Type}.

Definition t : Type := list (string * V).

Fixpoint get (m : t) (k : string) : option V :=
  match m with
  | [] => None
  | (k', v) :: m' => if String.eqb k' k then Some v else get m' k
  end.

Definition has (m : t) (k : string) : bool :=
  match get m k with Some _ => true | None => false end.

(** [m.set(k, v)]: an existing key keeps its position. *)
Fixpoint set (m : t) (k : string) (v : V) : t :=
  match m with
  | [] => [(k, v)]
  | (k', v') :: m' =>
      if String.eqb k' k then (k, v) :: m' else (k', v') :: set m' k v
  end.

Definition values (m : t) : list V := map snd m.
End Map.

End JsMap.

(** An ordinary object used as a dictionary.  Its own keys are listed
    array indices first, in ascending numeric order, then the other keys in
    the order of their creation. *)
Module JsObject.

Fixpoint all_digits (s : string) : bool :=
  match s with
  | EmptyString => true
  | String c s' =>
      match JsString.digit_val c with
      | Some _ => all_digits s'
      | None => false
      end
  end.

(** A canonical numeric string below 2^32 - 1. *)
Definition array_index (s : string) : option Z :=
  match s with
  | EmptyString => None
  | String c rest =>
      if all_digits s
         && (negb (Ascii.eqb c "0"%char) || String.eqb rest EmptyString)
      then match JsString.digits_prefix None s with
           | Some n => if n <=? 4294967294 then Some n else None
           | None => None
           end
      else None
  end.

Definition is_index (s : string) : bool :=
  match array_index s with Some _ => true | None => false end.

Definition index_gt (a b : string) : bool :=
  match array_index a, array_index b with
  | Some i, Some j => j <? i
  | _, _ => false
  end.

(** The names every object inherits from [Object.prototype]: under one of
    these [o[k]] is the inherited property, a function or an object,
    whatever the object [o] holds of its own. *)
Definition inherited_names : list string :=
  ["constructor"; "__defineGetter__"; "__defineSetter__"; "hasOwnProperty";
   "__lookupGetter__"; "__lookupSetter__"; "isPrototypeOf";
   "propertyIsEnumerable"; "toString"; "valueOf"; "__proto__";
   "toLocaleString"]%string.

Definition inherited (k : string) : bool :=
  existsb (String.eqb k) inherited_names.

Section Obj.
Context {V : Type}.

Definition t : Type := list (string * V).

Definition get : t -> string -> option V := JsMap.get.
Definition set : t -> string -> V -> t := JsMap.set.

Definition entries (o : t) : list (string * V) :=
  JsArray.sort (fun a b => index_gt (fst a) (fst b))
               (filter (fun kv => is_index (fst kv)) o)
  ++ filter (fun kv => negb (is_index (fst kv))) o.

Definition keys (o : t) : list string := map fst (entries o).
Definition values (o : t) : list V := map snd (entries o).
End Obj.

End JsObject.

(* ================================================================== *)
(** * The host and the rows *)
(* ================================================================== *)

(** What the program takes from its JavaScript host. *)
Record Host : Type := {
  tza : Z;
    (* offset of local time from UTC, in milliseconds *)
  Date_parse : string -> option Z;
    (* Date.parse on a string; None is NaN *)
  RegExp_i : string -> option (string -> bool);
    (* new RegExp(kw, 'i'): None when the pattern is rejected, else the
       test method of the expression *)
  toLowerCase : string -> string;
  localeCompare : string -> string -> Z
    (* the sign of a.localeCompare(b) *)
}.

(** One decoded CSV line, batting or pitching.  The comment of a field is
    its column header.  A text cell is [None] when the row has no such
    property, the file having no such column: the cell is [undefined]. *)
Record Row : Type := {
  c_playerId : option string;   (* 選手ID *)
  c_name : option string;       (* 名前 *)
  c_number : option string;     (* 背番号 *)
  c_gameId : option string;     (* 試合ID *)
  c_date : option string;       (* 日付 *)
  c_title : option string;      (* タイトル *)
  c_away : option string;       (* 先攻 *)
  c_home : option string;       (* 後攻 *)
  c_score : option string;      (* スコア *)
  r_pa : option Z;       (* 打席数 *)
  r_ab : option Z;       (* 打数 *)
  r_h : option Z;        (* 安打 *)
  r_doubles : option Z;  (* 二塁打 *)
  r_triples : option Z;  (* 三塁打 *)
  r_hr : option Z;       (* 本塁打 *)
  r_rbi : option Z;      (* 打点 *)
  r_runs : option Z;     (* 得点 *)
  r_so : option Z;       (* 三振 *)
  r_bb : option Z;       (* 四球 *)
  r_hbp : option Z;      (* 死球 *)
  r_sb : option Z;       (* 盗塁 *)
  r_sf : option Z;       (* 犠飛 *)
  r_sac : option Z;      (* 犠打 *)
  r_outs : option Z;     (* アウト数 *)
  r_r : option Z;        (* 失点 *)
  r_er : option Z;       (* 自責点 *)
  r_win : option Z;      (* 勝数 *)
  r_loss : option Z;     (* 負数 *)
  r_sv : option Z;       (* セーブ *)
  r_strikes : option Z;  (* S数 *)
  r_pitches : option Z   (* 球数 *)
}.

(** [row[k] || 0] *)
Definition cell (c : option Z) : Z :=
  match c with Some z => z | None => 0 end.

(** [cell || ''] on a text cell.  A test [!cell] and [parseDate(cell)]
    read the cell in the same way: absent or empty, it is falsy. *)
Definition text (c : option string) : string :=
  match c with Some s => s | None => EmptyString end.

Definition r_playerId (row : Row) : string := text (c_playerId row).
Definition r_gameId (row : Row) : string := text (c_gameId row).
Definition r_date (row : Row) : string := text (c_date row).
Definition r_title (row : Row) : string := text (c_title row).
Definition r_away (row : Row) : string := text (c_away row).
Definition r_home (row : Row) : string := text (c_home row).

(** [row['選手ID'] || row['名前']]: [undefined] when the first is falsy and
    the second absent. *)
Definition playerId (row : Row) : option string :=
  if JsString.truthy (r_playerId row) then c_playerId row else c_name row.

(** The same as a property key, [stats[id]]. *)
Definition playerKey (row : Row) : string := JsString.of_value (playerId row).

(** [v === s] for a string [s]. *)
Definition is_string (v : option string) (s : string) : bool :=
  match v with Some x => String.eqb x s | None => false end.

(** Two cells that are the same value, as the keys of a [Map] and the
    members of a [Set] are compared. *)
Definition same_cell (a b : option string) : bool :=
  match a, b with
  | Some x, Some y => String.eqb x y
  | None, None => true
  | _, _ => false
  end.

(* ================================================================== *)
(** * Helper functions *)
(* ================================================================== *)

Import JsNum.

Definition safeDiv (a b : num) : num :=
  if strict_eq b pzero then pzero else div a b.

Definition is_date_sep (c : ascii) : bool :=
  Ascii.eqb c "-"%char || Ascii.eqb c "/"%char.

Section ParseDate.

Variable host : Host.

(** The primary form: three integer parts, handed to the [Date]
    constructor as a local calendar date. *)
Definition parseDate_primary (dateStr : string) : JsDate.Date :=
  match JsString.split_on is_date_sep dateStr with
  | [p0; p1; p2] =>
      match JsString.parseInt10 p0, JsString.parseInt10 p1,
            JsString.parseInt10 p2 with
      | Some year, Some month, Some day =>
          JsDate.Date_ymd (tza host) year (month - 1) day
      | _, _, _ => None
      end
  | _ => None
  end.

(** [new Date(dateStr)] *)
Definition Date_of_string (dateStr : string) : JsDate.Date :=
  match Date_parse host dateStr with
  | Some t => JsDate.TimeClip t
  | None => None
  end.

Definition parseDate (dateStr : string) : JsDate.Date :=
  if negb (JsString.truthy dateStr) then Some 0
  else
    match parseDate_primary dateStr with
    | Some t => Some t
    | None =>
        match Date_of_string dateStr with
        | Some t => Some t
        | None => Some 0
        end
    end.

End ParseDate.

(* ================================================================== *)
(** * Filtering *)
(* ================================================================== *)

Record Filters : Type := {
  startDate : string;
  endDate : string;
  teamKeyword : string;
  category : string
}.

Section FilterData.

Variable host : Host.

(** Lines 298-310 of the source: the date part of the row predicate. *)
Definition dateInRange (filtersToUse : Filters) (row : Row) : bool :=
  let rowDate := parseDate host (r_date row) in
  let start :=
    if JsString.truthy (startDate filtersToUse)
    then Some (parseDate host (startDate filtersToUse)) else None in
  let end_ :=
    if JsString.truthy (endDate filtersToUse)
    then Some (JsDate.nextDay (tza host)
                 (parseDate host (endDate filtersToUse)))
    else None in
  if match start with Some s => JsDate.ltb rowDate s | None => false end
  then false
  else if match end_ with Some e => JsDate.geb rowDate e | None => false end
  then false
  else true.

Definition teamMatches (kw : string) (row : Row) : bool :=
  let teamA := r_away row in
  let teamB := r_home row in
  match RegExp_i host kw with
  | Some test => test teamA || test teamB
  | None =>
      let lowerKw := toLowerCase host kw in
      JsString.includes (toLowerCase host teamA) lowerKw
      || JsString.includes (toLowerCase host teamB) lowerKw
  end.

Definition rowPasses (filtersToUse : Filters) (row : Row) : bool :=
  if negb (dateInRange filtersToUse row) then false
  else if JsString.truthy (teamKeyword filtersToUse)
          && negb (teamMatches (teamKeyword filtersToUse) row)
  then false
  else if negb (String.eqb (category filtersToUse) "all")
          && negb (is_string (c_title row) (category filtersToUse))
  then false
  else true.

Definition filterData (data : list Row) (filtersToUse : Filters) : list Row :=
  filter (rowPasses filtersToUse) data.

End FilterData.

(* ================================================================== *)
(** * Aggregation by player *)
(* ================================================================== *)

(** The accumulator [stats[id]] of [aggregatedBatting]. *)
Record BatStats : Type := {
  bs_id : option string; bs_name : option string; bs_number : option string;
  bs_games : Z; bs_pa : Z; bs_ab : Z; bs_h : Z; bs_doubles : Z;
  bs_triples : Z; bs_hr : Z; bs_rbi : Z; bs_runs : Z; bs_so : Z; bs_bb : Z;
  bs_hbp : Z; bs_sb : Z; bs_sf : Z; bs_sac : Z
}.

(** [{...s, avg, obp, slg, ops, bbK, isoD}] *)
Record BattingSummary : Type := {
  b_stats : BatStats;
  b_avg : num; b_obp : num; b_slg : num; b_ops : num; b_bbK : num;
  b_isoD : num
}.

Definition batInit (row : Row) : BatStats :=
  {| bs_id := c_playerId row; bs_name := c_name row; bs_number := c_number row;
     bs_games := 0; bs_pa := 0; bs_ab := 0; bs_h := 0; bs_doubles := 0;
     bs_triples := 0; bs_hr := 0; bs_rbi := 0; bs_runs := 0; bs_so := 0;
     bs_bb := 0; bs_hbp := 0; bs_sb := 0; bs_sf := 0; bs_sac := 0 |}.

Definition batAdd (s : BatStats) (row : Row) : BatStats :=
  {| bs_id := bs_id s; bs_name := bs_name s; bs_number := bs_number s;
     bs_games := bs_games s + 1;
     bs_pa := bs_pa s + cell (r_pa row);
     bs_ab := bs_ab s + cell (r_ab row);
     bs_h := bs_h s + cell (r_h row);
     bs_doubles := bs_doubles s + cell (r_doubles row);
     bs_triples := bs_triples s + cell (r_triples row);
     bs_hr := bs_hr s + cell (r_hr row);
     bs_rbi := bs_rbi s + cell (r_rbi row);
     bs_runs := bs_runs s + cell (r_runs row);
     bs_so := bs_so s + cell (r_so row);
     bs_bb := bs_bb s + cell (r_bb row);
     bs_hbp := bs_hbp s + cell (r_hbp row);
     bs_sb := bs_sb s + cell (r_sb row);
     bs_sf := bs_sf s + cell (r_sf row);
     bs_sac := bs_sac s + cell (r_sac row) |}.

(** One step of the [forEach] over the filtered rows.  Under an inherited
    name [stats[id]] is the inherited property: no line is made, and the
    additions of the row go to that property, outside [stats]. *)
Definition batStep (stats : JsObject.t) (row : Row) : JsObject.t :=
  let id := playerKey row in
  if JsObject.inherited id then stats
  else
    let s := match JsObject.get stats id with
             | Some s => s
             | None => batInit row
             end in
    JsObject.set stats id (batAdd s row).

(** The unrounded rates of a batting line. *)
Definition rawAvg (s : BatStats) : num :=
  safeDiv (of_Z (bs_h s)) (of_Z (bs_ab s)).

Definition rawObp (s : BatStats) : num :=
  safeDiv (of_Z (bs_h s + bs_bb s + bs_hbp s))
          (of_Z (bs_ab s + bs_bb s + bs_hbp s + bs_sf s)).

Definition totalBases (s : BatStats) : Z :=
  let singles := bs_h s - bs_doubles s - bs_triples s - bs_hr s in
  singles + bs_doubles s * 2 + bs_triples s * 3 + bs_hr s * 4.

Definition rawSlg (s : BatStats) : num :=
  safeDiv (of_Z (totalBases s)) (of_Z (bs_ab s)).

Definition batSummary (s : BatStats) : BattingSummary :=
  let avg := rawAvg s in
  let obp := rawObp s in
  let slg := rawSlg s in
  let ops := add obp slg in
  let bbK := safeDiv (of_Z (bs_bb s + bs_hbp s)) (of_Z (bs_so s)) in
  let isoD := sub obp avg in
  {| b_stats := s;
     b_avg := roundTo 3 avg;
     b_obp := roundTo 3 obp;
     b_slg := roundTo 3 slg;
     b_ops := roundTo 3 ops;
     b_bbK := roundTo 2 bbK;
     b_isoD := roundTo 3 isoD |}.

Definition aggregatedBatting (filteredBattingData : list Row)
  : list BattingSummary :=
  let stats := fold_left batStep filteredBattingData [] in
  JsArray.sort (fun a b => lt pzero (sub (b_avg b) (b_avg a)))
               (map batSummary (JsObject.values stats)).

(** The accumulator [stats[id]] of [aggregatedPitching]. *)
Record PitStats : Type := {
  ps_id : option string; ps_name : option string; ps_number : option string;
  ps_games : Z; ps_outs : Z; ps_h : Z; ps_r : Z; ps_er : Z; ps_bb : Z;
  ps_hbp : Z; ps_so : Z; ps_win : Z; ps_loss : Z; ps_sv : Z
}.

Record PitchingSummary : Type := {
  p_stats : PitStats;
  p_displayInnings : string;
  p_era : num; p_whip : num; p_kbb : num;
  p_inningsVal : num
}.

Definition pitInit (row : Row) : PitStats :=
  {| ps_id := c_playerId row; ps_name := c_name row; ps_number := c_number row;
     ps_games := 0; ps_outs := 0; ps_h := 0; ps_r := 0; ps_er := 0;
     ps_bb := 0; ps_hbp := 0; ps_so := 0; ps_win := 0; ps_loss := 0;
     ps_sv := 0 |}.

Definition pitAdd (s : PitStats) (row : Row) : PitStats :=
  {| ps_id := ps_id s; ps_name := ps_name s; ps_number := ps_number s;
     ps_games := ps_games s + 1;
     ps_outs := ps_outs s + cell (r_outs row);
     ps_h := ps_h s + cell (r_h row);
     ps_r := ps_r s + cell (r_r row);
     ps_er := ps_er s + cell (r_er row);
     ps_bb := ps_bb s + cell (r_bb row);
     ps_hbp := ps_hbp s + cell (r_hbp row);
     ps_so := ps_so s + cell (r_so row);
     ps_win := ps_win s + cell (r_win row);
     ps_loss := ps_loss s + cell (r_loss row);
     ps_sv := ps_sv s + cell (r_sv row) |}.

(** One step of the [forEach], as for the batting rows. *)
Definition pitStep (stats : JsObject.t) (row : Row) : JsObject.t :=
  let id := playerKey row in
  if JsObject.inherited id then stats
  else
    let s := match JsObject.get stats id with
             | Some s => s
             | None => pitInit row
             end in
    JsObject.set stats id (pitAdd s row).

(** [outs / 3], the innings as a number. *)
Definition inningsOf (outs : Z) : num := div (of_Z outs) (of_Z 3).

(** The innings as displayed: whole innings, then [.1] or [.2]. *)
Definition displayInningsOf (outs : Z) : string :=
  String.append
    (JsString.of_Z (outs / 3))
    (if 0 <? Z.rem outs 3
     then String.append "." (JsString.of_Z (Z.rem outs 3))
     else EmptyString).

Definition rawEra (er outs : Z) : num :=
  safeDiv (of_Z (er * 7)) (inningsOf outs).

Definition pitSummary (s : PitStats) : PitchingSummary :=
  let displayInnings := displayInningsOf (ps_outs s) in
  let era := rawEra (ps_er s) (ps_outs s) in
  let whip := safeDiv (of_Z (ps_bb s + ps_hbp s + ps_h s))
                      (inningsOf (ps_outs s)) in
  let kbb := safeDiv (of_Z (ps_so s)) (of_Z (ps_bb s)) in
  {| p_stats := s;
     p_displayInnings := displayInnings;
     p_era := roundTo 2 era;
     p_whip := roundTo 2 whip;
     p_kbb := roundTo 2 kbb;
     p_inningsVal := inningsOf (ps_outs s) |}.

Definition aggregatedPitching (filteredPitchingData : list Row)
  : list PitchingSummary :=
  let stats := fold_left pitStep filteredPitchingData [] in
  JsArray.sort (fun a b => lt pzero (sub (p_era a) (p_era b)))
               (map pitSummary (JsObject.values stats)).

(* ================================================================== *)
(** * Period keys *)
(* ================================================================== *)

Inductive Period : Type := Game | Monthly | Quarterly.

(** The opponent of a row: the away team when the home team is ours. *)
Definition opponentOf (row : Row) : string :=
  let homeTeam := r_home row in
  let awayTeam := r_away row in
  let isHomeArinko :=
    JsString.includes homeTeam "ありんこ"
    || JsString.includes homeTeam "アントス" in
  if isHomeArinko then awayTeam else homeTeam.

Definition unknownOpponent : string := "不明".

(** [`${year}-${(month + 1).toString().padStart(2, '0')}`] *)
Definition monthKey (year month : Z) : string :=
  String.append (JsString.of_Z year)
    (String.append "-" (JsString.padStart2 (JsString.of_Z (month + 1)))).

(** [`${year}-Q${Math.floor(month / 3) + 1}`] *)
Definition quarterKey (year month : Z) : string :=
  String.append (JsString.of_Z year)
    (String.append "-Q" (JsString.of_Z (month / 3 + 1))).

(** [if (!key) return]: a row is bucketed when its key is neither [null]
    nor the empty string. *)
Definition usableKey (key : option string) : option string :=
  match key with
  | Some k => if JsString.truthy k then Some k else None
  | None => None
  end.

(* ================================================================== *)
(** * Team trend (a snapshot per period) *)
(* ================================================================== *)

Record TeamBatPeriod : Type := {
  tb_periodKey : string;
  tb_ab : Z; tb_h : Z; tb_bb : Z; tb_hbp : Z; tb_sf : Z; tb_runs : Z;
  tb_doubles : Z; tb_triples : Z; tb_hr : Z; tb_so : Z; tb_sb : Z
}.

Record TeamBatBucket : Type := {
  tbb_period : TeamBatPeriod;
  tbb_avg : num; tbb_ops : num; tbb_bbRate : num; tbb_soRate : num
}.

Record TeamPitPeriod : Type := {
  tp_periodKey : string;
  tp_outs : Z; tp_er : Z; tp_h : Z; tp_bb : Z; tp_hbp : Z; tp_so : Z;
  tp_s : Z; tp_pitches : Z
}.

Record TeamPitBucket : Type := {
  tpb_period : TeamPitPeriod;
  tpb_bbhbp : Z;
  tpb_era : num; tpb_whip : num; tpb_kPer7 : num; tpb_bbPer7 : num;
  tpb_strikeRate : num
}.

Module TeamTrend.
Section TeamTrend.

Variable host : Host.

Definition getKey (row : Row) (period : Period) : option string :=
  match parseDate host (r_date row) with
  | None => None
  | Some t =>
      let year := JsDate.getFullYear (tza host) t in
      let month := JsDate.getMonth (tza host) t in
      match period with
      | Game =>
          Some (String.append (JsString.of_value (c_date row))
                  (String.append " vs "
                     (JsString.or_else (opponentOf row) unknownOpponent)))
      | Quarterly => Some (quarterKey year month)
      | Monthly => Some (monthKey year month)
      end
  end.

Definition batInit (key : string) : TeamBatPeriod :=
  {| tb_periodKey := key; tb_ab := 0; tb_h := 0; tb_bb := 0; tb_hbp := 0;
     tb_sf := 0; tb_runs := 0; tb_doubles := 0; tb_triples := 0;
     tb_hr := 0; tb_so := 0; tb_sb := 0 |}.

Definition batAdd (p : TeamBatPeriod) (row : Row) : TeamBatPeriod :=
  {| tb_periodKey := tb_periodKey p;
     tb_ab := tb_ab p + cell (r_ab row);
     tb_h := tb_h p + cell (r_h row);
     tb_bb := tb_bb p + cell (r_bb row);
     tb_hbp := tb_hbp p + cell (r_hbp row);
     tb_sf := tb_sf p + cell (r_sf row);
     tb_runs := tb_runs p + cell (r_runs row);
     tb_doubles := tb_doubles p + cell (r_doubles row);
     tb_triples := tb_triples p + cell (r_triples row);
     tb_hr := tb_hr p + cell (r_hr row);
     tb_so := tb_so p + cell (r_so row);
     tb_sb := tb_sb p + cell (r_sb row) |}.

(** One step of the batting [forEach].  A period key holds a space or
    begins with a digit or a sign, and so is no inherited name (lemma
    [period_keys_own]): [battingPeriods[key]] is the object's own entry. *)
Definition batStep (trendPeriod : Period) (battingPeriods : JsObject.t)
    (row : Row) : JsObject.t :=
  match usableKey (getKey row trendPeriod) with
  | None => battingPeriods
  | Some key =>
      let p := match JsObject.get battingPeriods key with
               | Some p => p
               | None => batInit key
               end in
      JsObject.set battingPeriods key (batAdd p row)
  end.

Definition battingPeriods (trendPeriod : Period) (rows : list Row)
  : JsObject.t :=
  fold_left (batStep trendPeriod) rows [].

Definition batBucket (m : TeamBatPeriod) : TeamBatBucket :=
  let avg := safeDiv (of_Z (tb_h m)) (of_Z (tb_ab m)) in
  let obp := safeDiv (of_Z (tb_h m + tb_bb m + tb_hbp m))
                     (of_Z (tb_ab m + tb_bb m + tb_hbp m + tb_sf m)) in
  let slg :=
    safeDiv (of_Z ((tb_h m - tb_doubles m - tb_triples m - tb_hr m)
                   + tb_doubles m * 2 + tb_triples m * 3 + tb_hr m * 4))
            (of_Z (tb_ab m)) in
  let pa := tb_ab m + tb_bb m + tb_hbp m + tb_sf m in
  let bbRate := mul (safeDiv (of_Z (tb_bb m + tb_hbp m)) (of_Z pa))
                    (of_Z 100) in
  let soRate := mul (safeDiv (of_Z (tb_so m)) (of_Z pa)) (of_Z 100) in
  {| tbb_period := m;
     tbb_avg := roundTo 3 avg;
     tbb_ops := roundTo 3 (add obp slg);
     tbb_bbRate := roundTo 1 bbRate;
     tbb_soRate := roundTo 1 soRate |}.

Definition battingResult (trendPeriod : Period) (rows : list Row)
  : list TeamBatBucket :=
  map batBucket
    (JsArray.sort
       (fun a b =>
          0 <? localeCompare host (tb_periodKey a) (tb_periodKey b))
       (JsObject.values (battingPeriods trendPeriod rows))).

Definition pitInit (key : string) : TeamPitPeriod :=
  {| tp_periodKey := key; tp_outs := 0; tp_er := 0; tp_h := 0; tp_bb := 0;
     tp_hbp := 0; tp_so := 0; tp_s := 0; tp_pitches := 0 |}.

Definition pitAdd (p : TeamPitPeriod) (row : Row) : TeamPitPeriod :=
  {| tp_periodKey := tp_periodKey p;
     tp_outs := tp_outs p + cell (r_outs row);
     tp_er := tp_er p + cell (r_er row);
     tp_h := tp_h p + cell (r_h row);
     tp_bb := tp_bb p + cell (r_bb row);
     tp_hbp := tp_hbp p + cell (r_hbp row);
     tp_so := tp_so p + cell (r_so row);
     tp_s := tp_s p + cell (r_strikes row);
     tp_pitches := tp_pitches p + cell (r_pitches row) |}.

(** One step of the pitching [forEach], as for the batting rows. *)
Definition pitStep (trendPeriod : Period) (pitchingPeriods : JsObject.t)
    (row : Row) : JsObject.t :=
  match usableKey (getKey row trendPeriod) with
  | None => pitchingPeriods
  | Some key =>
      let p := match JsObject.get pitchingPeriods key with
               | Some p => p
               | None => pitInit key
               end in
      JsObject.set pitchingPeriods key (pitAdd p row)
  end.

Definition pitchingPeriods (trendPeriod : Period) (rows : list Row)
  : JsObject.t :=
  fold_left (pitStep trendPeriod) rows [].

Definition pitBucket (m : TeamPitPeriod) : TeamPitBucket :=
  let innings := inningsOf (tp_outs m) in
  let era := safeDiv (of_Z (tp_er m * 7)) innings in
  let whip := safeDiv (of_Z (tp_h m + tp_bb m + tp_hbp m)) innings in
  let kPer7 := safeDiv (of_Z (tp_so m * 7)) innings in
  let bbPer7 := safeDiv (of_Z ((tp_bb m + tp_hbp m) * 7)) innings in
  let strikeRate :=
    mul (safeDiv (of_Z (tp_s m)) (of_Z (tp_pitches m))) (of_Z 100) in
  {| tpb_period := m;
     tpb_bbhbp := tp_bb m + tp_hbp m;
     tpb_era := roundTo 2 era;
     tpb_whip := roundTo 2 whip;
     tpb_kPer7 := roundTo 2 kPer7;
     tpb_bbPer7 := roundTo 2 bbPer7;
     tpb_strikeRate := roundTo 1 strikeRate |}.

Definition pitchingResult (trendPeriod : Period) (rows : list Row)
  : list TeamPitBucket :=
  map pitBucket
    (JsArray.sort
       (fun a b =>
          0 <? localeCompare host (tp_periodKey a) (tp_periodKey b))
       (JsObject.values (pitchingPeriods trendPeriod rows))).

Definition teamTrendData (filteredBattingData filteredPitchingData : list Row)
    (trendPeriod : Period) : list TeamBatBucket * list TeamPitBucket :=
  (battingResult trendPeriod filteredBattingData,
   pitchingResult trendPeriod filteredPitchingData).

End TeamTrend.
End TeamTrend.

(* ================================================================== *)
(** * Game outcomes *)
(* ================================================================== *)

(** An entry of [gamesMap]; its date and score text are the cells of the
    row that made it, [None] when that row has none. *)
Record GameEntry : Type := {
  g_id : string;
  g_date : option string;
  g_opponent : string;
  g_scoreText : option string;
  g_runsScored : Z;
  g_runsAllowed : Z
}.

Inductive Outcome : Type := W | L | T.

Record GameResult : Type := {
  gr_game : GameEntry;
  gr_result : Outcome;
  gr_winningPercentage : num;
  gr_label : string
}.

Module Games.
Section Games.

Variable host : Host.

Definition newEntry (row : Row) : GameEntry :=
  {| g_id := r_gameId row;
     g_date := c_date row;
     g_opponent := JsString.or_else (opponentOf row) unknownOpponent;
     g_scoreText := c_score row;
     g_runsScored := 0;
     g_runsAllowed := 0 |}.

Definition addScored (game : GameEntry) (n : Z) : GameEntry :=
  {| g_id := g_id game; g_date := g_date game;
     g_opponent := g_opponent game; g_scoreText := g_scoreText game;
     g_runsScored := g_runsScored game + n;
     g_runsAllowed := g_runsAllowed game |}.

Definition addAllowed (game : GameEntry) (n : Z) : GameEntry :=
  {| g_id := g_id game; g_date := g_date game;
     g_opponent := g_opponent game; g_scoreText := g_scoreText game;
     g_runsScored := g_runsScored game;
     g_runsAllowed := g_runsAllowed game + n |}.

(** First pass: a batting row creates the entry of its game and adds
    its runs to it. *)
Definition battingPass (gamesMap : JsMap.t) (row : Row) : JsMap.t :=
  let gameId := r_gameId row in
  if negb (JsString.truthy gameId) then gamesMap
  else
    let game := match JsMap.get gamesMap gameId with
                | Some game => game
                | None => newEntry row
                end in
    JsMap.set gamesMap gameId (addScored game (cell (r_runs row))).

(** Second pass: a pitching row adds its runs allowed to the entry of
    its game, when there is one. *)
Definition pitchingPass (gamesMap : JsMap.t) (row : Row) : JsMap.t :=
  let gameId := r_gameId row in
  match JsMap.get gamesMap gameId with
  | Some game =>
      JsMap.set gamesMap gameId (addAllowed game (cell (r_r row)))
  | None => gamesMap
  end.

Definition gamesMap (filteredBattingData filteredPitchingData : list Row)
  : JsMap.t :=
  fold_left pitchingPass filteredPitchingData
    (fold_left battingPass filteredBattingData []).

(** [parseDate(a.date) - parseDate(b.date) > 0] *)
Definition laterThan (a b : GameEntry) : bool :=
  match parseDate host (text (g_date a)), parseDate host (text (g_date b)) with
  | Some x, Some y => 0 <? x - y
  | _, _ => false
  end.

Definition sortedGames (filteredBattingData filteredPitchingData : list Row)
  : list GameEntry :=
  JsArray.sort laterThan
    (JsMap.values (gamesMap filteredBattingData filteredPitchingData)).

Definition outcome (game : GameEntry) : Outcome :=
  if g_runsAllowed game <? g_runsScored game then W
  else if g_runsScored game <? g_runsAllowed game then L
  else T.

Definition isWin (o : Outcome) : bool :=
  match o with W => true | _ => false end.

(** [`${game.date.substring(5).replace('-', '/')} vs ${game.opponent}`];
    [None] is the TypeError that [game.date.substring] raises when the
    date is [undefined]. *)
Definition labelOf (game : GameEntry) : option string :=
  match g_date game with
  | None => None
  | Some date =>
      Some (String.append
              (JsString.replace_first "-"%char "/"%char
                 (JsString.substring_from 5 date))
              (String.append " vs " (g_opponent game)))
  end.

(** The [map] over the sorted games, threading the two counters; [None]
    when the label of a game raises the TypeError. *)
Fixpoint walk (wins gamesPlayed : Z) (games : list GameEntry)
  : option (list GameResult) :=
  match games with
  | [] => Some []
  | game :: rest =>
      let result := outcome game in
      let gamesPlayed' := gamesPlayed + 1 in
      let wins' := if isWin result then wins + 1 else wins in
      let winningPercentage := safeDiv (of_Z wins') (of_Z gamesPlayed') in
      match labelOf game with
      | None => None
      | Some label =>
          match walk wins' gamesPlayed' rest with
          | None => None
          | Some results =>
              Some ({| gr_game := game;
                       gr_result := result;
                       gr_winningPercentage := roundTo 3 winningPercentage;
                       gr_label := label |} :: results)
          end
      end
  end.

(** [gameByGameStats]; [None] when the computation ends in the TypeError. *)
Definition gameByGameStats
    (filteredBattingData filteredPitchingData : list Row)
  : option (list GameResult) :=
  match filteredBattingData with
  | [] => Some []
  | _ => walk 0 0 (sortedGames filteredBattingData filteredPitchingData)
  end.

End Games.
End Games.

(* ================================================================== *)
(** * Player trend (cumulative) *)
(* ================================================================== *)

Inductive TrendTarget : Type := Team | Player.
Inductive TrendType : Type := Batting | Pitching.

Definition isPlayer (t : TrendTarget) : bool :=
  match t with Player => true | Team => false end.

Definition isBatting (t : TrendType) : bool :=
  match t with Batting => true | Pitching => false end.

Module PlayerTrend.
Section PlayerTrend.

Variable host : Host.

Definition getKey (row : Row) (period : Period) : option string :=
  match parseDate host (r_date row) with
  | None => None
  | Some t =>
      let year := JsDate.getFullYear (tza host) t in
      let month := JsDate.getMonth (tza host) t in
      match period with
      | Game => c_date row
      | Quarterly => Some (quarterKey year month)
      | Monthly => Some (monthKey year month)
      end
  end.

(** [(r['選手ID'] || r['名前']) === selectedPlayerId] *)
Definition rowsOf (selectedPlayerId : string) (data : list Row) : list Row :=
  filter (fun r => is_string (playerId r) selectedPlayerId) data.

(** One step of the grouping [forEach].  Under an inherited name
    [grouped[key]] is the inherited property, which has no [push]: [None]
    is the TypeError of [grouped[key].push(row)]. *)
Definition groupStep (trendPeriod : Period) (grouped : JsObject.t)
    (row : Row) : option JsObject.t :=
  match usableKey (getKey row trendPeriod) with
  | None => Some grouped
  | Some key =>
      if JsObject.inherited key then None
      else
        let rows := match JsObject.get grouped key with
                    | Some rows => rows
                    | None => []
                    end in
        Some (JsObject.set grouped key (rows ++ [row]))
  end.

(** The [forEach] from [grouped] on. *)
Fixpoint groupFrom (trendPeriod : Period) (grouped : JsObject.t)
    (rows : list Row) : option JsObject.t :=
  match rows with
  | [] => Some grouped
  | row :: rest =>
      match groupStep trendPeriod grouped row with
      | Some grouped' => groupFrom trendPeriod grouped' rest
      | None => None
      end
  end.

Definition groupRows (trendPeriod : Period) (rows : list Row)
  : option JsObject.t :=
  groupFrom trendPeriod [] rows.

(** [Object.keys(grouped).sort()] *)
Definition sortedKeys (grouped : @JsObject.t (list Row)) : list string :=
  JsArray.sort (fun a b => JsString.ltb b a) (JsObject.keys grouped).

(** [grouped[key]] *)
Definition periodRowsOf (grouped : @JsObject.t (list Row)) (key : string)
  : list Row :=
  match JsObject.get grouped key with
  | Some rows => rows
  | None => []
  end.

(** The opponent shown on a game bucket. *)
Definition bucketOpponent (trendPeriod : Period) (periodRows : list Row)
  : string :=
  match trendPeriod, periodRows with
  | Game, row :: _ => opponentOf row
  | _, _ => EmptyString
  end.

End PlayerTrend.
End PlayerTrend.

(** [periodStats] of the batting trend. *)
Record BatCounts : Type := {
  bc_ab : Z; bc_h : Z; bc_bb : Z; bc_hbp : Z; bc_sf : Z; bc_doubles : Z;
  bc_triples : Z; bc_hr : Z; bc_rbi : Z; bc_so : Z
}.

(** [cumulative] of the batting trend. *)
Record BatCumulative : Type := {
  cu_ab : Z; cu_h : Z; cu_bb : Z; cu_hbp : Z; cu_sf : Z; cu_doubles : Z;
  cu_triples : Z; cu_hr : Z; cu_rbi : Z; cu_sb : Z; cu_so : Z
}.

(** [{periodKey, opponent, avg, ops, slg, obp, bbRate, soRate,
     ...periodStats}] *)
Record BatTrendBucket : Type := {
  bt_periodKey : string;
  bt_opponent : string;
  bt_avg : num; bt_ops : num; bt_slg : num; bt_obp : num;
  bt_bbRate : num; bt_soRate : num;
  bt_periodStats : BatCounts
}.

Module BattingTrend.
Section BattingTrend.

Variable host : Host.

Definition zeroCounts : BatCounts :=
  {| bc_ab := 0; bc_h := 0; bc_bb := 0; bc_hbp := 0; bc_sf := 0;
     bc_doubles := 0; bc_triples := 0; bc_hr := 0; bc_rbi := 0;
     bc_so := 0 |}.

Definition zeroCumulative : BatCumulative :=
  {| cu_ab := 0; cu_h := 0; cu_bb := 0; cu_hbp := 0; cu_sf := 0;
     cu_doubles := 0; cu_triples := 0; cu_hr := 0; cu_rbi := 0;
     cu_sb := 0; cu_so := 0 |}.

(** The reducer of [periodRows.reduce]. *)
Definition addRow (acc : BatCounts) (row : Row) : BatCounts :=
  {| bc_ab := bc_ab acc + cell (r_ab row);
     bc_h := bc_h acc + cell (r_h row);
     bc_bb := bc_bb acc + cell (r_bb row);
     bc_hbp := bc_hbp acc + cell (r_hbp row);
     bc_sf := bc_sf acc + cell (r_sf row);
     bc_doubles := bc_doubles acc + cell (r_doubles row);
     bc_triples := bc_triples acc + cell (r_triples row);
     bc_hr := bc_hr acc + cell (r_hr row);
     bc_rbi := bc_rbi acc + cell (r_rbi row);
     bc_so := bc_so acc + cell (r_so row) |}.

Definition periodStatsOf (periodRows : list Row) : BatCounts :=
  fold_left addRow periodRows zeroCounts.

(** [Object.keys(periodStats).forEach(k => cumulative[k] += periodStats[k])] *)
Definition accumulate (cumulative : BatCumulative) (periodStats : BatCounts)
  : BatCumulative :=
  {| cu_ab := cu_ab cumulative + bc_ab periodStats;
     cu_h := cu_h cumulative + bc_h periodStats;
     cu_bb := cu_bb cumulative + bc_bb periodStats;
     cu_hbp := cu_hbp cumulative + bc_hbp periodStats;
     cu_sf := cu_sf cumulative + bc_sf periodStats;
     cu_doubles := cu_doubles cumulative + bc_doubles periodStats;
     cu_triples := cu_triples cumulative + bc_triples periodStats;
     cu_hr := cu_hr cumulative + bc_hr periodStats;
     cu_rbi := cu_rbi cumulative + bc_rbi periodStats;
     cu_sb := cu_sb cumulative;
     cu_so := cu_so cumulative + bc_so periodStats |}.

(** The bucket of one key, from the running totals (already including
    this period) and the period's own counts. *)
Definition bucket (key opponent : string) (cumulative : BatCumulative)
    (periodStats : BatCounts) : BatTrendBucket :=
  let avg := safeDiv (of_Z (cu_h cumulative)) (of_Z (cu_ab cumulative)) in
  let obp :=
    safeDiv (of_Z (cu_h cumulative + cu_bb cumulative + cu_hbp cumulative))
            (of_Z (cu_ab cumulative + cu_bb cumulative + cu_hbp cumulative
                   + cu_sf cumulative)) in
  let singles := cu_h cumulative - cu_doubles cumulative
                 - cu_triples cumulative - cu_hr cumulative in
  let tb := singles + cu_doubles cumulative * 2 + cu_triples cumulative * 3
            + cu_hr cumulative * 4 in
  let pa := cu_ab cumulative + cu_bb cumulative + cu_hbp cumulative
            + cu_sf cumulative in
  let soRate := mul (safeDiv (of_Z (cu_so cumulative)) (of_Z pa))
                    (of_Z 100) in
  let bbRate :=
    mul (safeDiv (of_Z (cu_bb cumulative + cu_hbp cumulative)) (of_Z pa))
        (of_Z 100) in
  let slg := safeDiv (of_Z tb) (of_Z (cu_ab cumulative)) in
  {| bt_periodKey := key;
     bt_opponent := opponent;
     bt_avg := roundTo 3 avg;
     bt_ops := roundTo 3 (add obp slg);
     bt_slg := roundTo 3 slg;
     bt_obp := roundTo 3 obp;
     bt_bbRate := roundTo 1 bbRate;
     bt_soRate := roundTo 1 soRate;
     bt_periodStats := periodStats |}.

(** [sortedKeys.map(...)], threading the mutable [cumulative]. *)
Fixpoint trend (trendPeriod : Period) (grouped : JsObject.t)
    (cumulative : BatCumulative) (keys : list string)
  : list BatTrendBucket :=
  match keys with
  | [] => []
  | key :: rest =>
      let periodRows := PlayerTrend.periodRowsOf grouped key in
      let periodStats := periodStatsOf periodRows in
      let cumulative' := accumulate cumulative periodStats in
      bucket key (PlayerTrend.bucketOpponent trendPeriod periodRows)
             cumulative' periodStats
      :: trend trendPeriod grouped cumulative' rest
  end.

(** [playerBattingTrendData]; [None] when the grouping ends in the
    TypeError. *)
Definition playerBattingTrendData (filteredBattingData : list Row)
    (selectedPlayerId : string) (trendTarget : TrendTarget)
    (trendType : TrendType) (trendPeriod : Period)
  : option (list BatTrendBucket) :=
  if negb (JsString.truthy selectedPlayerId)
     || negb (isPlayer trendTarget) || negb (isBatting trendType)
  then Some []
  else
    let rows := PlayerTrend.rowsOf selectedPlayerId filteredBattingData in
    match PlayerTrend.groupRows host trendPeriod rows with
    | None => None
    | Some grouped =>
        Some (trend trendPeriod grouped zeroCumulative
                (PlayerTrend.sortedKeys grouped))
    end.

End BattingTrend.
End BattingTrend.

(** [periodStats] of the pitching trend. *)
Record PitCounts : Type := {
  pc_outs : Z; pc_er : Z; pc_bb : Z; pc_hbp : Z; pc_h : Z; pc_so : Z;
  pc_pitches : Z; pc_strikes : Z
}.

(** [cumulative] of the pitching trend. *)
Record PitCumulative : Type := {
  pu_outs : Z; pu_er : Z; pu_bb : Z; pu_hbp : Z; pu_h : Z; pu_so : Z
}.

Record PitTrendBucket : Type := {
  pt_periodKey : string;
  pt_opponent : string;
  pt_era : num; pt_whip : num; pt_kbb : num; pt_innings : num;
  pt_kPer7 : num; pt_bbPer7 : num; pt_strikeRate : num;
  pt_bb : Z; pt_hbp : Z; pt_pitches : Z
}.

Module PitchingTrend.
Section PitchingTrend.

Variable host : Host.

Definition zeroCounts : PitCounts :=
  {| pc_outs := 0; pc_er := 0; pc_bb := 0; pc_hbp := 0; pc_h := 0;
     pc_so := 0; pc_pitches := 0; pc_strikes := 0 |}.

Definition zeroCumulative : PitCumulative :=
  {| pu_outs := 0; pu_er := 0; pu_bb := 0; pu_hbp := 0; pu_h := 0;
     pu_so := 0 |}.

Definition addRow (acc : PitCounts) (row : Row) : PitCounts :=
  {| pc_outs := pc_outs acc + cell (r_outs row);
     pc_er := pc_er acc + cell (r_er row);
     pc_bb := pc_bb acc + cell (r_bb row);
     pc_hbp := pc_hbp acc + cell (r_hbp row);
     pc_h := pc_h acc + cell (r_h row);
     pc_so := pc_so acc + cell (r_so row);
     pc_pitches := pc_pitches acc + cell (r_pitches row);
     pc_strikes := pc_strikes acc + cell (r_strikes row) |}.

Definition periodStatsOf (periodRows : list Row) : PitCounts :=
  fold_left addRow periodRows zeroCounts.

(** [Object.keys(cumulative).forEach(k => cumulative[k] += periodStats[k])] *)
Definition accumulate (cumulative : PitCumulative) (periodStats : PitCounts)
  : PitCumulative :=
  {| pu_outs := pu_outs cumulative + pc_outs periodStats;
     pu_er := pu_er cumulative + pc_er periodStats;
     pu_bb := pu_bb cumulative + pc_bb periodStats;
     pu_hbp := pu_hbp cumulative + pc_hbp periodStats;
     pu_h := pu_h cumulative + pc_h periodStats;
     pu_so := pu_so cumulative + pc_so periodStats |}.

Definition bucket (key opponent : string) (cumulative : PitCumulative)
    (periodStats : PitCounts) : PitTrendBucket :=
  let cumInnings := inningsOf (pu_outs cumulative) in
  let era := safeDiv (of_Z (pu_er cumulative * 7)) cumInnings in
  let whip :=
    safeDiv (of_Z (pu_bb cumulative + pu_hbp cumulative + pu_h cumulative))
            cumInnings in
  let kbb := safeDiv (of_Z (pu_so cumulative)) (of_Z (pu_bb cumulative)) in
  let kPer7 := safeDiv (of_Z (pu_so cumulative * 7)) cumInnings in
  let bbPer7 :=
    safeDiv (of_Z ((pu_bb cumulative + pu_hbp cumulative) * 7))
            cumInnings in
  let innings := inningsOf (pc_outs periodStats) in
  let strikeRate :=
    mul (safeDiv (of_Z (pc_strikes periodStats))
                 (of_Z (pc_pitches periodStats)))
        (of_Z 100) in
  {| pt_periodKey := key;
     pt_opponent := opponent;
     pt_era := roundTo 2 era;
     pt_whip := roundTo 2 whip;
     pt_kbb := roundTo 2 kbb;
     pt_innings := roundTo 1 innings;
     pt_kPer7 := roundTo 2 kPer7;
     pt_bbPer7 := roundTo 2 bbPer7;
     pt_strikeRate := roundTo 1 strikeRate;
     pt_bb := pc_bb periodStats;
     pt_hbp := pc_hbp periodStats;
     pt_pitches := pc_pitches periodStats |}.

Fixpoint trend (trendPeriod : Period) (grouped : JsObject.t)
    (cumulative : PitCumulative) (keys : list string)
  : list PitTrendBucket :=
  match keys with
  | [] => []
  | key :: rest =>
      let periodRows := PlayerTrend.periodRowsOf grouped key in
      let periodStats := periodStatsOf periodRows in
      let cumulative' := accumulate cumulative periodStats in
      bucket key (PlayerTrend.bucketOpponent trendPeriod periodRows)
             cumulative' periodStats
      :: trend trendPeriod grouped cumulative' rest
  end.

(** [playerPitchingTrendData]; [None] when the grouping ends in the
    TypeError. *)
Definition playerPitchingTrendData (filteredPitchingData : list Row)
    (selectedPlayerId : string) (trendTarget : TrendTarget)
    (trendType : TrendType) (trendPeriod : Period)
  : option (list PitTrendBucket) :=
  if negb (JsString.truthy selectedPlayerId)
     || negb (isPlayer trendTarget) || isBatting trendType
  then Some []
  else
    let rows := PlayerTrend.rowsOf selectedPlayerId filteredPitchingData in
    match PlayerTrend.groupRows host trendPeriod rows with
    | None => None
    | Some grouped =>
        Some (trend trendPeriod grouped zeroCumulative
                (PlayerTrend.sortedKeys grouped))
    end.

End PitchingTrend.
End PitchingTrend.

(* ================================================================== *)
(** * Ranking *)
(* ================================================================== *)

(** The metrics offered for comparison ([battingMetricOptions] and
    [pitchingMetricOptions]). *)
Inductive Metric : Type :=
| Avg | Ops | Hr | Rbi | Sb | Obp | Slg | Bb | So
| Era | Whip | Kbb | Win | DisplayInnings.

Inductive DataType : Type := BattingData | PitchingData.

(** [['era', 'whip'].includes(comparisonMetric)] *)
Definition lowerIsBetter (m : Metric) : bool :=
  match m with Era | Whip => true | _ => false end.

(** [p[comparisonMetric]] on a batting summary; [None] is [undefined]. *)
Definition battingValue (p : BattingSummary) (m : Metric) : option num :=
  match m with
  | Avg => Some (b_avg p)
  | Ops => Some (b_ops p)
  | Hr => Some (of_Z (bs_hr (b_stats p)))
  | Rbi => Some (of_Z (bs_rbi (b_stats p)))
  | Sb => Some (of_Z (bs_sb (b_stats p)))
  | Obp => Some (b_obp p)
  | Slg => Some (b_slg p)
  | Bb => Some (of_Z (bs_bb (b_stats p)))
  | So => Some (of_Z (bs_so (b_stats p)))
  | Era | Whip | Kbb | Win | DisplayInnings => None
  end.

(** The [value] of a pitching entry: the innings number for
    ['displayInnings'], else [p[comparisonMetric]]. *)
Definition pitchingValue (p : PitchingSummary) (m : Metric) : option num :=
  match m with
  | DisplayInnings => Some (p_inningsVal p)
  | Era => Some (p_era p)
  | Whip => Some (p_whip p)
  | Kbb => Some (p_kbb p)
  | So => Some (of_Z (ps_so (p_stats p)))
  | Win => Some (of_Z (ps_win (p_stats p)))
  | Bb => Some (of_Z (ps_bb (p_stats p)))
  | Avg | Ops | Hr | Rbi | Sb | Obp | Slg => None
  end.

(** An entry of the ranking; its [displayValue], a formatted copy of
    [value] for the label, plays no part in the order and is left out. *)
Record RankEntry : Type := {
  re_name : option string;
  re_value : option num
}.

(** [v ?? d] *)
Definition orElse (v : option num) (d : num) : num :=
  match v with Some x => x | None => d end.

(** [(a.value ?? Infinity) - (b.value ?? Infinity)] is positive. *)
Definition ascGt (a b : option num) : bool :=
  lt pzero (sub (orElse a pinf) (orElse b pinf)).

(** [(b.value ?? -Infinity) - (a.value ?? -Infinity)] is positive. *)
Definition descGt (a b : option num) : bool :=
  lt pzero (sub (orElse b ninf) (orElse a ninf)).

(** [data] of [rankingData] before the sort: the summaries that reach the
    minimum of plate appearances or innings, each with its value. *)
Definition rankingEntries (aggregatedBatting : list BattingSummary)
    (aggregatedPitching : list PitchingSummary) (comparisonMetric : Metric)
    (comparisonMinPA : num) (comparisonDataType : DataType)
  : list RankEntry :=
  match comparisonDataType with
  | PitchingData =>
      map (fun p => {| re_name := ps_name (p_stats p);
                       re_value := pitchingValue p comparisonMetric |})
          (filter (fun p => le comparisonMinPA (p_inningsVal p))
                  aggregatedPitching)
  | BattingData =>
      map (fun p => {| re_name := bs_name (b_stats p);
                       re_value := battingValue p comparisonMetric |})
          (filter (fun p => le comparisonMinPA (of_Z (bs_pa (b_stats p))))
                  aggregatedBatting)
  end.

Definition rankingData (aggregatedBatting : list BattingSummary)
    (aggregatedPitching : list PitchingSummary) (comparisonMetric : Metric)
    (comparisonMinPA : num) (comparisonDataType : DataType)
  : list RankEntry :=
  let data :=
    rankingEntries aggregatedBatting aggregatedPitching comparisonMetric
                   comparisonMinPA comparisonDataType in
  if lowerIsBetter comparisonMetric
  then JsArray.sort (fun a b => ascGt (re_value a) (re_value b)) data
  else JsArray.sort (fun a b => descGt (re_value a) (re_value b)) data.

(** [sortedData] of the [RankingList] component, for items whose
    [dataKey] property is read by [value]. *)
Definition RankingList {A : Type} (value : A -> option num)
    (isAsc showAll : bool) (top : nat) (data : list A) : list A :=
  let sorted :=
    JsArray.sort
      (fun a b =>
         let valA := orElse (value a) (if isAsc then pinf else ninf) in
         let valB := orElse (value b) (if isAsc then pinf else ninf) in
         lt pzero (if isAsc then sub valA valB else sub valB valA))
      data in
  if showAll then sorted else firstn top sorted.

(* ================================================================== *)
(** * Sample data *)
(* ================================================================== *)

Module Sample.

Local Open Scope string_scope.

Definition signOf (c : comparison) : Z :=
  match c with Lt => -1 | Eq => 0 | Gt => 1 end.

(** A host on Japan Standard Time.  Its [Date.parse] recognises no
    string beyond the three-part dates that [parseDate] reads by itself;
    keywords are regular expressions without metacharacters. *)
Definition jst : Host :=
  {| tza := 32400000;
     Date_parse := fun _ => None;
     RegExp_i := fun kw => Some (fun s => JsString.includes s kw);
     toLowerCase := fun s => s;
     localeCompare := fun a b => signOf (String.compare a b) |}.

(** A batting line of player [pid] in game [gid]. *)
Definition bat (pid gid date : string) (ab h runs : Z) : Row :=
  {| c_playerId := Some pid; c_name := Some pid; c_number := Some "";
     c_gameId := Some gid; c_date := Some date; c_title := Some "League";
     c_away := Some "ありんこ"; c_home := Some "Tigers"; c_score := Some "";
     r_pa := Some ab; r_ab := Some ab; r_h := Some h; r_doubles := None;
     r_triples := None; r_hr := None; r_rbi := None; r_runs := Some runs;
     r_so := None; r_bb := None; r_hbp := None; r_sb := None;
     r_sf := None; r_sac := None; r_outs := None; r_r := None;
     r_er := None; r_win := None; r_loss := None; r_sv := None;
     r_strikes := None; r_pitches := None |}.

(** A pitching line of player [pid] in game [gid]. *)
Definition pit (pid gid date : string) (outs er r : Z) (pitches strikes : Z)
  : Row :=
  {| c_playerId := Some pid; c_name := Some pid; c_number := Some "";
     c_gameId := Some gid; c_date := Some date; c_title := Some "League";
     c_away := Some "ありんこ"; c_home := Some "Tigers"; c_score := Some "";
     r_pa := None; r_ab := None; r_h := None; r_doubles := None;
     r_triples := None; r_hr := None; r_rbi := None; r_runs := None;
     r_so := None; r_bb := None; r_hbp := None; r_sb := None;
     r_sf := None; r_sac := None; r_outs := Some outs; r_r := Some r;
     r_er := Some er; r_win := None; r_loss := None; r_sv := None;
     r_strikes := Some strikes; r_pitches := Some pitches |}.

(** The binary64 values of 1e308 and of 0.1. *)
Definition big : num := S754_finite false 5010420900022432 971.
Definition tenth : num := S754_finite false 7205759403792794 (-56).

(** One player, one game: 1 single in 3 at-bats. *)
Definition oneForThree : list Row := [bat "a" "g1" "2025-10-01" 3 1 0].

(** 7 earned runs in 3 innings. *)
Definition sevenInThree : list Row :=
  [pit "a" "g1" "2025-10-01" 9 7 7 40 25].


Definition scenarioPitching : list Row :=
  [pit "a" "game1" "2025-10-01" 21 1 2 90 60;
   pit "a" "game2" "2025-10-08" 12 2 3 50 30;
   pit "b" "game2" "2025-10-08" 9 1 1 40 22;
   pit "b" "game3" "2025-10-15" 9 1 4 30 20].

(** A row whose date no parser reads. *)
Definition undated : Row := bat "a" "g9" "abc" 4 1 0.

(** The row without its date cell, as a file without a date column gives
    it. *)
Definition noDateColumn (row : Row) : Row :=
  {| c_playerId := c_playerId row; c_name := c_name row;
     c_number := c_number row; c_gameId := c_gameId row; c_date := None;
     c_title := c_title row; c_away := c_away row; c_home := c_home row;
     c_score := c_score row;
     r_pa := r_pa row; r_ab := r_ab row; r_h := r_h row;
     r_doubles := r_doubles row; r_triples := r_triples row;
     r_hr := r_hr row; r_rbi := r_rbi row; r_runs := r_runs row;
     r_so := r_so row; r_bb := r_bb row; r_hbp := r_hbp row;
     r_sb := r_sb row; r_sf := r_sf row; r_sac := r_sac row;
     r_outs := r_outs row; r_r := r_r row; r_er := r_er row;
     r_win := r_win row; r_loss := r_loss row; r_sv := r_sv row;
     r_strikes := r_strikes row; r_pitches := r_pitches row |}.

(** The row with the number [n] on the shirt. *)
Definition numbered (n : string) (row : Row) : Row :=
  {| c_playerId := c_playerId row; c_name := c_name row;
     c_number := Some n; c_gameId := c_gameId row; c_date := c_date row;
     c_title := c_title row; c_away := c_away row; c_home := c_home row;
     c_score := c_score row;
     r_pa := r_pa row; r_ab := r_ab row; r_h := r_h row;
     r_doubles := r_doubles row; r_triples := r_triples row;
     r_hr := r_hr row; r_rbi := r_rbi row; r_runs := r_runs row;
     r_so := r_so row; r_bb := r_bb row; r_hbp := r_hbp row;
     r_sb := r_sb row; r_sf := r_sf row; r_sac := r_sac row;
     r_outs := r_outs row; r_r := r_r row; r_er := r_er row;
     r_win := r_win row; r_loss := r_loss row; r_sv := r_sv row;
     r_strikes := r_strikes row; r_pitches := r_pitches row |}.

(** The row under the title [t]. *)
Definition titled (t : string) (row : Row) : Row :=
  {| c_playerId := c_playerId row; c_name := c_name row;
     c_number := c_number row; c_gameId := c_gameId row;
     c_date := c_date row; c_title := Some t; c_away := c_away row;
     c_home := c_home row; c_score := c_score row;
     r_pa := r_pa row; r_ab := r_ab row; r_h := r_h row;
     r_doubles := r_doubles row; r_triples := r_triples row;
     r_hr := r_hr row; r_rbi := r_rbi row; r_runs := r_runs row;
     r_so := r_so row; r_bb := r_bb row; r_hbp := r_hbp row;
     r_sb := r_sb row; r_sf := r_sf row; r_sac := r_sac row;
     r_outs := r_outs row; r_r := r_r row; r_er := r_er row;
     r_win := r_win row; r_loss := r_loss row; r_sv := r_sv row;
     r_strikes := r_strikes row; r_pitches := r_pitches row |}.

(** The UTF-8 bytes of U+FF21, a full-width letter A (one code unit,
    FF21), and of U+1F600, a face beyond the 16-bit characters (two code
    units, D83D and DE00). *)
Definition fullwidthA : string :=
  String (Ascii.ascii_of_nat 239)
    (String (Ascii.ascii_of_nat 188)
       (String (Ascii.ascii_of_nat 161) EmptyString)).

Definition face : string :=
  String (Ascii.ascii_of_nat 240)
    (String (Ascii.ascii_of_nat 159)
       (String (Ascii.ascii_of_nat 152)
          (String (Ascii.ascii_of_nat 128) EmptyString))).

(** A squad: batters [a] (number 10), [b] (number 2) and [c] (no number),
    pitchers [d] (number 7) and [a]. *)
Definition squadBatting : list Row :=
  [numbered "10" (bat "a" "g1" "2025-10-01" 3 1 1);
   numbered "2" (bat "b" "g1" "2025-10-01" 4 2 0);
   bat "c" "g1" "2025-10-01" 2 0 0].

Definition squadPitching : list Row :=
  [numbered "7" (pit "d" "g1" "2025-10-01" 9 1 1 40 25);
   numbered "10" (pit "a" "g1" "2025-10-01" 12 2 2 50 30)].



(** A player called by the name of an inherited property, beside
    player [a]. *)
Definition oddlyNamed : list Row :=
  [bat "a" "g1" "2025-10-01" 3 1 1; bat "constructor" "g1" "2025-10-01" 4 2 2].


(** Two pitchers, eras 3.00 (3 earned runs in 7 innings) and 2.50 (5 in
    14), listed worse first. *)
Definition twoPitchers : list Row :=
  [pit "B" "g1" "2025-10-01" 21 3 3 80 50;
   pit "A" "g2" "2025-10-08" 42 5 5 150 100].

(** A batting line with home runs. *)
Definition slugger (pid : string) (hr : Z) : Row :=
  {| c_playerId := Some pid; c_name := Some pid; c_number := Some "";
     c_gameId := Some "g1"; c_date := Some "2025-10-01";
     c_title := Some "League"; c_away := Some "ありんこ";
     c_home := Some "Tigers"; c_score := Some "";
     r_pa := Some 40; r_ab := Some 40; r_h := Some 12; r_doubles := None;
     r_triples := None; r_hr := Some hr; r_rbi := None; r_runs := None;
     r_so := None; r_bb := None; r_hbp := None; r_sb := None;
     r_sf := None; r_sac := None; r_outs := None; r_r := None;
     r_er := None; r_win := None; r_loss := None; r_sv := None;
     r_strikes := None; r_pitches := None |}.

(** Two batters, 5 and 10 home runs, listed worse first. *)
Definition twoSluggers : list Row := [slugger "Y" 5; slugger "X" 10].

(** Three items to rank, the first without a value. *)
Definition threeItems : list (string * option num) :=
  [("x", None); ("y", Some (dec false 300 2)); ("z", Some (dec false 250 2))].

(** No filtering, and the month of October 2025. *)
Definition noFilter : Filters :=
  {| startDate := ""; endDate := ""; teamKeyword := ""; category := "all" |}.

Definition october : Filters :=
  {| startDate := "2025-10-01"; endDate := "2025-10-31"; teamKeyword := "";
     category := "all" |}.

(** The summary of a batter who walked in on no at-bat. *)
Definition hitlessLine : BattingSummary :=
  let row := bat "p9" "g1" "2024/10/01" 0 0 0 in
  batSummary (batAdd (batInit row) row).

End Sample.

(* ================================================================== *)
(** * Specification-level readings *)
(* ================================================================== *)

(** The time value of [parseDate], which is never an Invalid Date
    (lemma [parseDate_parsedTime]). *)
Definition parsedTime (host : Host) (dateStr : string) : Z :=
  match parseDate host dateStr with Some t => t | None => 0 end.

(** The keyword and category parts of the row predicate. *)
Definition teamInKeyword (host : Host) (f : Filters) (row : Row) : bool :=
  negb (JsString.truthy (teamKeyword f)) || teamMatches host (teamKeyword f) row.

Definition categoryMatches (f : Filters) (row : Row) : bool :=
  String.eqb (category f) "all" || is_string (c_title row) (category f).

(** The least exponent of a binary64 number. *)
Definition emin64 : Z := -1074.

(** The place of a number on the number line: its value in units of
    2^-1074, the infinities lying beyond every finite number. *)
Definition rank (x : num) : Z :=
  match x with
  | S754_zero _ => 0
  | S754_infinity s => cond_Zopp s (2 ^ 2098)
  | S754_nan => 0
  | S754_finite s m e => cond_Zopp s (Zpos m * 2 ^ (e - emin64))
  end.

(** The sort key of a ranking: a missing value counts as the worst one. *)
Definition ascKey (v : option num) : num := orElse v pinf.
Definition descKey (v : option num) : num := orElse v ninf.

(** Ascending, respectively descending, by value. *)
Definition ascending {A : Type} (value : A -> option num) (a b : A) : Prop :=
  le (ascKey (value a)) (ascKey (value b)) = true.

Definition descending {A : Type} (value : A -> option num) (a b : A) : Prop :=
  le (descKey (value b)) (descKey (value a)) = true.

(** Every value at hand is a number: not NaN, and canonical. *)
Definition valuesWellFormed {A : Type} (value : A -> option num)
    (l : list A) : Prop :=
  forall a v, In a l -> value a = Some v -> wellFormed v = true.

(** The rows of one game. *)
Definition rowsOfGame (id : string) (rows : list Row) : list Row :=
  filter (fun r => String.eqb (r_gameId r) id) rows.

(** The label of a game whose date is a string. *)
Definition labelText (game : GameEntry) : string :=
  String.append
    (JsString.replace_first "-"%char "/"%char
       (JsString.substring_from 5 (text (g_date game))))
    (String.append " vs " (g_opponent game)).

(** The results of some games that all have a date, [wins] and
    [gamesPlayed] being the counts before them. *)
Fixpoint seriesOf (wins gamesPlayed : Z) (games : list GameEntry)
  : list GameResult :=
  match games with
  | [] => []
  | game :: rest =>
      let result := Games.outcome game in
      let gamesPlayed' := gamesPlayed + 1 in
      let wins' := if Games.isWin result then wins + 1 else wins in
      {| gr_game := game;
         gr_result := result;
         gr_winningPercentage :=
           roundTo 3 (safeDiv (of_Z wins') (of_Z gamesPlayed'));
         gr_label := labelText game |}
      :: seriesOf wins' gamesPlayed' rest
  end.

(** A game with a date. *)
Definition dated (game : GameEntry) : bool :=
  match g_date game with Some _ => true | None => false end.

(** The first batting row of a game. *)
Definition firstRowOfGame (id : string) (rows : list Row) : option Row :=
  find (fun r => String.eqb (r_gameId r) id) rows.

(** The date of a game: the date cell of its first batting row. *)
Definition gameDate (rows : list Row) (id : string) : option string :=
  match firstRowOfGame id rows with
  | Some row => c_date row
  | None => None
  end.

(** Every game of the batting rows has a date. *)
Definition allDated (rows : list Row) : bool :=
  forallb (fun row =>
             negb (JsString.truthy (r_gameId row))
             || match gameDate rows (r_gameId row) with
                | Some _ => true
                | None => false
                end) rows.


(** The sum of one column over some rows. *)
Definition total (f : Row -> option Z) (rows : list Row) : Z :=
  fold_right (fun r acc => cell (f r) + acc) 0 rows.

(** The rows of the first [k + 1] of some lists of rows. *)
Definition rowsThrough (periods : list (list Row)) (k : nat) : list Row :=
  List.concat (firstn (S k) periods).

(** The grouping loop shared by the aggregations: a row with key [k] is
    added to the accumulator of [k], created from that row if there is
    none; a row without a key is skipped. *)
Section GroupBy.
Context {V : Type}.
Variable key : Row -> option string.
Variable init : string -> Row -> V.
Variable add : V -> Row -> V.

Definition groupStep (o : @JsObject.t V) (row : Row) : @JsObject.t V :=
  match key row with
  | None => o
  | Some k =>
      JsObject.set o k
        (add (match JsObject.get o k with Some v => v | None => init k row end)
             row)
  end.

(** The rows filed under [k]. *)
Definition rowsWithKey (k : string) (rows : list Row) : list Row :=
  filter (fun r => match key r with
                   | Some k' => String.eqb k' k
                   | None => false
                   end) rows.
End GroupBy.

(** The period key under which a player's trend files a row; [None] for a
    row it skips. *)
Definition trendKeyOf (host : Host) (trendPeriod : Period) (row : Row)
  : option string :=
  usableKey (PlayerTrend.getKey host row trendPeriod).

(** The rows filed under a key that is [key] or comes before it in the
    order of the code units: the rows through the period of [key]. *)
Definition rowsUpTo (keyOf : Row -> option string) (key : string)
    (rows : list Row) : list Row :=
  filter (fun r => match keyOf r with
                   | Some k => JsString.leb k key
                   | None => false
                   end) rows.

(** The shapes of the first character of UTF-8 text, with its code units
    and the text after it. *)
Inductive FirstChar : string -> list Z -> string -> Prop :=
| One c1 r :
    JsString.code c1 < 128 -> FirstChar (String c1 r) [JsString.code c1] r
| Two c1 c2 r :
    194 <= JsString.code c1 <= 223 -> 128 <= JsString.code c2 <= 191 ->
    FirstChar (String c1 (String c2 r))
      [(JsString.code c1 - 192) * 64 + (JsString.code c2 - 128)] r
| Three c1 c2 c3 r :
    224 <= JsString.code c1 <= 239 -> 128 <= JsString.code c2 <= 191 ->
    128 <= JsString.code c3 <= 191 ->
    2048 <= (JsString.code c1 - 224) * 4096 + (JsString.code c2 - 128) * 64 + (JsString.code c3 - 128) ->
    ((JsString.code c1 - 224) * 4096 + (JsString.code c2 - 128) * 64 + (JsString.code c3 - 128) < 55296
     \/ 57343
        < (JsString.code c1 - 224) * 4096 + (JsString.code c2 - 128) * 64 + (JsString.code c3 - 128)) ->
    FirstChar (String c1 (String c2 (String c3 r)))
      [(JsString.code c1 - 224) * 4096 + (JsString.code c2 - 128) * 64 + (JsString.code c3 - 128)] r
| Four c1 c2 c3 c4 r :
    240 <= JsString.code c1 <= 244 -> 128 <= JsString.code c2 <= 191 ->
    128 <= JsString.code c3 <= 191 -> 128 <= JsString.code c4 <= 191 ->
    65536 <= (JsString.code c1 - 240) * 262144 + (JsString.code c2 - 128) * 4096
             + (JsString.code c3 - 128) * 64 + (JsString.code c4 - 128) <= 1114111 ->
    FirstChar (String c1 (String c2 (String c3 (String c4 r))))
      [55296 + ((JsString.code c1 - 240) * 262144 + (JsString.code c2 - 128) * 4096
                + (JsString.code c3 - 128) * 64 + (JsString.code c4 - 128) - 65536) / 1024;
       56320 + ((JsString.code c1 - 240) * 262144 + (JsString.code c2 - 128) * 4096
                + (JsString.code c3 - 128) * 64 + (JsString.code c4 - 128) - 65536) mod 1024]
      r.

(** A string that begins with a decimal digit or a minus sign. *)
Definition numericHead (s : string) : bool :=
  match s with
  | String c _ =>
      match JsString.digit_val c with
      | Some _ => true
      | None => Ascii.eqb c "-"%char
      end
  | EmptyString => false
  end.

(** A string that holds a space. *)
Fixpoint hasSpace (s : string) : bool :=
  match s with
  | String c s' => Ascii.eqb c " "%char || hasSpace s'
  | EmptyString => false
  end.

(** The rows whose period key is an inherited name. *)
Definition raises (keyOf : Row -> option string) (row : Row) : bool :=
  match keyOf row with
  | Some k => JsObject.inherited k
  | None => false
  end.



(** Snapshot of a period: the pitching counts of its rows alone. *)
Definition snapshotPitching (rows : list Row) : PitCounts :=
  {| pc_outs := total r_outs rows; pc_er := total r_er rows;
     pc_bb := total r_bb rows; pc_hbp := total r_hbp rows;
     pc_h := total r_h rows; pc_so := total r_so rows;
     pc_pitches := total r_pitches rows; pc_strikes := total r_strikes rows |}.

(** Cumulative pitching counts: the totals of all the rows through a
    period. *)
Definition cumulativePitching (rows : list Row) : PitCumulative :=
  {| pu_outs := total r_outs rows; pu_er := total r_er rows;
     pu_bb := total r_bb rows; pu_hbp := total r_hbp rows;
     pu_h := total r_h rows; pu_so := total r_so rows |}.

(** a finite number below 2^K in magnitude whose exponent is at least E *)
Definition fitsE (K E : Z) (x : num) : Prop :=
  match x with
  | S754_zero _ => True
  | S754_finite _ m e => E <= e /\ Zpos m < 2 ^ (K - e)
  | _ => False
  end.

(** the image of an integer below 2^53: a 53-digit mantissa *)
Definition int53 (x : num) : Prop :=
  match x with
  | S754_zero _ => True
  | S754_finite _ m e => 2 ^ 52 <= Zpos m < 2 ^ 53 /\ -52 <= e <= 0
  | _ => False
  end.

(** every counter of a batting line is below [B] in absolute value *)
Definition batCountsBelow (B : Z) (s : BatStats) : Prop :=
  Z.abs (bs_ab s) < B /\ Z.abs (bs_h s) < B /\ Z.abs (bs_doubles s) < B /\
  Z.abs (bs_triples s) < B /\ Z.abs (bs_hr s) < B /\ Z.abs (bs_so s) < B /\
  Z.abs (bs_bb s) < B /\ Z.abs (bs_hbp s) < B /\ Z.abs (bs_sf s) < B.

(** every counter of a pitching line is below [B] in absolute value *)
Definition pitCountsBelow (B : Z) (s : PitStats) : Prop :=
  Z.abs (ps_outs s) < B /\ Z.abs (ps_h s) < B /\ Z.abs (ps_er s) < B /\
  Z.abs (ps_bb s) < B /\ Z.abs (ps_hbp s) < B /\ Z.abs (ps_so s) < B.

(** every number of a list is below [B] in absolute value *)
Fixpoint allBelow (B : Z) (l : list Z) : Prop :=
  match l with
  | [] => True
  | z :: l' => Z.abs z < B /\ allBelow B l'
  end.

(* ================================================================== *)
(** * Reading a CSV file *)
(* ================================================================== *)

(** [parseCSV] works on the text as JavaScript has it: a sequence of
    UTF-16 code units. *)
Module Csv.

Definition ustring : Type := list N.

Fixpoint ueqb (a b : ustring) : bool :=
  match a, b with
  | [], [] => true
  | x :: a', y :: b' => N.eqb x y && ueqb a' b'
  | _, _ => false
  end.

(** White space and line terminators, what [trim] removes. *)
Definition is_white (c : N) : bool :=
  (((9 <=? c) && (c <=? 13)) || (c =? 32) || (c =? 160) || (c =? 5760)
   || ((8192 <=? c) && (c <=? 8202)) || (c =? 8232) || (c =? 8233)
   || (c =? 8239) || (c =? 8287) || (c =? 12288) || (c =? 65279))%N.

Fixpoint trimStart (s : ustring) : ustring :=
  match s with
  | c :: s' => if is_white c then trimStart s' else s
  | [] => []
  end.

Definition trimEnd (s : ustring) : ustring := rev (trimStart (rev s)).

(** [s.trim()] *)
Definition trim (s : ustring) : ustring := trimStart (trimEnd s).

(** [s.split(sep)] for a separator of one code unit. *)
Fixpoint split (sep : N) (s : ustring) : list ustring :=
  match s with
  | [] => [[]]
  | c :: s' =>
      if N.eqb c sep then [] :: split sep s'
      else match split sep s' with
           | p :: ps => (c :: p) :: ps
           | [] => [[c]]
           end
  end.

Definition comma : N := 44.
Definition newline : N := 10.

(** The byte order mark, U+FEFF. *)
Definition bom : N := 65279.

(** The value of a cell: a string, or the number it reads as. *)
Inductive Value : Type :=
| Text (s : ustring)
| Number (x : num).

(** The columns kept as text: 選手ID, 名前, 日付, 試合ID, スコア, カテゴリ,
    球場, タイトル, 背番号, 先攻, 後攻. *)
Definition textColumns : list ustring :=
  [[36984; 25163; 73; 68]; [21517; 21069]; [26085; 20184];
   [35430; 21512; 73; 68]; [12473; 12467; 12450];
   [12459; 12486; 12468; 12522]; [29699; 22580];
   [12479; 12452; 12488; 12523]; [32972; 30058; 21495]; [20808; 25915];
   [24460; 25915]]%N.

(** The key [__proto__], the one key an assignment to which creates no
    property when the value is a string or a number. *)
Definition proto : ustring := [95; 95; 112; 114; 111; 116; 111; 95; 95]%N.

(** A record of the result: its own properties. *)
Definition Obj : Type := list (ustring * Value).

Fixpoint get (o : Obj) (k : ustring) : option Value :=
  match o with
  | [] => None
  | (k', v) :: o' => if ueqb k' k then Some v else get o' k
  end.

Fixpoint set (o : Obj) (k : ustring) (v : Value) : Obj :=
  match o with
  | [] => [(k, v)]
  | (k', v') :: o' =>
      if ueqb k' k then (k, v) :: o' else (k', v') :: set o' k v
  end.

(** [obj[key] = val] for a string or number [val]. *)
Definition assign (o : Obj) (k : ustring) (v : Value) : Obj :=
  if ueqb k proto then o else set o k v.

(** [if (headerLine.charCodeAt(0) === 0xFEFF) headerLine =
    headerLine.substring(1)] *)
Definition stripBom (headerLine : ustring) : ustring :=
  match headerLine with
  | c :: rest => if N.eqb c bom then rest else headerLine
  | [] => headerLine
  end.

Section Parse.

(** [Number(val)] on a string, taken from the host; [isNaN(val)] tests it
    for NaN. *)
Variable Number_of_string : ustring -> num.

(** [currentline[j] ? currentline[j].trim() : ''] *)
Definition cellText (cell : option ustring) : ustring :=
  match cell with
  | Some (c :: s) => trim (c :: s)
  | _ => []
  end.

(** Lines 32 to 36: the value stored for the text [val] of a cell under
    [header]. *)
Definition cellValue (header val : ustring) : Value :=
  if negb (existsb (ueqb header) textColumns)
  then if negb (isNaN (Number_of_string val)) && negb (ueqb val [])
       then Number (Number_of_string val)
       else Text val
  else Text val.

(** The loop over [j] from [j] on, [headers] being the headers left. *)
Fixpoint fill (obj : Obj) (headers : list ustring) (j : nat)
    (currentline : list ustring) : Obj :=
  match headers with
  | [] => obj
  | h :: rest =>
      fill (assign obj h (cellValue h (cellText (nth_error currentline j))))
           rest (S j) currentline
  end.

(** One turn of the loop over the lines; [None] when the line is skipped. *)
Definition parseLine (headers : list ustring) (line : ustring)
  : option Obj :=
  let currentline := split comma line in
  if (List.length currentline <=? 1)%nat then None
  else Some (fill [] headers 0 currentline).

Fixpoint rowsOf (headers : list ustring) (lines : list ustring) : list Obj :=
  match lines with
  | [] => []
  | line :: rest =>
      match parseLine headers line with
      | Some obj => obj :: rowsOf headers rest
      | None => rowsOf headers rest
      end
  end.

Definition headersOf (lines : list ustring) : list ustring :=
  map trim (split comma (stripBom (hd [] lines))).

(** The function after the split into lines. *)
Definition parseLines (lines : list ustring) : list Obj :=
  if (List.length lines <? 2)%nat then []
  else rowsOf (headersOf lines) (tl lines).

Definition parseCSV (text : ustring) : list Obj :=
  parseLines (split newline (trim text)).

End Parse.
End Csv.

(* ================================================================== *)
(** * Sets, fixed-point notation and the team totals *)
(* ================================================================== *)

(** A [Set]: its members in insertion order. *)
Module JsSet.
Section Members.
Context {A : Type}.

(** When two members are the same value. *)
Variable same : A -> A -> bool.

Definition t : Type := list A.

Definition has (s : t) (x : A) : bool :=
  existsb (same x) s.

(** [s.add(x)] *)
Definition add (s : t) (x : A) : t :=
  if has s x then s else s ++ [x].

(** [new Set(array)] *)
Definition of_list (l : list A) : t := fold_left add l [].

Definition size (s : t) : Z := Z.of_nat (List.length s).

End Members.
End JsSet.

(** [Number.prototype.toFixed] as a string. *)
Module JsFormat.

Fixpoint zeros (n : nat) : string :=
  match n with
  | O => EmptyString
  | S n' => String "0"%char (zeros n')
  end.

(** Steps 11.b to 11.d of [toFixed]: the decimal digits of [n], padded
    with zeros to more than [f] digits, with a point before the last [f]. *)
Definition fixedDigits (f : nat) (n : Z) : string :=
  let m := JsString.of_Z n in
  match f with
  | O => m
  | S _ =>
      let k := String.length m in
      let m' := if (k <=? f)%nat then String.append (zeros (f + 1 - k)) m
                else m in
      let k' := String.length m' in
      String.append (String.substring 0 (k' - f) m')
        (String "."%char (String.substring (k' - f) f m'))
  end.

Section ToFixed.

(** [Number::toString] of the host, used by [toFixed] from 10^21 on. *)
Variable Number_toString : num -> string.

Definition toFixed (f : nat) (x : num) : string :=
  match x with
  | S754_nan => "NaN"%string
  | S754_infinity false => "Infinity"%string
  | S754_infinity true => "-Infinity"%string
  | S754_zero _ => fixedDigits f 0
  | S754_finite s m e =>
      String.append (if s then "-"%string else EmptyString)
        (if ge_1e21 m e then Number_toString (S754_finite false m e)
         else fixedDigits f (toFixed_digits f m e))
  end.

End ToFixed.
End JsFormat.

Record TeamStats : Type := {
  ts_totalGames : Z;
  ts_teamAvg : string;
  ts_totalR : Z;
  ts_totalHR : Z;
  ts_teamERA : string
}.

Section TeamStats.

Variable Number_toString : num -> string.

(** [arr.reduce((acc, cur) => acc + cur.k, 0)] *)
Definition sumBy {A : Type} (f : A -> Z) (l : list A) : Z :=
  fold_left (fun acc cur => acc + f cur) l 0.

(** [teamStats]; [None] is [null]. *)
Definition teamStats (filteredBattingData : list Row)
    (aggregatedBatting : list BattingSummary)
    (aggregatedPitching : list PitchingSummary) : option TeamStats :=
  match filteredBattingData with
  | [] => None
  | _ :: _ =>
      let gameIds :=
        JsSet.of_list same_cell (map c_gameId filteredBattingData) in
      let totalAB := sumBy (fun cur => bs_ab (b_stats cur)) aggregatedBatting in
      let totalH := sumBy (fun cur => bs_h (b_stats cur)) aggregatedBatting in
      let totalR := sumBy (fun cur => bs_runs (b_stats cur)) aggregatedBatting in
      let totalHR := sumBy (fun cur => bs_hr (b_stats cur)) aggregatedBatting in
      let teamAvg :=
        JsFormat.toFixed Number_toString 3
          (safeDiv (of_Z totalH) (of_Z totalAB)) in
      let totalER := sumBy (fun cur => ps_er (p_stats cur)) aggregatedPitching in
      let totalOuts :=
        sumBy (fun cur => ps_outs (p_stats cur)) aggregatedPitching in
      let teamERA :=
        JsFormat.toFixed Number_toString 2
          (safeDiv (of_Z (totalER * 7)) (inningsOf totalOuts)) in
      Some {| ts_totalGames := JsSet.size gameIds; ts_teamAvg := teamAvg;
              ts_totalR := totalR; ts_totalHR := totalHR;
              ts_teamERA := teamERA |}
  end.

End TeamStats.

(* ================================================================== *)
(** * Monthly trends *)
(* ================================================================== *)

(** The month accumulators of the dashboard charts. *)
Record MonthBat : Type := {
  mb_month : string;
  mb_ab : Z; mb_h : Z; mb_runs : Z; mb_bb : Z; mb_hbp : Z; mb_sf : Z;
  mb_doubles : Z; mb_triples : Z; mb_hr : Z
}.

Record MonthBatBucket : Type := {
  mbb_period : MonthBat;
  mbb_avg : num; mbb_ops : num
}.

Record MonthPit : Type := {
  mp_month : string;
  mp_h : Z; mp_bb : Z; mp_hbp : Z; mp_so : Z; mp_s : Z; mp_pitches : Z
}.

Record MonthPitBucket : Type := {
  mpb_period : MonthPit;
  mpb_bbhbp : Z;
  mpb_strikeRate : num
}.

Module MonthlyTrend.
Section MonthlyTrend.

Variable host : Host.

(** The month key of a row; [None] when the row is skipped. *)
Definition monthOf (row : Row) : option string :=
  match parseDate host (r_date row) with
  | None => None
  | Some t =>
      Some (monthKey (JsDate.getFullYear (tza host) t)
                     (JsDate.getMonth (tza host) t))
  end.

Definition batInit (key : string) : MonthBat :=
  {| mb_month := key; mb_ab := 0; mb_h := 0; mb_runs := 0; mb_bb := 0;
     mb_hbp := 0; mb_sf := 0; mb_doubles := 0; mb_triples := 0;
     mb_hr := 0 |}.

Definition batAdd (p : MonthBat) (row : Row) : MonthBat :=
  {| mb_month := mb_month p;
     mb_ab := mb_ab p + cell (r_ab row);
     mb_h := mb_h p + cell (r_h row);
     mb_runs := mb_runs p + cell (r_runs row);
     mb_bb := mb_bb p + cell (r_bb row);
     mb_hbp := mb_hbp p + cell (r_hbp row);
     mb_sf := mb_sf p + cell (r_sf row);
     mb_doubles := mb_doubles p + cell (r_doubles row);
     mb_triples := mb_triples p + cell (r_triples row);
     mb_hr := mb_hr p + cell (r_hr row) |}.

(** One step of the [forEach]; a month key is no inherited name, and
    [periods[key]] is the object's own entry. *)
Definition batStep (periods : JsObject.t) (row : Row) : JsObject.t :=
  match monthOf row with
  | None => periods
  | Some key =>
      let p := match JsObject.get periods key with
               | Some p => p
               | None => batInit key
               end in
      JsObject.set periods key (batAdd p row)
  end.

Definition batBucket (m : MonthBat) : MonthBatBucket :=
  let avg := safeDiv (of_Z (mb_h m)) (of_Z (mb_ab m)) in
  let obp := safeDiv (of_Z (mb_h m + mb_bb m + mb_hbp m))
                     (of_Z (mb_ab m + mb_bb m + mb_hbp m + mb_sf m)) in
  let slg :=
    safeDiv (of_Z ((mb_h m - mb_doubles m - mb_triples m - mb_hr m)
                   + mb_doubles m * 2 + mb_triples m * 3 + mb_hr m * 4))
            (of_Z (mb_ab m)) in
  {| mbb_period := m;
     mbb_avg := roundTo 3 avg;
     mbb_ops := roundTo 3 (add obp slg) |}.

Definition monthlyBattingTrend (filteredBattingData : list Row)
  : list MonthBatBucket :=
  let periods := fold_left batStep filteredBattingData [] in
  map batBucket
    (JsArray.sort
       (fun a b => 0 <? localeCompare host (mb_month a) (mb_month b))
       (JsObject.values periods)).

Definition pitInit (key : string) : MonthPit :=
  {| mp_month := key; mp_h := 0; mp_bb := 0; mp_hbp := 0; mp_so := 0;
     mp_s := 0; mp_pitches := 0 |}.

Definition pitAdd (p : MonthPit) (row : Row) : MonthPit :=
  {| mp_month := mp_month p;
     mp_h := mp_h p + cell (r_h row);
     mp_bb := mp_bb p + cell (r_bb row);
     mp_hbp := mp_hbp p + cell (r_hbp row);
     mp_so := mp_so p + cell (r_so row);
     mp_s := mp_s p + cell (r_strikes row);
     mp_pitches := mp_pitches p + cell (r_pitches row) |}.

(** One step of the [forEach], as for the batting rows. *)
Definition pitStep (periods : JsObject.t) (row : Row) : JsObject.t :=
  match monthOf row with
  | None => periods
  | Some key =>
      let p := match JsObject.get periods key with
               | Some p => p
               | None => pitInit key
               end in
      JsObject.set periods key (pitAdd p row)
  end.

Definition pitBucket (m : MonthPit) : MonthPitBucket :=
  let strikeRate :=
    mul (safeDiv (of_Z (mp_s m)) (of_Z (mp_pitches m))) (of_Z 100) in
  {| mpb_period := m;
     mpb_bbhbp := mp_bb m + mp_hbp m;
     mpb_strikeRate := roundTo 1 strikeRate |}.

Definition monthlyPitchingTrend (filteredPitchingData : list Row)
  : list MonthPitBucket :=
  let periods := fold_left pitStep filteredPitchingData [] in
  map pitBucket
    (JsArray.sort
       (fun a b => 0 <? localeCompare host (mp_month a) (mp_month b))
       (JsObject.values periods)).

End MonthlyTrend.
End MonthlyTrend.

(* ================================================================== *)
(** * Categories and the player selector *)
(* ================================================================== *)

(** [parseInt] without a radix. *)
Module JsText.

(** The value of a hexadecimal digit. *)
Definition hex_val (c : ascii) : option Z :=
  let b := JsString.code c in
  if (48 <=? b) && (b <=? 57) then Some (b - 48)
  else if (65 <=? b) && (b <=? 70) then Some (b - 55)
  else if (97 <=? b) && (b <=? 102) then Some (b - 87)
  else None.

Fixpoint hex_prefix (acc : option Z) (s : string) : option Z :=
  match s with
  | String c s' =>
      match hex_val c with
      | Some d =>
          hex_prefix
            (Some (16 * match acc with Some a => a | None => 0 end + d)) s'
      | None => acc
      end
  | EmptyString => acc
  end.

(** The digits of [parseInt(s)]: hexadecimal after [0x] or [0X], else
    decimal. *)
Definition radix_prefix (s : string) : option Z :=
  match s with
  | String "0"%char (String "x"%char s') => hex_prefix None s'
  | String "0"%char (String "X"%char s') => hex_prefix None s'
  | _ => JsString.digits_prefix None s
  end.

(** [parseInt(s)], the radix left out; [None] is NaN.  The result is the
    integer read; the source has it as a number, to which [sortNumber]
    converts it. *)
Definition parseInt (s : string) : option Z :=
  match JsString.trimStart s with
  | String "-"%char s' => option_map Z.opp (radix_prefix s')
  | String "+"%char s' => radix_prefix s'
  | s' => radix_prefix s'
  end.

End JsText.

(** A [Map] whose keys are strings or [undefined], as [players] is:
    entries in insertion order. *)
Module JsCellMap.
Section Map.
Context {V : Type}.

Definition t : Type := list (option string * V).

Fixpoint get (m : t) (k : option string) : option V :=
  match m with
  | [] => None
  | (k', v) :: m' => if same_cell k' k then Some v else get m' k
  end.

Definition has (m : t) (k : option string) : bool :=
  match get m k with Some _ => true | None => false end.

(** [m.set(k, v)]: an existing key keeps its position. *)
Fixpoint set (m : t) (k : option string) (v : V) : t :=
  match m with
  | [] => [(k, v)]
  | (k', v') :: m' =>
      if same_cell k' k then (k, v) :: m' else (k', v') :: set m' k v
  end.

Definition values (m : t) : list V := map snd m.
End Map.
End JsCellMap.

(** An entry of the player selector. *)
Record PlayerItem : Type := {
  pl_id : option string;
  pl_name : option string;
  pl_number : option string
}.

(** One step of either [forEach] over the rows: the first row of a player
    registers the player. *)
Definition playerStep (players : JsCellMap.t) (row : Row) : JsCellMap.t :=
  let pid := playerId row in
  if JsCellMap.has players pid then players
  else JsCellMap.set players pid
         {| pl_id := pid; pl_name := c_name row; pl_number := c_number row |}.

(** [parseInt(a.number) || 999] *)
Definition sortNumber (p : PlayerItem) : num :=
  match JsText.parseInt (JsString.of_value (pl_number p)) with
  | Some n => if n =? 0 then of_Z 999 else of_Z n
  | None => of_Z 999
  end.

(** [cats.add(row['タイトル'])] for a title that is not empty. *)
Definition categoryStep (cats : JsSet.t) (row : Row) : JsSet.t :=
  if JsString.truthy (r_title row) then JsSet.add String.eqb cats (r_title row)
  else cats.

Definition categories (battingData : list Row) : list string :=
  JsArray.sort (fun a b => JsString.ltb b a)
    (fold_left categoryStep battingData []).

Definition playerList (battingData pitchingData : list Row)
  : list PlayerItem :=
  let players :=
    fold_left playerStep pitchingData
      (fold_left playerStep battingData []) in
  JsArray.sort (fun a b => lt pzero (sub (sortNumber a) (sortNumber b)))
    (JsCellMap.values players).

(* ================================================================== *)
(** * Sortable tables, chart cards and the scatter chart *)
(* ================================================================== *)

(** The values a table cell can hold. *)
Inductive JsValue : Type :=
| VUndefined
| VNumber (x : num)
| VString (s : string).

Inductive Direction : Type := Asc | Desc.

(** [sortConfig]; the key [None] is [null]. *)
Record SortConfig (K : Type) : Type := {
  sc_key : option K;
  sc_direction : Direction
}.
Arguments sc_key {K} _.
Arguments sc_direction {K} _.

(** The columns of the batting table, by the keys of its headers. *)
Inductive BatColumn : Type :=
| BcNumber | BcName | BcGames | BcPa | BcAb | BcH | BcHr | BcRbi | BcSb
| BcBb | BcSo | BcAvg | BcObp | BcOps | BcBbK.

(** The columns of the pitching table. *)
Inductive PitColumn : Type :=
| PcNumber | PcName | PcGames | PcDisplayInnings | PcWin | PcLoss | PcSv
| PcSo | PcBb | PcHbp | PcEra | PcWhip | PcKbb.

Definition BatColumn_eqb (a b : BatColumn) : bool :=
  match a, b with
  | BcNumber, BcNumber | BcName, BcName | BcGames, BcGames | BcPa, BcPa
  | BcAb, BcAb | BcH, BcH | BcHr, BcHr | BcRbi, BcRbi | BcSb, BcSb
  | BcBb, BcBb | BcSo, BcSo | BcAvg, BcAvg | BcObp, BcObp | BcOps, BcOps
  | BcBbK, BcBbK => true
  | _, _ => false
  end.

Definition PitColumn_eqb (a b : PitColumn) : bool :=
  match a, b with
  | PcNumber, PcNumber | PcName, PcName | PcGames, PcGames
  | PcDisplayInnings, PcDisplayInnings | PcWin, PcWin | PcLoss, PcLoss
  | PcSv, PcSv | PcSo, PcSo | PcBb, PcBb | PcHbp, PcHbp | PcEra, PcEra
  | PcWhip, PcWhip | PcKbb, PcKbb => true
  | _, _ => false
  end.

(** A cell that is a string or [undefined], as a value. *)
Definition value_of_cell (c : option string) : JsValue :=
  match c with Some s => VString s | None => VUndefined end.

(** [a[key]] on a batting line. *)
Definition batCell (p : BattingSummary) (k : BatColumn) : JsValue :=
  let s := b_stats p in
  match k with
  | BcNumber => value_of_cell (bs_number s)
  | BcName => value_of_cell (bs_name s)
  | BcGames => VNumber (of_Z (bs_games s))
  | BcPa => VNumber (of_Z (bs_pa s))
  | BcAb => VNumber (of_Z (bs_ab s))
  | BcH => VNumber (of_Z (bs_h s))
  | BcHr => VNumber (of_Z (bs_hr s))
  | BcRbi => VNumber (of_Z (bs_rbi s))
  | BcSb => VNumber (of_Z (bs_sb s))
  | BcBb => VNumber (of_Z (bs_bb s))
  | BcSo => VNumber (of_Z (bs_so s))
  | BcAvg => VNumber (b_avg p)
  | BcObp => VNumber (b_obp p)
  | BcOps => VNumber (b_ops p)
  | BcBbK => VNumber (b_bbK p)
  end.

(** [a[key]] on a pitching line. *)
Definition pitCell (p : PitchingSummary) (k : PitColumn) : JsValue :=
  let s := p_stats p in
  match k with
  | PcNumber => value_of_cell (ps_number s)
  | PcName => value_of_cell (ps_name s)
  | PcGames => VNumber (of_Z (ps_games s))
  | PcDisplayInnings => VString (p_displayInnings p)
  | PcWin => VNumber (of_Z (ps_win s))
  | PcLoss => VNumber (of_Z (ps_loss s))
  | PcSv => VNumber (of_Z (ps_sv s))
  | PcSo => VNumber (of_Z (ps_so s))
  | PcBb => VNumber (of_Z (ps_bb s))
  | PcHbp => VNumber (of_Z (ps_hbp s))
  | PcEra => VNumber (p_era p)
  | PcWhip => VNumber (p_whip p)
  | PcKbb => VNumber (p_kbb p)
  end.

Module TableSort.
Section TableSort.

(** [Number(s)] on a string, taken from the host. *)
Variable Number_of_string : string -> num.

(** [Number(v)] *)
Definition toNumber (v : JsValue) : num :=
  match v with
  | VUndefined => S754_nan
  | VNumber x => x
  | VString s => Number_of_string s
  end.

(** [if (!isNaN(Number(val))) val = Number(val)] *)
Definition coerce (v : JsValue) : JsValue :=
  if isNaN (toNumber v) then v else VNumber (toNumber v).

(** [a < b]: two strings by their code units, else as numbers. *)
Definition less (a b : JsValue) : bool :=
  match a, b with
  | VString s, VString t => JsString.ltb s t
  | _, _ => lt (toNumber a) (toNumber b)
  end.

Context {A K : Type}.
Variable cellOf : A -> K -> JsValue.
Variable K_eqb : K -> K -> bool.

(** The comparator of the table, as the sign test of the sort: the
    result is positive. *)
Definition after (key : K) (direction : Direction) (a b : A) : bool :=
  let valA := coerce (cellOf a key) in
  let valB := coerce (cellOf b key) in
  if less valA valB
  then match direction with Asc => false | Desc => true end
  else if less valB valA
       then match direction with Asc => true | Desc => false end
       else false.

Definition sortedData (items : list A) (sortConfig : SortConfig K) : list A :=
  match sc_key sortConfig with
  | Some key => JsArray.sort (after key (sc_direction sortConfig)) items
  | None => items
  end.

(** [requestSort(key)]: the new [sortConfig]. *)
Definition requestSort (sortConfig : SortConfig K) (key : K) : SortConfig K :=
  let direction :=
    match sc_key sortConfig, sc_direction sortConfig with
    | Some k, Desc => if K_eqb k key then Asc else Desc
    | _, _ => Desc
    end in
  {| sc_key := Some key; sc_direction := direction |}.

End TableSort.
End TableSort.

(** The initial [sortConfig] of both tables. *)
Definition initialSort {K : Type} : SortConfig K :=
  {| sc_key := None; sc_direction := Desc |}.

(** [sortedData] of a chart card: the lines ordered by the metric of the
    card, ascending for era and whip. *)
Definition chartSortedData {A : Type} (value : A -> option num)
    (sortAsc : bool) (data : list A) : list A :=
  JsArray.sort
    (fun a b =>
       let valA := orElse (value a) (if sortAsc then pinf else ninf) in
       let valB := orElse (value b) (if sortAsc then pinf else ninf) in
       lt pzero (if sortAsc then sub valA valB else sub valB valA))
    data.





(* ================================================================== *)
(** * Rates on display *)
(* ================================================================== *)

(** [s.replace(/^0/, '')] *)
Definition dropLeadingZero (s : string) : string :=
  match s with
  | String "0"%char rest => rest
  | _ => s
  end.

Section FormatRate.

Variable Number_toString : num -> string.

(** [formatRate(rate, leadingZero)]: what is not a number, and NaN, is
    returned as it is. *)
Definition formatRate (rate : JsValue) (leadingZero : bool) : JsValue :=
  match rate with
  | VNumber x =>
      if isNaN x then rate
      else
        let formatted := JsFormat.toFixed Number_toString 3 x in
        VString (if leadingZero then formatted else dropLeadingZero formatted)
  | _ => rate
  end.

End FormatRate.

(* ================================================================== *)
(** * Resetting the filters *)
(* ================================================================== *)

(** The filters [resetFilters] sets. *)
Definition resetFilters : Filters :=
  {| startDate := ""; endDate := ""; teamKeyword := ""; category := "all" |}.

(* ================================================================== *)
(** * Specification-level readings of the further parts *)
(* ================================================================== *)

(** The key under which a batting or pitching summary was accumulated:
    [id || name] of the line, as a property key. *)
Definition batKey (p : BattingSummary) : string :=
  JsString.of_value
    (if JsString.truthy (text (bs_id (b_stats p))) then bs_id (b_stats p)
     else bs_name (b_stats p)).

Definition pitKey (p : PitchingSummary) : string :=
  JsString.of_value
    (if JsString.truthy (text (ps_id (p_stats p))) then ps_id (p_stats p)
     else ps_name (p_stats p)).

(** The key of a row in [stats], for a row that makes or joins a line:
    [None] for a row whose key is an inherited name. *)
Definition ownKey (row : Row) : option string :=
  if JsObject.inherited (playerKey row) then None else Some (playerKey row).

(** The rows that count in the lines of the players: those whose key is
    no inherited name. *)
Definition countedRows (rows : list Row) : list Row :=
  filter (fun r => negb (JsObject.inherited (playerKey r))) rows.

(** The rows whose game identifier is the value [id]. *)
Definition hasGameId (id : option string) (rows : list Row) : bool :=
  existsb (fun r => same_cell (c_gameId r) id) rows.

(** The batting counts of some rows of one player, the first of which
    names the player. *)
Definition batLine (first : Row) (rows : list Row) : BatStats :=
  {| bs_id := c_playerId first; bs_name := c_name first;
     bs_number := c_number first;
     bs_games := Z.of_nat (List.length rows);
     bs_pa := total r_pa rows; bs_ab := total r_ab rows;
     bs_h := total r_h rows; bs_doubles := total r_doubles rows;
     bs_triples := total r_triples rows; bs_hr := total r_hr rows;
     bs_rbi := total r_rbi rows; bs_runs := total r_runs rows;
     bs_so := total r_so rows; bs_bb := total r_bb rows;
     bs_hbp := total r_hbp rows; bs_sb := total r_sb rows;
     bs_sf := total r_sf rows; bs_sac := total r_sac rows |}.

Definition pitLine (first : Row) (rows : list Row) : PitStats :=
  {| ps_id := c_playerId first; ps_name := c_name first;
     ps_number := c_number first;
     ps_games := Z.of_nat (List.length rows);
     ps_outs := total r_outs rows; ps_h := total r_h rows;
     ps_r := total r_r rows; ps_er := total r_er rows;
     ps_bb := total r_bb rows; ps_hbp := total r_hbp rows;
     ps_so := total r_so rows; ps_win := total r_win rows;
     ps_loss := total r_loss rows; ps_sv := total r_sv rows |}.

(** A sum over the accumulators of a grouping. *)
Definition sumOf {V : Type} (measure : V -> Z) (o : list (string * V)) : Z :=
  fold_right (fun kv acc => measure (snd kv) + acc) 0 o.

(** The counts of the rows of one period. *)
Definition teamBatLine (key : string) (rows : list Row) : TeamBatPeriod :=
  {| tb_periodKey := key;
     tb_ab := total r_ab rows; tb_h := total r_h rows;
     tb_bb := total r_bb rows; tb_hbp := total r_hbp rows;
     tb_sf := total r_sf rows; tb_runs := total r_runs rows;
     tb_doubles := total r_doubles rows; tb_triples := total r_triples rows;
     tb_hr := total r_hr rows; tb_so := total r_so rows;
     tb_sb := total r_sb rows |}.

Definition teamPitLine (key : string) (rows : list Row) : TeamPitPeriod :=
  {| tp_periodKey := key;
     tp_outs := total r_outs rows; tp_er := total r_er rows;
     tp_h := total r_h rows; tp_bb := total r_bb rows;
     tp_hbp := total r_hbp rows; tp_so := total r_so rows;
     tp_s := total r_strikes rows; tp_pitches := total r_pitches rows |}.

(** The period key under which the team trend files a row. *)
Definition teamKeyOf (host : Host) (period : Period) (row : Row)
  : option string :=
  usableKey (TeamTrend.getKey host row period).

(** What a month bucket of the dashboard keeps of a team-trend bucket. *)
Definition monthOfTeamBat (b : TeamBatBucket) : MonthBatBucket :=
  let p := tbb_period b in
  {| mbb_period :=
       {| mb_month := tb_periodKey p; mb_ab := tb_ab p; mb_h := tb_h p;
          mb_runs := tb_runs p; mb_bb := tb_bb p; mb_hbp := tb_hbp p;
          mb_sf := tb_sf p; mb_doubles := tb_doubles p;
          mb_triples := tb_triples p; mb_hr := tb_hr p |};
     mbb_avg := tbb_avg b; mbb_ops := tbb_ops b |}.

Definition monthOfTeamPit (b : TeamPitBucket) : MonthPitBucket :=
  let p := tpb_period b in
  {| mpb_period :=
       {| mp_month := tp_periodKey p; mp_h := tp_h p; mp_bb := tp_bb p;
          mp_hbp := tp_hbp p; mp_so := tp_so p; mp_s := tp_s p;
          mp_pitches := tp_pitches p |};
     mpb_bbhbp := tpb_bbhbp b;
     mpb_strikeRate := tpb_strikeRate b |}.

(** The same object with its values mapped. *)
Definition mapValues {V W : Type} (f : V -> W) (o : list (string * V))
  : list (string * W) :=
  map (fun kv => (fst kv, f (snd kv))) o.

(** The monthly accumulator inside a team-trend accumulator. *)
Definition forgetBat (p : TeamBatPeriod) : MonthBat :=
  mbb_period (monthOfTeamBat (TeamTrend.batBucket p)).

Definition forgetPit (p : TeamPitPeriod) : MonthPit :=
  mpb_period (monthOfTeamPit (TeamTrend.pitBucket p)).

(** The Gregorian calendar: leap years, and the days of month [m] (1 to
    12) of year [y]. *)
Definition isLeapYear (y : Z) : bool :=
  (y mod 4 =? 0) && (negb (y mod 100 =? 0) || (y mod 400 =? 0)).

Definition daysInMonth (y m : Z) : Z :=
  if m =? 2 then (if isLeapYear y then 29 else 28)
  else if (m =? 4) || (m =? 6) || (m =? 9) || (m =? 11) then 30
  else 31.

(** A date as the score sheets write it: year, month and day in decimal,
    month and day with or without a leading zero. *)
Definition numeral (padded : bool) (n : Z) : string :=
  if padded then JsString.padStart2 (JsString.of_Z n) else JsString.of_Z n.

Definition dateString (y : Z) (sep1 : ascii) (m : Z) (sep2 : ascii) (d : Z)
    (padded : bool) : string :=
  String.append (JsString.of_Z y)
    (String sep1 (String.append (numeral padded m)
                    (String sep2 (numeral padded d)))).

(** The value read so far by [parseInt]. *)
Definition accValue (a : option Z) : Z :=
  match a with Some v => v | None => 0 end.

(** The number a player is sorted by, as an integer. *)
Definition sortKey (p : PlayerItem) : Z :=
  match JsText.parseInt (JsString.of_value (pl_number p)) with
  | Some n => if n =? 0 then 999 else n
  | None => 999
  end.

(** The selector entry made from a row. *)
Definition playerOf (row : Row) : PlayerItem :=
  {| pl_id := playerId row; pl_name := c_name row;
     pl_number := c_number row |}.

(** The first row of a player among some rows. *)
Definition firstRowOf (pid : option string) (rows : list Row) : option Row :=
  find (fun r => same_cell (playerId r) pid) rows.

(** The number in a cell; NaN when the cell holds no number. *)
Definition numberIn (v : JsValue) : num :=
  match v with VNumber x => x | _ => S754_nan end.

(** A column of numbers: every cell holds a number that is not NaN. *)
Definition numericColumn {A K : Type} (cellOf : A -> K -> JsValue) (key : K)
    (items : list A) : Prop :=
  forall a, In a items ->
    exists x, cellOf a key = VNumber x /\ wellFormed x = true.

(** The three decimals of a number of thousandths below 1000. *)
Definition threeDigits (n : Z) : string :=
  String (JsString.digit_char (n / 100))
    (String (JsString.digit_char (n / 10 mod 10))
       (String (JsString.digit_char (n mod 10)) EmptyString)).

(** The place of the last header equal to [h]. *)
Fixpoint lastIndex (h : Csv.ustring) (headers : list Csv.ustring)
  : option nat :=
  match headers with
  | [] => None
  | x :: rest =>
      match lastIndex h rest with
      | Some i => Some (S i)
      | None => if Csv.ueqb x h then Some O else None
      end
  end.

(** The lines of a text, and the lines after the first that hold a
    comma. *)
Definition linesOf (text : Csv.ustring) : list Csv.ustring :=
  Csv.split Csv.newline (Csv.trim text).

Definition hasComma (line : Csv.ustring) : bool :=
  existsb (N.eqb Csv.comma) line.

(** A text with a carriage return put before each line feed. *)
Fixpoint withCR (s : Csv.ustring) : Csv.ustring :=
  match s with
  | [] => []
  | c :: s' => if N.eqb c Csv.newline then 13%N :: c :: withCR s'
               else c :: withCR s'
  end.

(** The same for a text read backwards: the carriage return after each
    line feed. *)
Fixpoint withRC (s : Csv.ustring) : Csv.ustring :=
  match s with
  | [] => []
  | c :: s' => if N.eqb c Csv.newline then c :: 13%N :: withRC s'
               else c :: withRC s'
  end.

(** Every line but the last gets a carriage return. *)
Fixpoint addCR (l : list Csv.ustring) : list Csv.ustring :=
  match l with
  | [] => []
  | [y] => [y]
  | y :: l' => (y ++ [13%N]) :: addCR l'
  end.

(** A string without white space at its start. *)
Definition noLead (s : Csv.ustring) : Prop :=
  match s with
  | c :: _ => Csv.is_white c = false
  | [] => True
  end.

(** The last element of a non-empty list of strings gets [c] appended. *)
Fixpoint snocLast (c : N) (l : list Csv.ustring) : list Csv.ustring :=
  match l with
  | [] => []
  | [y] => [y ++ [c]]
  | y :: l' => y :: snocLast c l'
  end.

(** Lines that differ by a carriage return at their end. *)
Definition sameButCR (l l' : Csv.ustring) : Prop :=
  l' = l \/ l' = l ++ [13%N].

(** The thirds of an inning as the display writes them. *)
Definition thirds (r : Z) : string :=
  if r =? 1 then ".1"%string else if r =? 2 then ".2"%string else EmptyString.

(* ================================================================== *)
(** * Sample data of the further parts *)
(* ================================================================== *)

Module SampleText.

(** The code units of a string of ASCII characters. *)
Definition units (s : string) : Csv.ustring :=
  map (fun c => N.of_nat (nat_of_ascii c)) (list_ascii_of_string s).

(** [Number(s)] on the strings of the samples: a non-empty string of
    decimal digits reads as its value, a name as NaN. *)
Definition number (s : Csv.ustring) : num :=
  match s with
  | [] => S754_nan
  | _ =>
      if forallb (fun c => N.leb 48 c && N.leb c 57)%bool s
      then of_Z (fold_left (fun acc c => 10 * acc + (Z.of_N c - 48)) s 0)
      else S754_nan
  end.

(** The same on a string of characters. *)
Definition numberOfString (s : string) : num := number (units s).

(** The headers 名前 and 打数. *)
Definition name : Csv.ustring := [21517; 21069]%N.
Definition atBats : Csv.ustring := [25171; 25968]%N.

(** A file of one player: the header line and one data line. *)
Definition text : Csv.ustring :=
  name ++ [Csv.comma] ++ atBats ++ [Csv.newline] ++ units "Taro,3".

Definition record : Csv.Obj :=
  [(name, Csv.Text (units "Taro")); (atBats, Csv.Number (of_Z 3))].

End SampleText.

(* ================================================================== *)
(** * Properties of the run-time model *)
(* ================================================================== *)

Section RoundingNeverNaN.

Lemma shr_1_nonneg mrs : 0 <= shr_m mrs -> 0 <= shr_m (shr_1 mrs).
Proof.
  destruct mrs as [m r s]; simpl.
  destruct m as [|p|p]; simpl; try lia; destruct p; simpl; lia.
Qed.

Lemma iter_shr_1_nonneg p :
  forall mrs, 0 <= shr_m mrs -> 0 <= shr_m (iter_pos shr_1 p mrs).
Proof.
  induction p as [p IH|p IH|]; intros mrs H; simpl.
  - apply IH, IH, shr_1_nonneg, H.
  - apply IH, IH, H.
  - apply shr_1_nonneg, H.
Qed.

Lemma shr_nonneg mrs e n : 0 <= shr_m mrs -> 0 <= shr_m (fst (shr mrs e n)).
Proof.
  intros H; destruct n; simpl; auto using iter_shr_1_nonneg.
Qed.

Lemma shr_record_of_loc_m m l : shr_m (shr_record_of_loc m l) = m.
Proof. destruct l as [|[]]; reflexivity. Qed.

Lemma shr_fexp_nonneg p e m ex l :
  0 <= m -> 0 <= shr_m (fst (shr_fexp p e m ex l)).
Proof.
  intros H; unfold shr_fexp; apply shr_nonneg.
  rewrite shr_record_of_loc_m; exact H.
Qed.

Lemma round_nearest_even_nonneg m l : 0 <= m -> 0 <= round_nearest_even m l.
Proof.
  intros H; destruct l as [|[]]; simpl; try lia.
  destruct (Z.even m); lia.
Qed.

(** Rounding a non-negative mantissa yields a zero, a finite number or
    an infinity. *)
Lemma binary_round_aux_not_nan p e s m ex l :
  0 <= m -> binary_round_aux p e s m ex l <> S754_nan.
Proof.
  intros H; unfold binary_round_aux.
  pose proof (shr_fexp_nonneg p e m ex l H) as H1.
  destruct (shr_fexp p e m ex l) as [mrs' e']; simpl in H1.
  pose proof (shr_fexp_nonneg p e _ e' loc_Exact
                (round_nearest_even_nonneg _ (loc_of_shr_record mrs') H1)) as H2.
  destruct (shr_fexp p e (round_nearest_even (shr_m mrs') (loc_of_shr_record mrs'))
              e' loc_Exact) as [mrs'' e'']; simpl in H2.
  destruct (shr_m mrs'') as [|q|q]; try discriminate; try lia.
  destruct (e'' <=? e - p); discriminate.
Qed.

Lemma binary_round_not_nan p e s m ex : binary_round p e s m ex <> S754_nan.
Proof.
  unfold binary_round.
  destruct (shl_align m ex _) as [mz ez].
  apply binary_round_aux_not_nan; lia.
Qed.

Lemma of_Z_not_nan z : of_Z z <> S754_nan.
Proof.
  unfold of_Z, binary_normalize; destruct z; try discriminate;
    apply binary_round_not_nan.
Qed.

Lemma div_core_nonneg p e m1 e1 m2 e2 :
  0 <= fst (fst (SFdiv_core_binary p e (Zpos m1) e1 (Zpos m2) e2)).
Proof.
  unfold SFdiv_core_binary.
  set (s := _ - _ - _).
  set (m' := match s with Z0 => _ | Zpos _ => _ | Zneg _ => _ end).
  assert (Hm : 0 <= m').
  { subst m'; destruct s; try lia. apply Z.shiftl_nonneg; lia. }
  pose proof (Z.div_pos m' (Zpos m2) Hm ltac:(lia)) as Hq.
  unfold Z.div in Hq.
  destruct (Z.div_eucl m' (Zpos m2)) as [q r]; simpl in *; exact Hq.
Qed.

(** A quotient is NaN only for 0/0, inf/inf or a NaN operand. *)
Lemma div_finite_not_nan sx mx ex sy my ey :
  div (S754_finite sx mx ex) (S754_finite sy my ey) <> S754_nan.
Proof.
  unfold div, SFdiv.
  pose proof (div_core_nonneg prec emax mx ex my ey) as H.
  destruct (SFdiv_core_binary prec emax (Zpos mx) ex (Zpos my) ey)
    as [[mz ez] lz]; simpl in H.
  apply binary_round_aux_not_nan; exact H.
Qed.

End RoundingNeverNaN.

(* ================================================================== *)
(** * The order of binary64 numbers *)
(* ================================================================== *)

Lemma digits2_lower m : 2 ^ (Zpos (digits2_pos m) - 1) <= Zpos m.
Proof.
  induction m as [m IH|m IH|]; simpl digits2_pos.
  - rewrite Pos2Z.inj_succ.
    replace (Z.succ (Zpos (digits2_pos m)) - 1) with (Z.succ (Zpos (digits2_pos m) - 1)) by lia.
    rewrite Z.pow_succ_r by lia. lia.
  - rewrite Pos2Z.inj_succ.
    replace (Z.succ (Zpos (digits2_pos m)) - 1) with (Z.succ (Zpos (digits2_pos m) - 1)) by lia.
    rewrite Z.pow_succ_r by lia. lia.
  - simpl; lia.
Qed.

Lemma digits2_upper m : Zpos m < 2 ^ Zpos (digits2_pos m).
Proof.
  induction m as [m IH|m IH|]; simpl digits2_pos.
  - rewrite Pos2Z.inj_succ, Z.pow_succ_r by lia. lia.
  - rewrite Pos2Z.inj_succ, Z.pow_succ_r by lia. lia.
  - simpl; lia.
Qed.

Lemma canonical_bounds m e :
  canonical_mantissa prec emax m e = true ->
  emin64 <= e /\ Zpos (digits2_pos m) <= 53
  /\ (emin64 < e -> Zpos (digits2_pos m) = 53).
Proof.
  unfold canonical_mantissa, fexp, emin, prec, emax, emin64.
  intros H; apply Z.eqb_eq in H. lia.
Qed.

Lemma valid_finite s m e :
  wellFormed (S754_finite s m e) = true ->
  canonical_mantissa prec emax m e = true /\ e <= 971.
Proof.
  unfold wellFormed, valid_binary, bounded; simpl.
  intros H; apply andb_true_iff in H; destruct H as [H1 H2].
  split; [exact H1 | apply Z.leb_le in H2; unfold emax, prec in H2; lia].
Qed.

Lemma finite_rank_bound s m e :
  wellFormed (S754_finite s m e) = true ->
  0 < Zpos m * 2 ^ (e - emin64) < 2 ^ 2098.
Proof.
  intros H; apply valid_finite in H; destruct H as [Hc He].
  apply canonical_bounds in Hc; destruct Hc as [H1 [H2 _]].
  pose proof (digits2_upper m) as Hu.
  assert (Hp : 0 < 2 ^ (e - emin64)) by (apply Z.pow_pos_nonneg; lia).
  split; [lia|].
  assert (Zpos m < 2 ^ 53).
  { eapply Z.lt_le_trans; [exact Hu|]. apply Z.pow_le_mono_r; lia. }
  assert (2 ^ (e - emin64) <= 2 ^ 2045).
  { apply Z.pow_le_mono_r; unfold emin64; lia. }
  replace (2 ^ 2098) with (2 ^ 53 * 2 ^ 2045) by (rewrite <- Z.pow_add_r by lia; reflexivity).
  apply Z.lt_le_trans with (2 ^ 53 * 2 ^ (e - emin64)).
  - apply Z.mul_lt_mono_pos_r; assumption.
  - apply Z.mul_le_mono_nonneg_l; [apply Z.pow_nonneg; lia | assumption].
Qed.

(** positive, same-sign comparison of canonical finite numbers *)
Lemma canonical_compare m1 e1 m2 e2 :
  canonical_mantissa prec emax m1 e1 = true ->
  canonical_mantissa prec emax m2 e2 = true ->
  match Z.compare e1 e2 with
  | Lt => Lt
  | Gt => Gt
  | Eq => Pos.compare_cont Eq m1 m2
  end = Z.compare (Zpos m1 * 2 ^ (e1 - emin64)) (Zpos m2 * 2 ^ (e2 - emin64)).
Proof.
  intros H1 H2.
  apply canonical_bounds in H1; destruct H1 as [A1 [B1 C1]].
  apply canonical_bounds in H2; destruct H2 as [A2 [B2 C2]].
  pose proof (digits2_upper m1) as U1. pose proof (digits2_lower m1) as L1.
  pose proof (digits2_upper m2) as U2. pose proof (digits2_lower m2) as L2.
  assert (Hlt : forall ma ea mb eb,
             emin64 <= ea -> ea < eb ->
             Zpos ma < 2 ^ 53 -> 2 ^ 52 <= Zpos mb ->
             Zpos ma * 2 ^ (ea - emin64) < Zpos mb * 2 ^ (eb - emin64)).
  { intros ma ea mb eb Ha Hab Hma Hmb.
    replace (eb - emin64) with ((eb - ea) + (ea - emin64)) by lia.
    rewrite Z.pow_add_r by lia.
    assert (0 < 2 ^ (ea - emin64)) by (apply Z.pow_pos_nonneg; lia).
    assert (2 ^ 1 <= 2 ^ (eb - ea)) by (apply Z.pow_le_mono_r; lia).
    change (2 ^ 1) with 2 in *.
    change (2 ^ 53) with (2 * 2 ^ 52) in Hma.
    apply Z.lt_le_trans with (2 * Zpos mb * 2 ^ (ea - emin64)).
    - apply Z.mul_lt_mono_pos_r; lia.
    - rewrite Z.mul_assoc; apply Z.mul_le_mono_nonneg_r; [lia|].
      rewrite (Z.mul_comm 2); apply Z.mul_le_mono_nonneg_l; lia. }
  assert (M1 : Zpos m1 < 2 ^ 53).
  { eapply Z.lt_le_trans; [exact U1|]. apply Z.pow_le_mono_r; lia. }
  assert (M2 : Zpos m2 < 2 ^ 53).
  { eapply Z.lt_le_trans; [exact U2|]. apply Z.pow_le_mono_r; lia. }
  destruct (Z.compare_spec e1 e2) as [E|E|E].
  - subst e2. rewrite Pos.compare_cont_spec.
    assert (0 < 2 ^ (e1 - emin64)) by (apply Z.pow_pos_nonneg; lia).
    rewrite <- (Zmult_compare_compat_r (Zpos m1) (Zpos m2)
                  (2 ^ (e1 - emin64)) ltac:(lia)).
    simpl; destruct (m1 ?= m2)%positive; reflexivity.
  - symmetry; apply Z.compare_lt_iff.
    apply Hlt; try lia.
    rewrite C2 in L2 by lia. exact L2.
  - symmetry; apply Z.compare_gt_iff.
    apply Hlt; try lia.
    rewrite C1 in L1 by lia. exact L1.
Qed.

Lemma compare_rank a b :
  wellFormed a = true -> wellFormed b = true ->
  SFcompare a b = Some (Z.compare (rank a) (rank b)).
Proof.
  intros Ha Hb.
  assert (Hbig : 0 < 2 ^ 2098) by (apply Z.pow_pos_nonneg; lia).
  destruct a as [sa|sa| |sa ma ea]; try discriminate;
  destruct b as [sb|sb| |sb mb eb]; try discriminate;
  try pose proof (finite_rank_bound _ _ _ Ha) as Hra;
  try pose proof (finite_rank_bound _ _ _ Hb) as Hrb;
  cbn [rank SFcompare].
  - reflexivity.
  - destruct sb; cbn [cond_Zopp]; f_equal; symmetry;
      try (apply Z.compare_gt_iff; lia); try (apply Z.compare_lt_iff; lia).
  - destruct sb; cbn [cond_Zopp]; f_equal; symmetry;
      try (apply Z.compare_gt_iff; lia); try (apply Z.compare_lt_iff; lia).
  - destruct sa; cbn [cond_Zopp]; f_equal; symmetry;
      try (apply Z.compare_gt_iff; lia); try (apply Z.compare_lt_iff; lia).
  - destruct sa, sb; cbn [cond_Zopp]; f_equal; symmetry;
      try (apply Z.compare_eq_iff; lia);
      try (apply Z.compare_gt_iff; lia); try (apply Z.compare_lt_iff; lia).
  - destruct sa, sb; cbn [cond_Zopp]; f_equal; symmetry;
      try (apply Z.compare_gt_iff; lia); try (apply Z.compare_lt_iff; lia).
  - destruct sa; cbn [cond_Zopp]; f_equal; symmetry;
      try (apply Z.compare_gt_iff; lia); try (apply Z.compare_lt_iff; lia).
  - destruct sa, sb; cbn [cond_Zopp]; f_equal; symmetry;
      try (apply Z.compare_gt_iff; lia); try (apply Z.compare_lt_iff; lia).
  - apply valid_finite in Ha, Hb. destruct Ha as [Ca _], Hb as [Cb _].
    destruct sa, sb; cbn [cond_Zopp]; f_equal.
    + rewrite Z.compare_opp, <- (canonical_compare _ _ _ _ Cb Ca).
      rewrite !Pos.compare_cont_spec.
      rewrite (Z.compare_antisym ea eb), (Pos.compare_antisym ma mb).
      destruct (ea ?= eb); simpl; try reflexivity.
      destruct (ma ?= mb)%positive; reflexivity.
    + symmetry; apply Z.compare_lt_iff; lia.
    + symmetry; apply Z.compare_gt_iff; lia.
    + apply canonical_compare; assumption.
Qed.

Lemma shr_1_div mrs : 0 <= shr_m mrs -> shr_m (shr_1 mrs) = shr_m mrs / 2.
Proof.
  destruct mrs as [m r s]; simpl; intros H.
  destruct m as [|p|p]; [reflexivity| |lia].
  destruct p as [p|p|]; cbn [shr_m].
  - rewrite Pos2Z.inj_xI. apply Z.div_unique with 1; lia.
  - rewrite (Pos2Z.inj_xO p). apply Z.div_unique with 0; lia.
  - reflexivity.
Qed.

Lemma iter_shr_1_div p :
  forall mrs, 0 <= shr_m mrs ->
    shr_m (iter_pos shr_1 p mrs) = shr_m mrs / 2 ^ Zpos p.
Proof.
  induction p as [p IH|p IH|]; intros mrs H; simpl iter_pos.
  - rewrite IH by (apply iter_shr_1_nonneg, shr_1_nonneg, H).
    rewrite IH by (apply shr_1_nonneg, H).
    rewrite shr_1_div by exact H.
    rewrite !Z.div_div by (try apply Z.pow_pos_nonneg; lia).
    f_equal. rewrite Pos2Z.inj_xI.
    replace (2 * Zpos p + 1) with (1 + Zpos p + Zpos p) by lia.
    rewrite !Z.pow_add_r by lia. change (2 ^ 1) with 2. lia.
  - rewrite IH by (apply iter_shr_1_nonneg, H).
    rewrite IH by exact H.
    rewrite !Z.div_div by (try apply Z.pow_pos_nonneg; lia).
    f_equal. rewrite (Pos2Z.inj_xO p).
    replace (2 * Zpos p) with (Zpos p + Zpos p) by lia.
    rewrite !Z.pow_add_r by lia. lia.
  - apply shr_1_div, H.
Qed.

(** Shifting a positive mantissa to its format exponent keeps it positive. *)
Lemma shr_fexp_pos m e l :
  emin64 <= e ->
  0 < shr_m (fst (shr_fexp prec emax (Zpos m) e l))
  /\ emin64 <= snd (shr_fexp prec emax (Zpos m) e l).
Proof.
  intros He; unfold shr_fexp, shr.
  cbn [Zdigits2].
  set (d := Zpos (digits2_pos m)).
  assert (Hn : fexp prec emax (d + e) - e <= d - 1).
  { unfold fexp, emin, prec, emax, emin64 in *. subst d. lia. }
  destruct (fexp prec emax (d + e) - e) as [|n|n] eqn:En; cbn [fst snd].
  - rewrite shr_record_of_loc_m; lia.
  - rewrite iter_shr_1_div by (rewrite shr_record_of_loc_m; lia).
    rewrite shr_record_of_loc_m. split.
    + apply Z.div_str_pos. split; [apply Z.pow_pos_nonneg; lia|].
      eapply Z.le_trans; [|apply digits2_lower].
      apply Z.pow_le_mono_r; subst d; lia.
    + unfold fexp, emin, prec, emax, emin64 in *; lia.
  - rewrite shr_record_of_loc_m; lia.
Qed.

Lemma round_nearest_even_ge m l : m <= round_nearest_even m l.
Proof. destruct l as [|[]]; simpl; try lia. destruct (Z.even m); lia. Qed.

(** Rounding a positive mantissa at a representable exponent keeps the
    sign and gives no zero. *)
Lemma binary_round_aux_sign s m e l :
  emin64 <= e ->
  (exists m' e', binary_round_aux prec emax s (Zpos m) e l = S754_finite s m' e')
  \/ binary_round_aux prec emax s (Zpos m) e l = S754_infinity s.
Proof.
  intros He; unfold binary_round_aux.
  destruct (shr_fexp_pos m e l He) as [H1 H1e].
  destruct (shr_fexp prec emax (Zpos m) e l) as [mrs' e']; cbn [fst snd] in *.
  pose proof (round_nearest_even_ge (shr_m mrs') (loc_of_shr_record mrs')) as Hr.
  destruct (round_nearest_even (shr_m mrs') (loc_of_shr_record mrs'))
    as [|m2|m2]; try lia.
  destruct (shr_fexp_pos m2 e' loc_Exact H1e) as [H2 _].
  destruct (shr_fexp prec emax (Zpos m2) e' loc_Exact) as [mrs'' e''];
    cbn [fst snd] in *.
  destruct (shr_m mrs'') as [|m3|m3]; try lia.
  destruct (e'' <=? emax - prec); [left; eauto | right; reflexivity].
Qed.

Lemma binary_round_sign s m e :
  emin64 <= e ->
  (exists m' e', binary_round prec emax s m e = S754_finite s m' e')
  \/ binary_round prec emax s m e = S754_infinity s.
Proof.
  intros He; unfold binary_round, shl_align.
  destruct (fexp prec emax (Zpos (digits2_pos m) + e) - e) eqn:E;
    apply binary_round_aux_sign; try exact He.
  unfold fexp, emin, prec, emax, emin64 in *; lia.
Qed.

(** The sign of a normalized integer is the sign of the integer. *)
Lemma binary_normalize_pos D e :
  emin64 <= e ->
  lt pzero (binary_normalize prec emax D e false) = (0 <? D).
Proof.
  intros He; destruct D as [|p|p]; cbn [binary_normalize].
  - reflexivity.
  - destruct (binary_round_sign false p e He) as [[m' [e' ->]]| ->]; reflexivity.
  - destruct (binary_round_sign true p e He) as [[m' [e' ->]]| ->]; reflexivity.
Qed.

Lemma iter_xO_val m d : Zpos (Pos.iter xO m d) = Zpos m * 2 ^ Zpos d.
Proof.
  revert m; induction d as [|d IH] using Pos.peano_ind; intros m.
  - simpl; lia.
  - rewrite Pos.iter_succ, (Pos2Z.inj_xO (Pos.iter xO m d)), IH,
      Pos2Z.inj_succ, Z.pow_succ_r by lia.
    lia.
Qed.

Lemma shl_align_val m e e' :
  e' <= e -> Zpos (fst (shl_align m e e')) = Zpos m * 2 ^ (e - e').
Proof.
  intros H; unfold shl_align.
  destruct (e' - e) as [|d|d] eqn:E; cbn [fst].
  - replace (e - e') with 0 by lia; simpl; lia.
  - lia.
  - rewrite iter_xO_val; f_equal; f_equal; lia.
Qed.

Lemma sub_finite_sign sx mx ex sy my ey :
  wellFormed (S754_finite sx mx ex) = true ->
  wellFormed (S754_finite sy my ey) = true ->
  lt pzero (sub (S754_finite sx mx ex) (S754_finite sy my ey))
  = (rank (S754_finite sy my ey) <? rank (S754_finite sx mx ex)).
Proof.
  intros Hx Hy.
  apply valid_finite in Hx, Hy; destruct Hx as [Cx _], Hy as [Cy _].
  apply canonical_bounds in Cx, Cy.
  destruct Cx as [Ex _], Cy as [Ey _].
  unfold sub; cbn [SFsub rank].
  set (ez := Z.min ex ey).
  assert (Hez : emin64 <= ez) by (subst ez; lia).
  rewrite (binary_normalize_pos _ ez Hez).
  rewrite !shl_align_val by (subst ez; lia).
  assert (Hp : 0 < 2 ^ (ez - emin64)) by (apply Z.pow_pos_nonneg; lia).
  assert (Hsx : forall s m e, ez <= e ->
            cond_Zopp s (Zpos m * 2 ^ (e - emin64))
            = cond_Zopp s (Zpos m * 2 ^ (e - ez)) * 2 ^ (ez - emin64)).
  { intros s m e He.
    replace (e - emin64) with ((e - ez) + (ez - emin64)) by lia.
    rewrite Z.pow_add_r by lia.
    destruct s; cbn [cond_Zopp]; lia. }
  rewrite (Hsx sx mx ex), (Hsx sy my ey) by (subst ez; lia).
  set (X := cond_Zopp sx _). set (Y := cond_Zopp sy _).
  destruct (Z.ltb_spec 0 (X - Y)); destruct (Z.ltb_spec (Y * 2 ^ (ez - emin64)) (X * 2 ^ (ez - emin64)));
    try reflexivity; exfalso; nia.
Qed.

Lemma sub_sign a b :
  wellFormed a = true -> wellFormed b = true ->
  lt pzero (sub a b) = (rank b <? rank a).
Proof.
  intros Ha Hb.
  assert (Hbig : 0 < 2 ^ 2098) by (apply Z.pow_pos_nonneg; lia).
  destruct a as [sa|sa| |sa ma ea]; try discriminate;
  destruct b as [sb|sb| |sb mb eb]; try discriminate;
  try pose proof (finite_rank_bound _ _ _ Ha) as Hra;
  try pose proof (finite_rank_bound _ _ _ Hb) as Hrb.
  9: apply sub_finite_sign; assumption.
  all: unfold sub; cbn [SFsub rank];
    try destruct sa; try destruct sb; cbn [cond_Zopp negb];
    unfold lt, SFltb; cbn [SFcompare pzero];
    symmetry;
    try (apply Z.ltb_lt; lia); try (apply Z.ltb_ge; lia).
Qed.

Lemma isNaN_false_iff a : isNaN a = false <-> a <> S754_nan.
Proof. destruct a; simpl; split; congruence. Qed.

Lemma inningsOf_not_nan outs : isNaN (inningsOf outs) = false.
Proof.
  apply isNaN_false_iff; unfold inningsOf.
  pose proof (of_Z_not_nan outs) as H.
  change (of_Z 3) with (S754_finite false 6755399441055744 (-51)).
  destruct (of_Z outs) as [s|s| |s m e]; try congruence.
  - discriminate.
  - discriminate.
  - apply div_finite_not_nan.
Qed.

(** A zero numerator gives a zero whatever the denominator, NaN apart. *)
Lemma safeDiv_zero_numerator b :
  isNaN b = false -> roundTo 2 (safeDiv pzero b) = pzero.
Proof.
  destruct b as [s|s| |s m e]; intros H; try discriminate;
    destruct s; reflexivity.
Qed.

Section SortFacts.

Context {A : Type}.
Variable gt : A -> A -> bool.

Lemma insert_perm x l : Permutation (JsArray.insert gt x l) (x :: l).
Proof.
  induction l as [|y l IH]; simpl.
  - apply Permutation_refl.
  - destruct (gt x y).
    + eapply perm_trans; [apply perm_skip, IH | apply perm_swap].
    + apply Permutation_refl.
Qed.

Lemma sort_perm l : Permutation (JsArray.sort gt l) l.
Proof.
  induction l as [|x l IH]; simpl.
  - apply perm_nil.
  - eapply perm_trans; [apply insert_perm | apply perm_skip, IH].
Qed.

Lemma sort_In x l : In x (JsArray.sort gt l) <-> In x l.
Proof.
  split; apply Permutation_in;
    [apply sort_perm | apply Permutation_sym, sort_perm].
Qed.

(** The sort orders by any relation the comparator decides on the
    elements at hand. *)
Variable R : A -> A -> Prop.
Variable P : A -> Prop.
Hypothesis R_trans :
  forall x y z, P x -> P y -> P z -> R x y -> R y z -> R x z.
Hypothesis gt_false : forall x y, P x -> P y -> gt x y = false -> R x y.
Hypothesis gt_true : forall x y, P x -> P y -> gt x y = true -> R y x.

Lemma insert_sorted x l :
  P x -> Forall P l -> StronglySorted R l ->
  StronglySorted R (JsArray.insert gt x l).
Proof.
  intros Px; induction l as [|y l IH]; intros HP HS; simpl.
  - constructor; constructor.
  - inversion HP as [|? ? Py HPl]; subst.
    inversion HS as [|? ? HSl Hy]; subst.
    destruct (gt x y) eqn:E.
    + constructor; [apply IH; assumption|].
      apply Forall_forall; intros z Hz.
      apply (Permutation_in _ (insert_perm x l)) in Hz.
      destruct Hz as [<-|Hz]; [apply gt_true; assumption|].
      rewrite Forall_forall in Hy; apply Hy, Hz.
    + constructor; [exact HS|].
      constructor; [apply gt_false; assumption|].
      apply Forall_forall; intros z Hz.
      rewrite Forall_forall in Hy, HPl.
      apply (R_trans x y z); auto.
Qed.

Lemma sort_sorted l : Forall P l -> StronglySorted R (JsArray.sort gt l).
Proof.
  induction l as [|x l IH]; intros HP; simpl.
  - constructor.
  - apply Forall_cons_iff in HP; destruct HP as [Px HPl].
    apply insert_sorted; [assumption| |apply IH; assumption].
    apply Forall_forall; intros z Hz.
    apply (proj1 (sort_In _ _)) in Hz.
    rewrite Forall_forall in HPl; apply HPl, Hz.
Qed.

End SortFacts.

(* ================================================================== *)
(** * Magnitudes: the rates of bounded counts are finite *)
(* ================================================================== *)

Lemma fitsE_finite K E x : fitsE K E x -> isFinite x = true.
Proof. destruct x; simpl; intros H; try reflexivity; contradiction. Qed.

Lemma pow_bound_pos p x : Zpos p < 2 ^ x -> 0 < x.
Proof.
  intros H; destruct x as [|q|q]; [simpl in H; lia | lia |].
  rewrite Z.pow_neg_r in H by lia; lia.
Qed.

Lemma fitsE_weaken K E K' E' x :
  K <= K' -> E' <= E -> fitsE K E x -> fitsE K' E' x.
Proof.
  intros HK HE; destruct x as [s|s| |s m e]; simpl; auto.
  intros [H1 H2]; split; [lia|].
  pose proof (pow_bound_pos _ _ H2).
  eapply Z.lt_le_trans; [exact H2|].
  apply Z.pow_le_mono_r; lia.
Qed.

Lemma Zdigits2_le m k : 0 <= m < 2 ^ k -> 0 <= k -> 0 <= Zdigits2 m <= k.
Proof.
  intros [H0 H1] Hk; destruct m as [|p|p]; simpl; try lia.
  split; [lia|].
  pose proof (digits2_lower p) as L.
  destruct (Z_lt_le_dec k (Zpos (digits2_pos p))) as [Hlt|]; [|lia].
  exfalso.
  assert (2 ^ k <= 2 ^ (Zpos (digits2_pos p) - 1)) by (apply Z.pow_le_mono_r; lia).
  lia.
Qed.

Lemma digits2_unique m j :
  2 ^ (j - 1) <= Zpos m < 2 ^ j -> Zpos (digits2_pos m) = j.
Proof.
  intros [H0 H1].
  pose proof (digits2_lower m) as L. pose proof (digits2_upper m) as U.
  assert (Hj : 0 < j) by (eapply pow_bound_pos; exact H1).
  destruct (Z_lt_le_dec (Zpos (digits2_pos m)) j).
  - exfalso.
    assert (2 ^ Zpos (digits2_pos m) <= 2 ^ (j - 1)) by (apply Z.pow_le_mono_r; lia).
    lia.
  - destruct (Z_lt_le_dec j (Zpos (digits2_pos m))); [|lia].
    exfalso.
    assert (2 ^ j <= 2 ^ (Zpos (digits2_pos m) - 1)) by (apply Z.pow_le_mono_r; lia).
    lia.
Qed.

Lemma round_nearest_even_le m l : round_nearest_even m l <= m + 1.
Proof. destruct l as [|[]]; simpl; try lia. destruct (Z.even m); lia. Qed.

(** one alignment step of the rounding *)
Lemma shr_fexp_bounds m e l k :
  0 <= m < 2 ^ k -> 0 <= k -> emin64 <= e <= 971 -> k + e <= 1024 ->
  let r := shr_fexp prec emax m e l in
  0 <= shr_m (fst r) < 2 ^ (k - (snd r - e))
  /\ e <= snd r <= 971 /\ snd r - e <= k.
Proof.
  intros Hm Hk He Hke; cbv zeta.
  pose proof (Zdigits2_le m k Hm Hk) as Hd.
  unfold shr_fexp, shr.
  set (d := Zdigits2 m) in *.
  assert (Hn : fexp prec emax (d + e) - e <= Z.max (d - 53) 0).
  { unfold fexp, emin, prec, emax, emin64 in *; lia. }
  assert (Hf : fexp prec emax (d + e) <= 971).
  { unfold fexp, emin, prec, emax, emin64 in *; lia. }
  destruct (fexp prec emax (d + e) - e) as [|n|n] eqn:En; cbn [fst snd].
  - rewrite shr_record_of_loc_m. replace (k - (e - e)) with k by lia. lia.
  - rewrite iter_shr_1_div by (rewrite shr_record_of_loc_m; lia).
    rewrite shr_record_of_loc_m.
    assert (Hnk : Zpos n <= k) by lia.
    replace (k - (e + Zpos n - e)) with (k - Zpos n) by lia.
    assert (Hp : 0 < 2 ^ Zpos n) by (apply Z.pow_pos_nonneg; lia).
    split; [split|lia].
    + apply Z.div_pos; lia.
    + apply Z.div_lt_upper_bound; [exact Hp|].
      rewrite <- Z.pow_add_r by lia.
      replace (Zpos n + (k - Zpos n)) with k by lia. lia.
  - rewrite shr_record_of_loc_m. replace (k - (e - e)) with k by lia. lia.
Qed.

(** Rounding a bounded mantissa gives a finite number of about the same
    size. *)
Lemma binary_round_aux_fits s m e l k :
  0 <= m < 2 ^ k -> 0 <= k -> emin64 <= e <= 971 -> k + e <= 1023 ->
  fitsE (k + e + 1) e (binary_round_aux prec emax s m e l).
Proof.
  intros Hm Hk He Hke; unfold binary_round_aux.
  pose proof (shr_fexp_bounds m e l k Hm Hk He ltac:(lia)) as H1.
  destruct (shr_fexp prec emax m e l) as [mrs' e1]; cbn [fst snd] in H1.
  destruct H1 as [Hm1 [He1 Hk1]].
  pose proof (round_nearest_even_le (shr_m mrs') (loc_of_shr_record mrs')) as Hr.
  pose proof (round_nearest_even_nonneg (shr_m mrs') (loc_of_shr_record mrs')
                ltac:(lia)) as Hr0.
  set (m2 := round_nearest_even (shr_m mrs') (loc_of_shr_record mrs')) in *.
  assert (Hm2 : 0 <= m2 < 2 ^ (k - (e1 - e) + 1)).
  { rewrite Z.pow_add_r by lia. change (2 ^ 1) with 2. lia. }
  pose proof (shr_fexp_bounds m2 e1 loc_Exact (k - (e1 - e) + 1) Hm2
                ltac:(lia) ltac:(unfold emin64 in *; lia) ltac:(lia)) as H2.
  destruct (shr_fexp prec emax m2 e1 loc_Exact) as [mrs'' e2]; cbn [fst snd] in H2.
  destruct H2 as [Hm3 [He2 Hk2]].
  destruct (shr_m mrs'') as [|m3|m3]; [exact I| |lia].
  assert (E : (e2 <=? emax - prec) = true) by (apply Z.leb_le; unfold emax, prec; lia).
  rewrite E; simpl; split; [lia|].
  replace (k + e + 1 - e2) with (k - (e1 - e) + 1 - (e2 - e1)) by lia.
  apply Hm3.
Qed.

(** A 53-digit mantissa at a representable exponent is its own rounding. *)
Lemma binary_round_aux_exact s m e :
  2 ^ 52 <= Zpos m < 2 ^ 53 -> emin64 <= e <= 971 ->
  binary_round_aux prec emax s (Zpos m) e loc_Exact = S754_finite s m e.
Proof.
  intros Hm He.
  assert (Hd : Zpos (digits2_pos m) = 53) by (apply digits2_unique; exact Hm).
  assert (Hs : shr_fexp prec emax (Zpos m) e loc_Exact
               = ({| shr_m := Zpos m; shr_r := false; shr_s := false |}, e)).
  { unfold shr_fexp; cbn [Zdigits2]; rewrite Hd.
    replace (fexp prec emax (53 + e) - e) with 0
      by (unfold fexp, emin, prec, emax, emin64 in *; lia).
    reflexivity. }
  unfold binary_round_aux; rewrite Hs; cbn [shr_m loc_of_shr_record round_nearest_even].
  rewrite Hs; cbn [shr_m].
  replace (e <=? emax - prec) with true
    by (symmetry; apply Z.leb_le; unfold emax, prec; lia).
  reflexivity.
Qed.

Lemma binary_round_int53 s p :
  Zpos p < 2 ^ 53 -> int53 (binary_round prec emax s p 0).
Proof.
  intros Hp; unfold binary_round.
  pose proof (digits2_lower p) as L. pose proof (digits2_upper p) as U.
  set (d := Zpos (digits2_pos p)) in *.
  assert (Hd : 1 <= d <= 53).
  { split; [subst d; lia|].
    destruct (Z_lt_le_dec 53 d); [|lia].
    exfalso. assert (2 ^ 53 <= 2 ^ (d - 1)) by (apply Z.pow_le_mono_r; lia). lia. }
  assert (Hf : fexp prec emax (d + 0) = d - 53)
    by (unfold fexp, emin, prec, emax; lia).
  rewrite Hf.
  pose proof (shl_align_val p 0 (d - 53) ltac:(lia)) as Hv.
  assert (Hx : snd (shl_align p 0 (d - 53)) = d - 53).
  { unfold shl_align. destruct (d - 53 - 0) eqn:E; cbn [snd]; lia. }
  destruct (shl_align p 0 (d - 53)) as [mz ez]; cbn [fst snd] in *; subst ez.
  replace (0 - (d - 53)) with (53 - d) in Hv by lia.
  assert (Hmz : 2 ^ 52 <= Zpos mz < 2 ^ 53).
  { rewrite Hv. split.
    - replace 52 with ((d - 1) + (53 - d)) by lia.
      rewrite Z.pow_add_r by lia.
      apply Z.mul_le_mono_nonneg_r; [apply Z.pow_nonneg; lia | exact L].
    - replace 53 with (d + (53 - d)) at 2 by lia.
      rewrite Z.pow_add_r by lia.
      apply Z.mul_lt_mono_pos_r; [apply Z.pow_pos_nonneg; lia | exact U]. }
  rewrite binary_round_aux_exact; [| exact Hmz | unfold emin64; lia].
  cbn [int53]; split; [exact Hmz | clear - Hd; lia].
Qed.

Lemma of_Z_int53 n : Z.abs n < 2 ^ 53 -> int53 (of_Z n).
Proof.
  intros H; unfold of_Z, binary_normalize; destruct n as [|p|p].
  - exact I.
  - apply binary_round_int53; lia.
  - apply binary_round_int53; lia.
Qed.

(** the quotient core keeps a quotient below the shifted numerator *)
Lemma div_core_bounds m1 e1 m2 e2 a :
  Zpos m1 < 2 ^ a ->
  let e' := Z.min (fexp prec emax (Zpos (digits2_pos m1) + e1
                                   - (Zpos (digits2_pos m2) + e2)))
                  (e1 - e2) in
  let r := SFdiv_core_binary prec emax (Zpos m1) e1 (Zpos m2) e2 in
  snd (fst r) = e'
  /\ 0 <= fst (fst r) < 2 ^ (a + (e1 - e2 - e')).
Proof.
  intros Ha; cbv zeta; unfold SFdiv_core_binary; cbn [Zdigits2].
  set (e' := Z.min _ _).
  assert (He' : e' <= e1 - e2) by (subst e'; lia).
  pose proof (pow_bound_pos _ _ Ha) as Hapos.
  set (s := e1 - e2 - e').
  set (m' := match s with Z0 => _ | Zpos _ => _ | Zneg _ => _ end).
  assert (Hm' : 0 <= m' < 2 ^ (a + s)).
  { subst m'; destruct s as [|p|p] eqn:Es; try lia.
    - replace (a + 0) with a by lia; lia.
    - rewrite Z.shiftl_mul_pow2 by lia.
      rewrite Z.pow_add_r by lia.
      assert (0 < 2 ^ Zpos p) by (apply Z.pow_pos_nonneg; lia).
      split; [lia|]. apply Z.mul_lt_mono_pos_r; assumption. }
  pose proof (Z.div_pos m' (Zpos m2) ltac:(lia) ltac:(lia)) as Hq0.
  assert (Hq1 : m' / Zpos m2 <= m').
  { apply Z.div_le_upper_bound; [lia|].
    destruct Hm' as [Hm0 _]. nia. }
  unfold Z.div in Hq0, Hq1.
  destruct (Z.div_eucl m' (Zpos m2)) as [q r]; cbn [fst snd] in *.
  split; [reflexivity | lia].
Qed.

(** Quotients of finite numbers: no overflow while the exponents stay
    moderate. *)
Lemma div_fits sx mx ex sy my ey a :
  Zpos mx < 2 ^ a ->
  emin64 <= ex - ey <= 971 -> a + (ex - ey) <= 1023 ->
  fitsE (a + (ex - ey) + 1)
        (Z.min (fexp prec emax (Zpos (digits2_pos mx) + ex
                                - (Zpos (digits2_pos my) + ey)))
               (ex - ey))
        (div (S754_finite sx mx ex) (S754_finite sy my ey)).
Proof.
  intros Ha He Hk; unfold div; cbn [SFdiv].
  pose proof (div_core_bounds mx ex my ey a Ha) as H; cbv zeta in H.
  set (e' := Z.min _ _) in *.
  destruct (SFdiv_core_binary prec emax (Zpos mx) ex (Zpos my) ey)
    as [[q e''] l]; cbn [fst snd] in H; destruct H as [-> Hq].
  assert (Hemin : emin64 <= e') by
    (subst e'; unfold fexp, emin, prec, emax, emin64 in *; lia).
  assert (He' : e' <= ex - ey) by (subst e'; lia).
  pose proof (pow_bound_pos _ _ Ha) as Hapos.
  replace (a + (ex - ey) + 1) with ((a + (ex - ey - e')) + e' + 1) by lia.
  apply binary_round_aux_fits; try lia.
Qed.

(** integers below 2^53: their quotient *)
Lemma div_int53 x y :
  int53 x -> int53 y -> isFinite y = true -> strict_eq y pzero = false ->
  fitsE 106 (-105) (div x y).
Proof.
  intros Hx Hy Hfy Hny.
  destruct y as [sy|sy| |sy my ey]; try discriminate; try contradiction.
  destruct x as [sx|sx| |sx mx ex]; try contradiction.
  { exact I. }
  simpl in Hx, Hy; destruct Hx as [Hmx Hex], Hy as [Hmy Hey].
  pose proof (div_fits sx mx ex sy my ey 53 ltac:(lia)
                ltac:(unfold emin64; lia) ltac:(lia)) as H.
  rewrite (digits2_unique mx 53), (digits2_unique my 53) in H by assumption.
  eapply fitsE_weaken; [| |exact H];
    unfold fexp, emin, prec, emax; lia.
Qed.

Lemma int53_cases y :
  int53 y ->
  (strict_eq y pzero = true /\ exists s, y = S754_zero s)
  \/ (strict_eq y pzero = false /\ isFinite y = true
      /\ exists s m e, y = S754_finite s m e).
Proof.
  destruct y as [s|s| |s m e]; simpl; intros H; try contradiction.
  - left; split; [destruct s; reflexivity | eauto].
  - right; split; [destruct s; reflexivity|]. split; [reflexivity | eauto].
Qed.

(** the safe quotient of two integers below 2^53 *)
Lemma safeDiv_int53 x y :
  int53 x -> int53 y -> fitsE 106 (-105) (safeDiv x y).
Proof.
  intros Hx Hy; unfold safeDiv.
  destruct (int53_cases y Hy) as [[E _]|[E [Hf _]]]; rewrite E.
  - exact I.
  - apply div_int53; assumption.
Qed.

Lemma fitsE_cases K E y :
  fitsE K E y ->
  (strict_eq y pzero = true /\ exists s, y = S754_zero s)
  \/ (strict_eq y pzero = false
      /\ exists s m e, y = S754_finite s m e /\ E <= e /\ Zpos m < 2 ^ (K - e)).
Proof.
  destruct y as [s|s| |s m e]; simpl; intros H; try contradiction.
  - left; split; [destruct s; reflexivity | eauto].
  - right; split; [destruct s; reflexivity|]. exists s, m, e; tauto.
Qed.

(** an integer below 2^53 over a quotient of such integers *)
Lemma safeDiv_int53_by_ratio x b :
  int53 x -> fitsE 106 (-105) b -> fitsE 160 emin64 (safeDiv x b).
Proof.
  intros Hx Hb; unfold safeDiv.
  destruct (fitsE_cases _ _ _ Hb) as [[E _]|[E [sb [mb [eb [-> [He Hm]]]]]]];
    rewrite E; [exact I|].
  pose proof (pow_bound_pos _ _ Hm) as Hpos.
  destruct x as [sx|sx| |sx mx ex]; try contradiction; [exact I|].
  simpl in Hx; destruct Hx as [Hmx Hex].
  pose proof (div_fits sx mx ex sb mb eb 53 ltac:(lia)
                ltac:(unfold emin64; lia) ltac:(lia)) as H.
  eapply fitsE_weaken; [| |exact H];
    unfold fexp, emin, prec, emax, emin64; lia.
Qed.

Lemma mul_fits sx mx ex sy my ey kx ky :
  Zpos mx < 2 ^ kx -> Zpos my < 2 ^ ky ->
  emin64 <= ex + ey <= 971 -> kx + ky + (ex + ey) <= 1023 ->
  fitsE (kx + ky + (ex + ey) + 1) (ex + ey)
        (mul (S754_finite sx mx ex) (S754_finite sy my ey)).
Proof.
  intros Hx Hy He Hk; unfold mul; cbn [SFmul].
  pose proof (pow_bound_pos _ _ Hx). pose proof (pow_bound_pos _ _ Hy).
  apply binary_round_aux_fits; try lia.
  rewrite Pos2Z.inj_mul, Z.pow_add_r by lia.
  split; [lia|]. apply Z.mul_lt_mono_nonneg; lia.
Qed.

(** a quotient of integers, as a percentage *)
Lemma percent_fits x y :
  fitsE 106 (-105) x -> int53 y -> fitsE 160 emin64 (mul x y).
Proof.
  intros Hx Hy.
  destruct x as [sx|sx| |sx mx ex]; try contradiction;
  destruct y as [sy|sy| |sy my ey]; try contradiction; try exact I.
  cbn [fitsE int53] in Hx, Hy; destruct Hx as [Hex Hmx], Hy as [Hmy Hey].
  pose proof (pow_bound_pos _ _ Hmx).
  assert (He : emin64 <= ex + ey <= 971). { unfold emin64; lia. }
  pose proof (mul_fits sx mx ex sy my ey (106 - ex) 53 Hmx ltac:(lia)
                He ltac:(lia)) as Hr.
  eapply fitsE_weaken; [| |exact Hr]; unfold emin64; lia.
Qed.

Lemma binary_round_fits s p e k :
  Zpos p < 2 ^ k -> emin64 <= e <= 971 -> k + e <= 1023 ->
  fitsE (k + e + 1) emin64 (binary_round prec emax s p e).
Proof.
  intros Hp He Hk; unfold binary_round.
  pose proof (pow_bound_pos _ _ Hp) as Hkpos.
  set (f := fexp prec emax (Zpos (digits2_pos p) + e)).
  assert (Hf : emin64 <= f) by (subst f; unfold fexp, emin, prec, emax, emin64; lia).
  destruct (Z_lt_le_dec f e) as [Hlt|Hge].
  - pose proof (shl_align_val p e f ltac:(lia)) as Hv.
    assert (Hs : snd (shl_align p e f) = f).
    { unfold shl_align; destruct (f - e) eqn:E; cbn [snd]; lia. }
    destruct (shl_align p e f) as [mz ez]; cbn [fst snd] in *; subst ez.
    eapply fitsE_weaken;
      [| |apply (binary_round_aux_fits s (Zpos mz) f loc_Exact (k + (e - f)))];
      try lia.
    rewrite Hv, Z.pow_add_r by lia.
    split; [lia|]. apply Z.mul_lt_mono_pos_r; [apply Z.pow_pos_nonneg; lia | exact Hp].
  - assert (Hs : shl_align p e f = (p, e)).
    { unfold shl_align; destruct (f - e) eqn:E; try reflexivity; lia. }
    rewrite Hs.
    eapply fitsE_weaken;
      [| |apply (binary_round_aux_fits s (Zpos p) e loc_Exact k)]; try lia.
Qed.

Lemma binary_normalize_fits D e k :
  Z.abs D < 2 ^ k -> 0 <= k -> emin64 <= e <= 971 -> k + e <= 1023 ->
  fitsE (k + e + 1) emin64 (binary_normalize prec emax D e false).
Proof.
  intros HD Hk He Hke; destruct D as [|p|p]; cbn [binary_normalize].
  - exact I.
  - apply (binary_round_fits false p e k); lia.
  - apply (binary_round_fits true p e k); lia.
Qed.

Lemma aligned_bound s m e ez K :
  ez <= e -> Zpos m < 2 ^ (K - e) ->
  Z.abs (cond_Zopp s (Zpos (fst (shl_align m e ez)))) < 2 ^ (K - ez).
Proof.
  intros He Hm; rewrite shl_align_val by exact He.
  pose proof (pow_bound_pos _ _ Hm).
  replace (K - ez) with ((K - e) + (e - ez)) by lia.
  rewrite Z.pow_add_r by lia.
  assert (0 < 2 ^ (e - ez)) by (apply Z.pow_pos_nonneg; lia).
  assert (Zpos m * 2 ^ (e - ez) < 2 ^ (K - e) * 2 ^ (e - ez))
    by (apply Z.mul_lt_mono_pos_r; assumption).
  destruct s; cbn [cond_Zopp]; lia.
Qed.

(** sums and differences of quotients of integers *)
Lemma add_fits x y :
  fitsE 106 (-105) x -> fitsE 106 (-105) y -> fitsE 160 emin64 (add x y).
Proof.
  intros Hx Hy.
  destruct x as [sx|sx| |sx mx ex]; try contradiction;
  destruct y as [sy|sy| |sy my ey]; try contradiction.
  - unfold add; cbn [SFadd]; destruct sx, sy; exact I.
  - unfold add; cbn [SFadd].
    eapply fitsE_weaken; [| |exact Hy]; unfold emin64; lia.
  - unfold add; cbn [SFadd].
    eapply fitsE_weaken; [| |exact Hx]; unfold emin64; lia.
  - cbn [fitsE int53] in Hx, Hy; destruct Hx as [Hex Hmx], Hy as [Hey Hmy].
    pose proof (pow_bound_pos _ _ Hmx). pose proof (pow_bound_pos _ _ Hmy).
    unfold add; cbn [SFadd].
    set (ez := Z.min ex ey).
    pose proof (aligned_bound sx mx ex ez 106 ltac:(subst ez; lia) Hmx) as Bx.
    pose proof (aligned_bound sy my ey ez 106 ltac:(subst ez; lia) Hmy) as By.
    eapply fitsE_weaken;
      [| |apply (binary_normalize_fits _ ez (107 - ez))];
      try (subst ez; unfold emin64; lia).
    replace (107 - ez) with (1 + (106 - ez)) by lia.
    rewrite Z.pow_add_r by (subst ez; lia). change (2 ^ 1) with 2. lia.
Qed.

Lemma sub_fits x y :
  fitsE 106 (-105) x -> fitsE 106 (-105) y -> fitsE 160 emin64 (sub x y).
Proof.
  intros Hx Hy.
  destruct x as [sx|sx| |sx mx ex]; try contradiction;
  destruct y as [sy|sy| |sy my ey]; try contradiction.
  - unfold sub; cbn [SFsub]; destruct sx, sy; exact I.
  - unfold sub; cbn [SFsub]. cbn [fitsE] in Hy |- *.
    destruct Hy as [Hey Hmy]; pose proof (pow_bound_pos _ _ Hmy).
    split; [unfold emin64; lia|].
    eapply Z.lt_le_trans; [exact Hmy|]. apply Z.pow_le_mono_r; lia.
  - unfold sub; cbn [SFsub].
    eapply fitsE_weaken; [| |exact Hx]; unfold emin64; lia.
  - cbn [fitsE int53] in Hx, Hy; destruct Hx as [Hex Hmx], Hy as [Hey Hmy].
    pose proof (pow_bound_pos _ _ Hmx). pose proof (pow_bound_pos _ _ Hmy).
    unfold sub; cbn [SFsub].
    set (ez := Z.min ex ey).
    pose proof (aligned_bound sx mx ex ez 106 ltac:(subst ez; lia) Hmx) as Bx.
    pose proof (aligned_bound sy my ey ez 106 ltac:(subst ez; lia) Hmy) as By.
    eapply fitsE_weaken;
      [| |apply (binary_normalize_fits _ ez (107 - ez))];
      try (subst ez; unfold emin64; lia).
    replace (107 - ez) with (1 + (106 - ez)) by lia.
    rewrite Z.pow_add_r by (subst ez; lia). change (2 ^ 1) with 2. lia.
Qed.

Lemma toFixed_digits_bound f m e :
  (f <= 3)%nat -> ge_1e21 m e = false -> toFixed_digits f m e < 2 ^ 81.
Proof.
  intros Hf Hge.
  assert (HF : 1 <= 10 ^ Z.of_nat f <= 1000).
  { split.
    - apply (Z.pow_le_mono_r 10 0 (Z.of_nat f)); lia.
    - apply (Z.pow_le_mono_r 10 (Z.of_nat f) 3); lia. }
  set (F := 10 ^ Z.of_nat f) in *.
  assert (H24 : 10 ^ 21 * 1000 + 1 < 2 ^ 81) by reflexivity.
  assert (H21 : 0 < 10 ^ 21) by reflexivity.
  set (B := 2 ^ 81) in *. set (T := 10 ^ 21) in *.
  unfold toFixed_digits, ge_1e21 in *; fold F; fold T in Hge.
  destruct e as [|k|k].
  - apply Z.leb_gt in Hge. rewrite Z.pow_0_r, Z.mul_1_r in *.
    assert (Zpos m * F <= T * 1000) by (apply Z.mul_le_mono_nonneg; lia). lia.
  - apply Z.leb_gt in Hge.
    assert (0 < 2 ^ Zpos k) by (apply Z.pow_pos_nonneg; lia).
    assert (Zpos m * 2 ^ Zpos k * F <= T * 1000)
      by (apply Z.mul_le_mono_nonneg; lia). lia.
  - apply Z.leb_gt in Hge.
    assert (HP : 0 < 2 ^ Zpos k) by (apply Z.pow_pos_nonneg; lia).
    rewrite Z.pow_add_r by lia. change (2 ^ 1) with 2.
    set (P := 2 ^ Zpos k) in *.
    apply Z.div_lt_upper_bound; [lia|].
    assert (Zpos m * F <= T * P * 1000) by (apply Z.mul_le_mono_nonneg; lia).
    assert (T * P * 1000 + P = P * (T * 1000 + 1)) by ring.
    assert (P * (T * 1000 + 1) < P * B) by (apply Z.mul_lt_mono_pos_l; lia).
    lia.
Qed.

(** rounding to at most three decimals keeps a finite number finite *)
Lemma roundTo_finite f x :
  (f <= 3)%nat -> isFinite x = true -> isFinite (roundTo f x) = true.
Proof.
  intros Hf Hx; destruct x as [s|s| |s m e]; try discriminate; [reflexivity|].
  cbn [roundTo]. destruct (ge_1e21 m e) eqn:Hge; [reflexivity|].
  pose proof (toFixed_digits_bound f m e Hf Hge) as Hn.
  destruct (toFixed_digits f m e) as [|n|n]; try reflexivity.
  unfold dec. eapply fitsE_finite.
  apply (div_fits s n 0 false (Z.to_pos (10 ^ Z.of_nat f)) 0 81 Hn);
    unfold emin64; lia.
Qed.

Lemma of_Z_fits n : Z.abs n < 2 ^ 53 -> fitsE 106 (-105) (of_Z n).
Proof.
  intros H; pose proof (of_Z_int53 n H) as Hi.
  destruct (of_Z n) as [s|s| |s m e]; try contradiction; [exact I|].
  cbn [int53 fitsE] in *. destruct Hi as [[_ Hm] He]. split; [lia|].
  eapply Z.lt_le_trans; [exact Hm|]. apply Z.pow_le_mono_r; lia.
Qed.

Lemma inningsOf_fits outs :
  Z.abs outs < 2 ^ 53 -> fitsE 106 (-105) (inningsOf outs).
Proof.
  intros H; unfold inningsOf; apply div_int53.
  - apply of_Z_int53; exact H.
  - apply of_Z_int53; reflexivity.
  - reflexivity.
  - reflexivity.
Qed.

Section FiniteRates.
Variables (f : nat) (n d k a b c : Z).
Hypothesis Hf : (f <= 3)%nat.
Hypothesis Hn : Z.abs n < 2 ^ 53.
Hypothesis Hd : Z.abs d < 2 ^ 53.
Hypothesis Hk : Z.abs k < 2 ^ 53.

(** [safeDiv(n, d)] rounded *)
Lemma ratio_finite :
  isFinite (roundTo f (safeDiv (of_Z n) (of_Z d))) = true.
Proof.
  apply roundTo_finite; [exact Hf|].
  eapply fitsE_finite, safeDiv_int53; apply of_Z_int53; assumption.
Qed.

(** [safeDiv(n, d) * k] rounded *)
Lemma percent_finite :
  isFinite (roundTo f (mul (safeDiv (of_Z n) (of_Z d)) (of_Z k))) = true.
Proof.
  apply roundTo_finite; [exact Hf|].
  eapply fitsE_finite, percent_fits;
    [apply safeDiv_int53|]; apply of_Z_int53; assumption.
Qed.

(** [safeDiv(n, d / 3)] rounded *)
Lemma per_innings_finite :
  isFinite (roundTo f (safeDiv (of_Z n) (inningsOf d))) = true.
Proof.
  apply roundTo_finite; [exact Hf|].
  eapply fitsE_finite, safeDiv_int53_by_ratio; [apply of_Z_int53; assumption|].
  apply inningsOf_fits; assumption.
Qed.

(** [safeDiv(n, d) + safeDiv(a, b)] rounded *)
Lemma sum_finite :
  Z.abs a < 2 ^ 53 -> Z.abs b < 2 ^ 53 ->
  isFinite (roundTo f (add (safeDiv (of_Z n) (of_Z d))
                           (safeDiv (of_Z a) (of_Z b)))) = true.
Proof.
  intros Ha Hb; apply roundTo_finite; [exact Hf|].
  eapply fitsE_finite, add_fits; apply safeDiv_int53; apply of_Z_int53;
    assumption.
Qed.

(** [safeDiv(n, d) - safeDiv(a, b)] rounded *)
Lemma diff_finite :
  Z.abs a < 2 ^ 53 -> Z.abs b < 2 ^ 53 ->
  isFinite (roundTo f (sub (safeDiv (of_Z n) (of_Z d))
                           (safeDiv (of_Z a) (of_Z b)))) = true.
Proof.
  intros Ha Hb; apply roundTo_finite; [exact Hf|].
  eapply fitsE_finite, sub_fits; apply safeDiv_int53; apply of_Z_int53;
    assumption.
Qed.

End FiniteRates.

Lemma batSummary_finite s :
  batCountsBelow (2 ^ 40) s ->
  isFinite (b_avg (batSummary s)) = true /\
  isFinite (b_obp (batSummary s)) = true /\
  isFinite (b_slg (batSummary s)) = true /\
  isFinite (b_ops (batSummary s)) = true /\
  isFinite (b_bbK (batSummary s)) = true /\
  isFinite (b_isoD (batSummary s)) = true.
Proof.
  unfold batCountsBelow; intros H.
  cbn [batSummary b_avg b_obp b_slg b_ops b_bbK b_isoD].
  unfold rawAvg, rawObp, rawSlg, totalBases.
  repeat split;
    first [apply ratio_finite | apply sum_finite | apply diff_finite]; lia.
Qed.

Lemma pitSummary_finite s :
  pitCountsBelow (2 ^ 40) s ->
  isFinite (p_era (pitSummary s)) = true /\
  isFinite (p_whip (pitSummary s)) = true /\
  isFinite (p_kbb (pitSummary s)) = true /\
  isFinite (p_inningsVal (pitSummary s)) = true.
Proof.
  unfold pitCountsBelow; intros H.
  cbn [pitSummary p_era p_whip p_kbb p_inningsVal]. unfold rawEra.
  repeat split;
    first [apply per_innings_finite | apply ratio_finite
          | eapply fitsE_finite, inningsOf_fits]; lia.
Qed.

(* ================================================================== *)
(** * Safe division and the rates of the summaries *)
(* ================================================================== *)

Lemma of_Z_0 : of_Z 0 = pzero.
Proof. reflexivity. Qed.

Lemma inningsOf_0 : inningsOf 0 = pzero.
Proof. reflexivity. Qed.

Lemma safeDiv_by_zero a b : strict_eq b pzero = true -> safeDiv a b = pzero.
Proof. intros H; unfold safeDiv; rewrite H; reflexivity. Qed.

Lemma safeDiv_0 a : safeDiv a (of_Z 0) = pzero.
Proof. apply safeDiv_by_zero; reflexivity. Qed.

Lemma aggregatedBatting_summary rows p :
  In p (aggregatedBatting rows) -> exists s, p = batSummary s.
Proof.
  unfold aggregatedBatting; intros H.
  apply (proj1 (sort_In _ _ _)), (proj1 (in_map_iff _ _ _)) in H.
  destruct H as [s [<- _]]; exists s; reflexivity.
Qed.

Lemma aggregatedPitching_summary rows p :
  In p (aggregatedPitching rows) -> exists s, p = pitSummary s.
Proof.
  unfold aggregatedPitching; intros H.
  apply (proj1 (sort_In _ _ _)), (proj1 (in_map_iff _ _ _)) in H.
  destruct H as [s [<- _]]; exists s; reflexivity.
Qed.

(** C4, the claim as stated fails: two finite numbers, the binary64
    values of 1e308 and 0.1, whose safe quotient is Infinity; and a NaN
    numerator makes the result NaN. *)
Lemma safeDiv_overflow_counterexample :
  wellFormed Sample.big = true /\ isFinite Sample.big = true /\
  wellFormed Sample.tenth = true /\ isFinite Sample.tenth = true /\
  safeDiv Sample.big Sample.tenth = pinf /\
  isFinite (safeDiv Sample.big Sample.tenth) = false /\
  isNaN (safeDiv S754_nan (of_Z 1)) = true.
Proof. repeat split; vm_compute; reflexivity. Qed.

Lemma walk_length games :
  forall wins played out,
    Games.walk wins played games = Some out ->
    List.length out = List.length games.
Proof.
  induction games as [|g games IH]; intros wins played out E;
    cbn [Games.walk] in E.
  - injection E as <-; reflexivity.
  - cbv zeta in E.
    destruct (Games.labelOf g) as [label|]; [|discriminate E].
    destruct (Games.walk _ _ games) as [results|] eqn:Ew; [|discriminate E].
    injection E as <-; cbn [List.length]; f_equal.
    eapply IH; exact Ew.
Qed.

(** The winning percentage of a series is a quotient by the number of
    games so far, which is never zero. *)
Lemma walk_percentage_finite games :
  forall wins played out r,
    0 <= wins -> 0 <= played ->
    wins + Z.of_nat (List.length games) < 2 ^ 53 ->
    played + Z.of_nat (List.length games) < 2 ^ 53 ->
    Games.walk wins played games = Some out ->
    In r out ->
    isFinite (gr_winningPercentage r) = true.
Proof.
  induction games as [|g games IH]; intros wins played out r Hw Hp Bw Bp E Hr;
    cbn [Games.walk] in E.
  - injection E as <-; contradiction.
  - cbv zeta in E; cbn [List.length] in Bw, Bp.
    destruct (Games.labelOf g) as [label|]; [|discriminate E].
    destruct (Games.walk _ _ games) as [results|] eqn:Ew; [|discriminate E].
    injection E as <-; destruct Hr as [<-|Hr].
    + cbn [gr_winningPercentage]; apply ratio_finite; [lia| |lia].
      destruct (Games.isWin (Games.outcome g)); lia.
    + apply (IH _ _ results r) in Ew; try assumption; try lia;
        destruct (Games.isWin (Games.outcome g)); lia.
Qed.

(** C4, amended: for all numbers [a] and [b], [safeDiv a b] is 0 when [b]
    is zero (of either sign, whatever [a] is), [safeDiv 0 b] is 0 when
    [b > 0], and a NaN or infinite result arises only from a nonzero [b],
    as the quotient [a / b] itself.  Hence on every path a rate whose
    denominator is zero is the number 0: in the batting and pitching
    summaries, in the buckets of the team trend, of the monthly trends and
    of the player trends, and in the team totals, which show 0.000 and
    0.00; the winning percentage of a game has a denominator of at least
    1.  And every rate is a finite number when the counters behind it are
    below 2^40 in absolute value (the winning percentage, when the games
    are fewer than 2^40). *)
Theorem safeDiv_zero_denominator :
  (forall a b, strict_eq b pzero = true -> safeDiv a b = pzero) /\
  (forall b, lt pzero b = true -> safeDiv pzero b = pzero) /\
  (forall a b, isFinite (safeDiv a b) = false ->
     strict_eq b pzero = false /\ safeDiv a b = div a b) /\
  (forall s, bs_ab s = 0 ->
     b_avg (batSummary s) = pzero /\ b_slg (batSummary s) = pzero) /\
  (forall s, bs_ab s + bs_bb s + bs_hbp s + bs_sf s = 0 ->
     b_obp (batSummary s) = pzero) /\
  (forall s, bs_so s = 0 -> b_bbK (batSummary s) = pzero) /\
  (forall s, ps_outs s = 0 ->
     p_era (pitSummary s) = pzero /\ p_whip (pitSummary s) = pzero) /\
  (forall s, ps_bb s = 0 -> p_kbb (pitSummary s) = pzero) /\
  (forall s, batCountsBelow (2 ^ 40) s ->
     isFinite (b_avg (batSummary s)) = true /\
     isFinite (b_obp (batSummary s)) = true /\
     isFinite (b_slg (batSummary s)) = true /\
     isFinite (b_ops (batSummary s)) = true /\
     isFinite (b_bbK (batSummary s)) = true /\
     isFinite (b_isoD (batSummary s)) = true) /\
  (forall s, pitCountsBelow (2 ^ 40) s ->
     isFinite (p_era (pitSummary s)) = true /\
     isFinite (p_whip (pitSummary s)) = true /\
     isFinite (p_kbb (pitSummary s)) = true /\
     isFinite (p_inningsVal (pitSummary s)) = true) /\
  (* the summaries: the rates made of two quotients *)
  (forall s, bs_ab s + bs_bb s + bs_hbp s + bs_sf s = 0 -> bs_ab s = 0 ->
     b_ops (batSummary s) = pzero /\ b_isoD (batSummary s) = pzero) /\
  (* the team trend *)
  (forall m, tb_ab m = 0 -> tbb_avg (TeamTrend.batBucket m) = pzero) /\
  (forall m, tb_ab m + tb_bb m + tb_hbp m + tb_sf m = 0 ->
     tbb_bbRate (TeamTrend.batBucket m) = pzero
     /\ tbb_soRate (TeamTrend.batBucket m) = pzero
     /\ (tb_ab m = 0 -> tbb_ops (TeamTrend.batBucket m) = pzero)) /\
  (forall m, tp_outs m = 0 ->
     tpb_era (TeamTrend.pitBucket m) = pzero
     /\ tpb_whip (TeamTrend.pitBucket m) = pzero
     /\ tpb_kPer7 (TeamTrend.pitBucket m) = pzero
     /\ tpb_bbPer7 (TeamTrend.pitBucket m) = pzero) /\
  (forall m, tp_pitches m = 0 ->
     tpb_strikeRate (TeamTrend.pitBucket m) = pzero) /\
  (forall m,
     allBelow (2 ^ 40)
       [tb_ab m; tb_h m; tb_bb m; tb_hbp m; tb_sf m; tb_doubles m;
        tb_triples m; tb_hr m; tb_so m] ->
     isFinite (tbb_avg (TeamTrend.batBucket m)) = true
     /\ isFinite (tbb_ops (TeamTrend.batBucket m)) = true
     /\ isFinite (tbb_bbRate (TeamTrend.batBucket m)) = true
     /\ isFinite (tbb_soRate (TeamTrend.batBucket m)) = true) /\
  (forall m,
     allBelow (2 ^ 40)
       [tp_outs m; tp_er m; tp_h m; tp_bb m; tp_hbp m; tp_so m; tp_s m;
        tp_pitches m] ->
     isFinite (tpb_era (TeamTrend.pitBucket m)) = true
     /\ isFinite (tpb_whip (TeamTrend.pitBucket m)) = true
     /\ isFinite (tpb_kPer7 (TeamTrend.pitBucket m)) = true
     /\ isFinite (tpb_bbPer7 (TeamTrend.pitBucket m)) = true
     /\ isFinite (tpb_strikeRate (TeamTrend.pitBucket m)) = true) /\
  (* the monthly trends *)
  (forall m, mb_ab m = 0 ->
     mbb_avg (MonthlyTrend.batBucket m) = pzero
     /\ (mb_ab m + mb_bb m + mb_hbp m + mb_sf m = 0 ->
         mbb_ops (MonthlyTrend.batBucket m) = pzero)) /\
  (forall m, mp_pitches m = 0 ->
     mpb_strikeRate (MonthlyTrend.pitBucket m) = pzero) /\
  (forall m,
     allBelow (2 ^ 40)
       [mb_ab m; mb_h m; mb_bb m; mb_hbp m; mb_sf m; mb_doubles m;
        mb_triples m; mb_hr m] ->
     isFinite (mbb_avg (MonthlyTrend.batBucket m)) = true
     /\ isFinite (mbb_ops (MonthlyTrend.batBucket m)) = true) /\
  (forall m, allBelow (2 ^ 40) [mp_s m; mp_pitches m] ->
     isFinite (mpb_strikeRate (MonthlyTrend.pitBucket m)) = true) /\
  (* the player trends *)
  (forall key opponent c ps, cu_ab c = 0 ->
     bt_avg (BattingTrend.bucket key opponent c ps) = pzero
     /\ bt_slg (BattingTrend.bucket key opponent c ps) = pzero) /\
  (forall key opponent c ps, cu_ab c + cu_bb c + cu_hbp c + cu_sf c = 0 ->
     bt_obp (BattingTrend.bucket key opponent c ps) = pzero
     /\ bt_bbRate (BattingTrend.bucket key opponent c ps) = pzero
     /\ bt_soRate (BattingTrend.bucket key opponent c ps) = pzero
     /\ (cu_ab c = 0 ->
         bt_ops (BattingTrend.bucket key opponent c ps) = pzero)) /\
  (forall key opponent c ps, pu_outs c = 0 ->
     pt_era (PitchingTrend.bucket key opponent c ps) = pzero
     /\ pt_whip (PitchingTrend.bucket key opponent c ps) = pzero
     /\ pt_kPer7 (PitchingTrend.bucket key opponent c ps) = pzero
     /\ pt_bbPer7 (PitchingTrend.bucket key opponent c ps) = pzero) /\
  (forall key opponent c ps, pu_bb c = 0 ->
     pt_kbb (PitchingTrend.bucket key opponent c ps) = pzero) /\
  (forall key opponent c ps, pc_pitches ps = 0 ->
     pt_strikeRate (PitchingTrend.bucket key opponent c ps) = pzero) /\
  (forall key opponent c ps,
     allBelow (2 ^ 40)
       [cu_ab c; cu_h c; cu_bb c; cu_hbp c; cu_sf c; cu_doubles c;
        cu_triples c; cu_hr c; cu_so c] ->
     isFinite (bt_avg (BattingTrend.bucket key opponent c ps)) = true
     /\ isFinite (bt_obp (BattingTrend.bucket key opponent c ps)) = true
     /\ isFinite (bt_slg (BattingTrend.bucket key opponent c ps)) = true
     /\ isFinite (bt_ops (BattingTrend.bucket key opponent c ps)) = true
     /\ isFinite (bt_bbRate (BattingTrend.bucket key opponent c ps)) = true
     /\ isFinite (bt_soRate (BattingTrend.bucket key opponent c ps)) = true) /\
  (forall key opponent c ps,
     allBelow (2 ^ 40)
       [pu_outs c; pu_er c; pu_bb c; pu_hbp c; pu_h c; pu_so c;
        pc_outs ps; pc_strikes ps; pc_pitches ps] ->
     isFinite (pt_era (PitchingTrend.bucket key opponent c ps)) = true
     /\ isFinite (pt_whip (PitchingTrend.bucket key opponent c ps)) = true
     /\ isFinite (pt_kbb (PitchingTrend.bucket key opponent c ps)) = true
     /\ isFinite (pt_kPer7 (PitchingTrend.bucket key opponent c ps)) = true
     /\ isFinite (pt_bbPer7 (PitchingTrend.bucket key opponent c ps)) = true
     /\ isFinite (pt_innings (PitchingTrend.bucket key opponent c ps)) = true
     /\ isFinite (pt_strikeRate (PitchingTrend.bucket key opponent c ps))
        = true) /\
  (* the team totals *)
  (forall nts bat aggB aggP ts,
     teamStats nts bat aggB aggP = Some ts ->
     let totalAB := sumBy (fun cur => bs_ab (b_stats cur)) aggB in
     let totalH := sumBy (fun cur => bs_h (b_stats cur)) aggB in
     let totalER := sumBy (fun cur => ps_er (p_stats cur)) aggP in
     let totalOuts := sumBy (fun cur => ps_outs (p_stats cur)) aggP in
     (totalAB = 0 -> ts_teamAvg ts = "0.000"%string)
     /\ (totalOuts = 0 -> ts_teamERA ts = "0.00"%string)
     /\ (allBelow (2 ^ 40) [totalAB; totalH; totalER; totalOuts] ->
         exists avg era,
           ts_teamAvg ts = JsFormat.toFixed nts 3 avg
           /\ ts_teamERA ts = JsFormat.toFixed nts 2 era
           /\ isFinite avg = true /\ isFinite era = true)) /\
  (* the winning percentage *)
  (forall host bat pit out r,
     Games.gameByGameStats host bat pit = Some out ->
     Z.of_nat (List.length out) < 2 ^ 40 ->
     In r out ->
     isFinite (gr_winningPercentage r) = true).
Proof.
  split; [exact safeDiv_by_zero|].
  split.
  { intros b Hb; unfold safeDiv.
    destruct b as [s|s| |s m e]; try discriminate; destruct s;
      try discriminate; reflexivity. }
  split.
  { intros a b H; unfold safeDiv in *.
    destruct (strict_eq b pzero); [discriminate|auto]. }
  split.
  { intros s H; unfold batSummary, rawAvg, rawSlg; simpl; rewrite H.
    rewrite !safeDiv_by_zero by reflexivity; split; reflexivity. }
  split.
  { intros s H; unfold batSummary, rawObp; simpl; rewrite H.
    rewrite !safeDiv_by_zero by reflexivity; reflexivity. }
  split.
  { intros s H; unfold batSummary; simpl; rewrite H.
    rewrite !safeDiv_by_zero by reflexivity; reflexivity. }
  split.
  { intros s H; unfold pitSummary, rawEra; simpl; rewrite H, inningsOf_0.
    rewrite !safeDiv_by_zero by reflexivity; split; reflexivity. }
  split.
  { intros s H; unfold pitSummary; simpl; rewrite H.
    rewrite !safeDiv_by_zero by reflexivity; reflexivity. }
  split; [exact batSummary_finite|].
  split; [exact pitSummary_finite|].
  split.
  { intros s Hpa Hab; unfold batSummary, rawObp, rawSlg, rawAvg.
    cbv zeta; cbn [b_ops b_isoD]; rewrite Hpa, Hab.
    rewrite !safeDiv_by_zero by reflexivity; split; reflexivity. }
  split.
  { intros m H; unfold TeamTrend.batBucket; cbv zeta; cbn [tbb_avg].
    rewrite H, safeDiv_by_zero by reflexivity; reflexivity. }
  split.
  { intros m H; unfold TeamTrend.batBucket; cbv zeta.
    cbn [tbb_bbRate tbb_soRate tbb_ops]; rewrite H.
    rewrite !safeDiv_0.
    split; [reflexivity|]; split; [reflexivity|].
    intros ->; rewrite safeDiv_by_zero by reflexivity; reflexivity. }
  split.
  { intros m H; unfold TeamTrend.pitBucket; cbv zeta.
    cbn [tpb_era tpb_whip tpb_kPer7 tpb_bbPer7]; rewrite H, inningsOf_0.
    rewrite !safeDiv_by_zero by reflexivity; repeat split. }
  split.
  { intros m H; unfold TeamTrend.pitBucket; cbv zeta; cbn [tpb_strikeRate].
    rewrite H, safeDiv_by_zero by reflexivity; reflexivity. }
  split.
  { intros m H; cbn [allBelow] in H; unfold TeamTrend.batBucket; cbv zeta.
    cbn [tbb_avg tbb_ops tbb_bbRate tbb_soRate].
    repeat split;
      first [apply ratio_finite | apply sum_finite | apply percent_finite];
      lia. }
  split.
  { intros m H; cbn [allBelow] in H; unfold TeamTrend.pitBucket; cbv zeta.
    cbn [tpb_era tpb_whip tpb_kPer7 tpb_bbPer7 tpb_strikeRate].
    repeat split;
      first [apply per_innings_finite | apply percent_finite]; lia. }
  split.
  { intros m H; unfold MonthlyTrend.batBucket; cbv zeta.
    cbn [mbb_avg mbb_ops].
    split; [rewrite H, safeDiv_by_zero by reflexivity; reflexivity|].
    intros Hpa; rewrite Hpa, H.
    rewrite !safeDiv_by_zero by reflexivity; reflexivity. }
  split.
  { intros m H; unfold MonthlyTrend.pitBucket; cbv zeta; cbn [mpb_strikeRate].
    rewrite H, safeDiv_by_zero by reflexivity; reflexivity. }
  split.
  { intros m H; cbn [allBelow] in H; unfold MonthlyTrend.batBucket; cbv zeta.
    cbn [mbb_avg mbb_ops].
    split; [apply ratio_finite | apply sum_finite]; lia. }
  split.
  { intros m H; cbn [allBelow] in H; unfold MonthlyTrend.pitBucket; cbv zeta.
    cbn [mpb_strikeRate]; apply percent_finite; lia. }
  split.
  { intros key opponent c ps H; unfold BattingTrend.bucket; cbv zeta.
    cbn [bt_avg bt_slg]; rewrite H.
    rewrite !safeDiv_by_zero by reflexivity; split; reflexivity. }
  split.
  { intros key opponent c ps H; unfold BattingTrend.bucket; cbv zeta.
    cbn [bt_obp bt_bbRate bt_soRate bt_ops]; rewrite H.
    rewrite !safeDiv_0.
    split; [reflexivity|]; split; [reflexivity|]; split; [reflexivity|].
    intros ->; rewrite safeDiv_by_zero by reflexivity; reflexivity. }
  split.
  { intros key opponent c ps H; unfold PitchingTrend.bucket; cbv zeta.
    cbn [pt_era pt_whip pt_kPer7 pt_bbPer7]; rewrite H, inningsOf_0.
    rewrite !safeDiv_by_zero by reflexivity; repeat split. }
  split.
  { intros key opponent c ps H; unfold PitchingTrend.bucket; cbv zeta.
    cbn [pt_kbb]; rewrite H, safeDiv_by_zero by reflexivity; reflexivity. }
  split.
  { intros key opponent c ps H; unfold PitchingTrend.bucket; cbv zeta.
    cbn [pt_strikeRate]; rewrite H, safeDiv_by_zero by reflexivity.
    reflexivity. }
  split.
  { intros key opponent c ps H; cbn [allBelow] in H.
    unfold BattingTrend.bucket; cbv zeta.
    cbn [bt_avg bt_obp bt_slg bt_ops bt_bbRate bt_soRate].
    repeat split;
      first [apply ratio_finite | apply sum_finite | apply percent_finite];
      lia. }
  split.
  { intros key opponent c ps H; cbn [allBelow] in H.
    unfold PitchingTrend.bucket; cbv zeta.
    cbn [pt_era pt_whip pt_kbb pt_kPer7 pt_bbPer7 pt_innings pt_strikeRate].
    repeat split;
      first [apply per_innings_finite | apply ratio_finite
            | apply percent_finite
            | (apply roundTo_finite;
               [|eapply fitsE_finite, inningsOf_fits])]; lia. }
  split.
  { intros nts bat aggB aggP ts E; cbv zeta.
    unfold teamStats in E; destruct bat as [|row bat]; [discriminate E|].
    cbv zeta in E; injection E as <-; cbn [ts_teamAvg ts_teamERA].
    split; [|split].
    - intros ->; rewrite safeDiv_by_zero by reflexivity; reflexivity.
    - intros ->; rewrite inningsOf_0, safeDiv_by_zero by reflexivity.
      reflexivity.
    - intros H; cbn [allBelow] in H.
      eexists; eexists; split; [reflexivity|]; split; [reflexivity|].
      split.
      + eapply fitsE_finite, safeDiv_int53; apply of_Z_int53; lia.
      + eapply fitsE_finite, safeDiv_int53_by_ratio;
          [apply of_Z_int53 | apply inningsOf_fits]; lia. }
  intros host bat pit out r E Hlen Hr.
  unfold Games.gameByGameStats in E.
  destruct bat as [|row bat]; [injection E as <-; contradiction|].
  pose proof (walk_length _ _ _ _ E) as Hl.
  apply (walk_percentage_finite _ 0 0 out r) in E; try assumption; lia.
Qed.

Lemma safeDiv_zero_denominator_witness :
  batCountsBelow (2 ^ 40) (b_stats Sample.hitlessLine) /\
  bs_ab (b_stats Sample.hitlessLine) = 0 /\
  b_avg Sample.hitlessLine = pzero /\
  isFinite (b_ops Sample.hitlessLine) = true.
Proof.
  pose proof safeDiv_zero_denominator
    as [_ [_ [_ [Hab [_ [_ [_ [_ [Hfin _]]]]]]]]].
  assert (Hc : batCountsBelow (2 ^ 40) (b_stats Sample.hitlessLine))
    by (vm_compute; repeat split; reflexivity).
  split; [exact Hc|].
  split; [reflexivity|].
  split.
  - exact (proj1 (Hab (b_stats Sample.hitlessLine) eq_refl)).
  - exact (proj1 (proj2 (proj2 (proj2 (Hfin _ Hc))))).
Defined.

(** C5: every pitching summary carries
    [era = round2 ((earnedRuns * 7) / (outs / 3))], the division being the
    safe one; 7 earned runs over 9 outs give 16.33, and no earned run gives
    0 (for any number of outs, in particular a positive one). *)
Theorem era_seven_inning_scale rows p :
  In p (aggregatedPitching rows) ->
  p_era p
  = roundTo 2 (safeDiv (of_Z (ps_er (p_stats p) * 7))
                       (div (of_Z (ps_outs (p_stats p))) (of_Z 3)))
  /\ (ps_er (p_stats p) = 7 -> ps_outs (p_stats p) = 9 ->
      p_era p = dec false 1633 2)
  /\ (ps_er (p_stats p) = 0 -> 0 < ps_outs (p_stats p) ->
      p_era p = pzero).
Proof.
  intros H; apply aggregatedPitching_summary in H; destruct H as [s ->].
  simpl; split; [reflexivity|]; split.
  - intros -> ->; vm_compute; reflexivity.
  - intros -> _; unfold rawEra; simpl.
    apply safeDiv_zero_numerator, inningsOf_not_nan.
Qed.

Lemma era_seven_inning_scale_witness :
  exists p, In p (aggregatedPitching Sample.sevenInThree)
            /\ p_era p = dec false 1633 2.
Proof.
  eexists; split; [left; reflexivity|].
  refine (proj1 (proj2 (era_seven_inning_scale Sample.sevenInThree _ _)) _ _);
    [left|..]; reflexivity.
Defined.

(** C3, the claim as stated fails: one single in three at-bats stores
    obp = 0.333 and slg = 0.333, whose sum rounds to 0.666, while the
    stored ops is 0.667. *)
Lemma ops_of_stored_rates_counterexample :
  exists p, aggregatedBatting Sample.oneForThree = [p]
    /\ b_obp p = dec false 333 3 /\ b_slg p = dec false 333 3
    /\ b_ops p = dec false 667 3
    /\ roundTo 3 (add (b_obp p) (b_slg p)) = dec false 666 3
    /\ b_ops p <> roundTo 3 (add (b_obp p) (b_slg p)).
Proof.
  eexists; split; [reflexivity|].
  repeat split; try (vm_compute; reflexivity).
  vm_compute; discriminate.
Qed.

(** C3, amended: the ops of every batting summary is the 3-decimal
    rounding of the sum of the unrounded on-base and slugging rates of its
    counting stats; obp and slg are stored as the separate 3-decimal
    roundings of those same unrounded rates. *)
Theorem ops_rounds_unrounded_sum rows p :
  In p (aggregatedBatting rows) ->
  b_ops p = roundTo 3 (add (rawObp (b_stats p)) (rawSlg (b_stats p)))
  /\ b_obp p = roundTo 3 (rawObp (b_stats p))
  /\ b_slg p = roundTo 3 (rawSlg (b_stats p)).
Proof.
  intros H; apply aggregatedBatting_summary in H; destruct H as [s ->].
  repeat split.
Qed.

Lemma ops_rounds_unrounded_sum_witness :
  exists p, In p (aggregatedBatting Sample.oneForThree)
            /\ b_ops p = roundTo 3 (add (rawObp (b_stats p)) (rawSlg (b_stats p))).
Proof.
  eexists; split; [left; reflexivity|].
  refine (proj1 (ops_rounds_unrounded_sum Sample.oneForThree _ _));
    left; reflexivity.
Defined.

(* ================================================================== *)
(** * Dates: parsing, filtering, period keys *)
(* ================================================================== *)

Lemma TimeClip_Some t t' :
  JsDate.TimeClip t = Some t' -> t' = t /\ Z.abs t <= JsDate.maxTime.
Proof.
  unfold JsDate.TimeClip; destruct (JsDate.maxTime <? Z.abs t) eqn:E;
    [discriminate|].
  intros [= <-]; split; [reflexivity | apply Z.ltb_ge, E].
Qed.

(** [parseDate] never returns an Invalid Date: what no parser reads
    becomes the epoch. *)
Lemma parseDate_valid host s :
  exists t, parseDate host s = Some t /\ Z.abs t <= JsDate.maxTime.
Proof.
  unfold parseDate.
  destruct (negb (JsString.truthy s)).
  { exists 0; split; [reflexivity | discriminate]. }
  destruct (parseDate_primary host s) as [t|] eqn:E1.
  { exists t; split; [reflexivity|].
    unfold parseDate_primary in E1.
    destruct (JsString.split_on is_date_sep s) as [|p0 [|p1 [|p2 [|? ?]]]];
      try discriminate.
    destruct (JsString.parseInt10 p0), (JsString.parseInt10 p1),
      (JsString.parseInt10 p2); try discriminate.
    apply TimeClip_Some in E1; destruct E1 as [-> E1]; exact E1. }
  destruct (Date_of_string host s) as [t|] eqn:E2.
  { exists t; split; [reflexivity|].
    unfold Date_of_string in E2.
    destruct (Date_parse host s); [|discriminate].
    apply TimeClip_Some in E2; destruct E2 as [-> E2]; exact E2. }
  exists 0; split; [reflexivity | discriminate].
Qed.

Lemma parseDate_parsedTime host s :
  parseDate host s = Some (parsedTime host s).
Proof.
  unfold parsedTime; destruct (parseDate_valid host s) as [t [-> _]];
    reflexivity.
Qed.

Lemma parsedTime_range host s : Z.abs (parsedTime host s) <= JsDate.maxTime.
Proof.
  unfold parsedTime; destruct (parseDate_valid host s) as [t [-> H]]; exact H.
Qed.

(** A date that fails to parse is the epoch to every reader. *)
Lemma parseDate_sentinel host s :
  parseDate_primary host s = None -> Date_of_string host s = None ->
  parseDate host s = Some 0.
Proof.
  intros H1 H2; unfold parseDate; rewrite H1, H2.
  destruct (negb (JsString.truthy s)); reflexivity.
Qed.

(** The guard [isNaN(d.getTime())] of the three [getKey] functions never
    fires. *)
Lemma TeamTrend_getKey_total host row period :
  TeamTrend.getKey host row period <> None.
Proof.
  unfold TeamTrend.getKey; rewrite parseDate_parsedTime.
  destruct period; discriminate.
Qed.

Lemma PlayerTrend_getKey_total host row period :
  PlayerTrend.getKey host row period
  = match period with
    | Game => c_date row
    | _ => TeamTrend.getKey host row period
    end.
Proof.
  unfold PlayerTrend.getKey, TeamTrend.getKey; rewrite parseDate_parsedTime.
  destruct period; reflexivity.
Qed.

Lemma rowPasses_conj host f row :
  rowPasses host f row
  = dateInRange host f row && teamInKeyword host f row && categoryMatches f row.
Proof.
  unfold rowPasses, teamInKeyword, categoryMatches.
  destruct (dateInRange host f row); simpl; [|reflexivity].
  destruct (JsString.truthy (teamKeyword f)); simpl.
  - destruct (teamMatches host (teamKeyword f) row); simpl; [|reflexivity].
    destruct (String.eqb (category f) "all"); simpl; [reflexivity|].
    destruct (is_string (c_title row) (category f)); reflexivity.
  - destruct (String.eqb (category f) "all"); simpl; [reflexivity|].
    destruct (is_string (c_title row) (category f)); reflexivity.
Qed.

(** The day-of-era arithmetic of the calendar: the year and the day of
    the year stay in range. *)
Lemma day_of_era_bounds doe :
  0 <= doe < 146097 ->
  let yoe := (doe - doe / 1460 + doe / 36524 - doe / 146096) / 365 in
  0 <= yoe <= 399 /\ 0 <= doe - (365 * yoe + yoe / 4 - yoe / 100) <= 365.
Proof.
  intros H; cbv zeta.
  Z.to_euclidean_division_equations; lia.
Qed.

(** A day number is the day number of its calendar date. *)
Lemma civil_roundtrip z :
  JsDate.days_from_civil (fst (fst (JsDate.civil_from_days z)))
                         (snd (fst (JsDate.civil_from_days z)))
                         (snd (JsDate.civil_from_days z)) = z
  /\ 1 <= snd (fst (JsDate.civil_from_days z)) <= 12.
Proof.
  unfold JsDate.civil_from_days.
  set (z' := z + 719468).
  set (era := z' / 146097).
  set (doe := z' - era * 146097).
  assert (Hdoe : 0 <= doe < 146097).
  { subst doe era. Z.to_euclidean_division_equations; lia. }
  destruct (day_of_era_bounds doe Hdoe) as [Hy Hd].
  set (yoe := (doe - doe / 1460 + doe / 36524 - doe / 146096) / 365) in *.
  set (doy := doe - (365 * yoe + yoe / 4 - yoe / 100)) in *.
  set (mp := (5 * doy + 2) / 153).
  assert (Hmp : 0 <= mp <= 11).
  { subst mp. Z.to_euclidean_division_equations; lia. }
  set (m := if mp <? 10 then mp + 3 else mp - 9).
  assert (Hm : 1 <= m <= 12 /\ (m + 9) mod 12 = mp).
  { subst m. destruct (Z.ltb_spec mp 10).
    - split; [lia|]. replace (mp + 3 + 9) with (mp + 1 * 12) by lia.
      rewrite Z.mod_add by lia. apply Z.mod_small; lia.
    - split; [lia|]. replace (mp - 9 + 9) with mp by lia.
      apply Z.mod_small; lia. }
  destruct Hm as [Hm1 Hm2].
  cbn [fst snd]; split; [|exact Hm1].
  unfold JsDate.days_from_civil. rewrite Hm2.
  assert (Hy' : (if m <=? 2
                 then (if m <=? 2 then yoe + era * 400 + 1
                       else yoe + era * 400) - 1
                 else (if m <=? 2 then yoe + era * 400 + 1
                       else yoe + era * 400))
                = yoe + era * 400).
  { destruct (m <=? 2); lia. }
  rewrite Hy'.
  assert (He : (yoe + era * 400) / 400 = era).
  { rewrite Z.div_add by lia. rewrite Z.div_small by lia. lia. }
  rewrite He.
  replace (yoe + era * 400 - era * 400) with yoe by lia.
  subst doy doe z'. lia.
Qed.

(** At a fixed offset the next calendar day is one day later. *)
Lemma nextDay_spec tz t :
  JsDate.nextDay tz (Some t) = JsDate.TimeClip (t + JsDate.msPerDay).
Proof.
  unfold JsDate.nextDay, JsDate.setDate, JsDate.getDate, JsDate.MakeDay.
  set (D := JsDate.Day (t + tz)).
  destruct (civil_roundtrip D) as [Hrt Hm].
  set (y := fst (fst (JsDate.civil_from_days D))) in *.
  set (m := snd (fst (JsDate.civil_from_days D))) in *.
  set (d := snd (JsDate.civil_from_days D)) in *.
  f_equal.
  assert (H1 : (m - 1) / 12 = 0) by (apply Z.div_small; lia).
  assert (H2 : (m - 1) mod 12 = m - 1) by (apply Z.mod_small; lia).
  rewrite H1, H2.
  replace (y + 0) with y by lia. replace (m - 1 + 1) with m by lia.
  assert (Hlin : JsDate.days_from_civil y m 1 + (d + 1) - 1 = D + 1).
  { rewrite <- Hrt; unfold JsDate.days_from_civil; lia. }
  rewrite Hlin.
  unfold JsDate.TimeWithinDay; subst D; unfold JsDate.Day, JsDate.msPerDay.
  Z.to_euclidean_division_equations; lia.
Qed.

Lemma nextDay_geb host s t :
  Z.abs t <= JsDate.maxTime ->
  JsDate.geb (Some t) (JsDate.nextDay (tza host) (parseDate host s))
  = (parsedTime host s + JsDate.msPerDay <=? t).
Proof.
  intros Ht; rewrite parseDate_parsedTime, nextDay_spec.
  pose proof (parsedTime_range host s) as Hs.
  unfold JsDate.TimeClip.
  destruct (JsDate.maxTime <? Z.abs (parsedTime host s + JsDate.msPerDay)) eqn:E;
    simpl.
  - symmetry; apply Z.leb_gt. apply Z.ltb_lt in E.
    unfold JsDate.maxTime, JsDate.msPerDay in *; lia.
  - reflexivity.
Qed.

(** C7: a row passes the date predicate exactly when its parsed date is
    at or after the parsed start date (when one is set) and before the
    parsed end date plus one day (when one is set); the predicate is one
    conjunct of the row filter; a row dated as the end date passes the end
    bound, and a row dated one day after it is excluded. *)
Theorem date_range_inclusive_end host f row :
  (dateInRange host f row = true <->
     (JsString.truthy (startDate f) = true ->
        parsedTime host (startDate f) <= parsedTime host (r_date row)) /\
     (JsString.truthy (endDate f) = true ->
        parsedTime host (r_date row)
        < parsedTime host (endDate f) + JsDate.msPerDay))
  /\ (forall data,
        In row (filterData host data f) <->
        In row data /\ dateInRange host f row = true
        /\ teamInKeyword host f row = true /\ categoryMatches f row = true)
  /\ (JsString.truthy (endDate f) = true ->
      (JsString.truthy (startDate f) = true ->
       parsedTime host (startDate f) <= parsedTime host (endDate f)) ->
      r_date row = endDate f -> dateInRange host f row = true)
  /\ (JsString.truthy (endDate f) = true ->
      parsedTime host (r_date row)
      = parsedTime host (endDate f) + JsDate.msPerDay ->
      dateInRange host f row = false).
Proof.
  assert (Hmain :
    dateInRange host f row = true <->
     (JsString.truthy (startDate f) = true ->
        parsedTime host (startDate f) <= parsedTime host (r_date row)) /\
     (JsString.truthy (endDate f) = true ->
        parsedTime host (r_date row)
        < parsedTime host (endDate f) + JsDate.msPerDay)).
  { unfold dateInRange.
    rewrite (parseDate_parsedTime host (r_date row)).
    rewrite (parseDate_parsedTime host (startDate f)).
    pose proof (parsedTime_range host (r_date row)) as Hr.
    destruct (JsString.truthy (startDate f)), (JsString.truthy (endDate f));
      cbv beta iota zeta;
      rewrite ?(nextDay_geb host (endDate f) _ Hr);
      unfold JsDate.ltb;
      repeat match goal with
             | |- context [?a <? ?b] => destruct (Z.ltb_spec a b)
             | |- context [?a <=? ?b] => destruct (Z.leb_spec a b)
             end;
      (split;
       [ intros Hd; try discriminate Hd; split; intros Ht;
         try discriminate Ht; lia
       | intros [H1 H2]; try reflexivity;
         try (specialize (H1 eq_refl); lia);
         try (specialize (H2 eq_refl); lia) ]). }
  split; [exact Hmain|]. split.
  { intros data; unfold filterData; rewrite filter_In, rowPasses_conj.
    rewrite !andb_true_iff; tauto. }
  split.
  - intros He Hs Hd; apply Hmain; split.
    + rewrite Hd; exact Hs.
    + intros _; rewrite Hd; unfold JsDate.msPerDay; lia.
  - intros He Hd.
    apply not_true_is_false; intros E.
    apply Hmain in E; destruct E as [_ E]; specialize (E He); lia.
Qed.

(** The boundary on the sample host: with the filter of October 2025, a
    line of 31 October passes and a line of 1 November does not. *)
Example october_boundary :
  dateInRange Sample.jst Sample.october (Sample.bat "a" "g" "2025-10-31" 3 1 0)
  = true
  /\ dateInRange Sample.jst Sample.october
       (Sample.bat "a" "g" "2025-11-01" 3 1 0) = false
  /\ dateInRange Sample.jst Sample.october
       (Sample.bat "a" "g" "2025-09-30" 3 1 0) = false
  /\ dateInRange Sample.jst Sample.october
       (Sample.bat "a" "g" "2025-10-01" 3 1 0) = true.
Proof. repeat split; vm_compute; reflexivity. Qed.

(* ================================================================== *)
(** * Maps and objects *)
(* ================================================================== *)

Section MapFacts.

Context {V : Type}.

Lemma JsMap_get_set (m : @JsMap.t V) k v k' :
  JsMap.get (JsMap.set m k v) k'
  = if String.eqb k k' then Some v else JsMap.get m k'.
Proof.
  induction m as [|[k0 v0] m IH]; simpl.
  - reflexivity.
  - destruct (String.eqb_spec k0 k) as [->|Hk]; simpl.
    + destruct (String.eqb k k'); reflexivity.
    + rewrite IH.
      destruct (String.eqb_spec k0 k') as [->|Hk']; [|reflexivity].
      destruct (String.eqb_spec k k') as [->|_]; [congruence|reflexivity].
Qed.

Lemma JsMap_set_keys (m : @JsMap.t V) k v :
  map fst (JsMap.set m k v)
  = if JsMap.has m k then map fst m else map fst m ++ [k].
Proof.
  unfold JsMap.has; induction m as [|[k0 v0] m IH]; simpl.
  - reflexivity.
  - destruct (String.eqb_spec k0 k) as [->|Hk]; simpl; [reflexivity|].
    rewrite IH; destruct (JsMap.get m k); reflexivity.
Qed.

Lemma JsMap_get_In (m : @JsMap.t V) k v :
  JsMap.get m k = Some v -> In (k, v) m.
Proof.
  induction m as [|[k0 v0] m IH]; simpl; [discriminate|].
  destruct (String.eqb_spec k0 k) as [->|Hk].
  - intros [= ->]; left; reflexivity.
  - intros H; right; apply IH, H.
Qed.

Lemma JsMap_In_get (m : @JsMap.t V) k v :
  NoDup (map fst m) -> In (k, v) m -> JsMap.get m k = Some v.
Proof.
  induction m as [|[k0 v0] m IH]; simpl; [contradiction|].
  intros Hnd [H|H]; inversion Hnd as [|? ? Hnot Hnd']; subst.
  - injection H as -> ->; rewrite String.eqb_refl; reflexivity.
  - destruct (String.eqb_spec k0 k) as [->|Hk].
    + exfalso; apply Hnot; change k with (fst (k, v)); apply in_map, H.
    + apply IH; assumption.
Qed.

Lemma JsMap_has_In (m : @JsMap.t V) k :
  JsMap.has m k = true <-> In k (map fst m).
Proof.
  unfold JsMap.has; induction m as [|[k0 v0] m IH]; simpl.
  - split; [discriminate | contradiction].
  - destruct (String.eqb_spec k0 k) as [->|Hk].
    + split; auto.
    + rewrite IH; split; [auto | intros [H|H]; [contradiction | exact H]].
Qed.

(** The entries of an object, listed in key order, are its entries. *)
Lemma JsObject_entries_perm (o : @JsObject.t V) :
  Permutation (JsObject.entries o) o.
Proof.
  unfold JsObject.entries.
  eapply perm_trans;
    [apply Permutation_app_tail, sort_perm|].
  induction o as [|kv o IH]; simpl; [apply perm_nil|].
  destruct (JsObject.is_index (fst kv)); simpl.
  - apply perm_skip, IH.
  - eapply perm_trans; [apply Permutation_sym, Permutation_middle|].
    apply perm_skip, IH.
Qed.

End MapFacts.

(* ================================================================== *)
(** * The order of strings *)
(* ================================================================== *)

Lemma digit_cases d :
  0 <= d <= 9 ->
  d = 0 \/ d = 1 \/ d = 2 \/ d = 3 \/ d = 4 \/ d = 5 \/ d = 6 \/ d = 7
  \/ d = 8 \/ d = 9.
Proof. lia. Qed.

Lemma digit_val_char d :
  0 <= d <= 9 -> JsString.digit_val (JsString.digit_char d) = Some d.
Proof.
  intros H; destruct (digit_cases d H)
    as [->|[->|[->|[->|[->|[->|[->|[->|[->| ->]]]]]]]]]; reflexivity.
Qed.

Lemma code_inj x y : JsString.code x = JsString.code y -> x = y.
Proof.
  unfold JsString.code; intros H; apply N2Z.inj in H.
  rewrite <- (ascii_N_embedding x), <- (ascii_N_embedding y), H; reflexivity.
Qed.

Lemma unit_weight_inj x y :
  JsString.unit_weight x = JsString.unit_weight y -> x = y.
Proof.
  unfold JsString.unit_weight; intros H; apply code_inj; revert H.
  generalize (JsString.code x) (JsString.code y); intros a b; cbv zeta.
  repeat match goal with
         | |- context [?u =? ?v] => destruct (Z.eqb_spec u v)
         end; lia.
Qed.

Lemma string_compare_eq a b : JsString.compare a b = Eq <-> a = b.
Proof.
  revert b; induction a as [|x a IH]; intros [|y b]; simpl;
    try (split; [discriminate | discriminate]); [tauto|].
  destruct (Z.compare_spec (JsString.unit_weight x) (JsString.unit_weight y))
    as [E|E|E].
  - apply unit_weight_inj in E; subst y; rewrite IH.
    split; [intros ->; reflexivity | intros [= ->]; reflexivity].
  - split; [discriminate | intros [= -> _]; lia].
  - split; [discriminate | intros [= -> _]; lia].
Qed.

Lemma string_compare_antisym a b :
  JsString.compare b a = CompOpp (JsString.compare a b).
Proof.
  revert b; induction a as [|x a IH]; intros [|y b]; simpl; try reflexivity.
  rewrite (Z.compare_antisym (JsString.unit_weight x)
             (JsString.unit_weight y)).
  destruct (JsString.unit_weight x ?= JsString.unit_weight y); simpl;
    [apply IH | reflexivity | reflexivity].
Qed.

Lemma string_compare_lt_trans a b c :
  JsString.compare a b = Lt -> JsString.compare b c = Lt ->
  JsString.compare a c = Lt.
Proof.
  revert b c; induction a as [|x a IH]; intros [|y b] [|z c]; simpl;
    try discriminate; try reflexivity.
  destruct (Z.compare_spec (JsString.unit_weight x) (JsString.unit_weight y))
    as [E1|E1|E1]; try discriminate;
    destruct (Z.compare_spec (JsString.unit_weight y) (JsString.unit_weight z))
      as [E2|E2|E2]; try discriminate; intros H1 H2.
  - rewrite E1, E2, Z.compare_refl; eapply IH; eassumption.
  - rewrite E1; apply Z.compare_lt_iff in E2; rewrite E2; reflexivity.
  - rewrite <- E2; apply Z.compare_lt_iff in E1; rewrite E1; reflexivity.
  - assert (E : JsString.unit_weight x < JsString.unit_weight z) by lia.
    apply Z.compare_lt_iff in E; rewrite E; reflexivity.
Qed.

(** The order of the code units is a total order of the strings. *)
Lemma leb_refl a : JsString.leb a a = true.
Proof.
  unfold JsString.leb, JsString.ltb.
  rewrite (proj2 (string_compare_eq a a) eq_refl); reflexivity.
Qed.

Lemma leb_antisym a b :
  JsString.leb a b = true -> JsString.leb b a = true -> a = b.
Proof.
  unfold JsString.leb, JsString.ltb; rewrite (string_compare_antisym a b).
  destruct (JsString.compare a b) eqn:E; simpl; try discriminate.
  intros _ _; apply string_compare_eq, E.
Qed.

Lemma leb_trans a b c :
  JsString.leb a b = true -> JsString.leb b c = true ->
  JsString.leb a c = true.
Proof.
  unfold JsString.leb, JsString.ltb.
  rewrite (string_compare_antisym a b), (string_compare_antisym b c),
    (string_compare_antisym a c).
  destruct (JsString.compare a b) eqn:E1; simpl; try discriminate; intros _.
  - apply string_compare_eq in E1; subst b; tauto.
  - destruct (JsString.compare b c) eqn:E2; simpl; try discriminate; intros _.
    + apply string_compare_eq in E2; subst c; rewrite E1; reflexivity.
    + rewrite (string_compare_lt_trans a b c E1 E2); reflexivity.
Qed.

Lemma leb_total a b : JsString.leb a b = false -> JsString.leb b a = true.
Proof.
  unfold JsString.leb, JsString.ltb; rewrite (string_compare_antisym a b).
  destruct (JsString.compare a b); simpl; congruence.
Qed.

Lemma ltb_leb a b :
  JsString.ltb a b = true <-> JsString.leb a b = true /\ a <> b.
Proof.
  unfold JsString.leb, JsString.ltb; rewrite (string_compare_antisym a b).
  destruct (JsString.compare a b) eqn:E; simpl.
  - apply string_compare_eq in E; split; [discriminate | tauto].
  - split; [intros _; split; [reflexivity|] | reflexivity].
    intros ->; rewrite (proj2 (string_compare_eq b b) eq_refl) in E.
    discriminate.
  - split; [discriminate | intros [H _]; discriminate].
Qed.

Section CodeUnits.
Import JsString.

Lemma unit_weight_low c :
  code c <= 253 ->
  unit_weight c
  = if (238 <=? code c) && (code c <=? 239) then code c + 16 else code c.
Proof.
  unfold unit_weight; cbv zeta; intros H.
  repeat match goal with
         | |- context [?u =? ?v] => destruct (Z.eqb_spec u v)
         end;
    destruct (Z.leb_spec 238 (code c)), (Z.leb_spec (code c) 239);
    cbn [andb]; lia.
Qed.

Lemma continuation_Some c x :
  continuation c = Some x -> 128 <= code c <= 191 /\ x = code c - 128.
Proof.
  unfold continuation.
  destruct (Z.leb_spec 128 (code c)), (Z.leb_spec (code c) 191); simpl;
    intros E; try discriminate E; injection E as <-; lia.
Qed.

Lemma decode1_FirstChar s u r : decode1 s = Some (u, r) -> FirstChar s u r.
Proof.
  destruct s as [|c1 r1]; [discriminate|]; unfold decode1; cbv zeta.
  destruct (Z.ltb_spec (code c1) 128) as [L1|L1].
  { intros [= <- <-]; constructor; assumption. }
  destruct ((194 <=? code c1) && (code c1 <=? 223)) eqn:K2.
  { apply andb_true_iff in K2; destruct K2 as [Ka Kb].
    apply Z.leb_le in Ka, Kb.
    destruct r1 as [|c2 r2]; [discriminate|].
    destruct (continuation c2) as [x2|] eqn:E2; [|discriminate].
    apply continuation_Some in E2; destruct E2 as [H2 ->].
    intros [= <- <-]; constructor; lia. }
  destruct ((224 <=? code c1) && (code c1 <=? 239)) eqn:K3.
  { apply andb_true_iff in K3; destruct K3 as [Ka Kb].
    apply Z.leb_le in Ka, Kb.
    destruct r1 as [|c2 [|c3 r3]]; try discriminate.
    destruct (continuation c2) as [x2|] eqn:E2; [|discriminate].
    destruct (continuation c3) as [x3|] eqn:E3; [|discriminate].
    apply continuation_Some in E2, E3.
    destruct E2 as [H2 ->], E3 as [H3 ->].
    match goal with
    | |- context [2048 <=? ?cp] =>
        destruct (Z.leb_spec 2048 cp), (Z.ltb_spec cp 55296),
          (Z.ltb_spec 57343 cp)
    end; cbn [andb orb]; try discriminate;
      intros [= <- <-]; constructor; lia. }
  destruct ((240 <=? code c1) && (code c1 <=? 244)) eqn:K4; [|discriminate].
  apply andb_true_iff in K4; destruct K4 as [Ka Kb].
  apply Z.leb_le in Ka, Kb.
  destruct r1 as [|c2 [|c3 [|c4 r4]]]; try discriminate.
  destruct (continuation c2) as [x2|] eqn:E2; [|discriminate].
  destruct (continuation c3) as [x3|] eqn:E3; [|discriminate].
  destruct (continuation c4) as [x4|] eqn:E4; [|discriminate].
  apply continuation_Some in E2, E3, E4.
  destruct E2 as [H2 ->], E3 as [H3 ->], E4 as [H4 ->].
  match goal with
  | |- context [65536 <=? ?cp] =>
      destruct (Z.leb_spec 65536 cp), (Z.leb_spec cp 1114111)
  end; cbn [andb]; try discriminate;
    intros [= <- <-]; constructor; lia.
Qed.

Lemma compare_cons x a y b :
  compare (String x a) (String y b)
  = match Z.compare (unit_weight x) (unit_weight y) with
    | Eq => compare a b
    | c => c
    end.
Proof. reflexivity. Qed.

Lemma compare_same x a b : compare (String x a) (String x b) = compare a b.
Proof. rewrite compare_cons, Z.compare_refl; reflexivity. Qed.

Lemma compare_decided x a y b :
  unit_weight x <> unit_weight y ->
  compare (String x a) (String y b)
  = Z.compare (unit_weight x) (unit_weight y).
Proof.
  intros H; rewrite compare_cons.
  destruct (Z.compare_spec (unit_weight x) (unit_weight y)); try reflexivity.
  contradiction.
Qed.

Lemma compareUnits_first p q x a y b :
  p <> q -> (p < q -> x < y) -> (q < p -> y < x) ->
  compareUnits (x :: a) (y :: b) = Z.compare p q.
Proof.
  intros N H1 H2; cbn [compareUnits].
  destruct (Z.compare_spec p q) as [E|L|L]; [contradiction| |].
  - apply H1, Z.compare_lt_iff in L; rewrite L; reflexivity.
  - apply H2, Z.compare_gt_iff in L; rewrite L; reflexivity.
Qed.

Lemma compareUnits_pair p q h l a h' l' b :
  p <> q ->
  (p < q -> h < h' \/ (h = h' /\ l < l')) ->
  (q < p -> h' < h \/ (h' = h /\ l' < l)) ->
  compareUnits (h :: l :: a) (h' :: l' :: b) = Z.compare p q.
Proof.
  intros N H1 H2; cbn [compareUnits].
  destruct (Z.compare_spec p q) as [E|L|L]; [contradiction| |].
  - destruct (H1 L) as [K|[-> K]].
    + apply Z.compare_lt_iff in K; rewrite K; reflexivity.
    + apply Z.compare_lt_iff in K; rewrite Z.compare_refl, K; reflexivity.
  - destruct (H2 L) as [K|[-> K]].
    + apply Z.compare_gt_iff in K; rewrite K; reflexivity.
    + apply Z.compare_gt_iff in K; rewrite Z.compare_refl, K; reflexivity.
Qed.

Lemma compareUnits_app u a b :
  compareUnits (u ++ a) (u ++ b) = compareUnits a b.
Proof.
  induction u as [|x u IH]; [reflexivity|].
  cbn [app compareUnits]; rewrite Z.compare_refl; exact IH.
Qed.

Lemma continuation_weight c : 128 <= code c <= 191 -> unit_weight c = code c.
Proof.
  intros H; rewrite unit_weight_low by lia.
  destruct (Z.leb_spec 238 (code c)); cbn [andb]; [lia | reflexivity].
Qed.

Lemma compare_continuation x a y b :
  128 <= code x <= 191 -> 128 <= code y <= 191 -> code x <> code y ->
  compare (String x a) (String y b) = Z.compare (code x) (code y).
Proof.
  intros Hx Hy N; rewrite compare_decided, !continuation_weight by
    (rewrite ?continuation_weight by assumption; assumption).
  reflexivity.
Qed.

Lemma compare_neq x y : x <> y -> Z.compare x y <> Eq.
Proof. intros N E; apply Z.compare_eq in E; contradiction. Qed.

Ltac other_lead c1 d1 N1 :=
  right; exists (Z.compare (unit_weight c1) (unit_weight d1));
  assert (W : unit_weight c1 <> unit_weight d1)
    by (intros W; apply unit_weight_inj in W; congruence);
  split; [apply compare_neq, W|];
  split; [apply compare_decided, W|];
  intros x y; cbn [app];
  first [apply compareUnits_first; [exact W| |]
        |apply compareUnits_pair; [exact W| |]];
  rewrite !unit_weight_low by lia;
  destruct (Z.leb_spec 238 (code c1)), (Z.leb_spec (code c1) 239),
    (Z.leb_spec 238 (code d1)), (Z.leb_spec (code d1) 239);
  cbn [andb]; intros; Z.to_euclidean_division_equations; lia.

(** Two first characters: they are the same, or the comparison of the
    bytes and the comparison of the code units are decided within
    them, alike. *)
Lemma first_chars a u a' b v b' :
  FirstChar a u a' -> FirstChar b v b' ->
  (u = v /\ compare a b = compare a' b')
  \/ (exists c, c <> Eq /\ compare a b = c
                /\ forall x y, compareUnits (u ++ x) (v ++ y) = c).
Proof.
  intros Ha Hb.
  destruct Ha as [c1 r|c1 c2 r|c1 c2 c3 r|c1 c2 c3 c4 r];
    destruct Hb as [d1 s|d1 d2 s|d1 d2 d3 s|d1 d2 d3 d4 s];
    (destruct (Z.eq_dec (code c1) (code d1)) as [E1|N1];
     [try (exfalso; lia); apply code_inj in E1; subst d1
     |other_lead c1 d1 N1]).
  - left; split; [reflexivity | apply compare_same].
  - rewrite compare_same.
    destruct (Z.eq_dec (code c2) (code d2)) as [E2|N2].
    { apply code_inj in E2; subst d2.
      left; split; [reflexivity | apply compare_same]. }
    right; exists (Z.compare (code c2) (code d2)).
    split; [apply compare_neq, N2|].
    split; [apply compare_continuation; assumption|].
    intros x y; cbn [app]; apply compareUnits_first;
      [exact N2 | intros; lia | intros; lia].
  - rewrite compare_same.
    destruct (Z.eq_dec (code c2) (code d2)) as [E2|N2].
    { apply code_inj in E2; subst d2; rewrite compare_same.
      destruct (Z.eq_dec (code c3) (code d3)) as [E3|N3].
      { apply code_inj in E3; subst d3.
        left; split; [reflexivity | apply compare_same]. }
      right; exists (Z.compare (code c3) (code d3)).
      split; [apply compare_neq, N3|].
      split; [apply compare_continuation; assumption|].
      intros x y; cbn [app]; apply compareUnits_first;
        [exact N3 | intros; lia | intros; lia]. }
    right; exists (Z.compare (code c2) (code d2)).
    split; [apply compare_neq, N2|].
    split; [apply compare_continuation; assumption|].
    intros x y; cbn [app]; apply compareUnits_first;
      [exact N2 | intros; lia | intros; lia].
  - rewrite compare_same.
    destruct (Z.eq_dec (code c2) (code d2)) as [E2|N2].
    { apply code_inj in E2; subst d2; rewrite compare_same.
      destruct (Z.eq_dec (code c3) (code d3)) as [E3|N3].
      { apply code_inj in E3; subst d3; rewrite compare_same.
        destruct (Z.eq_dec (code c4) (code d4)) as [E4|N4].
        { apply code_inj in E4; subst d4.
          left; split; [reflexivity | apply compare_same]. }
        right; exists (Z.compare (code c4) (code d4)).
        split; [apply compare_neq, N4|].
        split; [apply compare_continuation; assumption|].
        intros x y; cbn [app]; apply compareUnits_pair;
          [exact N4 | |]; intros; Z.to_euclidean_division_equations; lia. }
      right; exists (Z.compare (code c3) (code d3)).
      split; [apply compare_neq, N3|].
      split; [apply compare_continuation; assumption|].
      intros x y; cbn [app]; apply compareUnits_pair;
        [exact N3 | |]; intros; Z.to_euclidean_division_equations; lia. }
    right; exists (Z.compare (code c2) (code d2)).
    split; [apply compare_neq, N2|].
    split; [apply compare_continuation; assumption|].
    intros x y; cbn [app]; apply compareUnits_pair;
      [exact N2 | |]; intros; Z.to_euclidean_division_equations; lia.
Qed.

Lemma FirstChar_units s u r : FirstChar s u r -> exists x u', u = x :: u'.
Proof. intros []; eexists; eexists; reflexivity. Qed.

Lemma unitsFrom_compare n :
  forall m a b ua ub,
    unitsFrom n a = Some ua -> unitsFrom m b = Some ub ->
    compare a b = compareUnits ua ub.
Proof.
  assert (Hnil : forall m b ub, unitsFrom m b = Some ub ->
            compare EmptyString b = compareUnits [] ub).
  { intros m [|c b] ub H.
    - destruct m; injection H as <-; reflexivity.
    - destruct m as [|m]; [discriminate H|]; cbn [unitsFrom] in H.
      destruct (decode1 (String c b)) as [[v rest]|] eqn:E; [|discriminate H].
      apply decode1_FirstChar, FirstChar_units in E.
      destruct E as [x [v' ->]].
      destruct (unitsFrom m rest); [|discriminate H].
      injection H as <-; reflexivity. }
  induction n as [|n IH]; intros m a b ua ub Ha Hb.
  - destruct a as [|c a]; [|discriminate Ha].
    injection Ha as <-; eapply Hnil; exact Hb.
  - destruct a as [|c a].
    { injection Ha as <-; eapply Hnil; exact Hb. }
    cbn [unitsFrom] in Ha.
    destruct (decode1 (String c a)) as [[u a']|] eqn:Ea; [|discriminate Ha].
    apply decode1_FirstChar in Ea.
    destruct (unitsFrom n a') as [ua'|] eqn:Eu; [|discriminate Ha].
    injection Ha as <-.
    destruct b as [|d b].
    { destruct m; injection Hb as <-.
      all: destruct (FirstChar_units _ _ _ Ea) as [x [u' ->]]; reflexivity. }
    destruct m as [|m]; [discriminate Hb|]; cbn [unitsFrom] in Hb.
    destruct (decode1 (String d b)) as [[v b']|] eqn:Eb; [|discriminate Hb].
    apply decode1_FirstChar in Eb.
    destruct (unitsFrom m b') as [ub'|] eqn:Ev; [|discriminate Hb].
    injection Hb as <-.
    destruct (first_chars _ _ _ _ _ _ Ea Eb) as [[-> E]|[k [_ [E1 E2]]]].
    + rewrite E, compareUnits_app; eapply IH; eassumption.
    + rewrite E1, E2; reflexivity.
Qed.

(** On well-formed text the comparison of the byte strings is the
    comparison of the sequences of code units. *)
Lemma string_compare_units a b ua ub :
  units a = Some ua -> units b = Some ub ->
  compare a b = compareUnits ua ub.
Proof. apply unitsFrom_compare. Qed.

End CodeUnits.

Lemma ltb_units a b ua ub :
  JsString.ltb a b = true ->
  JsString.units a = Some ua -> JsString.units b = Some ub ->
  JsString.compareUnits ua ub = Lt.
Proof.
  unfold JsString.ltb; intros H Ha Hb.
  rewrite <- (string_compare_units a b ua ub Ha Hb).
  destruct (JsString.compare a b); [discriminate | reflexivity | discriminate].
Qed.

Lemma StronglySorted_weaken {A : Type} (R R' : A -> A -> Prop) l :
  (forall x y, R x y -> R' x y) ->
  StronglySorted R l -> StronglySorted R' l.
Proof.
  intros H; induction 1 as [|x l Hs IH Hx]; constructor; [exact IH|].
  rewrite Forall_forall in *; intros y Hy; apply H, Hx, Hy.
Qed.

(** [l.sort()] on distinct strings: the same strings, strictly ascending
    in the order of the code units. *)
Lemma sort_strings l :
  NoDup l ->
  let sorted := JsArray.sort (fun a b => JsString.ltb b a) l in
  Permutation sorted l
  /\ StronglySorted (fun a b => JsString.ltb a b = true) sorted.
Proof.
  intros Hnd; cbv zeta; set (gt := fun a b => JsString.ltb b a).
  split; [apply sort_perm|].
  assert (Hle : StronglySorted (fun a b => JsString.leb a b = true)
                  (JsArray.sort gt l)).
  { apply sort_sorted with (P := fun _ => True).
    - intros x y z _ _ _; apply leb_trans.
    - intros x y _ _ H; unfold gt in H; unfold JsString.leb; rewrite H.
      reflexivity.
    - intros x y _ _ H; unfold gt in H; apply ltb_leb in H; apply H.
    - apply Forall_forall; intros; exact I. }
  assert (Hnd' : NoDup (JsArray.sort gt l)).
  { eapply Permutation_NoDup; [apply Permutation_sym, sort_perm | exact Hnd]. }
  revert Hle Hnd'; generalize (JsArray.sort gt l); intros s.
  induction s as [|x s IH]; intros Hle Hnd'; [constructor|].
  inversion Hle as [|? ? Hs Hx]; subst.
  inversion Hnd' as [|? ? Hnot Hnd'']; subst.
  constructor; [apply IH; assumption|].
  apply Forall_forall; intros y Hy.
  rewrite Forall_forall in Hx; apply ltb_leb; split; [apply Hx, Hy|].
  intros ->; contradiction.
Qed.

(** In a strictly ascending list, the strings up to the one at place [k]
    are those at the places 0 to [k]. *)
Lemma sorted_firstn l :
  StronglySorted (fun a b => JsString.ltb a b = true) l ->
  forall k key x,
    nth_error l k = Some key -> In x l ->
    (In x (firstn (S k) l) <-> JsString.leb x key = true).
Proof.
  induction 1 as [|y l Hs IH Hy]; intros k key x Hk Hx; [destruct k; discriminate|].
  rewrite Forall_forall in Hy.
  destruct k as [|k].
  - injection Hk as <-; cbn [firstn]; split.
    + intros [<-|[]]; apply leb_refl.
    + intros Hle; destruct Hx as [<-|Hx]; [left; reflexivity|].
      specialize (Hy x Hx); apply ltb_leb in Hy.
      destruct Hy as [Hyx Hne]; exfalso; apply Hne.
      apply leb_antisym; assumption.
  - cbn [nth_error] in Hk; cbn [firstn].
    assert (Hkey : In key l) by (eapply nth_error_In; exact Hk).
    destruct Hx as [<-|Hx].
    + split; [intros _ | intros _; left; reflexivity].
      apply ltb_leb, Hy, Hkey.
    + rewrite <- (IH k key x Hk Hx); split; [|intros H0; right; exact H0].
      intros [E|H0]; [|exact H0].
      exfalso; specialize (Hy x Hx); apply ltb_leb in Hy.
      destruct Hy as [_ Hne]; exact (Hne E).
Qed.

(* ================================================================== *)
(** * Grouping by key *)
(* ================================================================== *)

Section GroupByFacts.
Context {V : Type}.
Variable key : Row -> option string.
Variable init : string -> Row -> V.
Variable add : V -> Row -> V.

Lemma rowsWithKey_cons k r rows :
  rowsWithKey key k (r :: rows)
  = if match key r with Some k' => String.eqb k' k | None => false end
    then r :: rowsWithKey key k rows else rowsWithKey key k rows.
Proof. reflexivity. Qed.

(** The accumulator of a key after the loop. *)
Lemma groupStep_get rows :
  forall (o : @JsObject.t V) k,
    JsObject.get (fold_left (groupStep key init add) rows o) k
    = match JsObject.get o k with
      | Some v => Some (fold_left add (rowsWithKey key k rows) v)
      | None =>
          match rowsWithKey key k rows with
          | [] => None
          | r :: rs => Some (fold_left add (r :: rs) (init k r))
          end
      end.
Proof.
  induction rows as [|row rows IH]; intros o k.
  - simpl; destruct (JsObject.get o k); reflexivity.
  - cbn [fold_left]; rewrite IH, rowsWithKey_cons.
    unfold groupStep.
    destruct (key row) as [k'|]; [|reflexivity].
    unfold JsObject.get, JsObject.set; rewrite JsMap_get_set.
    destruct (String.eqb_spec k' k) as [->|Hne]; [|reflexivity].
    destruct (JsMap.get o k); reflexivity.
Qed.

Lemma groupStep_NoDup rows :
  forall (o : @JsObject.t V),
    NoDup (map fst o) ->
    NoDup (map fst (fold_left (groupStep key init add) rows o)).
Proof.
  induction rows as [|row rows IH]; intros o Ho; simpl; [exact Ho|].
  apply IH; unfold groupStep.
  destruct (key row) as [k|]; [|exact Ho].
  unfold JsObject.set; rewrite JsMap_set_keys.
  destruct (JsMap.has o k) eqn:Hh; [exact Ho|].
  apply Permutation_NoDup with (l := k :: map fst o).
  - apply Permutation_cons_append.
  - constructor; [|exact Ho].
    intros Hin; apply JsMap_has_In in Hin; congruence.
Qed.

(** A sum over the accumulators: what the rows contribute, whatever the
    grouping. *)
Variable measure : V -> Z.
Variable weight : Row -> Z.
Hypothesis measure_init : forall k r, measure (init k r) = 0.
Hypothesis measure_add : forall v r, measure (add v r) = measure v + weight r.

Lemma sumOf_set (o : @JsMap.t V) k v :
  sumOf measure (JsMap.set o k v)
  = sumOf measure o - match JsMap.get o k with Some v0 => measure v0 | None => 0 end
    + measure v.
Proof.
  induction o as [|[k0 v0] o IH]; simpl; [lia|].
  destruct (String.eqb_spec k0 k) as [->|Hne]; simpl; [lia|].
  rewrite IH; lia.
Qed.

Lemma groupStep_sum rows :
  forall (o : @JsObject.t V),
    sumOf measure (fold_left (groupStep key init add) rows o)
    = sumOf measure o
      + fold_right (fun r acc => match key r with
                                 | Some _ => weight r + acc
                                 | None => acc
                                 end) 0 rows.
Proof.
  induction rows as [|row rows IH]; intros o; simpl; [lia|].
  rewrite IH; unfold groupStep.
  destruct (key row) as [k|]; [|lia].
  unfold JsObject.set, JsObject.get; rewrite sumOf_set, measure_add.
  destruct (JsMap.get o k); [|rewrite measure_init]; lia.
Qed.

End GroupByFacts.

Lemma map_fst_entries {V : Type} (f : V -> string) (o : list (string * V)) :
  (forall k v, In (k, v) o -> f v = k) ->
  map f (map snd o) = map fst o.
Proof.
  intros H; rewrite map_map; apply map_ext_in.
  intros [k v] Hin; simpl; apply H, Hin.
Qed.

Lemma groupStep_has_key {V : Type} key (init : string -> Row -> V) add rows row k :
  In row rows -> key row = Some k ->
  exists v, In (k, v) (fold_left (groupStep key init add) rows []).
Proof.
  intros Hin Hk.
  pose proof (groupStep_get key init add rows [] k) as Hg.
  cbn [JsObject.get JsMap.get] in Hg.
  assert (Hr : In row (rowsWithKey key k rows)).
  { unfold rowsWithKey; apply filter_In; split; [exact Hin|].
    rewrite Hk; apply String.eqb_refl. }
  destruct (rowsWithKey key k rows) as [|r rs]; [contradiction|].
  eexists; apply JsMap_get_In; exact Hg.
Qed.

(** What the grouping loop leaves in the object. *)
Lemma groupStep_spec {V : Type} key (init : string -> Row -> V) add rows :
  let o := fold_left (groupStep key init add) rows [] in
  NoDup (map fst o)
  /\ (forall k, In k (map fst o)
                <-> exists row, In row rows /\ key row = Some k)
  /\ (forall k v, In (k, v) o ->
        exists r rs, rowsWithKey key k rows = r :: rs
                     /\ v = fold_left add (r :: rs) (init k r)).
Proof.
  cbv zeta.
  assert (Hnd : NoDup (map fst (fold_left (groupStep key init add) rows [])))
    by (apply groupStep_NoDup; constructor).
  assert (Hent : forall k v,
            In (k, v) (fold_left (groupStep key init add) rows []) ->
            exists r rs, rowsWithKey key k rows = r :: rs
                         /\ v = fold_left add (r :: rs) (init k r)).
  { intros k v H; apply JsMap_In_get in H; [|exact Hnd].
    change (@JsMap.get V) with (@JsObject.get V) in H.
    rewrite groupStep_get in H; cbn [JsObject.get JsMap.get] in H.
    destruct (rowsWithKey key k rows) as [|r rs]; [discriminate|].
    exists r, rs; split; [reflexivity | congruence]. }
  split; [exact Hnd|]. split; [|exact Hent].
  intros k; split.
  - intros H; apply in_map_iff in H; destruct H as [[k' v] [E H]].
    simpl in E; subst k'.
    destruct (Hent k v H) as [r [rs [Hr _]]].
    assert (Hin : In r (rowsWithKey key k rows)) by (rewrite Hr; left; reflexivity).
    unfold rowsWithKey in Hin; apply filter_In in Hin.
    destruct Hin as [Hin Hk]; exists r; split; [exact Hin|].
    destruct (key r) as [k'|]; [|discriminate].
    apply String.eqb_eq in Hk; congruence.
  - intros [row [Hin Hk]].
    destruct (groupStep_has_key key init add rows row k Hin Hk) as [v Hv].
    change k with (fst (k, v)); apply in_map, Hv.
Qed.

(** Sorting and mapping commute when the comparator sees through the
    map. *)
Lemma sort_map {A B : Type} (g : A -> B) gtA gtB l :
  (forall a b, gtB (g a) (g b) = gtA a b) ->
  JsArray.sort gtB (map g l) = map g (JsArray.sort gtA l).
Proof.
  intros H; induction l as [|x l IH]; simpl; [reflexivity|].
  rewrite IH; generalize (JsArray.sort gtA l); intros s.
  induction s as [|y s IHs]; simpl; [reflexivity|].
  rewrite H; destruct (gtA x y); simpl; [rewrite IHs|]; reflexivity.
Qed.

Lemma JsObject_values_perm {V : Type} (o : @JsObject.t V) :
  Permutation (JsObject.values o) (map snd o).
Proof. apply Permutation_map, JsObject_entries_perm. Qed.

Lemma grouped_result {V B : Type} key (init : string -> Row -> V) add
    (line : string -> list Row -> V) (bucket : V -> B) (keyB : B -> string)
    gt rows :
  (forall k r rs, fold_left add (r :: rs) (init k r) = line k (r :: rs)) ->
  (forall k l, keyB (bucket (line k l)) = k) ->
  let out :=
    map bucket
      (JsArray.sort gt
         (JsObject.values (fold_left (groupStep key init add) rows []))) in
  NoDup (map keyB out)
  /\ (forall k, In k (map keyB out)
                <-> exists row, In row rows /\ key row = Some k)
  /\ (forall b, In b out ->
        rowsWithKey key (keyB b) rows <> []
        /\ b = bucket (line (keyB b) (rowsWithKey key (keyB b) rows))).
Proof.
  intros Hline Hkey; cbv zeta.
  destruct (groupStep_spec key init add rows) as [Hnd [Hin Hent]].
  set (o := fold_left (groupStep key init add) rows []) in *.
  assert (Hperm : Permutation
            (map bucket (JsArray.sort gt (JsObject.values o)))
            (map bucket (map snd o))).
  { apply Permutation_map.
    eapply perm_trans; [apply sort_perm | apply JsObject_values_perm]. }
  assert (Hk : map keyB (map bucket (map snd o)) = map fst o).
  { rewrite (map_map bucket keyB).
    apply (map_fst_entries (fun v => keyB (bucket v))).
    intros k v H; destruct (Hent k v H) as [r [rs [_ ->]]].
    rewrite Hline; apply Hkey. }
  assert (Hpk : Permutation
            (map keyB (map bucket (JsArray.sort gt (JsObject.values o))))
            (map fst o)).
  { rewrite <- Hk; apply Permutation_map, Hperm. }
  split; [eapply Permutation_NoDup; [apply Permutation_sym, Hpk | exact Hnd]|].
  split.
  { intros k; rewrite <- Hin; split; apply Permutation_in;
      [exact Hpk | apply Permutation_sym, Hpk]. }
  intros b Hb; eapply Permutation_in in Hb; [|exact Hperm].
  apply in_map_iff in Hb; destruct Hb as [v [<- Hv]].
  apply in_map_iff in Hv; destruct Hv as [[k v'] [E Hv]].
  simpl in E; subst v'.
  destruct (Hent k v Hv) as [r [rs [Hr ->]]].
  rewrite Hline, Hkey, Hr; split; [discriminate | reflexivity].
Qed.

(* ================================================================== *)
(** * Player trends *)
(* ================================================================== *)

Lemma total_app f l1 l2 : total f (l1 ++ l2) = total f l1 + total f l2.
Proof. induction l1 as [|x l1 IH]; simpl; [reflexivity | rewrite IH; lia]. Qed.



Lemma In_firstn {A : Type} (x : A) n l : In x (firstn n l) -> In x l.
Proof.
  revert n; induction l as [|y l IH]; intros [|n]; simpl; try contradiction.
  intros [H|H]; [left; exact H | right; eapply IH; exact H].
Qed.






Lemma pitching_addRow_fold rows acc :
  fold_left PitchingTrend.addRow rows acc
  = {| pc_outs := pc_outs acc + total r_outs rows;
       pc_er := pc_er acc + total r_er rows;
       pc_bb := pc_bb acc + total r_bb rows;
       pc_hbp := pc_hbp acc + total r_hbp rows;
       pc_h := pc_h acc + total r_h rows;
       pc_so := pc_so acc + total r_so rows;
       pc_pitches := pc_pitches acc + total r_pitches rows;
       pc_strikes := pc_strikes acc + total r_strikes rows |}.
Proof.
  revert acc; induction rows as [|row rows IH]; intros acc; simpl.
  - destruct acc; simpl; f_equal; lia.
  - rewrite IH; simpl; f_equal; lia.
Qed.

Lemma pitching_periodStats_snapshot rows :
  PitchingTrend.periodStatsOf rows = snapshotPitching rows.
Proof.
  unfold PitchingTrend.periodStatsOf; rewrite pitching_addRow_fold; reflexivity.
Qed.

Lemma pitching_accumulate_fold periods c0 :
  fold_left PitchingTrend.accumulate
            (map PitchingTrend.periodStatsOf periods) c0
  = let rows := List.concat periods in
    {| pu_outs := pu_outs c0 + total r_outs rows;
       pu_er := pu_er c0 + total r_er rows;
       pu_bb := pu_bb c0 + total r_bb rows;
       pu_hbp := pu_hbp c0 + total r_hbp rows;
       pu_h := pu_h c0 + total r_h rows;
       pu_so := pu_so c0 + total r_so rows |}.
Proof.
  revert c0; induction periods as [|p ps IH]; intros c0; simpl.
  - destruct c0; simpl; f_equal; lia.
  - rewrite IH, pitching_periodStats_snapshot; simpl.
    rewrite !total_app; f_equal; lia.
Qed.

Lemma pitching_trend_nth trendPeriod grouped keys :
  forall c0 k b,
    nth_error (PitchingTrend.trend trendPeriod grouped c0 keys) k = Some b ->
    exists key,
      nth_error keys k = Some key /\
      b = PitchingTrend.bucket key
            (PlayerTrend.bucketOpponent trendPeriod
               (PlayerTrend.periodRowsOf grouped key))
            (fold_left PitchingTrend.accumulate
               (map PitchingTrend.periodStatsOf
                  (map (PlayerTrend.periodRowsOf grouped) (firstn (S k) keys)))
               c0)
            (PitchingTrend.periodStatsOf (PlayerTrend.periodRowsOf grouped key)).
Proof.
  induction keys as [|key keys IH]; intros c0 k b H.
  - destruct k; discriminate.
  - destruct k as [|k]; simpl in H.
    + injection H as <-; exists key; split; reflexivity.
    + apply IH in H; destruct H as [key' [Hk ->]].
      exists key'; split; [exact Hk | reflexivity].
Qed.

(** The grouping loop of the player trends: it ends in the TypeError when
    a row has an inherited name for its key, and else files the rows by
    their keys. *)
Lemma groupFrom_spec host trendPeriod rows :
  forall grouped,
    PlayerTrend.groupFrom host trendPeriod grouped rows
    = if existsb (raises (trendKeyOf host trendPeriod)) rows then None
      else Some (fold_left
                   (groupStep (trendKeyOf host trendPeriod)
                      (fun _ _ => []) (fun v r => v ++ [r]))
                   rows grouped).
Proof.
  induction rows as [|row rows IH]; intros grouped; [reflexivity|].
  cbn [PlayerTrend.groupFrom existsb fold_left].
  destruct (raises (trendKeyOf host trendPeriod) row) eqn:Er; cbn [orb];
    [|rewrite <- IH];
    unfold raises, trendKeyOf in Er;
    unfold PlayerTrend.groupStep, groupStep, trendKeyOf;
    destruct (usableKey (PlayerTrend.getKey host row trendPeriod));
    try discriminate Er; rewrite ?Er; reflexivity.
Qed.

Lemma snoc_fold (l v0 : list Row) :
  fold_left (fun v r => v ++ [r]) l v0 = v0 ++ l.
Proof.
  revert v0; induction l as [|r l IH]; intros v0; simpl.
  - rewrite app_nil_r; reflexivity.
  - rewrite IH, <- app_assoc; reflexivity.
Qed.

(** The rows filed under a key are the rows that have this key, in their
    order. *)
Lemma grouped_periodRows keyOf rows key :
  PlayerTrend.periodRowsOf
    (fold_left (groupStep keyOf (fun _ _ => []) (fun v r => v ++ [r]))
       rows [])
    key
  = rowsWithKey keyOf key rows.
Proof.
  unfold PlayerTrend.periodRowsOf; rewrite groupStep_get.
  cbn [JsObject.get JsMap.get].
  destruct (rowsWithKey keyOf key rows) as [|r rs]; [reflexivity|].
  rewrite snoc_fold; reflexivity.
Qed.

(** The sorted keys: each key that some row has, once, in the strictly
    ascending order of the code units. *)
Lemma grouped_sortedKeys keyOf rows :
  let keys :=
    PlayerTrend.sortedKeys
      (fold_left (groupStep keyOf (fun _ _ => []) (fun v r => v ++ [r]))
         rows []) in
  StronglySorted (fun a b => JsString.ltb a b = true) keys
  /\ NoDup keys
  /\ (forall key, In key keys
                  <-> exists row, In row rows /\ keyOf row = Some key).
Proof.
  cbv zeta; unfold PlayerTrend.sortedKeys.
  destruct (groupStep_spec keyOf (fun _ _ => []) (fun v r => v ++ [r]) rows)
    as [Hnd [Hin _]].
  set (o := fold_left (groupStep keyOf (fun _ _ => [])
                         (fun v r => v ++ [r])) rows []) in *.
  assert (Hperm : Permutation (JsObject.keys o) (map fst o))
    by (apply Permutation_map, JsObject_entries_perm).
  assert (Hnd' : NoDup (JsObject.keys o))
    by (eapply Permutation_NoDup; [apply Permutation_sym, Hperm | exact Hnd]).
  destruct (sort_strings (JsObject.keys o) Hnd') as [Hp Hs].
  split; [exact Hs|].
  split; [eapply Permutation_NoDup; [apply Permutation_sym, Hp | exact Hnd']|].
  intros key; rewrite <- Hin; split; intros H.
  - eapply Permutation_in; [exact Hperm|].
    eapply Permutation_in; [exact Hp | exact H].
  - eapply Permutation_in; [apply Permutation_sym, Hp|].
    eapply Permutation_in; [apply Permutation_sym, Hperm | exact H].
Qed.

Lemma total_filter_split f (p q : Row -> bool) rows :
  (forall r, p r = true -> q r = true -> False) ->
  total f (filter (fun r => p r || q r) rows)
  = total f (filter p rows) + total f (filter q rows).
Proof.
  intros Hpq; induction rows as [|r rows IH]; [reflexivity|].
  cbn [filter]; destruct (p r) eqn:Ep, (q r) eqn:Eq; cbn [orb total fold_right];
    try (exfalso; eapply Hpq; eassumption);
    change (fold_right (fun r acc => cell (f r) + acc) 0) with (total f);
    rewrite IH; lia.
Qed.

(** The rows of some distinct keys, key after key, have the totals of the
    rows that have one of these keys. *)
Lemma total_concat_groups f keyOf rows keys :
  NoDup keys ->
  total f (List.concat (map (fun k => rowsWithKey keyOf k rows) keys))
  = total f (filter (fun r => match keyOf r with
                               | Some k => existsb (String.eqb k) keys
                               | None => false
                               end) rows).
Proof.
  induction 1 as [|k keys Hk Hnd IH]; cbn [map List.concat].
  - induction rows as [|r rows IHr]; [reflexivity|].
    cbn [filter]; destruct (keyOf r); exact IHr.
  - rewrite total_app, IH; unfold rowsWithKey.
    rewrite <- (total_filter_split f
                  (fun r => match keyOf r with
                            | Some k' => String.eqb k' k
                            | None => false
                            end)
                  (fun r => match keyOf r with
                            | Some k' => existsb (String.eqb k') keys
                            | None => false
                            end) rows).
    + f_equal; apply filter_ext; intros r.
      destruct (keyOf r) as [k'|]; [|reflexivity].
      cbn [existsb]; rewrite (String.eqb_sym k' k); reflexivity.
    + intros r; destruct (keyOf r) as [k'|]; [|discriminate].
      intros E1 E2; apply String.eqb_eq in E1; subst k'.
      apply existsb_exists in E2; destruct E2 as [x [Hx E]].
      apply String.eqb_eq in E; subst x; contradiction.
Qed.

Lemma firstn_NoDup {A : Type} n (l : list A) :
  NoDup l -> NoDup (firstn n l).
Proof.
  intros Hnd; revert n; induction Hnd as [|x l Hx Hl IH]; intros [|n];
    simpl; try constructor; [|apply IH].
  intros H; apply Hx; eapply In_firstn; exact H.
Qed.

(** Through the period at place [k] of the sorted keys, the rows are those
    whose key is at most the key of that period. *)
Lemma total_through f keyOf rows k key :
  let grouped :=
    fold_left (groupStep keyOf (fun _ _ => []) (fun v r => v ++ [r]))
      rows [] in
  nth_error (PlayerTrend.sortedKeys grouped) k = Some key ->
  total f (rowsThrough
             (map (PlayerTrend.periodRowsOf grouped)
                  (PlayerTrend.sortedKeys grouped)) k)
  = total f (rowsUpTo keyOf key rows).
Proof.
  cbv zeta; intros Hk.
  destruct (grouped_sortedKeys keyOf rows) as [Hs [Hnd Hin]].
  set (grouped := fold_left (groupStep keyOf (fun _ _ => [])
                               (fun v r => v ++ [r])) rows []) in *.
  set (keys := PlayerTrend.sortedKeys grouped) in *.
  unfold rowsThrough; rewrite firstn_map.
  rewrite (map_ext (PlayerTrend.periodRowsOf grouped)
             (fun k => rowsWithKey keyOf k rows))
    by (intros; apply grouped_periodRows).
  rewrite total_concat_groups.
  - unfold rowsUpTo; f_equal; apply filter_ext_in; intros r Hr.
    destruct (keyOf r) as [k'|] eqn:Ek; [|reflexivity].
    assert (Hk' : In k' keys) by (apply Hin; exists r; split; assumption).
    pose proof (sorted_firstn keys Hs k key k' Hk Hk') as Hiff.
    destruct (JsString.leb k' key) eqn:El.
    + apply existsb_exists; exists k'; split;
        [apply Hiff; reflexivity | apply String.eqb_refl].
    + destruct (existsb (String.eqb k') (firstn (S k) keys)) eqn:Ex;
        [|reflexivity].
      apply existsb_exists in Ex; destruct Ex as [x [Hx E]].
      apply String.eqb_eq in E; subst x.
      apply Hiff in Hx; congruence.
  - apply firstn_NoDup, Hnd.
Qed.

Lemma nth_error_map_Some {A B : Type} (f : A -> B) l k b :
  nth_error (map f l) k = Some b ->
  exists a, nth_error l k = Some a /\ b = f a.
Proof.
  revert k; induction l as [|x l IH]; intros [|k] H; try discriminate.
  - injection H as <-; exists x; split; reflexivity.
  - apply IH, H.
Qed.


Lemma pitching_trend_keys trendPeriod grouped keys :
  forall c0,
    map pt_periodKey (PitchingTrend.trend trendPeriod grouped c0 keys) = keys.
Proof.
  induction keys as [|key keys IH]; intros c0; [reflexivity|].
  cbn [PitchingTrend.trend map]; rewrite IH; reflexivity.
Qed.

Lemma StronglySorted_map {A B : Type} (f : A -> B) (R : B -> B -> Prop) l :
  StronglySorted R (map f l) -> StronglySorted (fun a b => R (f a) (f b)) l.
Proof.
  induction l as [|x l IH]; intros H; [constructor|].
  inversion H as [|? ? Hs Hx]; subst.
  constructor; [apply IH, Hs|].
  rewrite Forall_forall in *; intros y Hy; apply Hx, in_map, Hy.
Qed.

(** The period keys of months and quarters, and the game keys of the team
    trend, are never inherited names: under them a lookup finds the
    properties of the object alone. *)
Lemma inherited_head k :
  JsObject.inherited k = true -> numericHead k = false /\ hasSpace k = false.
Proof.
  unfold JsObject.inherited, JsObject.inherited_names; cbn [existsb].
  rewrite !orb_true_iff; intros H.
  repeat (destruct H as [H|H];
          [apply String.eqb_eq in H; subst k; split; reflexivity|]).
  discriminate H.
Qed.

Lemma digits_of_head fuel :
  forall n acc,
    (0 < fuel)%nat \/ numericHead acc = true ->
    numericHead (JsString.digits_of fuel n acc) = true.
Proof.
  induction fuel as [|fuel IH]; intros n acc H; cbn [JsString.digits_of].
  - destruct H as [H|H]; [lia | exact H].
  - assert (Hd : numericHead
                   (String (JsString.digit_char (n mod 10)) acc) = true).
    { cbn [numericHead]; rewrite digit_val_char; [reflexivity|].
      pose proof (Z.mod_pos_bound n 10); lia. }
    destruct (n <? 10); [exact Hd | apply IH; right; exact Hd].
Qed.

Lemma of_Z_head n : numericHead (JsString.of_Z n) = true.
Proof.
  unfold JsString.of_Z; destruct (n <? 0); [reflexivity|].
  apply digits_of_head; left; lia.
Qed.

Lemma append_head a b :
  numericHead a = true -> numericHead (String.append a b) = true.
Proof. destruct a as [|c a]; [discriminate | intros H; exact H]. Qed.

Lemma append_space a b :
  hasSpace b = true -> hasSpace (String.append a b) = true.
Proof.
  intros H; induction a as [|c a IH]; [exact H|].
  cbn [String.append hasSpace]; rewrite IH; apply orb_true_r.
Qed.

Lemma period_keys_own host row period key :
  (TeamTrend.getKey host row period = Some key
   \/ (period <> Game /\ PlayerTrend.getKey host row period = Some key)) ->
  JsObject.inherited key = false.
Proof.
  intros H.
  assert (Hk : numericHead key = true \/ hasSpace key = true).
  { destruct H as [H|[Hp H]].
    - unfold TeamTrend.getKey in H.
      destruct (parseDate host (r_date row)); [|discriminate].
      destruct period; injection H as <-.
      + right; apply append_space; reflexivity.
      + left; apply append_head, of_Z_head.
      + left; apply append_head, of_Z_head.
    - unfold PlayerTrend.getKey in H.
      destruct (parseDate host (r_date row)); [|discriminate].
      destruct period; [contradiction| |]; injection H as <-;
        left; apply append_head, of_Z_head. }
  destruct (JsObject.inherited key) eqn:E; [|reflexivity].
  apply inherited_head in E; destruct E as [E1 E2], Hk; congruence.
Qed.

Lemma month_trend_never_raises host trendPeriod row :
  trendPeriod <> Game -> raises (trendKeyOf host trendPeriod) row = false.
Proof.
  intros Hp; unfold raises, trendKeyOf, usableKey.
  destruct (PlayerTrend.getKey host row trendPeriod) as [key|] eqn:E;
    [|reflexivity].
  destruct (JsString.truthy key); [|reflexivity].
  apply (period_keys_own host row trendPeriod); right; split; assumption.
Qed.





(** C10: in a player's cumulative pitching trend, which has one bucket for
    each period key of the player's rows, in the strictly ascending order
    of the keys, the bucket of a period takes era, whip, kbb, kPer7 and
    bbPer7 from the totals of all the rows of the player through that
    period, and innings, strikeRate, bb, hbp and pitches from the rows of
    that period alone; pitches and strikes are no part of the cumulative
    totals.  The computation ends in a TypeError exactly when a key is an
    inherited name, which only a date taken as the key of a game can be. *)
Theorem pitching_trend_mixes_modes host data pid trendPeriod :
  let rows := PlayerTrend.rowsOf pid data in
  let keyOf := trendKeyOf host trendPeriod in
  let result :=
    PitchingTrend.playerPitchingTrendData host data pid Player Pitching
      trendPeriod in
  (JsString.truthy pid = false -> result = Some [])
  /\ (JsString.truthy pid = true ->
      (result = None <-> exists row, In row rows /\ raises keyOf row = true)
      /\ (trendPeriod <> Game -> result <> None)
      /\ forall out, result = Some out ->
           StronglySorted
             (fun a b => JsString.ltb (pt_periodKey a) (pt_periodKey b) = true)
             out
           /\ StronglySorted
                (fun a b => forall ua ub,
                   JsString.units (pt_periodKey a) = Some ua ->
                   JsString.units (pt_periodKey b) = Some ub ->
                   JsString.compareUnits ua ub = Lt)
                out
           /\ (forall key, In key (map pt_periodKey out)
                           <-> exists row, In row rows /\ keyOf row = Some key)
           /\ forall b, In b out ->
                let own := rowsWithKey keyOf (pt_periodKey b) rows in
                let cum := rowsUpTo keyOf (pt_periodKey b) rows in
                b = PitchingTrend.bucket (pt_periodKey b)
                      (PlayerTrend.bucketOpponent trendPeriod own)
                      (cumulativePitching cum) (snapshotPitching own)
                /\ pt_era b
                   = roundTo 2 (safeDiv (of_Z (total r_er cum * 7))
                                        (inningsOf (total r_outs cum)))
                /\ pt_whip b
                   = roundTo 2 (safeDiv (of_Z (total r_bb cum
                                               + total r_hbp cum
                                               + total r_h cum))
                                        (inningsOf (total r_outs cum)))
                /\ pt_kbb b = roundTo 2 (safeDiv (of_Z (total r_so cum))
                                                 (of_Z (total r_bb cum)))
                /\ pt_kPer7 b
                   = roundTo 2 (safeDiv (of_Z (total r_so cum * 7))
                                        (inningsOf (total r_outs cum)))
                /\ pt_bbPer7 b
                   = roundTo 2
                       (safeDiv (of_Z ((total r_bb cum + total r_hbp cum) * 7))
                                (inningsOf (total r_outs cum)))
                /\ pt_innings b = roundTo 1 (inningsOf (total r_outs own))
                /\ pt_strikeRate b
                   = roundTo 1 (mul (safeDiv (of_Z (total r_strikes own))
                                             (of_Z (total r_pitches own)))
                                    (of_Z 100))
                /\ pt_bb b = total r_bb own
                /\ pt_hbp b = total r_hbp own
                /\ pt_pitches b = total r_pitches own).
Proof.
  cbv zeta; unfold PitchingTrend.playerPitchingTrendData.
  destruct (JsString.truthy pid) eqn:Hpid; cbn [negb orb isPlayer isBatting];
    [|split; [intros _; reflexivity | intros H; discriminate H]].
  split; [intros H; discriminate H | intros _].
  unfold PlayerTrend.groupRows; rewrite groupFrom_spec.
  set (rows := PlayerTrend.rowsOf pid data).
  set (keyOf := trendKeyOf host trendPeriod).
  destruct (existsb (raises keyOf) rows) eqn:Hr.
  { split; [|split]; [| |intros out H; discriminate H].
    - split; [intros _ | reflexivity].
      apply existsb_exists in Hr; exact Hr.
    - intros Hp; exfalso.
      apply existsb_exists in Hr; destruct Hr as [row [_ Hrow]].
      unfold keyOf in Hrow; rewrite month_trend_never_raises in Hrow
        by exact Hp; discriminate. }
  split; [|split; [discriminate|]].
  { split; [discriminate|].
    intros [row [Hin Hrow]].
    assert (H : existsb (raises keyOf) rows = true)
      by (apply existsb_exists; exists row; split; assumption).
    congruence. }
  intros out [= <-].
  set (grouped := fold_left (groupStep keyOf (fun _ _ => [])
                               (fun v r => v ++ [r])) rows []).
  set (keys := PlayerTrend.sortedKeys grouped).
  destruct (grouped_sortedKeys keyOf rows) as [Hs [Hnd Hin]].
  fold grouped in Hs, Hnd, Hin; fold keys in Hs, Hnd, Hin.
  pose proof (pitching_trend_keys trendPeriod grouped keys
                PitchingTrend.zeroCumulative) as Hkeys.
  split.
  { apply StronglySorted_map with (f := pt_periodKey)
      (R := fun a b => JsString.ltb a b = true).
    rewrite Hkeys; exact Hs. }
  split.
  { refine (StronglySorted_weaken
              (fun a b => JsString.ltb (pt_periodKey a) (pt_periodKey b) = true)
              _ _ _ _).
    - intros x y H ua ub; apply ltb_units, H.
    - apply StronglySorted_map with (f := pt_periodKey)
        (R := fun a b => JsString.ltb a b = true).
      rewrite Hkeys; exact Hs. }
  split; [rewrite Hkeys; exact Hin|].
  intros b Hb; apply In_nth_error in Hb; destruct Hb as [k Hb].
  apply pitching_trend_nth in Hb; destruct Hb as [key [Hk Hb]].
  assert (Ekey : pt_periodKey b = key) by (rewrite Hb; reflexivity).
  rewrite Ekey.
  assert (Hbucket :
    b = PitchingTrend.bucket key
          (PlayerTrend.bucketOpponent trendPeriod (rowsWithKey keyOf key rows))
          (cumulativePitching (rowsUpTo keyOf key rows))
          (snapshotPitching (rowsWithKey keyOf key rows))).
  { rewrite Hb at 1.
    rewrite pitching_accumulate_fold, pitching_periodStats_snapshot.
    unfold grouped at 1 3; rewrite !grouped_periodRows.
    assert (Ht : forall f,
              total f (List.concat
                         (map (PlayerTrend.periodRowsOf grouped)
                              (firstn (S k) keys)))
              = total f (rowsUpTo keyOf key rows)).
    { intros f; rewrite <- (total_through f keyOf rows k key Hk).
      unfold rowsThrough; rewrite firstn_map; reflexivity. }
    cbv zeta; rewrite !Ht; reflexivity. }
  split; [exact Hbucket|].
  repeat split; rewrite Hbucket at 1; reflexivity.
Qed.

Lemma pitching_trend_mixes_modes_witness :
  exists b,
    option_map (fun out => nth_error out 1)
      (PitchingTrend.playerPitchingTrendData Sample.jst
         Sample.scenarioPitching "a" Player Pitching Game) = Some (Some b)
    /\ pt_periodKey b = "2025-10-08"%string
    /\ pt_era b = dec false 191 2
    /\ pt_innings b = of_Z 4
    /\ pt_pitches b = 50.
Proof.
  destruct (PitchingTrend.playerPitchingTrendData Sample.jst
              Sample.scenarioPitching "a" Player Pitching Game)
    as [out|] eqn:E; [|vm_compute in E; discriminate E].
  destruct (nth_error out 1) as [b|] eqn:Eb;
    [|vm_compute in E; injection E as <-; discriminate Eb].
  exists b; split; [cbn [option_map]; rewrite Eb; reflexivity|].
  assert (Ek : pt_periodKey b = "2025-10-08"%string).
  { vm_compute in E; injection E as <-; injection Eb as <-; reflexivity. }
  split; [exact Ek|].
  destruct (proj2 (pitching_trend_mixes_modes Sample.jst
                     Sample.scenarioPitching "a" Game) eq_refl) as [_ [_ H]].
  destruct (H out E) as [_ [_ [_ Hb]]].
  destruct (Hb b (nth_error_In _ _ Eb))
    as [_ [Hera [_ [_ [_ [_ [Hinn [_ [_ [_ Hp]]]]]]]]]].
  rewrite Ek in Hera, Hinn, Hp.
  rewrite Hera, Hinn, Hp; repeat split; vm_compute; reflexivity.
Defined.

(* ================================================================== *)
(** * Rows whose date does not parse *)
(* ================================================================== *)

(** Every host buckets a row whose date fails to parse under the key of
    the epoch (or under its literal date, for games). *)
Lemma unparseable_row_keys host row :
  parseDate_primary host (r_date row) = None ->
  Date_of_string host (r_date row) = None ->
  let year := JsDate.getFullYear (tza host) 0 in
  let month := JsDate.getMonth (tza host) 0 in
  TeamTrend.getKey host row Monthly = Some (monthKey year month)
  /\ TeamTrend.getKey host row Quarterly = Some (quarterKey year month)
  /\ PlayerTrend.getKey host row Monthly = Some (monthKey year month)
  /\ PlayerTrend.getKey host row Quarterly = Some (quarterKey year month)
  /\ PlayerTrend.getKey host row Game = c_date row.
Proof.
  intros H1 H2; unfold TeamTrend.getKey, PlayerTrend.getKey.
  rewrite (parseDate_sentinel host _ H1 H2); repeat split.
Qed.

(** C1, the code at a row dated ["abc"] (sample host): neither the
    primary form nor the host's parser reads the date, and [parseDate]
    returns the epoch; the filter keeps the row, and so does every period
    bucketing, which files its counts under 1970-01, 1970-Q1 or the
    literal date. *)
Theorem unparseable_date_is_bucketed :
  let row := Sample.undated in
  parseDate_primary Sample.jst (r_date row) = None
  /\ Date_of_string Sample.jst (r_date row) = None
  /\ parseDate Sample.jst (r_date row) = Some 0
  /\ filterData Sample.jst [row] Sample.noFilter = [row]
  /\ map (fun b => (tb_periodKey (tbb_period b), tb_ab (tbb_period b)))
         (TeamTrend.battingResult Sample.jst Monthly [row])
     = [("1970-01"%string, 4)]
  /\ map (fun b => (tb_periodKey (tbb_period b), tb_ab (tbb_period b)))
         (TeamTrend.battingResult Sample.jst Quarterly [row])
     = [("1970-Q1"%string, 4)]
  /\ map (fun b => (tb_periodKey (tbb_period b), tb_ab (tbb_period b)))
         (TeamTrend.battingResult Sample.jst Game [row])
     = [("abc vs Tigers"%string, 4)]
  /\ map (fun b => (tp_periodKey (tpb_period b), tp_outs (tpb_period b)))
         (TeamTrend.pitchingResult Sample.jst Monthly
            [Sample.pit "a" "g9" "abc" 6 1 1 20 12])
     = [("1970-01"%string, 6)]
  /\ option_map (map (fun b => (bt_periodKey b, bc_ab (bt_periodStats b))))
         (BattingTrend.playerBattingTrendData Sample.jst [row] "a" Player
            Batting Monthly)
     = Some [("1970-01"%string, 4)]
  /\ option_map (map (fun b => (bt_periodKey b, bc_ab (bt_periodStats b))))
         (BattingTrend.playerBattingTrendData Sample.jst [row] "a" Player
            Batting Quarterly)
     = Some [("1970-Q1"%string, 4)]
  /\ option_map (map (fun b => (bt_periodKey b, bc_ab (bt_periodStats b))))
         (BattingTrend.playerBattingTrendData Sample.jst [row] "a" Player
            Batting Game)
     = Some [("abc"%string, 4)]
  /\ option_map (map (fun b => (pt_periodKey b, pt_pitches b)))
         (PitchingTrend.playerPitchingTrendData Sample.jst
            [Sample.pit "a" "g9" "abc" 6 1 1 20 12] "a" Player Pitching
            Monthly)
     = Some [("1970-01"%string, 20)].
Proof. repeat split; vm_compute; reflexivity. Qed.

(* ================================================================== *)
(** * Game outcomes *)
(* ================================================================== *)

Lemma addScored_addScored g a b :
  Games.addScored (Games.addScored g a) b = Games.addScored g (a + b).
Proof. unfold Games.addScored; simpl; f_equal; lia. Qed.

Lemma addAllowed_addAllowed g a b :
  Games.addAllowed (Games.addAllowed g a) b = Games.addAllowed g (a + b).
Proof. unfold Games.addAllowed; simpl; f_equal; lia. Qed.

Lemma addScored_0 g : Games.addScored g 0 = g.
Proof. destruct g; unfold Games.addScored; simpl; f_equal; lia. Qed.

Lemma addAllowed_0 g : Games.addAllowed g 0 = g.
Proof. destruct g; unfold Games.addAllowed; simpl; f_equal; lia. Qed.

Lemma truthy_nonempty s : JsString.truthy s = true <-> s <> EmptyString.
Proof.
  unfold JsString.truthy; destruct (String.eqb_spec s EmptyString); simpl;
    split; congruence.
Qed.

(** The entry of a game after the first pass: created by the first batting
    row of the game, with the runs of all its batting rows. *)
Lemma battingPass_get rows :
  forall m id, id <> EmptyString ->
    JsMap.get (fold_left Games.battingPass rows m) id
    = match JsMap.get m id with
      | Some g0 => Some (Games.addScored g0 (total r_runs (rowsOfGame id rows)))
      | None =>
          match find (fun r => String.eqb (r_gameId r) id) rows with
          | Some row =>
              Some (Games.addScored (Games.newEntry row)
                      (total r_runs (rowsOfGame id rows)))
          | None => None
          end
      end.
Proof.
  induction rows as [|row rows IH]; intros m id Hid; simpl.
  - destruct (JsMap.get m id) as [g0|]; [rewrite addScored_0|]; reflexivity.
  - rewrite (IH _ id Hid); unfold Games.battingPass at 1.
    destruct (String.eqb_spec (r_gameId row) id) as [E|E].
    + assert (Ht : JsString.truthy (r_gameId row) = true)
        by (apply truthy_nonempty; congruence).
      rewrite Ht; simpl negb; cbv iota.
      rewrite JsMap_get_set, E, String.eqb_refl, <- E.
      simpl; rewrite addScored_addScored.
      destruct (JsMap.get m (r_gameId row)); reflexivity.
    + destruct (negb (JsString.truthy (r_gameId row))); [reflexivity|].
      rewrite JsMap_get_set.
      destruct (String.eqb_spec (r_gameId row) id); [contradiction|].
      reflexivity.
Qed.

(** Rows without a game identifier create no entry. *)
Lemma battingPass_get_empty rows :
  forall m, JsMap.get (fold_left Games.battingPass rows m) EmptyString
            = JsMap.get m EmptyString.
Proof.
  induction rows as [|row rows IH]; intros m; simpl; [reflexivity|].
  rewrite IH; unfold Games.battingPass.
  destruct (JsString.truthy (r_gameId row)) eqn:Ht; simpl; [|reflexivity].
  rewrite JsMap_get_set.
  destruct (String.eqb_spec (r_gameId row) EmptyString) as [E|E];
    [|reflexivity].
  apply truthy_nonempty in Ht; contradiction.
Qed.

Lemma battingPass_NoDup rows :
  forall m, NoDup (map fst m) ->
            NoDup (map fst (fold_left Games.battingPass rows m)).
Proof.
  induction rows as [|row rows IH]; intros m Hm; simpl; [exact Hm|].
  apply IH; unfold Games.battingPass.
  destruct (negb (JsString.truthy (r_gameId row))); [exact Hm|].
  rewrite JsMap_set_keys.
  destruct (JsMap.has m (r_gameId row)) eqn:Hh; [exact Hm|].
  apply NoDup_app_remove_l with (l := []); simpl.
  rewrite <- (app_nil_r (map fst m ++ [r_gameId row])).
  apply Permutation_NoDup with (l := r_gameId row :: map fst m).
  - rewrite app_nil_r; apply Permutation_cons_append.
  - constructor; [|exact Hm].
    intros Hin; apply JsMap_has_In in Hin; congruence.
Qed.

(** The second pass adds the runs allowed to the entries that exist and
    creates none. *)
Lemma pitchingPass_get rows :
  forall m id,
    JsMap.get (fold_left Games.pitchingPass rows m) id
    = option_map
        (fun g => Games.addAllowed g (total r_r (rowsOfGame id rows)))
        (JsMap.get m id).
Proof.
  induction rows as [|row rows IH]; intros m id; simpl.
  - destruct (JsMap.get m id); simpl; [rewrite addAllowed_0|]; reflexivity.
  - rewrite IH; unfold Games.pitchingPass at 1.
    destruct (String.eqb_spec (r_gameId row) id) as [E|E].
    + rewrite E.
      destruct (JsMap.get m id) as [g|] eqn:Hg; simpl.
      * rewrite JsMap_get_set, String.eqb_refl; simpl.
        rewrite addAllowed_addAllowed; reflexivity.
      * rewrite Hg; reflexivity.
    + destruct (JsMap.get m (r_gameId row)); [|reflexivity].
      rewrite JsMap_get_set.
      destruct (String.eqb_spec (r_gameId row) id); [contradiction|].
      reflexivity.
Qed.

Lemma pitchingPass_keys rows :
  forall m, map fst (fold_left Games.pitchingPass rows m) = map fst m.
Proof.
  induction rows as [|row rows IH]; intros m; simpl; [reflexivity|].
  rewrite IH; unfold Games.pitchingPass.
  destruct (JsMap.get m (r_gameId row)) eqn:Hg; [|reflexivity].
  rewrite JsMap_set_keys; unfold JsMap.has; rewrite Hg; reflexivity.
Qed.

Lemma gamesMap_NoDup bat pit : NoDup (map fst (Games.gamesMap bat pit)).
Proof.
  unfold Games.gamesMap; rewrite pitchingPass_keys.
  apply battingPass_NoDup; constructor.
Qed.

(** The entry of a game in the map of games. *)
Lemma gamesMap_get bat pit id :
  JsMap.get (Games.gamesMap bat pit) id
  = if String.eqb id EmptyString then None
    else match find (fun r => String.eqb (r_gameId r) id) bat with
         | Some row =>
             Some (Games.addAllowed
                     (Games.addScored (Games.newEntry row)
                        (total r_runs (rowsOfGame id bat)))
                     (total r_r (rowsOfGame id pit)))
         | None => None
         end.
Proof.
  unfold Games.gamesMap; rewrite pitchingPass_get.
  destruct (String.eqb_spec id EmptyString) as [->|Hid].
  - rewrite battingPass_get_empty; reflexivity.
  - rewrite (battingPass_get bat [] id Hid); simpl.
    destruct (find _ bat); reflexivity.
Qed.

(** What an entry of the map of games holds. *)
Lemma gamesMap_entry bat pit g :
  In g (JsMap.values (Games.gamesMap bat pit)) ->
  g_id g <> EmptyString
  /\ (exists row, In row bat /\ r_gameId row = g_id g)
  /\ JsMap.get (Games.gamesMap bat pit) (g_id g) = Some g
  /\ g_date g = gameDate bat (g_id g)
  /\ g_runsScored g = total r_runs (rowsOfGame (g_id g) bat)
  /\ g_runsAllowed g = total r_r (rowsOfGame (g_id g) pit).
Proof.
  unfold JsMap.values; intros H.
  apply in_map_iff in H; destruct H as [[id g'] [Hg H]]; simpl in Hg; subst g'.
  apply (JsMap_In_get _ _ _ (gamesMap_NoDup bat pit)) in H.
  pose proof H as Hget.
  rewrite gamesMap_get in H.
  destruct (String.eqb_spec id EmptyString) as [E|Hid]; [discriminate|].
  destruct (find _ bat) as [row|] eqn:Hf; [|discriminate].
  pose proof Hf as Hfirst.
  apply find_some in Hf; destruct Hf as [Hin Heq].
  apply String.eqb_eq in Heq.
  injection H as <-; simpl in *.
  rewrite Heq; split; [exact Hid|].
  split; [exists row; split; assumption|].
  split; [exact Hget|].
  split; [unfold gameDate, firstRowOfGame; rewrite Hfirst; reflexivity|].
  split; lia.
Qed.

Lemma gamesMap_has_game bat pit row :
  In row bat -> r_gameId row <> EmptyString ->
  exists g, In g (JsMap.values (Games.gamesMap bat pit))
            /\ g_id g = r_gameId row.
Proof.
  intros Hin Hid.
  pose proof (gamesMap_get bat pit (r_gameId row)) as H.
  destruct (String.eqb_spec (r_gameId row) EmptyString); [contradiction|].
  destruct (find (fun r => String.eqb (r_gameId r) (r_gameId row)) bat)
    as [row'|] eqn:Hf.
  - apply find_some in Hf; destruct Hf as [_ Heq]; apply String.eqb_eq in Heq.
    eexists; split.
    + unfold JsMap.values; apply in_map_iff.
      eexists (_, _); split; [reflexivity | apply JsMap_get_In, H].
    + simpl; exact Heq.
  - exfalso; apply (find_none _ _ Hf) in Hin.
    rewrite String.eqb_refl in Hin; discriminate.
Qed.

Lemma gameByGameStats_walk host bat pit :
  Games.gameByGameStats host bat pit
  = Games.walk 0 0 (Games.sortedGames host bat pit).
Proof.
  unfold Games.gameByGameStats; destruct bat as [|row bat]; [|reflexivity].
  unfold Games.sortedGames, Games.gamesMap; simpl.
  pose proof (pitchingPass_keys pit []) as H; simpl in H.
  apply map_eq_nil in H; rewrite H; reflexivity.
Qed.

(** The walk ends in the TypeError when a game has no date, and gives the
    series of the games otherwise. *)
Lemma walk_seriesOf games :
  forall wins played,
    Games.walk wins played games
    = if forallb dated games then Some (seriesOf wins played games)
      else None.
Proof.
  induction games as [|g games IH]; intros wins played; [reflexivity|].
  cbn [Games.walk seriesOf forallb]; cbv zeta; rewrite IH.
  unfold Games.labelOf, labelText, dated.
  destruct (g_date g) as [date|]; cbn [andb text]; [|reflexivity].
  destruct (forallb _ games); reflexivity.
Qed.

Lemma seriesOf_games games :
  forall wins played, map gr_game (seriesOf wins played games) = games.
Proof.
  induction games as [|g games IH]; intros wins played; simpl;
    [reflexivity | rewrite IH; reflexivity].
Qed.



Lemma sortedGames_perm host bat pit :
  Permutation (Games.sortedGames host bat pit)
              (JsMap.values (Games.gamesMap bat pit)).
Proof. apply sort_perm. Qed.

Lemma sortedGames_In host bat pit g :
  In g (Games.sortedGames host bat pit)
  <-> In g (JsMap.values (Games.gamesMap bat pit)).
Proof.
  split; apply Permutation_in;
    [apply sortedGames_perm | apply Permutation_sym, sortedGames_perm].
Qed.


Lemma gamesMap_ids bat pit :
  map g_id (JsMap.values (Games.gamesMap bat pit))
  = map fst (Games.gamesMap bat pit).
Proof.
  unfold JsMap.values; rewrite map_map; apply map_ext_in.
  intros [id g] Hin; simpl.
  assert (Hv : In g (JsMap.values (Games.gamesMap bat pit))).
  { unfold JsMap.values; apply in_map_iff; exists (id, g); auto. }
  apply gamesMap_entry in Hv; destruct Hv as [_ [_ [Hget _]]].
  apply JsMap_get_In in Hget.
  pose proof (gamesMap_NoDup bat pit) as Hnd.
  apply (JsMap_In_get _ _ _ Hnd) in Hin.
  apply (JsMap_In_get _ _ _ Hnd) in Hget.
  destruct (String.eqb_spec (g_id g) id) as [E|E]; [exact E|].
  exfalso.
  (* two keys for one entry: both are the identifier created with it *)
  rewrite gamesMap_get in Hin.
  destruct (String.eqb id EmptyString); [discriminate|].
  destruct (find _ bat) as [row|] eqn:Hf; [|discriminate].
  apply find_some in Hf; destruct Hf as [_ Heq]; apply String.eqb_eq in Heq.
  injection Hin as <-; simpl in E; congruence.
Qed.

(** The games all have a date when the first batting row of each has
    one. *)
Lemma sortedGames_dated host bat pit :
  forallb dated (Games.sortedGames host bat pit) = allDated bat.
Proof.
  destruct (allDated bat) eqn:Ha.
  - apply forallb_forall; intros g Hg.
    apply sortedGames_In, gamesMap_entry in Hg.
    destruct Hg as [Hid [[row [Hrow Hgid]] [_ [Hd _]]]].
    unfold allDated in Ha; rewrite forallb_forall in Ha.
    specialize (Ha row Hrow); rewrite Hgid in Ha.
    apply truthy_nonempty in Hid; rewrite Hid in Ha; cbn [negb orb] in Ha.
    unfold dated; rewrite Hd.
    destruct (gameDate bat (g_id g)); [reflexivity | discriminate Ha].
  - destruct (forallb dated (Games.sortedGames host bat pit)) eqn:Hf;
      [|reflexivity].
    rewrite forallb_forall in Hf.
    assert (H : allDated bat = true); [|congruence].
    apply forallb_forall; intros row Hrow.
    destruct (JsString.truthy (r_gameId row)) eqn:Ht; [|reflexivity].
    cbn [negb orb]; apply truthy_nonempty in Ht.
    destruct (gamesMap_has_game bat pit row Hrow Ht) as [g [Hg Hgid]].
    pose proof (gamesMap_entry bat pit g Hg) as [_ [_ [_ [Hd _]]]].
    apply sortedGames_In with (host := host) in Hg.
    specialize (Hf g Hg); unfold dated in Hf.
    rewrite <- Hgid, <- Hd; destruct (g_date g); [reflexivity | discriminate].
Qed.

Lemma gameByGameStats_series host bat pit :
  Games.gameByGameStats host bat pit
  = if allDated bat
    then Some (seriesOf 0 0 (Games.sortedGames host bat pit))
    else None.
Proof.
  rewrite gameByGameStats_walk, walk_seriesOf, sortedGames_dated.
  reflexivity.
Qed.









(* ================================================================== *)
(** * Ranking *)
(* ================================================================== *)

Lemma lt_rank a b :
  wellFormed a = true -> wellFormed b = true ->
  lt a b = (rank a <? rank b).
Proof.
  intros Ha Hb; unfold lt, SFltb, Z.ltb.
  rewrite (compare_rank a b Ha Hb); reflexivity.
Qed.

Lemma le_rank a b :
  wellFormed a = true -> wellFormed b = true ->
  le a b = (rank a <=? rank b).
Proof.
  intros Ha Hb; unfold le, SFleb, Z.leb.
  rewrite (compare_rank a b Ha Hb).
  destruct (rank a ?= rank b); reflexivity.
Qed.

(** Among numbers, the comparator of an ascending sort is positive
    exactly when its first argument is the greater one. *)
Lemma sub_positive_iff_gt a b :
  wellFormed a = true -> wellFormed b = true ->
  lt pzero (sub a b) = lt b a.
Proof.
  intros Ha Hb; rewrite sub_sign, lt_rank by assumption; reflexivity.
Qed.

Lemma ascKey_wellFormed {A : Type} (value : A -> option num) l a :
  valuesWellFormed value l -> In a l ->
  wellFormed (ascKey (value a)) = true.
Proof.
  intros H Hin; unfold ascKey, orElse.
  destruct (value a) as [v|] eqn:E; [apply (H a v Hin E) | reflexivity].
Qed.

Lemma descKey_wellFormed {A : Type} (value : A -> option num) l a :
  valuesWellFormed value l -> In a l ->
  wellFormed (descKey (value a)) = true.
Proof.
  intros H Hin; unfold descKey, orElse.
  destruct (value a) as [v|] eqn:E; [apply (H a v Hin E) | reflexivity].
Qed.

Lemma sort_ascending {A : Type} (value : A -> option num) l :
  valuesWellFormed value l ->
  StronglySorted (ascending value)
    (JsArray.sort (fun a b => ascGt (value a) (value b)) l).
Proof.
  intros H.
  apply sort_sorted
    with (P := fun a => wellFormed (ascKey (value a)) = true).
  - unfold ascending; intros x y z Hx Hy Hz.
    rewrite !le_rank by assumption; rewrite !Z.leb_le; lia.
  - unfold ascending, ascGt; intros x y Hx Hy.
    fold (ascKey (value x)) (ascKey (value y)).
    rewrite sub_sign, le_rank by assumption.
    rewrite Z.ltb_ge, Z.leb_le; auto.
  - unfold ascending, ascGt; intros x y Hx Hy.
    fold (ascKey (value x)) (ascKey (value y)).
    rewrite sub_sign, le_rank by assumption.
    rewrite Z.ltb_lt, Z.leb_le; lia.
  - apply Forall_forall; intros a Ha.
    eapply ascKey_wellFormed; eassumption.
Qed.

Lemma sort_descending {A : Type} (value : A -> option num) l :
  valuesWellFormed value l ->
  StronglySorted (descending value)
    (JsArray.sort (fun a b => descGt (value a) (value b)) l).
Proof.
  intros H.
  apply sort_sorted
    with (P := fun a => wellFormed (descKey (value a)) = true).
  - unfold descending; intros x y z Hx Hy Hz.
    rewrite !le_rank by assumption; rewrite !Z.leb_le; lia.
  - unfold descending, descGt; intros x y Hx Hy.
    fold (descKey (value x)) (descKey (value y)).
    rewrite sub_sign, le_rank by assumption.
    rewrite Z.ltb_ge, Z.leb_le; auto.
  - unfold descending, descGt; intros x y Hx Hy.
    fold (descKey (value x)) (descKey (value y)).
    rewrite sub_sign, le_rank by assumption.
    rewrite Z.ltb_lt, Z.leb_le; lia.
  - apply Forall_forall; intros a Ha.
    eapply descKey_wellFormed; eassumption.
Qed.

Lemma StronglySorted_firstn {A : Type} (R : A -> A -> Prop) n l :
  StronglySorted R l -> StronglySorted R (firstn n l).
Proof.
  revert n; induction l as [|x l IH]; intros [|n] H; simpl;
    try constructor.
  - apply IH; inversion H; assumption.
  - inversion H as [|? ? _ Hx]; subst.
    apply Forall_forall; intros y Hy.
    rewrite Forall_forall in Hx; apply Hx; eapply In_firstn; exact Hy.
Qed.

Lemma StronglySorted_after {A : Type} (R : A -> A -> Prop) l1 a l2 :
  StronglySorted R (l1 ++ a :: l2) -> Forall (R a) l2.
Proof.
  induction l1 as [|x l1 IH]; simpl; intros H; inversion H; subst; auto.
Qed.

(** Only an infinity reaches the key of a missing value. *)
Lemma le_pinf_inv v :
  wellFormed v = true -> le pinf v = true -> v = pinf.
Proof.
  intros Hv H; rewrite le_rank in H by (reflexivity || assumption).
  apply Z.leb_le in H.
  assert (Hbig : 0 < 2 ^ 2098) by (apply Z.pow_pos_nonneg; lia).
  destruct v as [s|s| |s m e]; try discriminate; cbn [rank pinf cond_Zopp] in H.
  - lia.
  - destruct s; [cbn [cond_Zopp] in H; lia | reflexivity].
  - pose proof (finite_rank_bound _ _ _ Hv).
    destruct s; cbn [cond_Zopp] in H; lia.
Qed.

Lemma le_ninf_inv v :
  wellFormed v = true -> le v ninf = true -> v = ninf.
Proof.
  intros Hv H; rewrite le_rank in H by (reflexivity || assumption).
  apply Z.leb_le in H.
  assert (Hbig : 0 < 2 ^ 2098) by (apply Z.pow_pos_nonneg; lia).
  destruct v as [s|s| |s m e]; try discriminate; cbn [rank ninf cond_Zopp] in H.
  - lia.
  - destruct s; [reflexivity | cbn [cond_Zopp] in H; lia].
  - pose proof (finite_rank_bound _ _ _ Hv).
    destruct s; cbn [cond_Zopp] in H; lia.
Qed.

(** In an ascending ranking nothing better than a missing value comes
    after it, and likewise in a descending one. *)
Lemma missing_last_ascending {A : Type} (value : A -> option num) l1 a l2 b :
  valuesWellFormed value (l1 ++ a :: l2) ->
  StronglySorted (ascending value) (l1 ++ a :: l2) ->
  value a = None -> In b l2 ->
  value b = None \/ value b = Some pinf.
Proof.
  intros Hwf Hs Ha Hb.
  apply StronglySorted_after in Hs; rewrite Forall_forall in Hs.
  specialize (Hs b Hb); unfold ascending in Hs; rewrite Ha in Hs.
  destruct (value b) as [v|] eqn:E; [right | left; reflexivity].
  f_equal; apply le_pinf_inv; [|exact Hs].
  apply (Hwf b v); [apply in_or_app; right; right; exact Hb | exact E].
Qed.

Lemma missing_last_descending {A : Type} (value : A -> option num) l1 a l2 b :
  valuesWellFormed value (l1 ++ a :: l2) ->
  StronglySorted (descending value) (l1 ++ a :: l2) ->
  value a = None -> In b l2 ->
  value b = None \/ value b = Some ninf.
Proof.
  intros Hwf Hs Ha Hb.
  apply StronglySorted_after in Hs; rewrite Forall_forall in Hs.
  specialize (Hs b Hb); unfold descending in Hs; rewrite Ha in Hs.
  destruct (value b) as [v|] eqn:E; [right | left; reflexivity].
  f_equal; apply le_ninf_inv; [|exact Hs].
  apply (Hwf b v); [apply in_or_app; right; right; exact Hb | exact E].
Qed.

Lemma valuesWellFormed_perm {A : Type} (value : A -> option num) l l' :
  Permutation l' l -> valuesWellFormed value l -> valuesWellFormed value l'.
Proof.
  intros Hp H a v Hin; apply H; eapply Permutation_in; eassumption.
Qed.

Lemma RankingList_sort {A : Type} (value : A -> option num) isAsc top items :
  RankingList value isAsc true top items
  = if isAsc
    then JsArray.sort (fun a b => ascGt (value a) (value b)) items
    else JsArray.sort (fun a b => descGt (value a) (value b)) items.
Proof. destruct isAsc; reflexivity. Qed.

Lemma RankingList_top {A : Type} (value : A -> option num) isAsc top items :
  RankingList value isAsc false top items
  = firstn top (RankingList value isAsc true top items).
Proof. reflexivity. Qed.

(** C8: the ranking is a reordering of the qualifying entries; for the
    metrics era and whip it is ascending by value, for every other metric
    descending, a missing value counting as +Infinity in the first case
    and as -Infinity in the second, so that after an entry without a value
    come only entries without one (or with that infinity); the list of the
    all-rankings view follows the same policy by its [isAsc].  So era 2.50
    comes before era 3.00 and 10 home runs before 5.  The values are
    supposed to be numbers (no NaN). *)
Theorem ranking_sort_policy aggB aggP metric minPA dataType :
  let data := rankingEntries aggB aggP metric minPA dataType in
  let out := rankingData aggB aggP metric minPA dataType in
  valuesWellFormed re_value data ->
  Permutation out data
  /\ (metric = Era \/ metric = Whip -> StronglySorted (ascending re_value) out)
  /\ (metric <> Era -> metric <> Whip ->
      StronglySorted (descending re_value) out)
  /\ (forall l1 a l2 b,
        out = l1 ++ a :: l2 -> re_value a = None -> In b l2 ->
        re_value b = None
        \/ re_value b = Some (if lowerIsBetter metric then pinf else ninf))
  /\ (forall (A : Type) (value : A -> option num) isAsc showAll top items,
        valuesWellFormed value items ->
        let shown := RankingList value isAsc showAll top items in
        (isAsc = true -> StronglySorted (ascending value) shown)
        /\ (isAsc = false -> StronglySorted (descending value) shown)
        /\ (showAll = true -> Permutation shown items))
  /\ map (fun e => (re_name e, re_value e))
         (rankingData [] (aggregatedPitching Sample.twoPitchers) Era pzero
            PitchingData)
     = [(Some "A"%string, Some (dec false 250 2));
        (Some "B"%string, Some (dec false 300 2))]
  /\ map (fun e => (re_name e, re_value e))
         (rankingData (aggregatedBatting Sample.twoSluggers) [] Hr pzero
            BattingData)
     = [(Some "X"%string, Some (of_Z 10));
        (Some "Y"%string, Some (of_Z 5))]
  /\ map fst (RankingList snd true true 10 Sample.threeItems)
     = ["z"%string; "y"%string; "x"%string]
  /\ map fst (RankingList snd false true 10 Sample.threeItems)
     = ["y"%string; "z"%string; "x"%string].
Proof.
  cbv zeta; intros Hwf.
  set (data := rankingEntries aggB aggP metric minPA dataType) in *.
  assert (Hperm : Permutation (rankingData aggB aggP metric minPA dataType) data).
  { unfold rankingData; fold data.
    destruct (lowerIsBetter metric); apply sort_perm. }
  assert (Hasc : lowerIsBetter metric = true ->
                 StronglySorted (ascending re_value)
                   (rankingData aggB aggP metric minPA dataType)).
  { intros Hm; unfold rankingData; fold data; rewrite Hm.
    apply sort_ascending, Hwf. }
  assert (Hdesc : lowerIsBetter metric = false ->
                  StronglySorted (descending re_value)
                    (rankingData aggB aggP metric minPA dataType)).
  { intros Hm; unfold rankingData; fold data; rewrite Hm.
    apply sort_descending, Hwf. }
  split; [exact Hperm|].
  split; [intros [->| ->]; apply Hasc; reflexivity|].
  split.
  { intros H1 H2; apply Hdesc; destruct metric; try reflexivity; congruence. }
  split.
  { intros l1 a l2 b Hout Ha Hb.
    pose proof (valuesWellFormed_perm _ _ _ Hperm Hwf) as Hwf'.
    rewrite Hout in Hwf'.
    destruct (lowerIsBetter metric) eqn:Hm.
    - specialize (Hasc eq_refl); rewrite Hout in Hasc.
      eapply missing_last_ascending; eassumption.
    - specialize (Hdesc eq_refl); rewrite Hout in Hdesc.
      eapply missing_last_descending; eassumption. }
  split.
  { intros A value isAsc showAll top items Hit.
    assert (Hall_a : isAsc = true -> StronglySorted (ascending value)
                       (RankingList value isAsc true top items)).
    { intros ->; rewrite RankingList_sort; apply sort_ascending, Hit. }
    assert (Hall_d : isAsc = false -> StronglySorted (descending value)
                       (RankingList value isAsc true top items)).
    { intros ->; rewrite RankingList_sort; apply sort_descending, Hit. }
    destruct showAll.
    - split; [exact Hall_a|]. split; [exact Hall_d|].
      intros _; rewrite RankingList_sort; destruct isAsc; apply sort_perm.
    - rewrite RankingList_top.
      split; [intros E; apply StronglySorted_firstn, Hall_a, E|].
      split; [intros E; apply StronglySorted_firstn, Hall_d, E|].
      discriminate. }
  repeat split; vm_compute; reflexivity.
Qed.

Lemma ranking_sort_policy_witness :
  StronglySorted (ascending re_value)
    (rankingData [] (aggregatedPitching Sample.twoPitchers) Era pzero
       PitchingData).
Proof.
  refine (proj1 (proj2 (ranking_sort_policy
                          [] (aggregatedPitching Sample.twoPitchers) Era pzero
                          PitchingData _)) (or_introl eq_refl)).
  intros a v Hin Hv.
  vm_compute in Hin.
  destruct Hin as [<-|[<-|[]]]; injection Hv as <-; vm_compute; reflexivity.
Defined.

(* ================================================================== *)
(** * Grouping by key: the aggregations by player *)
(* ================================================================== *)

Lemma fold_left_pointwise {A B : Type} (f g : A -> B -> A) l :
  (forall a b, f a b = g a b) ->
  forall a, fold_left f l a = fold_left g l a.
Proof.
  intros H; induction l as [|b l IH]; intros a; simpl; [reflexivity|].
  rewrite H; apply IH.
Qed.

Lemma ownKey_Some row k :
  ownKey row = Some k <-> playerKey row = k /\ JsObject.inherited k = false.
Proof.
  unfold ownKey; destruct (JsObject.inherited (playerKey row)) eqn:E; split.
  - discriminate.
  - intros [<- H]; congruence.
  - intros [= <-]; split; [reflexivity | exact E].
  - intros [<- _]; reflexivity.
Qed.

Lemma batStep_groupStep stats row :
  batStep stats row = groupStep ownKey (fun _ => batInit) batAdd stats row.
Proof.
  unfold batStep, groupStep, ownKey.
  destruct (JsObject.inherited (playerKey row)); reflexivity.
Qed.

Lemma pitStep_groupStep stats row :
  pitStep stats row = groupStep ownKey (fun _ => pitInit) pitAdd stats row.
Proof.
  unfold pitStep, groupStep, ownKey.
  destruct (JsObject.inherited (playerKey row)); reflexivity.
Qed.

Lemma batting_stats_groupStep rows :
  fold_left batStep rows []
  = fold_left (groupStep ownKey (fun _ => batInit) batAdd) rows [].
Proof. apply fold_left_pointwise, batStep_groupStep. Qed.

Lemma pitching_stats_groupStep rows :
  fold_left pitStep rows []
  = fold_left (groupStep ownKey (fun _ => pitInit) pitAdd) rows [].
Proof. apply fold_left_pointwise, pitStep_groupStep. Qed.

Lemma batAdd_fold rows s :
  fold_left batAdd rows s
  = {| bs_id := bs_id s; bs_name := bs_name s; bs_number := bs_number s;
       bs_games := bs_games s + Z.of_nat (List.length rows);
       bs_pa := bs_pa s + total r_pa rows; bs_ab := bs_ab s + total r_ab rows;
       bs_h := bs_h s + total r_h rows;
       bs_doubles := bs_doubles s + total r_doubles rows;
       bs_triples := bs_triples s + total r_triples rows;
       bs_hr := bs_hr s + total r_hr rows; bs_rbi := bs_rbi s + total r_rbi rows;
       bs_runs := bs_runs s + total r_runs rows;
       bs_so := bs_so s + total r_so rows; bs_bb := bs_bb s + total r_bb rows;
       bs_hbp := bs_hbp s + total r_hbp rows;
       bs_sb := bs_sb s + total r_sb rows; bs_sf := bs_sf s + total r_sf rows;
       bs_sac := bs_sac s + total r_sac rows |}.
Proof.
  revert s; induction rows as [|row rows IH]; intros s.
  - destruct s; cbn; rewrite ?Z.add_0_r; reflexivity.
  - cbn [fold_left]; rewrite IH; cbn [batAdd bs_id bs_name bs_number bs_games
      bs_pa bs_ab bs_h bs_doubles bs_triples bs_hr bs_rbi bs_runs bs_so bs_bb
      bs_hbp bs_sb bs_sf bs_sac total fold_right List.length].
    rewrite Nat2Z.inj_succ; unfold Z.succ.
    rewrite (Z.add_comm (Z.of_nat (List.length rows)) 1), !Z.add_assoc.
    reflexivity.
Qed.

Lemma pitAdd_fold rows s :
  fold_left pitAdd rows s
  = {| ps_id := ps_id s; ps_name := ps_name s; ps_number := ps_number s;
       ps_games := ps_games s + Z.of_nat (List.length rows);
       ps_outs := ps_outs s + total r_outs rows;
       ps_h := ps_h s + total r_h rows; ps_r := ps_r s + total r_r rows;
       ps_er := ps_er s + total r_er rows; ps_bb := ps_bb s + total r_bb rows;
       ps_hbp := ps_hbp s + total r_hbp rows;
       ps_so := ps_so s + total r_so rows;
       ps_win := ps_win s + total r_win rows;
       ps_loss := ps_loss s + total r_loss rows;
       ps_sv := ps_sv s + total r_sv rows |}.
Proof.
  revert s; induction rows as [|row rows IH]; intros s.
  - destruct s; cbn; rewrite ?Z.add_0_r; reflexivity.
  - cbn [fold_left]; rewrite IH; cbn [pitAdd ps_id ps_name ps_number ps_games
      ps_outs ps_h ps_r ps_er ps_bb ps_hbp ps_so ps_win ps_loss ps_sv
      total fold_right List.length].
    rewrite Nat2Z.inj_succ; unfold Z.succ.
    rewrite (Z.add_comm (Z.of_nat (List.length rows)) 1), !Z.add_assoc.
    reflexivity.
Qed.

Lemma rowsWithKey_In key k rows r :
  In r (rowsWithKey key k rows) <-> In r rows /\ key r = Some k.
Proof.
  unfold rowsWithKey; rewrite filter_In.
  destruct (key r) as [k'|]; split; intros [H1 H2]; split; try assumption;
    try discriminate.
  - apply String.eqb_eq in H2; congruence.
  - injection H2 as ->; apply String.eqb_refl.
Qed.

(** The accumulators of [aggregatedBatting]: under each key, the line of
    the rows of that key. *)
Lemma batting_stats_entry rows k s :
  In (k, s) (fold_left batStep rows []) ->
  exists first rest,
    rowsWithKey ownKey k rows = first :: rest
    /\ s = batLine first (first :: rest).
Proof.
  rewrite batting_stats_groupStep; intros H.
  apply JsMap_In_get in H; [|apply groupStep_NoDup; constructor].
  change (@JsMap.get BatStats) with (@JsObject.get BatStats) in H.
  rewrite groupStep_get in H.
  cbn [JsObject.get JsMap.get] in H.
  destruct (rowsWithKey ownKey k rows) as [|first rest]; [discriminate|].
  assert (Hs : s = fold_left batAdd (first :: rest) (batInit first))
    by congruence.
  exists first, rest; split; [reflexivity|].
  rewrite Hs, (batAdd_fold (first :: rest)); reflexivity.
Qed.

Lemma pitching_stats_entry rows k s :
  In (k, s) (fold_left pitStep rows []) ->
  exists first rest,
    rowsWithKey ownKey k rows = first :: rest
    /\ s = pitLine first (first :: rest).
Proof.
  rewrite pitching_stats_groupStep; intros H.
  apply JsMap_In_get in H; [|apply groupStep_NoDup; constructor].
  change (@JsMap.get PitStats) with (@JsObject.get PitStats) in H.
  rewrite groupStep_get in H.
  cbn [JsObject.get JsMap.get] in H.
  destruct (rowsWithKey ownKey k rows) as [|first rest]; [discriminate|].
  assert (Hs : s = fold_left pitAdd (first :: rest) (pitInit first))
    by congruence.
  exists first, rest; split; [reflexivity|].
  rewrite Hs, (pitAdd_fold (first :: rest)); reflexivity.
Qed.

Lemma batting_stats_key rows k s :
  In (k, s) (fold_left batStep rows []) -> batKey (batSummary s) = k.
Proof.
  intros H; apply batting_stats_entry in H.
  destruct H as [first [rest [Hr ->]]].
  assert (Hin : In first (rowsWithKey ownKey k rows))
    by (rewrite Hr; left; reflexivity).
  apply rowsWithKey_In in Hin; destruct Hin as [_ Hk].
  apply ownKey_Some in Hk; destruct Hk as [<- _]; reflexivity.
Qed.

Lemma pitching_stats_key rows k s :
  In (k, s) (fold_left pitStep rows []) -> pitKey (pitSummary s) = k.
Proof.
  intros H; apply pitching_stats_entry in H.
  destruct H as [first [rest [Hr ->]]].
  assert (Hin : In first (rowsWithKey ownKey k rows))
    by (rewrite Hr; left; reflexivity).
  apply rowsWithKey_In in Hin; destruct Hin as [_ Hk].
  apply ownKey_Some in Hk; destruct Hk as [<- _]; reflexivity.
Qed.

Lemma aggregatedBatting_perm rows :
  Permutation (aggregatedBatting rows)
              (map batSummary (map snd (fold_left batStep rows []))).
Proof.
  unfold aggregatedBatting.
  eapply perm_trans; [apply sort_perm|].
  apply Permutation_map; unfold JsObject.values.
  apply Permutation_map, JsObject_entries_perm.
Qed.

Lemma aggregatedPitching_perm rows :
  Permutation (aggregatedPitching rows)
              (map pitSummary (map snd (fold_left pitStep rows []))).
Proof.
  unfold aggregatedPitching.
  eapply perm_trans; [apply sort_perm|].
  apply Permutation_map; unfold JsObject.values.
  apply Permutation_map, JsObject_entries_perm.
Qed.

(** X10: every player with a batting row, and whose key ([選手ID], or the
    name when that is empty or absent) is not the name of a property that
    every object inherits, has exactly one line; the line sums the rows of
    that key and is named after the first of them.  The rows of a player
    whose key is such a name (a player called [constructor]) make no line:
    of the two players of the sample only [a] has one. *)
Theorem aggregatedBatting_by_player rows :
  let out := aggregatedBatting rows in
  NoDup (map batKey out)
  /\ (forall k, In k (map batKey out)
                <-> exists row, In row rows /\ playerKey row = k
                                /\ JsObject.inherited k = false)
  /\ (forall p, In p out ->
        exists first rest,
          rowsWithKey ownKey (batKey p) rows = first :: rest
          /\ p = batSummary (batLine first (first :: rest)))
  /\ map (fun p => (batKey p, bs_ab (b_stats p)))
         (aggregatedBatting Sample.oddlyNamed)
     = [("a"%string, 3)].
Proof.
  cbv zeta.
  pose proof (aggregatedBatting_perm rows) as Hperm.
  set (stats := fold_left batStep rows []) in *.
  assert (Hkeys : map batKey (map batSummary (map snd stats)) = map fst stats).
  { rewrite (map_map batSummary batKey).
    apply (map_fst_entries (fun s => batKey (batSummary s))).
    intros k v; apply batting_stats_key. }
  assert (Hpk : Permutation (map batKey (aggregatedBatting rows)) (map fst stats)).
  { rewrite <- Hkeys; apply Permutation_map, Hperm. }
  split.
  { eapply Permutation_NoDup; [apply Permutation_sym, Hpk|].
    subst stats; rewrite batting_stats_groupStep.
    apply groupStep_NoDup; constructor. }
  split.
  { intros k; split.
    - intros Hin; eapply Permutation_in in Hin; [|exact Hpk].
      apply in_map_iff in Hin; destruct Hin as [[k' s] [Hk Hin]].
      simpl in Hk; subst k'.
      apply batting_stats_entry in Hin.
      destruct Hin as [first [rest [Hr _]]].
      assert (Hin : In first (rowsWithKey ownKey k rows))
        by (rewrite Hr; left; reflexivity).
      apply rowsWithKey_In in Hin; destruct Hin as [Hin Hk].
      apply ownKey_Some in Hk; exists first; split; assumption.
    - intros [row [Hin Hk]]; apply ownKey_Some in Hk.
      eapply Permutation_in; [apply Permutation_sym, Hpk|].
      destruct (groupStep_has_key ownKey (fun _ => batInit) batAdd
                  rows row k Hin Hk) as [v Hv].
      change k with (fst (k, v)); apply in_map.
      subst stats; rewrite batting_stats_groupStep; exact Hv. }
  split.
  { intros p Hp; eapply Permutation_in in Hp; [|exact Hperm].
    apply in_map_iff in Hp; destruct Hp as [s [<- Hs]].
    apply in_map_iff in Hs; destruct Hs as [[k s'] [Hk Hin]].
    simpl in Hk; subst s'.
    rewrite (batting_stats_key rows k s Hin).
    apply batting_stats_entry in Hin.
    destruct Hin as [first [rest [Hr ->]]].
    exists first, rest; split; [exact Hr | reflexivity]. }
  vm_compute; reflexivity.
Qed.

(** X11: every pitcher with a row, and whose key is not the name of a
    property that every object inherits, has exactly one line; the line
    sums the rows of that key and is named after the first of them.  The
    rows of a pitcher whose key is such a name make no line. *)
Theorem aggregatedPitching_by_player rows :
  let out := aggregatedPitching rows in
  NoDup (map pitKey out)
  /\ (forall k, In k (map pitKey out)
                <-> exists row, In row rows /\ playerKey row = k
                                /\ JsObject.inherited k = false)
  /\ (forall p, In p out ->
        exists first rest,
          rowsWithKey ownKey (pitKey p) rows = first :: rest
          /\ p = pitSummary (pitLine first (first :: rest)))
  /\ map (fun p => (pitKey p, ps_outs (p_stats p)))
         (aggregatedPitching
            [Sample.pit "toString" "g1" "2025-10-01" 9 1 1 40 25;
             Sample.pit "a" "g1" "2025-10-01" 12 2 2 50 30])
     = [("a"%string, 12)].
Proof.
  cbv zeta.
  pose proof (aggregatedPitching_perm rows) as Hperm.
  set (stats := fold_left pitStep rows []) in *.
  assert (Hkeys : map pitKey (map pitSummary (map snd stats)) = map fst stats).
  { rewrite (map_map pitSummary pitKey).
    apply (map_fst_entries (fun s => pitKey (pitSummary s))).
    intros k v; apply pitching_stats_key. }
  assert (Hpk : Permutation (map pitKey (aggregatedPitching rows)) (map fst stats)).
  { rewrite <- Hkeys; apply Permutation_map, Hperm. }
  split.
  { eapply Permutation_NoDup; [apply Permutation_sym, Hpk|].
    subst stats; rewrite pitching_stats_groupStep.
    apply groupStep_NoDup; constructor. }
  split.
  { intros k; split.
    - intros Hin; eapply Permutation_in in Hin; [|exact Hpk].
      apply in_map_iff in Hin; destruct Hin as [[k' s] [Hk Hin]].
      simpl in Hk; subst k'.
      apply pitching_stats_entry in Hin.
      destruct Hin as [first [rest [Hr _]]].
      assert (Hin : In first (rowsWithKey ownKey k rows))
        by (rewrite Hr; left; reflexivity).
      apply rowsWithKey_In in Hin; destruct Hin as [Hin Hk].
      apply ownKey_Some in Hk; exists first; split; assumption.
    - intros [row [Hin Hk]]; apply ownKey_Some in Hk.
      eapply Permutation_in; [apply Permutation_sym, Hpk|].
      destruct (groupStep_has_key ownKey (fun _ => pitInit) pitAdd
                  rows row k Hin Hk) as [v Hv].
      change k with (fst (k, v)); apply in_map.
      subst stats; rewrite pitching_stats_groupStep; exact Hv. }
  split.
  { intros p Hp; eapply Permutation_in in Hp; [|exact Hperm].
    apply in_map_iff in Hp; destruct Hp as [s [<- Hs]].
    apply in_map_iff in Hs; destruct Hs as [[k s'] [Hk Hin]].
    simpl in Hk; subst s'.
    rewrite (pitching_stats_key rows k s Hin).
    apply pitching_stats_entry in Hin.
    destruct Hin as [first [rest [Hr ->]]].
    exists first, rest; split; [exact Hr | reflexivity]. }
  vm_compute; reflexivity.
Qed.

(* ================================================================== *)
(** * Team totals *)
(* ================================================================== *)

Lemma same_cell_eq a b : same_cell a b = true <-> a = b.
Proof.
  destruct a as [x|], b as [y|]; simpl; split; intros H;
    try discriminate; try reflexivity.
  - apply String.eqb_eq in H; congruence.
  - injection H as ->; apply String.eqb_refl.
Qed.

Section JsSetFacts.
Context {A : Type}.
Variable same : A -> A -> bool.
Hypothesis same_eq : forall x y, same x y = true <-> x = y.

Lemma JsSet_has_In s x : JsSet.has same s x = true <-> In x s.
Proof.
  unfold JsSet.has; rewrite existsb_exists; split.
  - intros [y [Hy E]]; apply same_eq in E; subst; exact Hy.
  - intros H; exists x; split; [exact H | apply same_eq; reflexivity].
Qed.

Lemma JsSet_add_NoDup s x : NoDup s -> NoDup (JsSet.add same s x).
Proof.
  intros Hs; unfold JsSet.add; destruct (JsSet.has same s x) eqn:Hh;
    [exact Hs|].
  apply Permutation_NoDup with (l := x :: s);
    [apply Permutation_cons_append|].
  constructor; [|exact Hs].
  intros Hin; apply JsSet_has_In in Hin; congruence.
Qed.

Lemma JsSet_add_In s x y : In y (JsSet.add same s x) <-> In y s \/ y = x.
Proof.
  unfold JsSet.add; destruct (JsSet.has same s x) eqn:Hh.
  - apply JsSet_has_In in Hh; split; [auto | intros [H| ->]; assumption].
  - rewrite in_app_iff; simpl; split.
    + intros [H|[H|[]]]; [left; exact H | right; symmetry; exact H].
    + intros [H|H]; [left; exact H | right; left; symmetry; exact H].
Qed.

(** A set built from an array holds each value of the array once. *)
Lemma JsSet_of_list_spec l :
  NoDup (JsSet.of_list same l)
  /\ (forall x, In x (JsSet.of_list same l) <-> In x l).
Proof.
  unfold JsSet.of_list.
  assert (H : forall s, NoDup s ->
            NoDup (fold_left (JsSet.add same) l s)
            /\ (forall x, In x (fold_left (JsSet.add same) l s)
                          <-> In x s \/ In x l)).
  { induction l as [|y l IH]; intros s Hs; simpl.
    - split; [exact Hs | intros x; tauto].
    - destruct (IH (JsSet.add same s y) (JsSet_add_NoDup s y Hs)) as [H1 H2].
      split; [exact H1|].
      intros x; rewrite H2, JsSet_add_In; split.
      + intros [[H|H]|H]; auto.
      + intros [H|[H|H]]; auto. }
  destruct (H [] (NoDup_nil _)) as [H1 H2]; split; [exact H1|].
  intros x; rewrite H2; simpl; tauto.
Qed.

End JsSetFacts.

Lemma sumBy_fold_right {A : Type} (f : A -> Z) l :
  sumBy f l = fold_right (fun a acc => f a + acc) 0 l.
Proof.
  unfold sumBy.
  assert (H : forall z, fold_left (fun acc cur => acc + f cur) l z
                        = z + fold_right (fun a acc => f a + acc) 0 l).
  { induction l as [|a l IH]; intros z; simpl; [lia | rewrite IH; lia]. }
  rewrite H; lia.
Qed.

Lemma sumBy_perm {A : Type} (f : A -> Z) l l' :
  Permutation l l' -> sumBy f l = sumBy f l'.
Proof.
  intros H; rewrite !sumBy_fold_right.
  induction H; simpl; lia.
Qed.

Lemma sumBy_map {A B : Type} (g : A -> B) (f : B -> Z) l :
  sumBy f (map g l) = sumBy (fun a => f (g a)) l.
Proof.
  rewrite !sumBy_fold_right; induction l as [|a l IH]; simpl;
    [reflexivity | rewrite IH; reflexivity].
Qed.

Lemma counted_sum (c : Row -> option Z) rows :
  fold_right (fun r acc => match ownKey r with
                           | Some _ => cell (c r) + acc
                           | None => acc
                           end) 0 rows
  = total c (countedRows rows).
Proof.
  unfold countedRows, ownKey; induction rows as [|r rows IH]; simpl;
    [reflexivity|].
  destruct (JsObject.inherited (playerKey r)); simpl; rewrite IH; reflexivity.
Qed.

(** The sum of a counter over the batting lines is its sum over the
    rows that count. *)
Lemma aggregatedBatting_sum (f : BatStats -> Z) (c : Row -> option Z) rows :
  (forall r, f (batInit r) = 0) ->
  (forall s r, f (batAdd s r) = f s + cell (c r)) ->
  sumBy (fun cur => f (b_stats cur)) (aggregatedBatting rows)
  = total c (countedRows rows).
Proof.
  intros Hi Ha.
  rewrite (sumBy_perm _ _ _ (aggregatedBatting_perm rows)).
  rewrite !sumBy_map, sumBy_fold_right, batting_stats_groupStep.
  pose proof (groupStep_sum ownKey (fun _ => batInit) batAdd f
                (fun r => cell (c r)) (fun _ => Hi) Ha rows []) as H.
  rewrite <- (counted_sum c rows).
  etransitivity; [|exact H]; reflexivity.
Qed.

Lemma aggregatedPitching_sum (f : PitStats -> Z) (c : Row -> option Z) rows :
  (forall r, f (pitInit r) = 0) ->
  (forall s r, f (pitAdd s r) = f s + cell (c r)) ->
  sumBy (fun cur => f (p_stats cur)) (aggregatedPitching rows)
  = total c (countedRows rows).
Proof.
  intros Hi Ha.
  rewrite (sumBy_perm _ _ _ (aggregatedPitching_perm rows)).
  rewrite !sumBy_map, sumBy_fold_right, pitching_stats_groupStep.
  pose proof (groupStep_sum ownKey (fun _ => pitInit) pitAdd f
                (fun r => cell (c r)) (fun _ => Hi) Ha rows []) as H.
  rewrite <- (counted_sum c rows).
  etransitivity; [|exact H]; reflexivity.
Qed.

(** X13: the team line of the dashboard: totals taken over the per-player
    lines are the totals over the filtered rows that count in those lines,
    which are all the rows but those of a player whose key is the name of
    an inherited property; and the number of games is the number of
    distinct values of the game identifier in the batting rows, an absent
    identifier being one value and an empty one another.  In the sample
    the 2 runs of the player called [constructor] are in no total. *)
Theorem teamStats_totals nts bat pit :
  match teamStats nts bat (aggregatedBatting bat) (aggregatedPitching pit) with
  | None => bat = []
  | Some t =>
      bat <> []
      /\ ts_totalR t = total r_runs (countedRows bat)
      /\ ts_totalHR t = total r_hr (countedRows bat)
      /\ ts_teamAvg t
         = JsFormat.toFixed nts 3
             (safeDiv (of_Z (total r_h (countedRows bat)))
                      (of_Z (total r_ab (countedRows bat))))
      /\ ts_teamERA t
         = JsFormat.toFixed nts 2
             (rawEra (total r_er (countedRows pit))
                     (total r_outs (countedRows pit)))
      /\ (exists ids,
           NoDup ids
           /\ (forall id, In id ids
                          <-> exists row, In row bat /\ c_gameId row = id)
           /\ ts_totalGames t = Z.of_nat (List.length ids))
      /\ ((forall row, In row bat ->
             JsObject.inherited (playerKey row) = false) ->
          countedRows bat = bat)
  end
  /\ option_map (fun t => (ts_totalR t, ts_totalGames t))
       (teamStats nts Sample.oddlyNamed (aggregatedBatting Sample.oddlyNamed)
          (aggregatedPitching []))
     = Some (1, 1)
  /\ total r_runs Sample.oddlyNamed = 3.
Proof.
  split; [|split; vm_compute; reflexivity].
  unfold teamStats.
  destruct bat as [|row0 bat0] eqn:Hbat; [reflexivity|].
  cbv beta iota zeta; rewrite <- Hbat.
  cbn [ts_totalGames ts_teamAvg ts_totalR ts_totalHR ts_teamERA].
  rewrite !(aggregatedBatting_sum bs_ab r_ab), !(aggregatedBatting_sum bs_h r_h),
    !(aggregatedBatting_sum bs_runs r_runs), !(aggregatedBatting_sum bs_hr r_hr),
    !(aggregatedPitching_sum ps_er r_er), !(aggregatedPitching_sum ps_outs r_outs);
    try reflexivity.
  split; [rewrite Hbat; discriminate|].
  do 4 (split; [reflexivity|]).
  split.
  - exists (JsSet.of_list same_cell (map c_gameId bat)).
    destruct (JsSet_of_list_spec same_cell same_cell_eq (map c_gameId bat))
      as [H1 H2].
    split; [exact H1|]. split; [|reflexivity].
    intros id; rewrite H2, in_map_iff; split; intros [row [Ha Hb]];
      exists row; tauto.
  - intros H; unfold countedRows; clear Hbat.
    induction bat as [|r l IH]; simpl; [reflexivity|].
    rewrite (H r (or_introl eq_refl)); simpl; f_equal.
    apply IH; intros; apply H; right; assumption.
Qed.

Lemma gamesMap_id_spec bat pit id :
  In id (map g_id (JsMap.values (Games.gamesMap bat pit)))
  <-> id <> EmptyString /\ exists row, In row bat /\ r_gameId row = id.
Proof.
  rewrite in_map_iff; split.
  - intros [g [<- Hg]]; apply gamesMap_entry in Hg.
    destruct Hg as [H1 [H2 _]]; split; assumption.
  - intros [Hid [row [Hrow <-]]].
    destruct (gamesMap_has_game bat pit row Hrow Hid) as [g [Hg Hgid]].
    exists g; split; assumption.
Qed.

Lemma hasGameId_spec id rows :
  hasGameId id rows = true <-> exists row, In row rows /\ c_gameId row = id.
Proof.
  unfold hasGameId; rewrite existsb_exists; split; intros [row [H1 H2]];
    exists row; split; try assumption; apply same_cell_eq; assumption.
Qed.

Lemma NoDup_map_Some {A : Type} (l : list A) :
  NoDup l -> NoDup (map Some l).
Proof.
  induction 1 as [|x l Hx Hl IH]; simpl; constructor; [|exact IH].
  rewrite in_map_iff; intros [y [[= ->] Hy]]; contradiction.
Qed.

(** The distinct game identifiers of the batting rows: those of the games
    of the series, and the empty and the absent one when a row has them. *)
Lemma gameIds_perm bat pit :
  Permutation
    (JsSet.of_list same_cell (map c_gameId bat))
    ((if hasGameId None bat then [None] else [])
     ++ (if hasGameId (Some EmptyString) bat then [Some EmptyString] else [])
     ++ map Some (map g_id (JsMap.values (Games.gamesMap bat pit)))).
Proof.
  destruct (JsSet_of_list_spec same_cell same_cell_eq (map c_gameId bat))
    as [Hnd Hin].
  set (G := map g_id (JsMap.values (Games.gamesMap bat pit))).
  assert (HG : NoDup G).
  { subst G; rewrite gamesMap_ids; apply gamesMap_NoDup. }
  assert (Hempty : ~ In (Some EmptyString) (map Some G)).
  { rewrite in_map_iff; intros [id [[= ->] H]].
    apply gamesMap_id_spec in H; destruct H as [H _]; congruence. }
  assert (Hnone : ~ In None (map Some G)).
  { rewrite in_map_iff; intros [id [H _]]; discriminate H. }
  apply NoDup_Permutation; [exact Hnd | |].
  - destruct (hasGameId None bat), (hasGameId (Some EmptyString) bat);
      cbn [app]; repeat constructor;
      try (apply NoDup_map_Some; exact HG); try assumption;
      cbn [In]; intros [H|H]; try discriminate H; contradiction.
  - intros x; rewrite Hin, in_map_iff, !in_app_iff.
    split.
    + intros [row [<- Hrow]].
      destruct (c_gameId row) as [id|] eqn:Eid.
      * destruct (String.eqb_spec id EmptyString) as [->|Hne].
        -- right; left.
           assert (H : hasGameId (Some EmptyString) bat = true)
             by (apply hasGameId_spec; exists row; split; assumption).
           rewrite H; left; reflexivity.
        -- right; right; apply in_map, gamesMap_id_spec.
           split; [exact Hne|]; exists row; split; [exact Hrow|].
           unfold r_gameId; rewrite Eid; reflexivity.
      * left.
        assert (H : hasGameId None bat = true)
          by (apply hasGameId_spec; exists row; split; assumption).
        rewrite H; left; reflexivity.
    + intros [H|[H|H]].
      * destruct (hasGameId None bat) eqn:E; [|contradiction].
        destruct H as [<-|[]]; apply hasGameId_spec in E.
        destruct E as [row [H1 H2]]; exists row; split; assumption.
      * destruct (hasGameId (Some EmptyString) bat) eqn:E; [|contradiction].
        destruct H as [<-|[]]; apply hasGameId_spec in E.
        destruct E as [row [H1 H2]]; exists row; split; assumption.
      * apply in_map_iff in H; destruct H as [id [<- H]].
        apply gamesMap_id_spec in H; destruct H as [Hne [row [Hrow E]]].
        exists row; split; [|exact Hrow].
        unfold r_gameId in E; destruct (c_gameId row) as [id'|];
          simpl in E; congruence.
Qed.

(** X14: the dashboard counts the rows without a game identifier as more
    games, one for the rows whose identifier is empty and one for the rows
    whose identifier is absent; the game-by-game series, when the first
    batting row of every game has a date, leaves them out, and there is no
    series when the first batting row of some game has none. *)
Theorem teamStats_games_and_series host nts bat pit :
  match teamStats nts bat (aggregatedBatting bat) (aggregatedPitching pit) with
  | None => Games.gameByGameStats host bat pit = Some []
  | Some t =>
      (allDated bat = true ->
       exists out,
         Games.gameByGameStats host bat pit = Some out
         /\ ts_totalGames t
            = Z.of_nat (List.length out)
              + (if hasGameId (Some EmptyString) bat then 1 else 0)
              + (if hasGameId None bat then 1 else 0))
      /\ (allDated bat = false ->
          Games.gameByGameStats host bat pit = None)
  end.
Proof.
  unfold teamStats.
  destruct bat as [|row0 bat0] eqn:Hbat; [reflexivity|].
  cbv beta iota zeta; rewrite <- Hbat; cbn [ts_totalGames].
  rewrite gameByGameStats_series.
  split; [intros -> | intros ->; reflexivity].
  eexists; split; [reflexivity|].
  unfold JsSet.size; rewrite (Permutation_length (gameIds_perm bat pit)).
  rewrite !length_app, !length_map.
  rewrite <- (length_map gr_game (seriesOf 0 0 _)), seriesOf_games.
  rewrite (Permutation_length (sortedGames_perm host bat pit)).
  destruct (hasGameId None bat), (hasGameId (Some EmptyString) bat);
    cbn [List.length]; lia.
Qed.

(* ================================================================== *)
(** * Team trend and monthly trends *)
(* ================================================================== *)

Lemma teamBatAdd_fold rows p :
  fold_left TeamTrend.batAdd rows p
  = {| tb_periodKey := tb_periodKey p;
       tb_ab := tb_ab p + total r_ab rows; tb_h := tb_h p + total r_h rows;
       tb_bb := tb_bb p + total r_bb rows;
       tb_hbp := tb_hbp p + total r_hbp rows;
       tb_sf := tb_sf p + total r_sf rows;
       tb_runs := tb_runs p + total r_runs rows;
       tb_doubles := tb_doubles p + total r_doubles rows;
       tb_triples := tb_triples p + total r_triples rows;
       tb_hr := tb_hr p + total r_hr rows; tb_so := tb_so p + total r_so rows;
       tb_sb := tb_sb p + total r_sb rows |}.
Proof.
  revert p; induction rows as [|row rows IH]; intros p.
  - destruct p; cbn; rewrite ?Z.add_0_r; reflexivity.
  - cbn [fold_left]; rewrite IH; cbn [TeamTrend.batAdd tb_periodKey tb_ab tb_h
      tb_bb tb_hbp tb_sf tb_runs tb_doubles tb_triples tb_hr tb_so tb_sb
      total fold_right].
    rewrite !Z.add_assoc; reflexivity.
Qed.

Lemma teamPitAdd_fold rows p :
  fold_left TeamTrend.pitAdd rows p
  = {| tp_periodKey := tp_periodKey p;
       tp_outs := tp_outs p + total r_outs rows;
       tp_er := tp_er p + total r_er rows; tp_h := tp_h p + total r_h rows;
       tp_bb := tp_bb p + total r_bb rows;
       tp_hbp := tp_hbp p + total r_hbp rows;
       tp_so := tp_so p + total r_so rows;
       tp_s := tp_s p + total r_strikes rows;
       tp_pitches := tp_pitches p + total r_pitches rows |}.
Proof.
  revert p; induction rows as [|row rows IH]; intros p.
  - destruct p; cbn; rewrite ?Z.add_0_r; reflexivity.
  - cbn [fold_left]; rewrite IH; cbn [TeamTrend.pitAdd tp_periodKey tp_outs
      tp_er tp_h tp_bb tp_hbp tp_so tp_s tp_pitches total fold_right].
    rewrite !Z.add_assoc; reflexivity.
Qed.

(** X16: the team trend is a snapshot per period: one bucket for each period
    key that some row has, holding the counts of the rows of that period
    alone, and the rates of those counts.  No period key is the name of a
    property that every object inherits, so that the buckets are looked
    up among the object's own; and the game of a row without a date cell
    is filed under [undefined vs] its opponent. *)
Theorem teamTrend_period_snapshot host period bat pit :
  let batting := fst (TeamTrend.teamTrendData host bat pit period) in
  let pitching := snd (TeamTrend.teamTrendData host bat pit period) in
  let keyB b := tb_periodKey (tbb_period b) in
  let keyP b := tp_periodKey (tpb_period b) in
  let rowsIn k rows := rowsWithKey (teamKeyOf host period) k rows in
  (NoDup (map keyB batting)
   /\ (forall k, In k (map keyB batting)
                 <-> exists row, In row bat
                                 /\ teamKeyOf host period row = Some k)
   /\ (forall b, In b batting ->
         rowsIn (keyB b) bat <> []
         /\ b = TeamTrend.batBucket (teamBatLine (keyB b) (rowsIn (keyB b) bat))))
  /\ (NoDup (map keyP pitching)
      /\ (forall k, In k (map keyP pitching)
                    <-> exists row, In row pit
                                    /\ teamKeyOf host period row = Some k)
      /\ (forall b, In b pitching ->
            rowsIn (keyP b) pit <> []
            /\ b = TeamTrend.pitBucket
                     (teamPitLine (keyP b) (rowsIn (keyP b) pit))))
  /\ (forall row k, teamKeyOf host period row = Some k ->
        JsObject.inherited k = false)
  /\ map (fun b => (tb_periodKey (tbb_period b), tb_ab (tbb_period b)))
       (fst (TeamTrend.teamTrendData Sample.jst
               (map Sample.noDateColumn Sample.oneForThree) [] Game))
     = [("undefined vs Tigers"%string, 3)].
Proof.
  cbv zeta; unfold TeamTrend.teamTrendData; cbn [fst snd]; split; [|split].
  - apply (grouped_result (teamKeyOf host period)
             (fun k _ => TeamTrend.batInit k) TeamTrend.batAdd teamBatLine
             TeamTrend.batBucket
             (fun b => tb_periodKey (tbb_period b))).
    + intros k r rs; rewrite (teamBatAdd_fold (r :: rs)); reflexivity.
    + reflexivity.
  - apply (grouped_result (teamKeyOf host period)
             (fun k _ => TeamTrend.pitInit k) TeamTrend.pitAdd teamPitLine
             TeamTrend.pitBucket
             (fun b => tp_periodKey (tpb_period b))).
    + intros k r rs; rewrite (teamPitAdd_fold (r :: rs)); reflexivity.
    + reflexivity.
  - split; [|vm_compute; reflexivity].
    intros row k H; unfold teamKeyOf, usableKey in H.
    destruct (TeamTrend.getKey host row period) as [k'|] eqn:E;
      [|discriminate H].
    destruct (JsString.truthy k'); [|discriminate H].
    injection H as <-.
    apply (period_keys_own host row period); left; exact E.
Qed.

Lemma get_mapValues {V W : Type} (f : V -> W) (o : list (string * V)) k :
  JsMap.get (mapValues f o) k = option_map f (JsMap.get o k).
Proof.
  induction o as [|[k0 v0] o IH]; simpl; [reflexivity|].
  destruct (String.eqb k0 k); [reflexivity | exact IH].
Qed.

Lemma set_mapValues {V W : Type} (f : V -> W) (o : list (string * V)) k v :
  JsMap.set (mapValues f o) k (f v) = mapValues f (JsMap.set o k v).
Proof.
  induction o as [|[k0 v0] o IH]; simpl; [reflexivity|].
  destruct (String.eqb k0 k); simpl; [reflexivity | rewrite IH; reflexivity].
Qed.

Lemma filter_mapValues {V W : Type} (f : V -> W) (p : string -> bool)
    (o : list (string * V)) :
  filter (fun kv => p (fst kv)) (mapValues f o)
  = mapValues f (filter (fun kv => p (fst kv)) o).
Proof.
  induction o as [|[k0 v0] o IH]; simpl; [reflexivity|].
  destruct (p k0); simpl; rewrite IH; reflexivity.
Qed.

Lemma values_mapValues {V W : Type} (f : V -> W) (o : list (string * V)) :
  JsObject.values (mapValues f o) = map f (JsObject.values o).
Proof.
  unfold JsObject.values, JsObject.entries.
  rewrite (filter_mapValues f JsObject.is_index),
    (filter_mapValues f (fun k => negb (JsObject.is_index k))).
  unfold mapValues at 1.
  rewrite (sort_map (fun kv => (fst kv, f (snd kv)))
             (fun a b => JsObject.index_gt (fst a) (fst b))
             (fun a b => JsObject.index_gt (fst a) (fst b)))
    by reflexivity.
  unfold mapValues; rewrite <- map_app, !map_map; reflexivity.
Qed.

Lemma append_nonempty a b : b <> EmptyString -> String.append a b <> EmptyString.
Proof.
  intros Hb; destruct a; simpl; [exact Hb | discriminate].
Qed.

Lemma monthKey_truthy y m : JsString.truthy (monthKey y m) = true.
Proof.
  apply truthy_nonempty; unfold monthKey.
  apply append_nonempty; discriminate.
Qed.

Lemma teamKeyOf_monthly host row :
  teamKeyOf host Monthly row = MonthlyTrend.monthOf host row.
Proof.
  unfold teamKeyOf, TeamTrend.getKey, MonthlyTrend.monthOf.
  destruct (parseDate host (r_date row)) as [t|]; [|reflexivity].
  cbn [usableKey]; rewrite monthKey_truthy; reflexivity.
Qed.

Lemma monthly_batStep_sim host rows :
  forall o,
    fold_left (MonthlyTrend.batStep host) rows (mapValues forgetBat o)
    = mapValues forgetBat (fold_left (TeamTrend.batStep host Monthly) rows o).
Proof.
  induction rows as [|row rows IH]; intros o; simpl; [reflexivity|].
  rewrite <- IH; f_equal.
  unfold MonthlyTrend.batStep, TeamTrend.batStep.
  fold (teamKeyOf host Monthly row); rewrite teamKeyOf_monthly.
  destruct (MonthlyTrend.monthOf host row) as [key|]; [|reflexivity].
  unfold JsObject.get, JsObject.set.
  rewrite get_mapValues, <- set_mapValues.
  destruct (JsMap.get o key); reflexivity.
Qed.

Lemma monthly_pitStep_sim host rows :
  forall o,
    fold_left (MonthlyTrend.pitStep host) rows (mapValues forgetPit o)
    = mapValues forgetPit (fold_left (TeamTrend.pitStep host Monthly) rows o).
Proof.
  induction rows as [|row rows IH]; intros o; simpl; [reflexivity|].
  rewrite <- IH; f_equal.
  unfold MonthlyTrend.pitStep, TeamTrend.pitStep.
  fold (teamKeyOf host Monthly row); rewrite teamKeyOf_monthly.
  destruct (MonthlyTrend.monthOf host row) as [key|]; [|reflexivity].
  unfold JsObject.get, JsObject.set.
  rewrite get_mapValues, <- set_mapValues.
  destruct (JsMap.get o key); reflexivity.
Qed.

(** X15: the month charts of the dashboard show the monthly team trend: the
    same months in the same order, with the same counts and rates. *)
Theorem monthly_trends_agree_with_team_trend host bat pit :
  MonthlyTrend.monthlyBattingTrend host bat
  = map monthOfTeamBat (fst (TeamTrend.teamTrendData host bat pit Monthly))
  /\ MonthlyTrend.monthlyPitchingTrend host pit
     = map monthOfTeamPit (snd (TeamTrend.teamTrendData host bat pit Monthly)).
Proof.
  unfold TeamTrend.teamTrendData; cbn [fst snd]; split.
  - unfold MonthlyTrend.monthlyBattingTrend, TeamTrend.battingResult,
      TeamTrend.battingPeriods.
    change (@nil (string * MonthBat)) with (mapValues forgetBat []).
    rewrite monthly_batStep_sim, values_mapValues.
    rewrite (sort_map forgetBat
               (fun a b => 0 <? localeCompare host (tb_periodKey a)
                                              (tb_periodKey b)))
      by reflexivity.
    rewrite !map_map; reflexivity.
  - unfold MonthlyTrend.monthlyPitchingTrend, TeamTrend.pitchingResult,
      TeamTrend.pitchingPeriods.
    change (@nil (string * MonthPit)) with (mapValues forgetPit []).
    rewrite monthly_pitStep_sim, values_mapValues.
    rewrite (sort_map forgetPit
               (fun a b => 0 <? localeCompare host (tp_periodKey a)
                                              (tp_periodKey b)))
      by reflexivity.
    rewrite !map_map; reflexivity.
Qed.

(* ================================================================== *)
(** * The calendar *)
(* ================================================================== *)

Lemma year_of_era yoe doy :
  0 <= yoe <= 399 ->
  0 <= doy <= 364 + (if isLeapYear (yoe + 1) then 1 else 0) ->
  let doe := yoe * 365 + yoe / 4 - yoe / 100 + doy in
  0 <= doe < 146097
  /\ (doe - doe / 1460 + doe / 36524 - doe / 146096) / 365 = yoe.
Proof.
  intros Hy Hd; cbv zeta.
  unfold isLeapYear in Hd.
  destruct (Z.eqb_spec ((yoe + 1) mod 4) 0) as [E4|E4];
  destruct (Z.eqb_spec ((yoe + 1) mod 100) 0) as [E100|E100];
  destruct (Z.eqb_spec ((yoe + 1) mod 400) 0) as [E400|E400];
  cbn [andb orb negb] in Hd;
  Z.to_euclidean_division_equations; lia.
Qed.

Lemma leap_shift y era :
  isLeapYear (y - era * 400) = isLeapYear y.
Proof.
  unfold isLeapYear.
  replace (y - era * 400) with (y + (- era * 100) * 4) at 1 by lia.
  replace (y - era * 400) with (y + (- era * 4) * 100) at 1 by lia.
  replace (y - era * 400) with (y + (- era) * 400) by lia.
  rewrite !Z.mod_add by lia; reflexivity.
Qed.

Lemma month_of_day_of_year m d febLen :
  1 <= m <= 12 -> 28 <= febLen <= 29 ->
  1 <= d <= (if m =? 2 then febLen
             else if (m =? 4) || (m =? 6) || (m =? 9) || (m =? 11) then 30
             else 31) ->
  let mp := (m + 9) mod 12 in
  let doy := (153 * mp + 2) / 5 + d - 1 in
  0 <= doy <= (if m <=? 2 then 336 + febLen else 305)
  /\ (5 * doy + 2) / 153 = mp
  /\ doy - (153 * mp + 2) / 5 + 1 = d.
Proof.
  intros Hm Hf Hd; cbv zeta.
  assert (Hcases : m = 1 \/ m = 2 \/ m = 3 \/ m = 4 \/ m = 5 \/ m = 6
                   \/ m = 7 \/ m = 8 \/ m = 9 \/ m = 10 \/ m = 11 \/ m = 12)
    by lia.
  destruct Hcases as [->|[->|[->|[->|[->|[->|[->|[->|[->|[->|[->| ->]]]]]]]]]]];
    cbn [Z.eqb Z.leb Z.compare Pos.eqb Pos.compare Pos.compare_cont orb]
      in Hd |- *;
    match goal with
    | |- context [(?a + 9) mod 12] =>
        let v := eval vm_compute in ((a + 9) mod 12) in
        change ((a + 9) mod 12) with v
    end;
    match goal with
    | |- context [(153 * ?a + 2) / 5] =>
        let v := eval vm_compute in ((153 * a + 2) / 5) in
        change ((153 * a + 2) / 5) with v
    end;
    Z.to_euclidean_division_equations; lia.
Qed.

(** A calendar date is the calendar date of its day number. *)
Lemma civil_from_days_from_civil y m d :
  1 <= m <= 12 -> 1 <= d <= daysInMonth y m ->
  JsDate.civil_from_days (JsDate.days_from_civil y m d) = (y, m, d).
Proof.
  intros Hm Hd.
  unfold JsDate.days_from_civil.
  set (y' := if m <=? 2 then y - 1 else y).
  set (era := y' / 400).
  set (yoe := y' - era * 400).
  assert (Hyoe : 0 <= yoe <= 399).
  { subst yoe era. Z.to_euclidean_division_equations; lia. }
  assert (Hleap : isLeapYear (yoe + 1) = isLeapYear (y' + 1)).
  { subst yoe. replace (y' - era * 400 + 1) with (y' + 1 - era * 400) by lia.
    apply leap_shift. }
  pose proof (month_of_day_of_year m d (if isLeapYear y then 29 else 28) Hm
                ltac:(destruct (isLeapYear y); lia) Hd) as Hdoy.
  cbv zeta in Hdoy.
  set (mp := (m + 9) mod 12) in *.
  set (doy := (153 * mp + 2) / 5 + d - 1) in *.
  destruct Hdoy as [Hdoy [Hmp' Hd']].
  assert (Hmp : (m <= 2 /\ mp = m + 9 /\ y' = y - 1)
                \/ (3 <= m /\ mp = m - 3 /\ y' = y)).
  { subst mp y'. destruct (Z.leb_spec m 2).
    - left. split; [lia|]. split; [apply Z.mod_small; lia | reflexivity].
    - right. split; [lia|]. split; [|reflexivity].
      replace (m + 9) with (m - 3 + 1 * 12) by lia.
      rewrite Z.mod_add by lia. apply Z.mod_small; lia. }
  assert (Hdoy' : 0 <= doy <= 364 + (if isLeapYear (yoe + 1) then 1 else 0)).
  { rewrite Hleap. destruct Hmp as [[H1 [_ H3]]|[H1 [_ H3]]]; rewrite H3.
    - replace (y - 1 + 1) with y by lia.
      replace (m <=? 2) with true in Hdoy by (symmetry; apply Z.leb_le; lia).
      destruct (isLeapYear y); lia.
    - replace (m <=? 2) with false in Hdoy by (symmetry; apply Z.leb_gt; lia).
      destruct (isLeapYear (y + 1)); lia. }
  destruct (year_of_era yoe doy Hyoe Hdoy') as [Hdoe Hyoe'].
  set (doe := yoe * 365 + yoe / 4 - yoe / 100 + doy) in *.
  unfold JsDate.civil_from_days.
  replace (era * 146097 + doe - 719468 + 719468) with (doe + era * 146097) by lia.
  rewrite Z.div_add by lia. rewrite (Z.div_small doe) by lia.
  replace (doe + era * 146097 - (0 + era) * 146097) with doe by lia.
  rewrite Hyoe'.
  replace (doe - (365 * yoe + yoe / 4 - yoe / 100)) with doy by (subst doe; lia).
  rewrite Hmp', Hd'.
  destruct Hmp as [[H1 [H2 H3]]|[H1 [H2 H3]]]; rewrite H2.
  - replace (m + 9 <? 10) with false by (symmetry; apply Z.ltb_ge; lia).
    replace (m + 9 - 9) with m by lia.
    replace (m <=? 2) with true by (symmetry; apply Z.leb_le; lia).
    f_equal; f_equal. subst yoe. lia.
  - replace (m - 3 <? 10) with true by (symmetry; apply Z.ltb_lt; lia).
    replace (m - 3 + 3) with m by lia.
    replace (m <=? 2) with false by (symmetry; apply Z.leb_gt; lia).
    f_equal; f_equal. subst yoe. lia.
Qed.

(* ================================================================== *)
(** * Written dates *)
(* ================================================================== *)

Lemma digit_val_not_sep c v :
  JsString.digit_val c = Some v ->
  is_date_sep c = false
  /\ (forall s, JsString.trimStart (String c s) = String c s)
  /\ c <> "-"%char /\ c <> "+"%char.
Proof.
  unfold JsString.digit_val, is_date_sep.
  destruct ((48 <=? JsString.code c) && (JsString.code c <=? 57)) eqn:E;
    [|discriminate].
  intros _; apply andb_true_iff in E; destruct E as [E1 E2].
  apply Z.leb_le in E1, E2.
  assert (Hne : forall c', (JsString.code c' < 48) -> c <> c').
  { intros c' Hc' ->; lia. }
  assert (Hco : forall n, n < 48 \/ 57 < n -> (JsString.code c =? n) = false).
  { intros n Hn; apply Z.eqb_neq; lia. }
  repeat split.
  - apply orb_false_iff; split; apply Ascii.eqb_neq, Hne; vm_compute; reflexivity.
  - assert (H1 : JsString.ws1 c = false).
    { unfold JsString.ws1; apply orb_false_iff; split;
        [apply andb_false_iff; right; apply Z.leb_gt; lia | apply Hco; lia]. }
    assert (H2 : forall c2, JsString.ws2 c c2 = false).
    { intros c2; unfold JsString.ws2; rewrite Hco by lia; reflexivity. }
    assert (H3 : forall c2 c3, JsString.ws3 c c2 c3 = false).
    { intros c2 c3; unfold JsString.ws3; rewrite !Hco by lia; reflexivity. }
    intros s; destruct s as [|c2 [|c3 r3]]; cbn [JsString.trimStart];
      rewrite H1, ?H2, ?H3; reflexivity.
  - apply Hne; vm_compute; reflexivity.
  - apply Hne; vm_compute; reflexivity.
Qed.

Lemma append_assoc a b c :
  String.append (String.append a b) c = String.append a (String.append b c).
Proof. induction a as [|x a IH]; simpl; [reflexivity | rewrite IH; reflexivity]. Qed.

Lemma digits_of_acc fuel :
  forall n acc,
    JsString.digits_of fuel n acc
    = String.append (JsString.digits_of fuel n EmptyString) acc.
Proof.
  induction fuel as [|fuel IH]; intros n acc; [reflexivity|].
  cbn [JsString.digits_of].
  destruct (n <? 10); [reflexivity|].
  rewrite (IH (n / 10) (String _ acc)), (IH (n / 10) (String _ EmptyString)).
  rewrite append_assoc; reflexivity.
Qed.

Lemma all_digits_app a b :
  JsObject.all_digits (String.append a b)
  = JsObject.all_digits a && JsObject.all_digits b.
Proof.
  induction a as [|c a IH]; simpl; [reflexivity|].
  destruct (JsString.digit_val c); [exact IH | reflexivity].
Qed.

Lemma digits_prefix_app p :
  forall a rest,
    JsObject.all_digits p = true ->
    JsString.digits_prefix a (String.append p rest)
    = JsString.digits_prefix (JsString.digits_prefix a p) rest.
Proof.
  induction p as [|c p IH]; intros a rest H; simpl in *; [reflexivity|].
  destruct (JsString.digit_val c); [apply IH, H | discriminate].
Qed.

(** Reading back the digits written for [n]. *)
Lemma digits_of_read fuel :
  forall n,
    0 <= n < 10 ^ Z.of_nat fuel -> (0 < fuel)%nat ->
    let p := JsString.digits_of fuel n EmptyString in
    JsObject.all_digits p = true
    /\ (forall a, exists k,
          0 <= k
          /\ JsString.digits_prefix a p = Some (10 ^ k * accValue a + n))
    /\ (n < 10 -> p = String (JsString.digit_char n) EmptyString)
    /\ (10 <= n -> exists c1 c2 rest, p = String c1 (String c2 rest)).
Proof.
  induction fuel as [|fuel IH]; intros n Hn Hf; cbv zeta.
  - lia.
  - cbn [JsString.digits_of].
    assert (Hd : 0 <= n mod 10 <= 9) by (pose proof (Z.mod_pos_bound n 10); lia).
    destruct (Z.ltb_spec n 10) as [Hlt|Hge].
    + rewrite Z.mod_small by lia.
      cbn [JsString.digits_prefix JsObject.all_digits].
      rewrite digit_val_char by lia.
      split; [reflexivity|].
      split.
      { intros a; exists 1; split; [lia|].
        cbn [JsString.digits_prefix]; rewrite ?digit_val_char by lia.
        unfold accValue; destruct a; f_equal; lia. }
      split; [reflexivity | lia].
    + assert (Hn' : 0 <= n / 10 < 10 ^ Z.of_nat fuel).
      { rewrite Nat2Z.inj_succ, Z.pow_succ_r in Hn by lia.
        split; [apply Z.div_pos; lia | apply Z.div_lt_upper_bound; lia]. }
      assert (Hf' : (0 < fuel)%nat).
      { destruct fuel; [|lia]. simpl in Hn'.
        assert (1 <= n / 10) by (apply Z.div_le_lower_bound; lia). lia. }
      destruct (IH (n / 10) Hn' Hf') as [Hall [Hread [Hone Htwo]]].
      rewrite digits_of_acc.
      set (p := JsString.digits_of fuel (n / 10) EmptyString) in *.
      split.
      { rewrite all_digits_app, Hall; cbn [JsObject.all_digits andb].
        rewrite digit_val_char by lia; reflexivity. }
      split.
      { intros a; destruct (Hread a) as [k [Hk0 Hk]].
        exists (k + 1); split; [lia|].
        rewrite digits_prefix_app, Hk by exact Hall.
        cbn [JsString.digits_prefix]; rewrite ?digit_val_char by lia.
        f_equal. rewrite Z.pow_add_r by lia.
        pose proof (Z.div_mod n 10 ltac:(lia)). lia. }
      split; [lia|]. intros _.
      destruct p as [|c1 p'] eqn:Hp.
      { destruct (Hread None) as [k [_ Hk]]; discriminate. }
      destruct p' as [|c2 p'']; simpl; do 3 eexists; reflexivity.
Qed.

Lemma of_Z_read n :
  0 <= n ->
  JsObject.all_digits (JsString.of_Z n) = true
  /\ (forall a, exists k,
        0 <= k
        /\ JsString.digits_prefix a (JsString.of_Z n)
           = Some (10 ^ k * accValue a + n))
  /\ (n < 10 -> JsString.of_Z n = String (JsString.digit_char n) EmptyString)
  /\ (10 <= n -> exists c1 c2 rest,
        JsString.of_Z n = String c1 (String c2 rest)).
Proof.
  intros Hn; unfold JsString.of_Z.
  replace (n <? 0) with false by (symmetry; apply Z.ltb_ge; lia).
  apply digits_of_read; [|lia].
  split; [lia|].
  rewrite Nat2Z.inj_succ, Z2Nat.id by apply Z.log2_nonneg.
  destruct (Z.eq_dec n 0) as [->|Hnz]; [reflexivity|].
  pose proof (Z.log2_spec n ltac:(lia)) as [_ H].
  eapply Z.lt_le_trans; [exact H|].
  apply Z.pow_le_mono_l; pose proof (Z.log2_nonneg n); lia.
Qed.

Lemma numeral_read padded n :
  0 <= n ->
  JsObject.all_digits (numeral padded n) = true
  /\ JsString.digits_prefix None (numeral padded n) = Some n
  /\ numeral padded n <> EmptyString.
Proof.
  intros Hn; destruct (of_Z_read n Hn) as [Hall [Hread [Hone Htwo]]].
  assert (Hnone : JsString.digits_prefix None (JsString.of_Z n) = Some n).
  { destruct (Hread None) as [k [_ Hk]]; rewrite Hk; f_equal; simpl; lia. }
  assert (Hne : JsString.of_Z n <> EmptyString).
  { intros E; rewrite E in Hnone; discriminate. }
  unfold numeral; destruct padded; [|tauto].
  destruct (Z.ltb_spec n 10) as [Hlt|Hge].
  - rewrite (Hone Hlt) in *; cbn [JsString.padStart2].
    split; [exact Hall|]. split; [|discriminate].
    cbn [JsString.digits_prefix] in *.
    destruct (JsString.digit_val (JsString.digit_char n)); [|discriminate].
    injection Hnone as <-; reflexivity.
  - destruct (Htwo Hge) as [c1 [c2 [rest E]]]; rewrite E in *.
    cbn [JsString.padStart2]; tauto.
Qed.

Lemma parseInt10_digits s :
  JsObject.all_digits s = true ->
  JsString.parseInt10 s = JsString.digits_prefix None s.
Proof.
  unfold JsString.parseInt10; destruct s as [|c s]; [reflexivity|].
  cbn [JsObject.all_digits].
  destruct (JsString.digit_val c) as [v|] eqn:E; [|discriminate].
  intros _; destruct (digit_val_not_sep c v E) as [_ [Hws [Hm Hp]]].
  rewrite Hws.
  destruct c as [[] [] [] [] [] [] [] []]; try reflexivity; congruence.
Qed.

Lemma split_on_digits p c rest :
  JsObject.all_digits p = true -> is_date_sep c = true ->
  JsString.split_on is_date_sep (String.append p (String c rest))
  = p :: JsString.split_on is_date_sep rest.
Proof.
  intros Hp Hc; induction p as [|x p IH]; cbn [String.append JsString.split_on].
  - rewrite Hc; reflexivity.
  - cbn [JsObject.all_digits] in Hp.
    destruct (JsString.digit_val x) as [v|] eqn:E; [|discriminate].
    destruct (digit_val_not_sep x v E) as [Hs _]; rewrite Hs, (IH Hp).
    reflexivity.
Qed.

Lemma split_on_last p :
  JsObject.all_digits p = true ->
  JsString.split_on is_date_sep p = [p].
Proof.
  induction p as [|x p IH]; cbn [JsString.split_on JsObject.all_digits];
    [reflexivity|].
  destruct (JsString.digit_val x) as [v|] eqn:E; [|discriminate].
  intros Hp; destruct (digit_val_not_sep x v E) as [Hs _]; rewrite Hs, (IH Hp).
  reflexivity.
Qed.

(** The three numbers of a written date reach the [Date] constructor. *)
Lemma parseDate_primary_dateString host y sep1 m sep2 d padded :
  is_date_sep sep1 = true -> is_date_sep sep2 = true ->
  0 <= y -> 0 <= m -> 0 <= d ->
  parseDate_primary host (dateString y sep1 m sep2 d padded)
  = JsDate.Date_ymd (tza host) y (m - 1) d.
Proof.
  intros H1 H2 Hy Hm Hd; unfold parseDate_primary, dateString.
  destruct (of_Z_read y Hy) as [Hay [Hry _]].
  destruct (numeral_read padded m Hm) as [Ham [Hrm _]].
  destruct (numeral_read padded d Hd) as [Had [Hrd _]].
  rewrite (split_on_digits _ _ _ Hay H1), (split_on_digits _ _ _ Ham H2),
    (split_on_last _ Had).
  rewrite !parseInt10_digits by assumption.
  destruct (Hry None) as [k [_ Hk]]; rewrite Hk, Hrm, Hrd.
  replace (10 ^ k * accValue None + y) with y by (simpl; lia).
  reflexivity.
Qed.

Lemma MakeDay_in_year Y m d :
  1 <= m <= 12 ->
  JsDate.MakeDay Y (m - 1) d = JsDate.days_from_civil Y m 1 + d - 1.
Proof.
  intros Hm; unfold JsDate.MakeDay.
  rewrite (Z.div_small (m - 1) 12), (Z.mod_small (m - 1) 12) by lia.
  replace (Y + 0) with Y by lia. replace (m - 1 + 1) with m by lia.
  reflexivity.
Qed.

Lemma days_from_civil_day Y m d :
  JsDate.days_from_civil Y m d = JsDate.days_from_civil Y m 1 + d - 1.
Proof. unfold JsDate.days_from_civil; lia. Qed.

Lemma days_from_civil_bound Y m :
  0 <= Y <= 9999 -> 1 <= m <= 12 ->
  -720000 <= JsDate.days_from_civil Y m 1 <= 3000000.
Proof.
  intros HY Hm; unfold JsDate.days_from_civil.
  destruct (m <=? 2); Z.to_euclidean_division_equations; lia.
Qed.

Lemma MakeFullYear_range y :
  0 <= y <= 9999 -> 0 <= JsDate.MakeFullYear y <= 9999.
Proof.
  unfold JsDate.MakeFullYear; intros H.
  destruct ((0 <=? y) && (y <=? 99)) eqn:E; [|lia].
  apply andb_true_iff in E; destruct E as [_ E]; apply Z.leb_le in E; lia.
Qed.

Lemma dateString_truthy y sep1 m sep2 d padded :
  JsString.truthy (dateString y sep1 m sep2 d padded) = true.
Proof.
  apply truthy_nonempty; unfold dateString.
  destruct (JsString.of_Z y); discriminate.
Qed.

(** The time value of a written date: local midnight of day [d], counted
    from the first of the month, whether or not the month has such a
    day. *)
Lemma parseDate_dateString host y sep1 m sep2 d padded :
  Z.abs (tza host) <= JsDate.msPerDay ->
  is_date_sep sep1 = true -> is_date_sep sep2 = true ->
  0 <= y <= 9999 -> 1 <= m <= 12 -> 0 <= d <= 10000 ->
  parseDate host (dateString y sep1 m sep2 d padded)
  = Some ((JsDate.days_from_civil (JsDate.MakeFullYear y) m 1 + d - 1)
          * JsDate.msPerDay - tza host).
Proof.
  intros Htz H1 H2 Hy Hm Hd; unfold parseDate.
  rewrite dateString_truthy; cbn [negb].
  rewrite parseDate_primary_dateString by (assumption || lia).
  unfold JsDate.Date_ymd; rewrite MakeDay_in_year by exact Hm.
  pose proof (days_from_civil_bound _ m (MakeFullYear_range y Hy) Hm) as HD.
  set (D := JsDate.days_from_civil (JsDate.MakeFullYear y) m 1) in *.
  unfold JsDate.TimeClip.
  replace (JsDate.maxTime <? Z.abs ((D + d - 1) * JsDate.msPerDay - tza host))
    with false; [reflexivity|].
  symmetry; apply Z.ltb_ge.
  unfold JsDate.maxTime, JsDate.msPerDay in *; lia.
Qed.

(** X4: a date written as year, month and day, with [-] or [/] between them,
    is read as that day of the local calendar; a year below 100 is a year
    of the 1900s. *)
Theorem parseDate_calendar_date host y m d sep1 sep2 padded :
  Z.abs (tza host) <= JsDate.msPerDay ->
  is_date_sep sep1 = true -> is_date_sep sep2 = true ->
  0 <= y <= 9999 -> 1 <= m <= 12 ->
  1 <= d <= daysInMonth (JsDate.MakeFullYear y) m ->
  exists t,
    parseDate host (dateString y sep1 m sep2 d padded) = Some t
    /\ JsDate.getFullYear (tza host) t = JsDate.MakeFullYear y
    /\ JsDate.getMonth (tza host) t = m - 1
    /\ JsDate.getDate (tza host) t = d
    /\ JsDate.TimeWithinDay (t + tza host) = 0.
Proof.
  intros Htz H1 H2 Hy Hm Hd.
  assert (Hd' : 0 <= d <= 10000).
  { unfold daysInMonth in Hd.
    destruct (m =? 2); [destruct (isLeapYear _); lia|].
    destruct ((m =? 4) || (m =? 6) || (m =? 9) || (m =? 11)); lia. }
  eexists; split;
    [apply parseDate_dateString; assumption|].
  rewrite <- days_from_civil_day.
  set (Y := JsDate.MakeFullYear y) in *.
  unfold JsDate.getFullYear, JsDate.getMonth, JsDate.getDate,
    JsDate.TimeWithinDay, JsDate.Day.
  replace (JsDate.days_from_civil Y m d * JsDate.msPerDay - tza host + tza host)
    with (JsDate.days_from_civil Y m d * JsDate.msPerDay) by lia.
  rewrite Z.div_mul, Z.mod_mul by (unfold JsDate.msPerDay; lia).
  rewrite civil_from_days_from_civil by assumption.
  cbn [fst snd]; repeat split; lia.
Qed.

Lemma parseDate_calendar_date_witness :
  exists t,
    parseDate Sample.jst "2025-10-01" = Some t
    /\ JsDate.getFullYear (tza Sample.jst) t = 2025
    /\ JsDate.getMonth (tza Sample.jst) t = 9
    /\ JsDate.getDate (tza Sample.jst) t = 1
    /\ JsDate.TimeWithinDay (t + tza Sample.jst) = 0.
Proof.
  apply (parseDate_calendar_date Sample.jst 2025 10 1 "-"%char "-"%char true);
    vm_compute; first [reflexivity | discriminate | split; discriminate].
Defined.

(** X5: a day the month does not have is not rejected: it is counted on from
    the days the month has, so that "2025-02-30" is the second of March. *)
Theorem parseDate_day_overflow host y m d k sep1 sep2 padded :
  Z.abs (tza host) <= JsDate.msPerDay ->
  is_date_sep sep1 = true -> is_date_sep sep2 = true ->
  0 <= y <= 9999 -> 1 <= m <= 12 -> 0 <= d -> 0 <= k -> d + k <= 10000 ->
  parsedTime host (dateString y sep1 m sep2 (d + k) padded)
  = parsedTime host (dateString y sep1 m sep2 d padded) + k * JsDate.msPerDay.
Proof.
  intros Htz H1 H2 Hy Hm Hd Hk Hdk; unfold parsedTime.
  rewrite !parseDate_dateString by (assumption || lia).
  lia.
Qed.

Lemma parseDate_day_overflow_witness :
  parsedTime Sample.jst "2025-02-30"
  = parsedTime Sample.jst "2025-02-28" + 2 * JsDate.msPerDay
  /\ parsedTime Sample.jst "2025-02-30" = parsedTime Sample.jst "2025-03-02".
Proof.
  split.
  - apply (parseDate_day_overflow Sample.jst 2025 2 28 2 "-"%char "-"%char true);
      vm_compute; first [reflexivity | discriminate | split; discriminate].
  - vm_compute; reflexivity.
Defined.

(* ================================================================== *)
(** * Numbers that stay numbers *)
(* ================================================================== *)

(** The number of binary digits of a positive integer. *)
Lemma Zdigits2_spec m :
  0 < m -> 0 < Zdigits2 m /\ 2 ^ (Zdigits2 m - 1) <= m < 2 ^ Zdigits2 m.
Proof.
  destruct m as [|p|p]; try lia; intros _; cbn [Zdigits2].
  split; [lia|]. split; [apply digits2_lower | apply digits2_upper].
Qed.

Lemma Zdigits2_unique m j :
  2 ^ (j - 1) <= m < 2 ^ j -> 0 < m -> Zdigits2 m = j.
Proof.
  intros H Hm; destruct m as [|p|p]; try lia; cbn [Zdigits2].
  apply digits2_unique, H.
Qed.

Lemma Zdigits2_shift m n :
  0 < m -> 0 <= n < Zdigits2 m ->
  0 < m / 2 ^ n /\ Zdigits2 (m / 2 ^ n) = Zdigits2 m - n.
Proof.
  intros Hm Hn; destruct (Zdigits2_spec m Hm) as [Hd [L U]].
  set (d := Zdigits2 m) in *.
  assert (Hp : 0 < 2 ^ n) by (apply Z.pow_pos_nonneg; lia).
  assert (Hq : 2 ^ (d - n - 1) <= m / 2 ^ n < 2 ^ (d - n)).
  { split.
    - apply Z.div_le_lower_bound; [exact Hp|].
      rewrite <- Z.pow_add_r by lia.
      replace (n + (d - n - 1)) with (d - 1) by lia. exact L.
    - apply Z.div_lt_upper_bound; [exact Hp|].
      rewrite <- Z.pow_add_r by lia.
      replace (n + (d - n)) with d by lia. exact U. }
  assert (Hpos : 0 < m / 2 ^ n).
  { eapply Z.lt_le_trans; [|apply Hq]. apply Z.pow_pos_nonneg; lia. }
  split; [exact Hpos|].
  apply Zdigits2_unique; [exact Hq | exact Hpos].
Qed.

Lemma Zdigits2_shift_out m n :
  0 <= m -> Zdigits2 m <= n -> 0 <= n -> m / 2 ^ n = 0.
Proof.
  intros Hm Hn Hn0; destruct (Z.eq_dec m 0) as [->|Hnz];
    [apply Z.div_0_l; apply Z.pow_nonzero; lia|].
  destruct (Zdigits2_spec m ltac:(lia)) as [Hd [L U]].
  apply Z.div_small; split; [lia|].
  eapply Z.lt_le_trans; [exact U|]. apply Z.pow_le_mono_r; lia.
Qed.

Lemma Zdigits2_mono a b : 0 < a <= b -> Zdigits2 a <= Zdigits2 b.
Proof.
  intros [Ha Hab].
  destruct (Zdigits2_spec a Ha) as [Hda [La Ua]].
  destruct (Zdigits2_spec b ltac:(lia)) as [Hdb [Lb Ub]].
  destruct (Z_lt_le_dec (Zdigits2 b) (Zdigits2 a)) as [Hlt|]; [|lia].
  exfalso.
  assert (2 ^ Zdigits2 b <= 2 ^ (Zdigits2 a - 1))
    by (apply Z.pow_le_mono_r; lia).
  lia.
Qed.

Lemma fexp_mono x y : x <= y -> fexp prec emax x <= fexp prec emax y.
Proof. unfold fexp; lia. Qed.

Lemma fexp_ge x : x - 53 <= fexp prec emax x /\ emin64 <= fexp prec emax x.
Proof. unfold fexp, emin, prec, emax, emin64; lia. Qed.

Lemma fexp_cases x :
  (fexp prec emax x = x - 53 /\ emin64 <= x - 53)
  \/ (fexp prec emax x = emin64 /\ x - 53 < emin64).
Proof. unfold fexp, emin, prec, emax, emin64; lia. Qed.

(** The effect of one alignment to the format exponent. *)
Lemma shr_fexp_spec m e l :
  0 <= m -> e <= fexp prec emax (Zdigits2 m + e) ->
  exists mrs,
    shr_fexp prec emax m e l = (mrs, fexp prec emax (Zdigits2 m + e))
    /\ shr_m mrs = m / 2 ^ (fexp prec emax (Zdigits2 m + e) - e).
Proof.
  intros Hm He; unfold shr_fexp, shr.
  set (f := fexp prec emax (Zdigits2 m + e)) in *.
  destruct (f - e) as [|n|n] eqn:En; try lia.
  - eexists; split; [f_equal; lia|].
    rewrite shr_record_of_loc_m, Z.pow_0_r, Z.div_1_r; reflexivity.
  - eexists; split; [f_equal; lia|].
    rewrite iter_shr_1_div by (rewrite shr_record_of_loc_m; exact Hm).
    rewrite shr_record_of_loc_m; reflexivity.
Qed.

(** After an alignment the mantissa sits at its format exponent. *)
Lemma aligned_canonical m e :
  0 <= m -> e <= fexp prec emax (Zdigits2 m + e) ->
  let e1 := fexp prec emax (Zdigits2 m + e) in
  let m1 := m / 2 ^ (e1 - e) in
  0 <= m1 /\ fexp prec emax (Zdigits2 m1 + e1) = e1.
Proof.
  intros Hm He; cbv zeta.
  set (d := Zdigits2 m) in *. set (e1 := fexp prec emax (d + e)) in *.
  assert (Hp : 0 < 2 ^ (e1 - e)) by (apply Z.pow_pos_nonneg; lia).
  split; [apply Z.div_pos; lia|].
  destruct (Z_lt_le_dec (e1 - e) d) as [Hlt|Hge].
  - assert (Hm0 : 0 < m).
    { destruct (Z.eq_dec m 0) as [E|E]; [|lia].
      subst d; rewrite E in Hlt; simpl in Hlt; lia. }
    destruct (Zdigits2_shift m (e1 - e) Hm0 ltac:(fold d; lia)) as [_ Hd].
    rewrite Hd; fold d. replace (d - (e1 - e) + e1) with (d + e) by lia.
    reflexivity.
  - rewrite (Zdigits2_shift_out m (e1 - e)) by (fold d; lia).
    cbn [Zdigits2].
    destruct (fexp_cases (d + e)) as [[H1 H2]|[H1 H2]]; fold e1 in H1.
    + lia.
    + rewrite H1; unfold fexp, emin, prec, emax, emin64; lia.
Qed.

Lemma round_nearest_even_digits m l :
  0 <= m -> Zdigits2 m <= Zdigits2 (round_nearest_even m l).
Proof.
  intros Hm.
  pose proof (round_nearest_even_ge m l) as Hge.
  destruct (Z.eq_dec m 0) as [->|Hnz].
  - cbn [Zdigits2].
    destruct (round_nearest_even 0 l) as [|p|p]; cbn [Zdigits2]; lia.
  - apply Zdigits2_mono; lia.
Qed.

(** Rounding returns a number of the format: zero, an infinity, or a
    finite number whose mantissa sits at its format exponent. *)
Lemma binary_round_aux_valid s m e l :
  0 <= m -> e <= fexp prec emax (Zdigits2 m + e) ->
  wellFormed (binary_round_aux prec emax s m e l) = true.
Proof.
  intros Hm He; unfold binary_round_aux.
  destruct (shr_fexp_spec m e l Hm He) as [mrs [-> Hm1]].
  destruct (aligned_canonical m e Hm He) as [Hm1pos Hcan1].
  rewrite <- Hm1 in Hm1pos, Hcan1.
  set (e1 := fexp prec emax (Zdigits2 m + e)) in *.
  set (m2 := round_nearest_even (shr_m mrs) (loc_of_shr_record mrs)).
  assert (Hm2 : 0 <= m2) by (apply round_nearest_even_nonneg, Hm1pos).
  assert (He1 : e1 <= fexp prec emax (Zdigits2 m2 + e1)).
  { rewrite <- Hcan1 at 1. apply fexp_mono.
    pose proof (round_nearest_even_digits (shr_m mrs) (loc_of_shr_record mrs)
                  Hm1pos). fold m2 in H. lia. }
  destruct (shr_fexp_spec m2 e1 loc_Exact Hm2 He1) as [mrs2 [-> Hm3]].
  destruct (aligned_canonical m2 e1 Hm2 He1) as [Hm3pos Hcan3].
  rewrite <- Hm3 in Hm3pos, Hcan3.
  set (e2 := fexp prec emax (Zdigits2 m2 + e1)) in *.
  destruct (shr_m mrs2) as [|p|p]; [reflexivity| |lia].
  destruct (e2 <=? emax - prec) eqn:Hb; [|reflexivity].
  unfold wellFormed; cbn [isNaN negb valid_binary andb].
  unfold bounded, canonical_mantissa; rewrite Hb, andb_true_r.
  apply Z.eqb_eq; exact Hcan3.
Qed.

Lemma shl_align_digits p e f :
  f <= e ->
  Zdigits2 (Zpos (fst (shl_align p e f))) = Zdigits2 (Zpos p) + (e - f).
Proof.
  intros Hf; rewrite shl_align_val by exact Hf.
  destruct (Zdigits2_spec (Zpos p) ltac:(lia)) as [Hd [L U]].
  set (d := Zdigits2 (Zpos p)) in *.
  assert (Hp : 0 < 2 ^ (e - f)) by (apply Z.pow_pos_nonneg; lia).
  apply Zdigits2_unique; [|lia].
  replace (d + (e - f) - 1) with ((d - 1) + (e - f)) by lia.
  rewrite !Z.pow_add_r by lia. split.
  - apply Z.mul_le_mono_nonneg_r; lia.
  - apply Z.mul_lt_mono_pos_r; lia.
Qed.

Lemma binary_round_valid s p e :
  wellFormed (binary_round prec emax s p e) = true.
Proof.
  unfold binary_round.
  set (f := fexp prec emax (Zpos (digits2_pos p) + e)).
  destruct (Z_lt_le_dec f e) as [Hlt|Hge].
  - pose proof (shl_align_digits p e f ltac:(lia)) as Hd.
    assert (Hs : snd (shl_align p e f) = f).
    { unfold shl_align; destruct (f - e) eqn:E; cbn [snd]; lia. }
    destruct (shl_align p e f) as [mz ez]; cbn [fst snd] in *; subst ez.
    apply binary_round_aux_valid; [lia|].
    rewrite Hd; cbn [Zdigits2].
    replace (Zpos (digits2_pos p) + (e - f) + f)
      with (Zpos (digits2_pos p) + e) by lia.
    fold f; lia.
  - assert (Hs : shl_align p e f = (p, e)).
    { unfold shl_align; destruct (f - e) eqn:E; try reflexivity; lia. }
    rewrite Hs; apply binary_round_aux_valid; [lia|].
    cbn [Zdigits2]; fold f; exact Hge.
Qed.

Lemma binary_normalize_valid D e sz :
  wellFormed (binary_normalize prec emax D e sz) = true.
Proof.
  destruct D as [|p|p]; cbn [binary_normalize];
    [reflexivity | apply binary_round_valid | apply binary_round_valid].
Qed.

(** Every integer converts to a number of the format. *)
Lemma of_Z_wellFormed n : wellFormed (of_Z n) = true.
Proof. apply binary_normalize_valid. Qed.

Lemma wellFormed_valid x : wellFormed x = true -> valid_binary prec emax x = true.
Proof. unfold wellFormed; intros H; apply andb_true_iff in H; apply H. Qed.

Lemma valid_not_nan x :
  valid_binary prec emax x = true -> isNaN x = false -> wellFormed x = true.
Proof. unfold wellFormed; intros -> ->; reflexivity. Qed.

(** The quotient core hands the rounding a mantissa with enough digits. *)
Lemma div_core_aligned m1 e1 m2 e2 :
  let r := SFdiv_core_binary prec emax (Zpos m1) e1 (Zpos m2) e2 in
  0 <= fst (fst r)
  /\ snd (fst r) <= fexp prec emax (Zdigits2 (fst (fst r)) + snd (fst r)).
Proof.
  cbv zeta; unfold SFdiv_core_binary.
  destruct (Zdigits2_spec (Zpos m1) ltac:(lia)) as [Hd1 [L1 U1]].
  destruct (Zdigits2_spec (Zpos m2) ltac:(lia)) as [Hd2 [L2 U2]].
  set (d1 := Zdigits2 (Zpos m1)) in *. set (d2 := Zdigits2 (Zpos m2)) in *.
  set (x := d1 + e1 - (d2 + e2)).
  set (e' := Z.min (fexp prec emax x) (e1 - e2)).
  assert (He' : e' <= e1 - e2 /\ e' <= fexp prec emax x) by (subst e'; lia).
  set (s := e1 - e2 - e').
  set (m' := match s with Z0 => _ | Zpos _ => _ | Zneg _ => _ end).
  assert (Hs : 0 <= s) by (subst s; lia).
  assert (Hp : 0 < 2 ^ s) by (apply Z.pow_pos_nonneg; lia).
  assert (Hm' : m' = Zpos m1 * 2 ^ s).
  { subst m'; destruct s as [|p|p] eqn:Es; try lia.
    rewrite Z.shiftl_mul_pow2 by lia; reflexivity. }
  assert (Hm'b : 2 ^ (d1 - 1 + s) <= m' < 2 ^ (d1 + s)).
  { rewrite Hm', !Z.pow_add_r by lia. split.
    - apply Z.mul_le_mono_nonneg_r; lia.
    - apply Z.mul_lt_mono_pos_r; lia. }
  pose proof (Z.div_pos m' (Zpos m2) ltac:(lia) ltac:(lia)) as Hq0.
  pose proof (Z.div_mod m' (Zpos m2) ltac:(lia)) as Hdm.
  pose proof (Z.mod_pos_bound m' (Zpos m2) ltac:(lia)) as Hr.
  unfold Z.div, Z.modulo in Hq0, Hdm, Hr.
  destruct (Z.div_eucl m' (Zpos m2)) as [q r]; cbn [fst snd] in *.
  split; [exact Hq0|].
  destruct (Z.eq_dec q 0) as [->|Hq].
  - cbn [Zdigits2].
    assert (Hlt : d1 - 1 + s < d2).
    { destruct (Z_lt_le_dec (d1 - 1 + s) d2) as [|Hge]; [assumption|].
      exfalso.
      assert (2 ^ d2 <= 2 ^ (d1 - 1 + s)) by (apply Z.pow_le_mono_r; lia).
      lia. }
    destruct (fexp_cases x) as [[H1 H2]|[H1 H2]].
    + exfalso; subst s x; lia.
    + destruct (fexp_ge (0 + e')) as [_ Hf]. lia.
  - assert (Hqd : d1 + s - d2 <= Zdigits2 q).
    { destruct (Zdigits2_spec q ltac:(lia)) as [Hdq [Lq Uq]].
      destruct (Z_lt_le_dec (Zdigits2 q) (d1 + s - d2)) as [Hlt|]; [|lia].
      exfalso.
      assert (Hq1 : q + 1 <= 2 ^ (d1 + s - d2 - 1)).
      { assert (2 ^ Zdigits2 q <= 2 ^ (d1 + s - d2 - 1))
          by (apply Z.pow_le_mono_r; lia).
        lia. }
      assert (Hprod : (q + 1) * Zpos m2 < 2 ^ (d1 + s - d2 - 1) * 2 ^ d2).
      { apply Z.le_lt_trans with (2 ^ (d1 + s - d2 - 1) * Zpos m2).
        - apply Z.mul_le_mono_nonneg_r; lia.
        - apply Z.mul_lt_mono_pos_l; [apply Z.pow_pos_nonneg; lia | exact U2]. }
      rewrite <- Z.pow_add_r in Hprod by lia.
      replace (d1 + s - d2 - 1 + d2) with (d1 - 1 + s) in Hprod by lia.
      lia. }
    eapply Z.le_trans; [apply He'|].
    apply fexp_mono; subst x s; lia.
Qed.

(** A quotient is always a number of the format, or NaN. *)
Lemma div_valid x y : valid_binary prec emax (div x y) = true.
Proof.
  unfold div;
    destruct x as [sx|sx| |sx mx ex], y as [sy|sy| |sy my ey];
    try reflexivity.
  cbn [SFdiv].
  pose proof (div_core_aligned mx ex my ey) as H; cbv zeta in H.
  destruct (SFdiv_core_binary prec emax (Zpos mx) ex (Zpos my) ey)
    as [[q e'] l]; cbn [fst snd] in H.
  apply wellFormed_valid, binary_round_aux_valid; apply H.
Qed.

Lemma safeDiv_valid a b : valid_binary prec emax (safeDiv a b) = true.
Proof.
  unfold safeDiv; destruct (strict_eq b pzero); [reflexivity | apply div_valid].
Qed.

Lemma add_valid x y :
  valid_binary prec emax x = true -> valid_binary prec emax y = true ->
  valid_binary prec emax (add x y) = true.
Proof.
  intros Hx Hy; unfold add;
    destruct x as [sx|sx| |sx mx ex], y as [sy|sy| |sy my ey];
    cbn [SFadd]; try reflexivity; try assumption.
  - destruct sx, sy; reflexivity.
  - destruct sx, sy; reflexivity.
  - apply wellFormed_valid, binary_normalize_valid.
Qed.

Lemma sub_valid x y :
  valid_binary prec emax x = true -> valid_binary prec emax y = true ->
  valid_binary prec emax (sub x y) = true.
Proof.
  intros Hx Hy; unfold sub;
    destruct x as [sx|sx| |sx mx ex], y as [sy|sy| |sy my ey];
    cbn [SFsub]; try reflexivity; try assumption.
  - destruct sx, sy; reflexivity.
  - destruct sx, sy; reflexivity.
  - apply wellFormed_valid, binary_normalize_valid.
Qed.

(** Rounding to decimals returns a number of the format. *)
Lemma roundTo_valid f x :
  valid_binary prec emax x = true -> valid_binary prec emax (roundTo f x) = true.
Proof.
  intros Hx; destruct x as [s|s| |s m e]; try reflexivity.
  cbn [roundTo]; destruct (ge_1e21 m e); [exact Hx|].
  destruct (toFixed_digits f m e); try reflexivity.
  unfold dec; apply div_valid.
Qed.

Lemma canonical_cases m e :
  canonical_mantissa prec emax m e = true ->
  (Zdigits2 (Zpos m) = 53 /\ emin64 <= e)
  \/ (e = emin64 /\ Zdigits2 (Zpos m) <= 53).
Proof.
  unfold canonical_mantissa; intros H; apply Z.eqb_eq in H.
  cbn [Zdigits2].
  destruct (fexp_cases (Zpos (digits2_pos m) + e)) as [[H1 H2]|[H1 H2]];
    rewrite H1 in H; unfold emin64 in *; lia.
Qed.

Lemma Zdigits2_mul a b :
  0 < a -> 0 < b -> Zdigits2 a + Zdigits2 b - 1 <= Zdigits2 (a * b).
Proof.
  intros Ha Hb.
  destruct (Zdigits2_spec a Ha) as [Hda [La Ua]].
  destruct (Zdigits2_spec b Hb) as [Hdb [Lb Ub]].
  destruct (Zdigits2_spec (a * b) ltac:(lia)) as [Hdab [Lab Uab]].
  destruct (Z_lt_le_dec (Zdigits2 (a * b)) (Zdigits2 a + Zdigits2 b - 1))
    as [Hlt|]; [|lia].
  exfalso.
  assert (H1 : 2 ^ (Zdigits2 a - 1) * 2 ^ (Zdigits2 b - 1) <= a * b)
    by (apply Z.mul_le_mono_nonneg; try apply Z.pow_nonneg; lia).
  rewrite <- Z.pow_add_r in H1 by lia.
  assert (H2 : 2 ^ Zdigits2 (a * b)
               <= 2 ^ (Zdigits2 a - 1 + (Zdigits2 b - 1)))
    by (apply Z.pow_le_mono_r; lia).
  lia.
Qed.

Lemma mul_valid x y :
  valid_binary prec emax x = true -> valid_binary prec emax y = true ->
  valid_binary prec emax (mul x y) = true.
Proof.
  intros Hx Hy; unfold mul;
    destruct x as [sx|sx| |sx mx ex], y as [sy|sy| |sy my ey];
    cbn [SFmul]; try reflexivity.
  apply wellFormed_valid, binary_round_aux_valid; [lia|].
  cbn [valid_binary] in Hx, Hy; unfold bounded in Hx, Hy.
  apply andb_true_iff in Hx, Hy; destruct Hx as [Hx _], Hy as [Hy _].
  apply canonical_cases in Hx, Hy.
  pose proof (Zdigits2_mul (Zpos mx) (Zpos my) ltac:(lia) ltac:(lia)) as Hd.
  destruct (Zdigits2_spec (Zpos mx) ltac:(lia)) as [Hdx _].
  destruct (Zdigits2_spec (Zpos my) ltac:(lia)) as [Hdy _].
  rewrite Pos2Z.inj_mul.
  set (d := Zdigits2 (Zpos mx * Zpos my)) in *.
  destruct (fexp_ge (d + (ex + ey))) as [F1 F2].
  unfold emin64 in *; lia.
Qed.

(** An integer below 2^53 is converted exactly. *)
Lemma binary_round_int53_value s p :
  Zpos p < 2 ^ 53 ->
  exists m e,
    binary_round prec emax s p 0 = S754_finite s m e
    /\ -52 <= e <= 0 /\ Zpos m = Zpos p * 2 ^ (- e).
Proof.
  intros Hp; unfold binary_round.
  pose proof (digits2_lower p) as L. pose proof (digits2_upper p) as U.
  set (d := Zpos (digits2_pos p)) in *.
  assert (Hd : 1 <= d <= 53).
  { split; [subst d; lia|].
    destruct (Z_lt_le_dec 53 d); [|lia].
    exfalso. assert (2 ^ 53 <= 2 ^ (d - 1)) by (apply Z.pow_le_mono_r; lia). lia. }
  assert (Hf : fexp prec emax (d + 0) = d - 53)
    by (unfold fexp, emin, prec, emax; lia).
  rewrite Hf.
  pose proof (shl_align_val p 0 (d - 53) ltac:(lia)) as Hv.
  assert (Hx : snd (shl_align p 0 (d - 53)) = d - 53).
  { unfold shl_align. destruct (d - 53 - 0) eqn:E; cbn [snd]; lia. }
  destruct (shl_align p 0 (d - 53)) as [mz ez]; cbn [fst snd] in *; subst ez.
  replace (0 - (d - 53)) with (53 - d) in Hv by lia.
  assert (Hmz : 2 ^ 52 <= Zpos mz < 2 ^ 53).
  { rewrite Hv. split.
    - replace 52 with ((d - 1) + (53 - d)) by lia.
      rewrite Z.pow_add_r by lia.
      apply Z.mul_le_mono_nonneg_r; [apply Z.pow_nonneg; lia | exact L].
    - replace 53 with (d + (53 - d)) at 2 by lia.
      rewrite Z.pow_add_r by lia.
      apply Z.mul_lt_mono_pos_r; [apply Z.pow_pos_nonneg; lia | exact U]. }
  rewrite binary_round_aux_exact; [| exact Hmz | unfold emin64; lia].
  exists mz, (d - 53); split; [reflexivity|]. split; [clear - Hd; lia|].
  rewrite Hv; f_equal; f_equal; lia.
Qed.

Lemma rank_of_Z n :
  Z.abs n < 2 ^ 53 -> rank (of_Z n) = n * 2 ^ 1074.
Proof.
  intros H; unfold of_Z, binary_normalize; destruct n as [|p|p].
  - reflexivity.
  - destruct (binary_round_int53_value false p ltac:(lia))
      as [m [e [-> [He Hm]]]].
    cbn [rank cond_Zopp]; rewrite Hm, <- Z.mul_assoc, <- Z.pow_add_r
      by (unfold emin64; lia).
    f_equal; f_equal; unfold emin64; lia.
  - destruct (binary_round_int53_value true p ltac:(lia))
      as [m [e [-> [He Hm]]]].
    cbn [rank cond_Zopp]; rewrite Hm, <- Z.mul_assoc, <- Z.pow_add_r
      by (unfold emin64; lia).
    replace (- e + (e - emin64)) with 1074 by (unfold emin64; lia).
    lia.
Qed.

(** On integers below 2^53 the comparators by subtraction follow the
    order of the integers. *)
Lemma sub_of_Z_positive a b :
  Z.abs a < 2 ^ 53 -> Z.abs b < 2 ^ 53 ->
  lt pzero (sub (of_Z a) (of_Z b)) = (b <? a).
Proof.
  intros Ha Hb.
  rewrite sub_sign by apply of_Z_wellFormed.
  rewrite !rank_of_Z by assumption.
  assert (0 < 2 ^ 1074) by (apply Z.pow_pos_nonneg; lia).
  destruct (Z.ltb_spec b a); [apply Z.ltb_lt | apply Z.ltb_ge]; nia.
Qed.

(* ================================================================== *)
(** * Categories and the player selector *)
(* ================================================================== *)

Section CellMapFacts.

Context {V : Type}.

Lemma JsCellMap_get_set (m : @JsCellMap.t V) k v k' :
  JsCellMap.get (JsCellMap.set m k v) k'
  = if same_cell k k' then Some v else JsCellMap.get m k'.
Proof.
  induction m as [|[k0 v0] m IH]; simpl.
  - reflexivity.
  - destruct (same_cell k0 k) eqn:E; simpl.
    + apply same_cell_eq in E; subst k0.
      destruct (same_cell k k'); reflexivity.
    + rewrite IH.
      destruct (same_cell k0 k') eqn:E'; [|reflexivity].
      apply same_cell_eq in E'; subst k'.
      destruct (same_cell k k0) eqn:E''; [|reflexivity].
      apply same_cell_eq in E''; subst k0.
      assert (H : same_cell k k = true) by (apply same_cell_eq; reflexivity).
      congruence.
Qed.

Lemma JsCellMap_set_keys (m : @JsCellMap.t V) k v :
  map fst (JsCellMap.set m k v)
  = if JsCellMap.has m k then map fst m else map fst m ++ [k].
Proof.
  unfold JsCellMap.has; induction m as [|[k0 v0] m IH]; simpl.
  - reflexivity.
  - destruct (same_cell k0 k) eqn:E; simpl.
    + apply same_cell_eq in E; subst k0; reflexivity.
    + rewrite IH; destruct (JsCellMap.get m k); reflexivity.
Qed.

Lemma JsCellMap_get_In (m : @JsCellMap.t V) k v :
  JsCellMap.get m k = Some v -> In (k, v) m.
Proof.
  induction m as [|[k0 v0] m IH]; simpl; [discriminate|].
  destruct (same_cell k0 k) eqn:E.
  - apply same_cell_eq in E; subst k0; intros [= ->]; left; reflexivity.
  - intros H; right; apply IH, H.
Qed.

Lemma JsCellMap_In_get (m : @JsCellMap.t V) k v :
  NoDup (map fst m) -> In (k, v) m -> JsCellMap.get m k = Some v.
Proof.
  induction m as [|[k0 v0] m IH]; simpl; [contradiction|].
  intros Hnd [H|H]; inversion Hnd as [|? ? Hnot Hnd']; subst.
  - injection H as -> ->.
    rewrite (proj2 (same_cell_eq k k) eq_refl); reflexivity.
  - destruct (same_cell k0 k) eqn:E.
    + apply same_cell_eq in E; subst k0.
      exfalso; apply Hnot; change k with (fst (k, v)); apply in_map, H.
    + apply IH; assumption.
Qed.

Lemma JsCellMap_has_In (m : @JsCellMap.t V) k :
  JsCellMap.has m k = true <-> In k (map fst m).
Proof.
  unfold JsCellMap.has; induction m as [|[k0 v0] m IH]; simpl.
  - split; [discriminate | contradiction].
  - destruct (same_cell k0 k) eqn:E.
    + apply same_cell_eq in E; split; auto.
    + rewrite IH; split; [auto | intros [H|H]; [|exact H]].
      apply same_cell_eq in H; congruence.
Qed.

End CellMapFacts.

Lemma playerStep_get rows :
  forall m k,
    JsCellMap.get (fold_left playerStep rows m) k
    = match JsCellMap.get m k with
      | Some p => Some p
      | None => option_map playerOf (firstRowOf k rows)
      end.
Proof.
  induction rows as [|row rows IH]; intros m k; simpl.
  - destruct (JsCellMap.get m k); reflexivity.
  - rewrite IH; unfold playerStep at 1, JsCellMap.has.
    destruct (JsCellMap.get m (playerId row)) as [p0|] eqn:E0.
    + destruct (JsCellMap.get m k) as [p|] eqn:Ek; [reflexivity|].
      destruct (same_cell (playerId row) k) eqn:E; [|reflexivity].
      apply same_cell_eq in E; congruence.
    + rewrite JsCellMap_get_set.
      destruct (same_cell (playerId row) k) eqn:E.
      * apply same_cell_eq in E; rewrite <- E, E0; reflexivity.
      * reflexivity.
Qed.

Lemma playerStep_NoDup rows :
  forall m, NoDup (map fst m) ->
            NoDup (map fst (fold_left playerStep rows m)).
Proof.
  induction rows as [|row rows IH]; intros m Hm; simpl; [exact Hm|].
  apply IH; unfold playerStep.
  destruct (JsCellMap.has m (playerId row)) eqn:Hh; [exact Hm|].
  rewrite JsCellMap_set_keys, Hh.
  apply Permutation_NoDup with (l := playerId row :: map fst m);
    [apply Permutation_cons_append|].
  constructor; [|exact Hm].
  intros Hin; apply JsCellMap_has_In in Hin; congruence.
Qed.

Lemma firstRowOf_app k l1 l2 :
  firstRowOf k (l1 ++ l2)
  = match firstRowOf k l1 with
    | Some r => Some r
    | None => firstRowOf k l2
    end.
Proof.
  unfold firstRowOf; induction l1 as [|r l1 IH]; simpl; [reflexivity|].
  destruct (same_cell (playerId r) k); [reflexivity | exact IH].
Qed.

Lemma players_get bat pit k :
  JsCellMap.get (fold_left playerStep pit (fold_left playerStep bat [])) k
  = option_map playerOf (firstRowOf k (bat ++ pit)).
Proof.
  rewrite !playerStep_get, firstRowOf_app; cbn [JsCellMap.get].
  destruct (firstRowOf k bat); reflexivity.
Qed.

Lemma firstRowOf_Some k rows r :
  firstRowOf k rows = Some r -> In r rows /\ playerId r = k.
Proof.
  unfold firstRowOf; intros H; apply find_some in H.
  destruct H as [H1 H2]; split; [exact H1 | apply same_cell_eq, H2].
Qed.

Lemma firstRowOf_In k rows row :
  In row rows -> playerId row = k -> exists r, firstRowOf k rows = Some r.
Proof.
  intros Hin Hk; unfold firstRowOf.
  destruct (find _ rows) as [r|] eqn:E; [eauto|].
  exfalso; apply (find_none _ _ E) in Hin.
  rewrite Hk, (proj2 (same_cell_eq k k) eq_refl) in Hin; discriminate.
Qed.

(** X8: the player selector: each player of the batting or pitching rows
    once, a player being the value of [選手ID], or of the name when that is
    empty or absent; named and numbered by the first row of the player
    (batting rows first); in the order of the shirt numbers, a missing or
    unreadable number and the number 0 counting as 999. *)
Theorem playerList_spec bat pit :
  let out := playerList bat pit in
  NoDup (map pl_id out)
  /\ (forall p, In p out <->
        exists row, firstRowOf (pl_id p) (bat ++ pit) = Some row
                    /\ p = playerOf row)
  /\ (forall id, In id (map pl_id out) <->
        exists row, In row (bat ++ pit) /\ playerId row = id)
  /\ ((forall row, In row (bat ++ pit) ->
         Z.abs (sortKey (playerOf row)) < 2 ^ 53) ->
      StronglySorted (fun a b => sortKey a <= sortKey b) out).
Proof.
  cbv zeta; unfold playerList.
  set (players := fold_left playerStep pit (fold_left playerStep bat [])).
  assert (Hnd : NoDup (map fst players)).
  { subst players; apply playerStep_NoDup, playerStep_NoDup; constructor. }
  assert (Hent : forall k p, In (k, p) players <->
            exists row, firstRowOf k (bat ++ pit) = Some row /\ p = playerOf row).
  { intros k p; split.
    - intros H; apply JsCellMap_In_get in H; [|exact Hnd].
      subst players; rewrite players_get in H.
      destruct (firstRowOf k (bat ++ pit)) as [row|]; [|discriminate].
      exists row; split; [reflexivity | simpl in H; congruence].
    - intros [row [Hr ->]]; apply JsCellMap_get_In.
      subst players; rewrite players_get, Hr; reflexivity. }
  assert (Hin : forall p, In p (JsCellMap.values players) <->
            exists row, firstRowOf (pl_id p) (bat ++ pit) = Some row
                        /\ p = playerOf row).
  { intros p; unfold JsCellMap.values; rewrite in_map_iff; split.
    - intros [[k p'] [E H]]; simpl in E; subst p'.
      apply Hent in H; destruct H as [row [Hr ->]].
      exists row; split; [|reflexivity].
      apply firstRowOf_Some in Hr as Hk; destruct Hk as [_ Hk].
      cbn [playerOf pl_id]; rewrite Hk; exact Hr.
    - intros [row [Hr ->]]; exists (playerId row, playerOf row).
      split; [reflexivity|]. apply Hent; exists row; split; [|reflexivity].
      exact Hr. }
  assert (Hids : map pl_id (JsCellMap.values players) = map fst players).
  { unfold JsCellMap.values; rewrite map_map; apply map_ext_in.
    intros [k p] H; simpl; apply Hent in H; destruct H as [row [Hr ->]].
    apply firstRowOf_Some in Hr; apply Hr. }
  set (gt := fun a b => lt pzero (sub (sortNumber a) (sortNumber b))).
  pose proof (sort_perm gt (JsCellMap.values players)) as Hperm.
  split.
  { eapply Permutation_NoDup;
      [apply Permutation_map, Permutation_sym, Hperm|].
    rewrite Hids; exact Hnd. }
  split.
  { intros p; rewrite <- Hin; apply sort_In. }
  split.
  { intros id; split.
    - intros H; apply in_map_iff in H; destruct H as [p [<- Hp]].
      apply (proj1 (sort_In _ _ _)), Hin in Hp.
      destruct Hp as [row [Hr _]]; apply firstRowOf_Some in Hr.
      exists row; exact Hr.
    - intros [row [Hrow Hk]].
      destruct (firstRowOf_In id (bat ++ pit) row Hrow Hk) as [r Hr].
      apply in_map_iff; exists (playerOf r); split.
      + apply firstRowOf_Some in Hr; apply Hr.
      + apply sort_In, Hin; exists r; split; [|reflexivity].
        apply firstRowOf_Some in Hr as Hk'; destruct Hk' as [_ Hk'].
        cbn [playerOf pl_id]; rewrite Hk'; exact Hr. }
  intros Hsmall.
  assert (Hnum : forall p, sortNumber p = of_Z (sortKey p)).
  { intros p; unfold sortNumber, sortKey.
    destruct (JsText.parseInt (JsString.of_value (pl_number p))) as [n|];
      [|reflexivity].
    destruct (n =? 0); reflexivity. }
  apply sort_sorted with (P := fun p => Z.abs (sortKey p) < 2 ^ 53).
  - intros x y z _ _ _; lia.
  - intros x y Hx Hy; unfold gt; rewrite !Hnum, sub_of_Z_positive by assumption.
    intros H; apply Z.ltb_ge in H; exact H.
  - intros x y Hx Hy; unfold gt; rewrite !Hnum, sub_of_Z_positive by assumption.
    intros H; apply Z.ltb_lt in H; lia.
  - apply Forall_forall; intros p Hp; apply Hin in Hp.
    destruct Hp as [row [Hr ->]]; apply Hsmall.
    apply firstRowOf_Some in Hr; apply Hr.
Qed.

Lemma categoryStep_spec rows :
  forall cats, NoDup cats ->
    NoDup (fold_left categoryStep rows cats)
    /\ (forall c, In c (fold_left categoryStep rows cats) <->
          In c cats
          \/ (c <> EmptyString /\ exists row, In row rows /\ r_title row = c)).
Proof.
  induction rows as [|row rows IH]; intros cats Hnd; simpl.
  - split; [exact Hnd|]. intros c; split; [auto|].
    intros [H|[_ [row [[] _]]]]; exact H.
  - assert (Hnd' : NoDup (categoryStep cats row)).
    { unfold categoryStep; destruct (JsString.truthy (r_title row));
        [apply (JsSet_add_NoDup String.eqb String.eqb_eq)|]; exact Hnd. }
    destruct (IH _ Hnd') as [H1 H2]; split; [exact H1|].
    intros c; rewrite H2; unfold categoryStep.
    destruct (JsString.truthy (r_title row)) eqn:Ht.
    + apply truthy_nonempty in Ht.
      rewrite (JsSet_add_In String.eqb String.eqb_eq); split.
      * intros [[H| ->]|[Hc [r [Hr E]]]]; [left; exact H | right | right].
        -- split; [exact Ht | exists row; split; [left|]; reflexivity].
        -- split; [exact Hc | exists r; split; [right|]; assumption].
      * intros [H|[Hc [r [[<-|Hr] E]]]].
        -- left; left; exact H.
        -- left; right; symmetry; exact E.
        -- right; split; [exact Hc | exists r; split; assumption].
    + split.
      * intros [H|[Hc [r [Hr E]]]]; [left; exact H | right].
        split; [exact Hc | exists r; split; [right|]; assumption].
      * intros [H|[Hc [r [[<-|Hr] E]]]].
        -- left; exact H.
        -- exfalso; rewrite E in Ht.
           apply truthy_nonempty in Hc; congruence.
        -- right; split; [exact Hc | exists r; split; assumption].
Qed.

(** X7: the category selector: the titles of the batting rows, the empty
    one left out, each once and in the ascending order of their UTF-16
    code units, which is not the order of the characters beyond U+FFFF: a
    title that is the face U+1F600 (code units D83D, DE00) comes before
    one that is the letter U+FF21, whose UTF-8 bytes come first. *)
Theorem categories_spec bat :
  let out := categories bat in
  (forall c, In c out <->
     c <> EmptyString /\ exists row, In row bat /\ r_title row = c)
  /\ StronglySorted (fun a b => JsString.ltb a b = true) out
  /\ StronglySorted
       (fun a b => forall ua ub,
          JsString.units a = Some ua -> JsString.units b = Some ub ->
          JsString.compareUnits ua ub = Lt) out
  /\ categories
       [Sample.titled Sample.fullwidthA (Sample.bat "a" "g1" "2025-10-01" 3 1 1);
        Sample.titled "League" (Sample.bat "a" "g2" "2025-10-08" 3 1 1);
        Sample.titled Sample.face (Sample.bat "a" "g3" "2025-10-15" 3 1 1)]
     = ["League"%string; Sample.face; Sample.fullwidthA]
  /\ JsString.units Sample.fullwidthA = Some [65313]
  /\ JsString.units Sample.face = Some [55357; 56832]
  /\ String.ltb Sample.fullwidthA Sample.face = true.
Proof.
  cbv zeta; unfold categories at 1 2 3.
  destruct (categoryStep_spec bat [] (NoDup_nil _)) as [Hnd Hin].
  destruct (sort_strings _ Hnd) as [Hp Hs].
  split.
  { intros c; split; intros H.
    - eapply Permutation_in in H; [|exact Hp].
      apply Hin in H; destruct H as [[]|H]; exact H.
    - eapply Permutation_in; [apply Permutation_sym, Hp|].
      apply Hin; right; exact H. }
  split; [exact Hs|].
  split.
  { eapply StronglySorted_weaken; [|exact Hs].
    intros x y H ua ub; apply ltb_units, H. }
  repeat split; vm_compute; reflexivity.
Qed.

(* ================================================================== *)
(** * Sorting the tables and the charts *)
(* ================================================================== *)

Section TableFacts.
Variable Number_of_string : string -> num.
Context {A K : Type}.
Variable cellOf : A -> K -> JsValue.
Variable K_eqb : K -> K -> bool.
Hypothesis K_eqb_spec : forall a b, K_eqb a b = true <-> a = b.

Lemma after_numeric key dir a b x y :
  cellOf a key = VNumber x -> cellOf b key = VNumber y ->
  wellFormed x = true -> wellFormed y = true ->
  TableSort.after Number_of_string cellOf key dir a b
  = match dir with
    | Asc => rank y <? rank x
    | Desc => rank x <? rank y
    end.
Proof.
  intros Ha Hb Hx Hy; unfold TableSort.after, TableSort.coerce; rewrite Ha, Hb.
  cbn [TableSort.toNumber].
  assert (Nx : isNaN x = false) by (destruct x; try reflexivity; discriminate).
  assert (Ny : isNaN y = false) by (destruct y; try reflexivity; discriminate).
  rewrite Nx, Ny; cbn [TableSort.less TableSort.toNumber].
  rewrite !lt_rank by assumption.
  destruct dir; destruct (Z.ltb_spec (rank x) (rank y));
    destruct (Z.ltb_spec (rank y) (rank x)); try reflexivity; lia.
Qed.

(** X20: clicking a header sorts by its column, first downwards, then, on a
    second click, upwards, and so on in turn; on a column of numbers the
    rows come out in that order. *)
Theorem table_sort_by_column items key :
  let c0 := @initialSort K in
  let c1 := TableSort.requestSort K_eqb c0 key in
  let c2 := TableSort.requestSort K_eqb c1 key in
  let c3 := TableSort.requestSort K_eqb c2 key in
  let sorted := TableSort.sortedData Number_of_string cellOf items in
  sorted c0 = items
  /\ c1 = {| sc_key := Some key; sc_direction := Desc |}
  /\ c2 = {| sc_key := Some key; sc_direction := Asc |}
  /\ c3 = c1
  /\ (forall c other, other <> key ->
        TableSort.requestSort K_eqb (TableSort.requestSort K_eqb c other) key
        = c1)
  /\ Permutation (sorted c1) items /\ Permutation (sorted c2) items
  /\ (numericColumn cellOf key items ->
      StronglySorted
        (fun a b => le (numberIn (cellOf b key)) (numberIn (cellOf a key))
                    = true) (sorted c1)
      /\ StronglySorted
           (fun a b => le (numberIn (cellOf a key)) (numberIn (cellOf b key))
                       = true) (sorted c2)).
Proof.
  cbv zeta.
  assert (Hrefl : K_eqb key key = true) by (apply K_eqb_spec; reflexivity).
  unfold TableSort.requestSort, initialSort; cbn [sc_key sc_direction].
  rewrite Hrefl; cbn [sc_key sc_direction].
  split; [reflexivity|]. split; [reflexivity|]. split; [reflexivity|].
  split; [reflexivity|].
  split.
  { intros c other Hne.
    destruct (sc_key c) as [k|], (sc_direction c);
      try destruct (K_eqb k other); cbn;
      try (destruct (K_eqb other key) eqn:E;
           [apply K_eqb_spec in E; contradiction | reflexivity]);
      reflexivity. }
  unfold TableSort.sortedData; cbn [sc_key sc_direction].
  split; [apply sort_perm|]. split; [apply sort_perm|].
  intros Hnum.
  assert (Hwf : forall a, In a items ->
            wellFormed (numberIn (cellOf a key)) = true
            /\ cellOf a key = VNumber (numberIn (cellOf a key))).
  { intros a Ha; destruct (Hnum a Ha) as [x [E Hx]]; rewrite E; auto. }
  split.
  - apply sort_sorted
      with (P := fun a => wellFormed (numberIn (cellOf a key)) = true
                          /\ cellOf a key = VNumber (numberIn (cellOf a key))).
    + intros x y z [Hx _] [Hy _] [Hz _].
      rewrite !le_rank by assumption; rewrite !Z.leb_le; lia.
    + intros x y [Hx Ex] [Hy Ey].
      rewrite (after_numeric key Desc x y _ _ Ex Ey Hx Hy).
      rewrite le_rank by assumption; rewrite Z.ltb_ge, Z.leb_le; auto.
    + intros x y [Hx Ex] [Hy Ey].
      rewrite (after_numeric key Desc x y _ _ Ex Ey Hx Hy).
      rewrite le_rank by assumption; rewrite Z.ltb_lt, Z.leb_le; lia.
    + apply Forall_forall; exact Hwf.
  - apply sort_sorted
      with (P := fun a => wellFormed (numberIn (cellOf a key)) = true
                          /\ cellOf a key = VNumber (numberIn (cellOf a key))).
    + intros x y z [Hx _] [Hy _] [Hz _].
      rewrite !le_rank by assumption; rewrite !Z.leb_le; lia.
    + intros x y [Hx Ex] [Hy Ey].
      rewrite (after_numeric key Asc x y _ _ Ex Ey Hx Hy).
      rewrite le_rank by assumption; rewrite Z.ltb_ge, Z.leb_le; auto.
    + intros x y [Hx Ex] [Hy Ey].
      rewrite (after_numeric key Asc x y _ _ Ex Ey Hx Hy).
      rewrite le_rank by assumption; rewrite Z.ltb_lt, Z.leb_le; lia.
    + apply Forall_forall; exact Hwf.
Qed.

End TableFacts.

Lemma finite_valid_wellFormed x :
  isFinite x = true -> valid_binary prec emax x = true -> wellFormed x = true.
Proof.
  intros Hf Hv; apply valid_not_nan; [exact Hv|].
  destruct x; try reflexivity; discriminate.
Qed.

(** X21: the two tables come out of the aggregation in the order of the
    batting average, best first, and of the earned run average, lowest
    first. *)
Theorem aggregated_tables_order bat pit :
  (forall p, In p (aggregatedBatting bat) ->
             batCountsBelow (2 ^ 40) (b_stats p)) ->
  (forall p, In p (aggregatedPitching pit) ->
             pitCountsBelow (2 ^ 40) (p_stats p)) ->
  StronglySorted (fun a b => le (b_avg b) (b_avg a) = true)
                 (aggregatedBatting bat)
  /\ StronglySorted (fun a b => le (p_era a) (p_era b) = true)
                    (aggregatedPitching pit).
Proof.
  intros Hb Hp.
  assert (Hwb : forall p, In p (aggregatedBatting bat) ->
                          wellFormed (b_avg p) = true).
  { intros p Hin; specialize (Hb p Hin).
    destruct (aggregatedBatting_summary bat p Hin) as [s ->].
    apply finite_valid_wellFormed.
    - apply batSummary_finite, Hb.
    - apply roundTo_valid, safeDiv_valid. }
  assert (Hwp : forall p, In p (aggregatedPitching pit) ->
                          wellFormed (p_era p) = true).
  { intros p Hin; specialize (Hp p Hin).
    destruct (aggregatedPitching_summary pit p Hin) as [s ->].
    apply finite_valid_wellFormed.
    - apply pitSummary_finite, Hp.
    - apply roundTo_valid, safeDiv_valid. }
  split.
  - unfold aggregatedBatting in *.
    set (l := map batSummary _) in *.
    apply sort_sorted with (P := fun p => wellFormed (b_avg p) = true).
    + intros x y z Hx Hy Hz.
      rewrite !le_rank by assumption; rewrite !Z.leb_le; lia.
    + intros x y Hx Hy; rewrite sub_sign, le_rank by assumption.
      rewrite Z.ltb_ge, Z.leb_le; auto.
    + intros x y Hx Hy; rewrite sub_sign, le_rank by assumption.
      rewrite Z.ltb_lt, Z.leb_le; lia.
    + apply Forall_forall; intros p Hin; apply Hwb, sort_In, Hin.
  - unfold aggregatedPitching in *.
    set (l := map pitSummary _) in *.
    apply sort_sorted with (P := fun p => wellFormed (p_era p) = true).
    + intros x y z Hx Hy Hz.
      rewrite !le_rank by assumption; rewrite !Z.leb_le; lia.
    + intros x y Hx Hy; rewrite sub_sign, le_rank by assumption.
      rewrite Z.ltb_ge, Z.leb_le; auto.
    + intros x y Hx Hy; rewrite sub_sign, le_rank by assumption.
      rewrite Z.ltb_lt, Z.leb_le; lia.
    + apply Forall_forall; intros p Hin; apply Hwp, sort_In, Hin.
Qed.

Lemma chartSortedData_RankingList {A : Type} (value : A -> option num)
    sortAsc top data :
  chartSortedData value sortAsc data = RankingList value sortAsc true top data.
Proof. reflexivity. Qed.

(** X19: the bars of a chart card are in the order of the rankings: lowest
    first for era and whip, highest first otherwise, the lines without a
    value at the end. *)
Theorem chart_bars_order {A : Type} (value : A -> option num) sortAsc data :
  valuesWellFormed value data ->
  let out := chartSortedData value sortAsc data in
  Permutation out data
  /\ (sortAsc = true -> StronglySorted (ascending value) out)
  /\ (sortAsc = false -> StronglySorted (descending value) out)
  /\ (forall l1 a l2 b,
        out = l1 ++ a :: l2 -> value a = None -> In b l2 ->
        value b = None
        \/ value b = Some (if sortAsc then pinf else ninf)).
Proof.
  intros Hwf; cbv zeta.
  rewrite (chartSortedData_RankingList value sortAsc 0), RankingList_sort.
  assert (Hperm : Permutation
            (if sortAsc
             then JsArray.sort (fun a b => ascGt (value a) (value b)) data
             else JsArray.sort (fun a b => descGt (value a) (value b)) data)
            data) by (destruct sortAsc; apply sort_perm).
  split; [exact Hperm|].
  split; [intros ->; apply sort_ascending, Hwf|].
  split; [intros ->; apply sort_descending, Hwf|].
  intros l1 a l2 b Hout Ha Hb.
  pose proof (valuesWellFormed_perm _ _ _ Hperm Hwf) as Hwf'.
  rewrite Hout in Hwf'.
  destruct sortAsc.
  - eapply missing_last_ascending; try eassumption.
    rewrite <- Hout; apply sort_ascending, Hwf.
  - eapply missing_last_descending; try eassumption.
    rewrite <- Hout; apply sort_descending, Hwf.
Qed.


(* ================================================================== *)
(** * Rates on display *)
(* ================================================================== *)

Lemma digits_of_more_fuel fuel :
  forall n acc,
    0 <= n < 10 ^ Z.of_nat fuel -> (0 < fuel)%nat ->
    JsString.digits_of (S fuel) n acc = JsString.digits_of fuel n acc.
Proof.
  induction fuel as [|fuel IH]; intros n acc Hn Hf; [lia|].
  cbn [JsString.digits_of].
  destruct (Z.ltb_spec n 10) as [Hlt|Hge]; [reflexivity|].
  assert (Hn' : 0 <= n / 10 < 10 ^ Z.of_nat fuel).
  { rewrite Nat2Z.inj_succ, Z.pow_succ_r in Hn by lia.
    split; [apply Z.div_pos; lia | apply Z.div_lt_upper_bound; lia]. }
  assert (Hf' : (0 < fuel)%nat).
  { destruct fuel; [|lia]. simpl in Hn'.
    assert (1 <= n / 10) by (apply Z.div_le_lower_bound; lia). lia. }
  specialize (IH (n / 10) (String (JsString.digit_char (n mod 10)) acc) Hn' Hf').
  cbn [JsString.digits_of] in IH; exact IH.
Qed.

Lemma digits_of_fuel f1 f2 n acc :
  0 <= n < 10 ^ Z.of_nat f1 -> (0 < f1)%nat -> (f1 <= f2)%nat ->
  JsString.digits_of f2 n acc = JsString.digits_of f1 n acc.
Proof.
  intros Hn Hf Hle; induction Hle as [|f2 Hle IH]; [reflexivity|].
  rewrite digits_of_more_fuel; [exact IH| |lia].
  split; [lia|]. eapply Z.lt_le_trans; [apply Hn|].
  apply Z.pow_le_mono_r; lia.
Qed.

Lemma log2_fuel n : 0 <= n -> n < 10 ^ Z.of_nat (S (Z.to_nat (Z.log2 n))).
Proof.
  intros Hn; rewrite Nat2Z.inj_succ, Z2Nat.id by apply Z.log2_nonneg.
  destruct (Z.eq_dec n 0) as [->|Hnz]; [reflexivity|].
  pose proof (Z.log2_spec n ltac:(lia)) as [_ H].
  eapply Z.lt_le_trans; [exact H|].
  apply Z.pow_le_mono_l; pose proof (Z.log2_nonneg n); lia.
Qed.

(** The decimal digits of [n]: those of [n / 10], then the last one. *)
Lemma of_Z_step n :
  10 <= n ->
  JsString.of_Z n
  = String.append (JsString.of_Z (n / 10))
      (String (JsString.digit_char (n mod 10)) EmptyString).
Proof.
  intros Hn; unfold JsString.of_Z.
  assert (Hq : 1 <= n / 10) by (apply Z.div_le_lower_bound; lia).
  replace (n <? 0) with false by (symmetry; apply Z.ltb_ge; lia).
  replace (n / 10 <? 0) with false by (symmetry; apply Z.ltb_ge; lia).
  set (f := Z.to_nat (Z.log2 n)). set (g := Z.to_nat (Z.log2 (n / 10))).
  change (JsString.digits_of (S f) n EmptyString)
    with (if n <? 10 then String (JsString.digit_char (n mod 10)) EmptyString
          else JsString.digits_of f (n / 10)
                 (String (JsString.digit_char (n mod 10)) EmptyString)).
  replace (n <? 10) with false by (symmetry; apply Z.ltb_ge; lia).
  rewrite digits_of_acc; f_equal.
  assert (Hg : (S g <= f)%nat).
  { subst f g.
    assert (Z.log2 (n / 10) < Z.log2 n).
    { assert (Z.log2 (2 * (n / 10)) <= Z.log2 n)
        by (apply Z.log2_le_mono; Z.to_euclidean_division_equations; lia).
      rewrite Z.log2_double in H by lia. lia. }
    pose proof (Z.log2_nonneg (n / 10)). lia. }
  apply digits_of_fuel; [|lia|exact Hg].
  split; [lia | apply log2_fuel; lia].
Qed.

Lemma of_Z_small n :
  0 <= n < 10 -> JsString.of_Z n = String (JsString.digit_char n) EmptyString.
Proof. intros H; apply (of_Z_read n); lia. Qed.

(** A positive number is written without a leading zero. *)
Lemma of_Z_first n :
  0 < n ->
  exists c rest, JsString.of_Z n = String c rest /\ c <> "0"%char.
Proof.
  intros Hn.
  assert (H : forall k, 0 <= k -> forall n, 0 < n <= k ->
            exists c rest, JsString.of_Z n = String c rest /\ c <> "0"%char).
  { intros k Hk; pattern k; apply natlike_ind; [intros; lia| |exact Hk].
    clear; intros k Hk IH n Hn.
    destruct (Z.ltb_spec n 10) as [Hlt|Hge].
    - rewrite of_Z_small by lia.
      exists (JsString.digit_char n), EmptyString; split; [reflexivity|].
      assert (Hc : n = 1 \/ n = 2 \/ n = 3 \/ n = 4 \/ n = 5 \/ n = 6 \/ n = 7
                   \/ n = 8 \/ n = 9) by lia.
      destruct Hc as [->|[->|[->|[->|[->|[->|[->|[->| ->]]]]]]]]; discriminate.
    - rewrite of_Z_step by lia.
      assert (Hq : 0 < n / 10 <= k) by (Z.to_euclidean_division_equations; lia).
      destruct (IH (n / 10) Hq) as [c [rest [E Hc]]]; rewrite E.
      exists c; eexists; split; [reflexivity | exact Hc]. }
  apply (H n); lia.
Qed.

Lemma append_length a b :
  String.length (String.append a b) = (String.length a + String.length b)%nat.
Proof. induction a as [|c a IH]; simpl; [reflexivity | rewrite IH; reflexivity]. Qed.

Lemma of_Z_length_ge n :
  1000 <= n -> (4 <= String.length (JsString.of_Z n))%nat.
Proof.
  intros Hn.
  rewrite (of_Z_step n) by lia.
  rewrite (of_Z_step (n / 10)) by (Z.to_euclidean_division_equations; lia).
  rewrite (of_Z_step (n / 10 / 10)) by (Z.to_euclidean_division_equations; lia).
  destruct (of_Z_first (n / 10 / 10 / 10)
              ltac:(Z.to_euclidean_division_equations; lia))
    as [c [rest [E _]]].
  rewrite E, !append_length; simpl; lia.
Qed.

Lemma substring_prefix a b :
  String.substring 0 (String.length a) (String.append a b) = a.
Proof.
  induction a as [|c a IH]; simpl.
  - destruct b; reflexivity.
  - rewrite IH; reflexivity.
Qed.

Lemma substring_suffix a b :
  String.substring (String.length a) (String.length b) (String.append a b) = b.
Proof.
  induction a as [|c a IH]; simpl; [|exact IH].
  induction b as [|c b IHb]; simpl; [reflexivity | rewrite IHb; reflexivity].
Qed.

Lemma fixedDigits3_small n :
  0 <= n < 1000 ->
  JsFormat.fixedDigits 3 n
  = String "0"%char (String "."%char (threeDigits n)).
Proof.
  intros Hn.
  assert (Hall :
    forallb (fun k => String.eqb (JsFormat.fixedDigits 3 (Z.of_nat k))
                        (String "0"%char
                           (String "."%char (threeDigits (Z.of_nat k)))))
            (seq 0 1000) = true) by (vm_compute; reflexivity).
  rewrite forallb_forall in Hall.
  specialize (Hall (Z.to_nat n)).
  rewrite Z2Nat.id in Hall by lia.
  apply String.eqb_eq, Hall, in_seq; lia.
Qed.

(** [toFixed(3)] on thousandths: the whole part, a point, three
    decimals. *)
Lemma fixedDigits3 n :
  0 <= n ->
  JsFormat.fixedDigits 3 n
  = String.append (JsString.of_Z (n / 1000))
      (String "."%char (threeDigits (n mod 1000))).
Proof.
  intros Hn; destruct (Z.ltb_spec n 1000) as [Hlt|Hge].
  - rewrite fixedDigits3_small, Z.div_small, Z.mod_small by lia; reflexivity.
  - pose proof (of_Z_length_ge n Hge) as Hlen.
    assert (Hsplit : JsString.of_Z n
                     = String.append (JsString.of_Z (n / 1000))
                         (threeDigits (n mod 1000))).
    { rewrite (of_Z_step n) by lia.
      rewrite (of_Z_step (n / 10)) by (Z.to_euclidean_division_equations; lia).
      rewrite (of_Z_step (n / 10 / 10))
        by (Z.to_euclidean_division_equations; lia).
      assert (H0 : n / 10 / 10 / 10 = n / 1000)
        by (Z.to_euclidean_division_equations; lia).
      assert (H1 : n mod 1000 / 100 = (n / 10 / 10) mod 10)
        by (Z.to_euclidean_division_equations; lia).
      assert (H2 : (n mod 1000 / 10) mod 10 = (n / 10) mod 10)
        by (Z.to_euclidean_division_equations; lia).
      assert (H3 : (n mod 1000) mod 10 = n mod 10)
        by (Z.to_euclidean_division_equations; lia).
      unfold threeDigits; rewrite H0, H1, H2, H3, !append_assoc.
      reflexivity. }
    unfold JsFormat.fixedDigits.
    replace (String.length (JsString.of_Z n) <=? 3)%nat with false
      by (symmetry; apply Nat.leb_gt; lia).
    cbv zeta; rewrite Hsplit.
    set (a := JsString.of_Z (n / 1000)). set (b := threeDigits (n mod 1000)).
    assert (Hb : String.length b = 3%nat) by reflexivity.
    rewrite append_length, Hb.
    replace (String.length a + 3 - 3)%nat with (String.length a) by lia.
    rewrite substring_prefix.
    rewrite <- Hb at 1; rewrite substring_suffix; reflexivity.
Qed.

Lemma toFixed_digits_nonneg f m e : 0 <= toFixed_digits f m e.
Proof.
  unfold toFixed_digits; destruct e as [|k|k].
  - assert (0 < 10 ^ Z.of_nat f) by (apply Z.pow_pos_nonneg; lia).
    change (2 ^ 0) with 1; apply Z.mul_nonneg_nonneg; lia.
  - assert (0 < 10 ^ Z.of_nat f) by (apply Z.pow_pos_nonneg; lia).
    assert (0 < 2 ^ Zpos k) by (apply Z.pow_pos_nonneg; lia).
    apply Z.mul_nonneg_nonneg; [apply Z.mul_nonneg_nonneg|]; lia.
  - assert (0 < 10 ^ Z.of_nat f) by (apply Z.pow_pos_nonneg; lia).
    assert (0 < 2 ^ Zpos k) by (apply Z.pow_pos_nonneg; lia).
    assert (0 < 2 ^ (Zpos k + 1)) by (apply Z.pow_pos_nonneg; lia).
    apply Z.div_pos; lia.
Qed.

(** X6: how a rate is printed: three decimals of the rounded thousandths,
    after the whole part; the whole part is left out when it is a lone
    zero and no leading zero is asked for, but kept behind a minus sign;
    what is not a number, and NaN, is printed as it is. *)
Theorem formatRate_digits nts :
  (forall s leadingZero, formatRate nts (VString s) leadingZero = VString s)
  /\ (forall leadingZero,
        formatRate nts VUndefined leadingZero = VUndefined
        /\ formatRate nts (VNumber S754_nan) leadingZero = VNumber S754_nan)
  /\ (forall s leadingZero,
        formatRate nts (VNumber (S754_zero s)) leadingZero
        = VString (if leadingZero then "0.000" else ".000")%string)
  /\ (forall s m e leadingZero,
        ge_1e21 m e = false ->
        let n := toFixed_digits 3 m e in
        let whole :=
          if negb leadingZero && negb s && (n <? 1000) then EmptyString
          else JsString.of_Z (n / 1000) in
        formatRate nts (VNumber (S754_finite s m e)) leadingZero
        = VString
            (String.append (if s then "-"%string else EmptyString)
               (String.append whole
                  (String "."%char (threeDigits (n mod 1000)))))).
Proof.
  split; [reflexivity|]. split; [split; reflexivity|].
  split; [intros s []; reflexivity|].
  intros s m e lz Hge; cbv zeta.
  pose proof (toFixed_digits_nonneg 3 m e) as Hn.
  unfold formatRate; cbn [isNaN JsFormat.toFixed]; rewrite Hge.
  rewrite fixedDigits3 by exact Hn.
  set (n := toFixed_digits 3 m e) in *.
  destruct lz; cbn [negb andb]; [reflexivity|].
  destruct s; cbn [negb andb String.append]; [reflexivity|].
  destruct (Z.ltb_spec n 1000) as [Hlt|Hge'].
  - rewrite Z.div_small by lia; reflexivity.
  - destruct (of_Z_first (n / 1000)
                ltac:(Z.to_euclidean_division_equations; lia))
      as [c [rest [E Hc]]].
    rewrite E; cbn [String.append dropLeadingZero].
    destruct c as [[] [] [] [] [] [] [] []]; try reflexivity.
    contradiction Hc; reflexivity.
Qed.

(* ================================================================== *)
(** * Reading a CSV file *)
(* ================================================================== *)

Lemma ueqb_spec a b : Csv.ueqb a b = true <-> a = b.
Proof.
  revert b; induction a as [|x a IH]; intros [|y b]; simpl;
    try (split; [discriminate | discriminate]); [tauto|].
  rewrite andb_true_iff, N.eqb_eq, IH; split.
  - intros [-> ->]; reflexivity.
  - intros [= -> ->]; auto.
Qed.

Lemma ueqb_refl a : Csv.ueqb a a = true.
Proof. apply ueqb_spec; reflexivity. Qed.

Lemma csv_get_set o k v k' :
  Csv.get (Csv.set o k v) k'
  = if Csv.ueqb k k' then Some v else Csv.get o k'.
Proof.
  induction o as [|[k0 v0] o IH]; simpl; [reflexivity|].
  destruct (Csv.ueqb k0 k) eqn:E0; simpl.
  - apply ueqb_spec in E0; subst k0.
    destruct (Csv.ueqb k k'); reflexivity.
  - rewrite IH.
    destruct (Csv.ueqb k0 k') eqn:E1; [|reflexivity].
    apply ueqb_spec in E1; subst k0.
    destruct (Csv.ueqb k k') eqn:E2; [|reflexivity].
    apply ueqb_spec in E2; subst k'; rewrite ueqb_refl in E0; discriminate.
Qed.

Section CsvFacts.
Variable Number_of_string : Csv.ustring -> num.

(** What the loop over the headers leaves under a key. *)
Lemma fill_get cells h :
  forall headers obj j,
    Csv.get (Csv.fill Number_of_string obj headers j cells) h
    = if Csv.ueqb h Csv.proto then Csv.get obj h
      else match lastIndex h headers with
           | Some i =>
               Some (Csv.cellValue Number_of_string h
                       (Csv.cellText (nth_error cells (j + i))))
           | None => Csv.get obj h
           end.
Proof.
  induction headers as [|x rest IH]; intros obj j; cbn [Csv.fill lastIndex].
  - destruct (Csv.ueqb h Csv.proto); reflexivity.
  - rewrite IH; destruct (Csv.ueqb h Csv.proto) eqn:Ep.
    + unfold Csv.assign; destruct (Csv.ueqb x Csv.proto) eqn:Ex; [reflexivity|].
      rewrite csv_get_set.
      destruct (Csv.ueqb x h) eqn:E; [|reflexivity].
      apply ueqb_spec in E; subst x; congruence.
    + destruct (lastIndex h rest) as [i|].
      * replace (S j + i)%nat with (j + S i)%nat by lia; reflexivity.
      * unfold Csv.assign.
        destruct (Csv.ueqb x h) eqn:E.
        -- apply ueqb_spec in E; subst x; rewrite Ep, csv_get_set, ueqb_refl.
           replace (j + 0)%nat with j by lia; reflexivity.
        -- destruct (Csv.ueqb x Csv.proto); [reflexivity|].
           rewrite csv_get_set, E; reflexivity.
Qed.

Lemma lastIndex_Some h headers :
  lastIndex h headers <> None <-> In h headers.
Proof.
  induction headers as [|x rest IH]; simpl; [tauto|].
  destruct (lastIndex h rest) as [i|].
  - split; [intros _; right; apply IH; discriminate | discriminate].
  - destruct (Csv.ueqb x h) eqn:E.
    + apply ueqb_spec in E; split; [auto | discriminate].
    + split; [congruence|].
      intros [->|H]; [rewrite ueqb_refl in E; discriminate|].
      apply IH in H; congruence.
Qed.

Lemma lastIndex_nth h headers i :
  lastIndex h headers = Some i ->
  nth_error headers i = Some h
  /\ forall i', (i < i')%nat -> nth_error headers i' <> Some h.
Proof.
  revert i; induction headers as [|x rest IH]; intros i; simpl; [discriminate|].
  destruct (lastIndex h rest) as [i0|] eqn:E0.
  - intros [= <-]; destruct (IH i0 eq_refl) as [H1 H2]; split; [exact H1|].
    intros [|i'] Hlt; [lia|]; simpl; apply H2; lia.
  - destruct (Csv.ueqb x h) eqn:E; [|discriminate].
    intros [= <-]; apply ueqb_spec in E; subst x; split; [reflexivity|].
    intros [|i'] Hlt; [lia|]; simpl.
    intros Hn; apply nth_error_In in Hn.
    apply lastIndex_Some in Hn; congruence.
Qed.

Lemma rowsOf_In headers lines obj :
  In obj (Csv.rowsOf Number_of_string headers lines) <->
  exists line, In line lines
               /\ Csv.parseLine Number_of_string headers line = Some obj.
Proof.
  induction lines as [|l lines IH]; simpl.
  - split; [contradiction | intros [? [[] _]]].
  - destruct (Csv.parseLine Number_of_string headers l) as [o|] eqn:E; simpl;
      rewrite IH; split.
    + intros [<-|[line [H1 H2]]]; [exists l; auto | exists line; auto].
    + intros [line [[<-|H1] H2]]; [left; congruence | right; exists line; auto].
    + intros [line [H1 H2]]; exists line; auto.
    + intros [line [[<-|H1] H2]]; [congruence | exists line; auto].
Qed.

Lemma split_length sep s :
  List.length (Csv.split sep s) = S (count_occ N.eq_dec s sep).
Proof.
  induction s as [|c s IH]; simpl; [reflexivity|].
  destruct (N.eqb_spec c sep) as [->|Hne].
  - simpl; rewrite IH; destruct (N.eq_dec sep sep); [reflexivity | contradiction].
  - destruct (N.eq_dec c sep); [contradiction|].
    destruct (Csv.split sep s) as [|p ps]; simpl in *; [discriminate | exact IH].
Qed.

Lemma hasComma_split line :
  (List.length (Csv.split Csv.comma line) <=? 1)%nat = negb (hasComma line).
Proof.
  rewrite split_length; unfold hasComma.
  induction line as [|c line IH]; [reflexivity|].
  cbn [count_occ existsb].
  destruct (N.eq_dec c Csv.comma) as [E|Hne].
  - rewrite E, N.eqb_refl; reflexivity.
  - replace (Csv.comma =? c)%N with false
      by (symmetry; apply N.eqb_neq; congruence).
    exact IH.
Qed.

Lemma rowsOf_filter headers lines :
  Csv.rowsOf Number_of_string headers lines
  = map (fun line =>
           Csv.fill Number_of_string [] headers 0 (Csv.split Csv.comma line))
        (filter hasComma lines).
Proof.
  induction lines as [|l lines IH]; [reflexivity|].
  cbn [Csv.rowsOf filter]; unfold Csv.parseLine; rewrite hasComma_split.
  destruct (hasComma l); cbn [negb map]; rewrite IH; reflexivity.
Qed.

(** What a record holds under each key. *)
Lemma fill_record headers cells :
  (forall h,
     Csv.get (Csv.fill Number_of_string [] headers 0 cells) h
     = if Csv.ueqb h Csv.proto then None
       else match lastIndex h headers with
            | Some i =>
                Some (Csv.cellValue Number_of_string h
                        (Csv.cellText (nth_error cells i)))
            | None => None
            end)
  /\ (forall h,
        Csv.get (Csv.fill Number_of_string [] headers 0 cells) h <> None
        <-> In h headers /\ h <> Csv.proto).
Proof.
  assert (Hget : forall h,
    Csv.get (Csv.fill Number_of_string [] headers 0 cells) h
    = if Csv.ueqb h Csv.proto then None
      else match lastIndex h headers with
           | Some i =>
               Some (Csv.cellValue Number_of_string h
                       (Csv.cellText (nth_error cells i)))
           | None => None
           end).
  { intros h; rewrite fill_get; reflexivity. }
  split; [exact Hget|].
  intros h; rewrite Hget.
  destruct (Csv.ueqb h Csv.proto) eqn:Ep.
  - apply ueqb_spec in Ep; split; [congruence | intros [_ H]; contradiction].
  - assert (Hp : h <> Csv.proto)
      by (intros E; apply ueqb_spec in E; congruence).
    rewrite <- lastIndex_Some.
    destruct (lastIndex h headers); split; try tauto; try congruence.
    intros _; split; [discriminate | exact Hp].
Qed.

(** A record comes from a line of the text. *)
Lemma parseCSV_In text obj :
  In obj (Csv.parseCSV Number_of_string text) ->
  exists line,
    In line (tl (linesOf text)) /\ hasComma line = true
    /\ obj = Csv.fill Number_of_string [] (Csv.headersOf (linesOf text)) 0
               (Csv.split Csv.comma line).
Proof.
  unfold Csv.parseCSV; fold (linesOf text); unfold Csv.parseLines.
  destruct (List.length (linesOf text) <? 2)%nat; [contradiction|].
  intros Hobj; apply rowsOf_In in Hobj.
  destruct Hobj as [line [Hline Hparse]]; exists line.
  unfold Csv.parseLine in Hparse; rewrite hasComma_split in Hparse.
  destruct (hasComma line); [|discriminate].
  injection Hparse as <-; auto.
Qed.

(** X1: the records of a text: one for each line after the first that holds a
    comma, in the order of the lines, and none when the trimmed text is a
    single line.  A record has the headers as its keys, the key
    [__proto__] apart; under a header it holds the value of the cell at
    the last place of that header in the header line, the empty string
    when the line has no such cell. *)
Theorem parseCSV_records text :
  let lines := linesOf text in
  let headers := Csv.headersOf lines in
  let out := Csv.parseCSV Number_of_string text in
  ((List.length lines < 2)%nat -> out = [])
  /\ Forall2
       (fun obj line =>
          (forall h,
             Csv.get obj h
             = if Csv.ueqb h Csv.proto then None
               else match lastIndex h headers with
                    | Some i =>
                        Some (Csv.cellValue Number_of_string h
                                (Csv.cellText
                                   (nth_error (Csv.split Csv.comma line) i)))
                    | None => None
                    end)
          /\ (forall h, Csv.get obj h <> None
                        <-> In h headers /\ h <> Csv.proto))
       out (filter hasComma (tl lines)).
Proof.
  cbv zeta; unfold Csv.parseCSV; fold (linesOf text).
  set (lines := linesOf text).
  unfold Csv.parseLines.
  destruct (List.length lines <? 2)%nat eqn:Hlen.
  - apply Nat.ltb_lt in Hlen; split; [reflexivity|].
    destruct lines as [|l0 [|l1 rest]]; simpl in *; try constructor; lia.
  - apply Nat.ltb_ge in Hlen; split; [lia|].
    rewrite rowsOf_filter.
    induction (filter hasComma (tl lines)) as [|line ls IH];
      cbn [map]; constructor; [|exact IH].
    apply fill_record.
Qed.

Lemma noLead_trimStart s : noLead (Csv.trimStart s).
Proof.
  induction s as [|c s IH]; simpl; [exact I|].
  destruct (Csv.is_white c) eqn:E; [exact IH | exact E].
Qed.

Lemma trimStart_noLead s : noLead s -> Csv.trimStart s = s.
Proof. destruct s as [|c s]; simpl; [reflexivity | intros ->; reflexivity]. Qed.

Lemma trimStart_suffix s : exists p, s = p ++ Csv.trimStart s.
Proof.
  induction s as [|c s [p IH]]; simpl; [exists []; reflexivity|].
  destruct (Csv.is_white c).
  - exists (c :: p); simpl; rewrite <- IH; reflexivity.
  - exists []; reflexivity.
Qed.

Lemma noTrail_trimStart s : noLead (rev s) -> noLead (rev (Csv.trimStart s)).
Proof.
  intros H; destruct (trimStart_suffix s) as [p Hp].
  destruct (Csv.trimStart s) as [|c t] eqn:E; [exact I|].
  rewrite Hp, rev_app_distr in H.
  destruct (rev (c :: t)) as [|x r] eqn:Er.
  - apply (f_equal (@List.length N)) in Er; rewrite length_rev in Er.
    discriminate.
  - exact H.
Qed.

(** Trimming leaves nothing to trim. *)
Lemma trim_idempotent s : Csv.trim (Csv.trim s) = Csv.trim s.
Proof.
  unfold Csv.trim.
  set (e := Csv.trimEnd s).
  assert (He : noLead (rev e)).
  { subst e; unfold Csv.trimEnd; rewrite rev_involutive.
    apply noLead_trimStart. }
  set (t := Csv.trimStart e).
  assert (Ht1 : noLead t) by apply noLead_trimStart.
  assert (Ht2 : noLead (rev t)) by (apply noTrail_trimStart, He).
  unfold Csv.trimEnd; rewrite (trimStart_noLead (rev t) Ht2), rev_involutive.
  apply trimStart_noLead, Ht1.
Qed.

Lemma cellText_trimmed cell :
  Csv.trim (Csv.cellText cell) = Csv.cellText cell.
Proof.
  destruct cell as [[|c s]|]; try reflexivity.
  cbn [Csv.cellText]; apply trim_idempotent.
Qed.

(** X2: the values of the records: a text column is never turned into a
    number; a number is stored only for a cell that is not empty and
    does not read as NaN; an empty or missing cell is the empty string;
    a stored text has no white space around it. *)
Theorem parseCSV_values text obj h v :
  In obj (Csv.parseCSV Number_of_string text) ->
  Csv.get obj h = Some v ->
  (In h Csv.textColumns -> exists s, v = Csv.Text s)
  /\ (forall x, v = Csv.Number x ->
        isNaN x = false
        /\ exists s, s <> [] /\ Csv.trim s = s /\ x = Number_of_string s)
  /\ (forall s, v = Csv.Text s -> Csv.trim s = s)
  /\ Csv.cellValue Number_of_string h [] = Csv.Text []
  /\ Csv.cellText None = [] /\ Csv.cellText (Some []) = [].
Proof.
  intros Hobj Hget.
  destruct (parseCSV_In text obj Hobj) as [line [_ [_ ->]]].
  rewrite (proj1 (fill_record _ _)) in Hget.
  destruct (Csv.ueqb h Csv.proto); [discriminate|].
  destruct (lastIndex h (Csv.headersOf (linesOf text))) as [i|];
    [|discriminate].
  injection Hget as <-.
  set (val := Csv.cellText (nth_error (Csv.split Csv.comma line) i)).
  assert (Hval' : Csv.trim val = val) by apply cellText_trimmed.
  unfold Csv.cellValue.
  split.
  { intros Hin.
    assert (E : existsb (Csv.ueqb h) Csv.textColumns = true).
    { apply existsb_exists; exists h; split; [exact Hin | apply ueqb_refl]. }
    rewrite E; cbn [negb]; eauto. }
  split.
  { intros x Hx.
    destruct (negb (existsb (Csv.ueqb h) Csv.textColumns)); [|discriminate].
    destruct (isNaN (Number_of_string val)) eqn:En; [discriminate|].
    destruct (Csv.ueqb val []) eqn:Ee; [discriminate|].
    cbn [negb andb] in Hx; injection Hx as <-.
    split; [exact En|]. exists val; split; [|split; [exact Hval' | reflexivity]].
    intros E; rewrite E in Ee; discriminate. }
  split.
  { intros s Hs.
    destruct (negb (existsb (Csv.ueqb h) Csv.textColumns));
      [destruct (negb (isNaN (Number_of_string val)) && negb (Csv.ueqb val []));
       [discriminate|]|];
      injection Hs as <-; exact Hval'. }
  split; [|split; reflexivity].
  destruct (negb (existsb (Csv.ueqb h) Csv.textColumns)); [|reflexivity].
  cbn [Csv.ueqb negb]; rewrite andb_false_r; reflexivity.
Qed.

Lemma trimEnd_snoc_white s c :
  Csv.is_white c = true -> Csv.trimEnd (s ++ [c]) = Csv.trimEnd s.
Proof.
  intros Hc; unfold Csv.trimEnd; rewrite rev_app_distr; simpl.
  rewrite Hc; reflexivity.
Qed.

Lemma trim_snoc_white s c :
  Csv.is_white c = true -> Csv.trim (s ++ [c]) = Csv.trim s.
Proof. intros Hc; unfold Csv.trim; rewrite trimEnd_snoc_white by exact Hc; reflexivity. Qed.

Lemma split_nonempty sep s : Csv.split sep s <> [].
Proof.
  destruct s as [|c s]; simpl; [discriminate|].
  destruct (N.eqb c sep); [discriminate|].
  destruct (Csv.split sep s); discriminate.
Qed.

Lemma split_snoc sep s c :
  c <> sep -> Csv.split sep (s ++ [c]) = snocLast c (Csv.split sep s).
Proof.
  intros Hc; induction s as [|x s IH]; simpl.
  - replace (N.eqb c sep) with false by (symmetry; apply N.eqb_neq, Hc).
    reflexivity.
  - rewrite IH; pose proof (split_nonempty sep s) as Hne.
    destruct (N.eqb x sep).
    + destruct (Csv.split sep s); [contradiction | reflexivity].
    + destruct (Csv.split sep s) as [|p [|q ps]]; [contradiction| |];
        reflexivity.
Qed.

Lemma snocLast_length c l : List.length (snocLast c l) = List.length l.
Proof.
  induction l as [|y [|z l] IH]; simpl in *; try reflexivity.
  rewrite IH; reflexivity.
Qed.

Lemma snocLast_map {B : Type} (f : Csv.ustring -> B) c l :
  (forall y, f (y ++ [c]) = f y) -> map f (snocLast c l) = map f l.
Proof.
  intros Hf; induction l as [|y [|z l] IH]; simpl in *; try reflexivity.
  - rewrite Hf; reflexivity.
  - rewrite IH; reflexivity.
Qed.

Lemma cellText_snoc_CR y :
  Csv.cellText (Some (y ++ [13%N])) = Csv.cellText (Some y).
Proof.
  destruct y as [|c y]; [reflexivity|].
  cbn [app Csv.cellText].
  change (c :: y ++ [13%N]) with ((c :: y) ++ [13%N]).
  apply trim_snoc_white; reflexivity.
Qed.

Lemma snocLast_cellText l j :
  Csv.cellText (nth_error (snocLast 13%N l) j) = Csv.cellText (nth_error l j).
Proof.
  revert j; induction l as [|y [|z l] IH]; intros j; [reflexivity| |].
  - destruct j as [|j]; [apply cellText_snoc_CR|].
    destruct j; reflexivity.
  - destruct j as [|j]; [reflexivity|].
    change (snocLast 13%N (y :: z :: l)) with (y :: snocLast 13%N (z :: l)).
    cbn [nth_error]; apply IH.
Qed.

Lemma fill_ext headers :
  forall obj j c1 c2,
    (forall i, Csv.cellText (nth_error c1 i) = Csv.cellText (nth_error c2 i)) ->
    Csv.fill Number_of_string obj headers j c1
    = Csv.fill Number_of_string obj headers j c2.
Proof.
  induction headers as [|h rest IH]; intros obj j c1 c2 H; simpl;
    [reflexivity|].
  rewrite (H j); apply IH, H.
Qed.

Lemma parseLine_CR headers line :
  Csv.parseLine Number_of_string headers (line ++ [13%N])
  = Csv.parseLine Number_of_string headers line.
Proof.
  unfold Csv.parseLine.
  rewrite split_snoc by discriminate.
  rewrite snocLast_length.
  destruct (List.length (Csv.split Csv.comma line) <=? 1)%nat; [reflexivity|].
  f_equal; apply fill_ext; intros i; apply snocLast_cellText.
Qed.

Lemma rowsOf_CR headers lines lines' :
  Forall2 sameButCR lines lines' ->
  Csv.rowsOf Number_of_string headers lines'
  = Csv.rowsOf Number_of_string headers lines.
Proof.
  intros H; induction H as [|l l' ls ls' Hl _ IH]; [reflexivity|].
  cbn [Csv.rowsOf]; rewrite IH.
  destruct Hl as [->| ->]; [reflexivity|].
  rewrite parseLine_CR; reflexivity.
Qed.

Lemma stripBom_snoc l c :
  Csv.stripBom (l ++ [c]) = Csv.stripBom l ++ [c]
  \/ (l = [] /\ c = Csv.bom).
Proof.
  destruct l as [|x l]; simpl.
  - destruct (N.eqb_spec c Csv.bom) as [E|E]; [right; auto | left; reflexivity].
  - left; destruct (N.eqb x Csv.bom); reflexivity.
Qed.

Lemma headersOf_CR lines lines' :
  Forall2 sameButCR lines lines' ->
  Csv.headersOf lines' = Csv.headersOf lines.
Proof.
  intros H; unfold Csv.headersOf.
  destruct H as [|l l' ls ls' Hl _]; [reflexivity|].
  cbn [hd]; destruct Hl as [->| ->]; [reflexivity|].
  destruct (stripBom_snoc l 13%N) as [E|[_ E]]; [|discriminate].
  rewrite E, split_snoc by discriminate.
  apply snocLast_map; intros y; apply trim_snoc_white; reflexivity.
Qed.

(** A carriage return at the end of any line changes nothing. *)
Lemma parseLines_CR lines lines' :
  Forall2 sameButCR lines lines' ->
  Csv.parseLines Number_of_string lines'
  = Csv.parseLines Number_of_string lines.
Proof.
  intros H; unfold Csv.parseLines.
  rewrite <- (Forall2_length H).
  destruct (List.length lines <? 2)%nat; [reflexivity|].
  rewrite (headersOf_CR lines lines' H).
  apply rowsOf_CR.
  destruct H; [constructor | assumption].
Qed.

Lemma withCR_app a b : withCR (a ++ b) = withCR a ++ withCR b.
Proof.
  induction a as [|c a IH]; simpl; [reflexivity|].
  destruct (N.eqb c Csv.newline); simpl; rewrite IH; reflexivity.
Qed.

Lemma withRC_app a b : withRC (a ++ b) = withRC a ++ withRC b.
Proof.
  induction a as [|c a IH]; simpl; [reflexivity|].
  destruct (N.eqb c Csv.newline); simpl; rewrite IH; reflexivity.
Qed.

Lemma rev_withCR s : rev (withCR s) = withRC (rev s).
Proof.
  induction s as [|c s IH]; simpl; [reflexivity|].
  rewrite withRC_app; simpl.
  destruct (N.eqb c Csv.newline); simpl; rewrite IH, <- ?app_assoc; reflexivity.
Qed.

Lemma rev_withRC s : rev (withRC s) = withCR (rev s).
Proof.
  induction s as [|c s IH]; simpl; [reflexivity|].
  rewrite withCR_app; simpl.
  destruct (N.eqb c Csv.newline); simpl; rewrite IH, <- ?app_assoc; reflexivity.
Qed.

Lemma newline_white c : N.eqb c Csv.newline = true -> Csv.is_white c = true.
Proof. intros H; apply N.eqb_eq in H; subst c; reflexivity. Qed.

Lemma trimStart_withCR s : Csv.trimStart (withCR s) = withCR (Csv.trimStart s).
Proof.
  induction s as [|c s IH]; [reflexivity|].
  cbn [withCR Csv.trimStart].
  destruct (N.eqb c Csv.newline) eqn:En.
  - rewrite (newline_white c En); cbn [Csv.trimStart].
    change (Csv.is_white 13) with true; cbn iota.
    rewrite (newline_white c En); exact IH.
  - cbn [Csv.trimStart]; destruct (Csv.is_white c); [exact IH|].
    cbn [withCR]; rewrite En; reflexivity.
Qed.

Lemma trimStart_withRC s : Csv.trimStart (withRC s) = withRC (Csv.trimStart s).
Proof.
  induction s as [|c s IH]; [reflexivity|].
  cbn [withRC Csv.trimStart].
  destruct (N.eqb c Csv.newline) eqn:En.
  - rewrite (newline_white c En); cbn [Csv.trimStart].
    rewrite (newline_white c En).
    change (Csv.is_white 13) with true; cbn iota; exact IH.
  - cbn [Csv.trimStart]; destruct (Csv.is_white c); [exact IH|].
    cbn [withRC]; rewrite En; reflexivity.
Qed.

Lemma trim_withCR s : Csv.trim (withCR s) = withCR (Csv.trim s).
Proof.
  unfold Csv.trim, Csv.trimEnd.
  rewrite rev_withCR, trimStart_withRC, rev_withRC, trimStart_withCR.
  reflexivity.
Qed.

Lemma split_withCR t :
  Csv.split Csv.newline (withCR t) = addCR (Csv.split Csv.newline t).
Proof.
  induction t as [|c t IH]; [reflexivity|].
  cbn [withCR Csv.split].
  pose proof (split_nonempty Csv.newline t) as Hne.
  destruct (N.eqb c Csv.newline) eqn:En.
  - cbn [Csv.split]; change (N.eqb 13 Csv.newline) with false; cbn iota.
    rewrite En, IH.
    destruct (Csv.split Csv.newline t) as [|y l]; [contradiction|].
    reflexivity.
  - cbn [Csv.split]; rewrite En, IH.
    destruct (Csv.split Csv.newline t) as [|y [|z l]]; [contradiction| |];
      reflexivity.
Qed.

Lemma addCR_same l : Forall2 sameButCR l (addCR l).
Proof.
  induction l as [|y [|z l] IH]; [constructor| |].
  - constructor; [left; reflexivity | constructor].
  - change (addCR (y :: z :: l)) with ((y ++ [13%N]) :: addCR (z :: l)).
    constructor; [right; reflexivity | exact IH].
Qed.

Lemma trimStart_snoc_white a w :
  Csv.is_white w = true ->
  Csv.trimStart (a ++ [w])
  = match Csv.trimStart a with
    | [] => []
    | t => t ++ [w]
    end.
Proof.
  intros Hw; induction a as [|c a IH]; simpl; [rewrite Hw; reflexivity|].
  destruct (Csv.is_white c); [exact IH | reflexivity].
Qed.

Lemma trim_cons_white w s :
  Csv.is_white w = true -> Csv.trim (w :: s) = Csv.trim s.
Proof.
  intros Hw; unfold Csv.trim, Csv.trimEnd; cbn [rev].
  rewrite trimStart_snoc_white by exact Hw.
  destruct (Csv.trimStart (rev s)) as [|c t]; [reflexivity|].
  rewrite rev_app_distr; cbn [rev app Csv.trimStart].
  rewrite Hw; reflexivity.
Qed.

Lemma noLead_trim s : noLead (Csv.trim s).
Proof. apply noLead_trimStart. Qed.

(** X3: the text may come with carriage returns before its line feeds, with a
    byte order mark or other white space before it, and with white space
    after it: the records are the same.  The byte order mark being white
    space, the first line never begins with one when it is tested. *)
Theorem parseCSV_line_ends_and_bom text :
  Csv.parseCSV Number_of_string (withCR text)
  = Csv.parseCSV Number_of_string text
  /\ Csv.parseCSV Number_of_string (Csv.bom :: text)
     = Csv.parseCSV Number_of_string text
  /\ (forall w, Csv.is_white w = true ->
        Csv.parseCSV Number_of_string (w :: text)
        = Csv.parseCSV Number_of_string text
        /\ Csv.parseCSV Number_of_string (text ++ [w])
           = Csv.parseCSV Number_of_string text)
  /\ Csv.stripBom (hd [] (linesOf text)) = hd [] (linesOf text).
Proof.
  assert (Hw : forall w, Csv.is_white w = true ->
            Csv.parseCSV Number_of_string (w :: text)
            = Csv.parseCSV Number_of_string text
            /\ Csv.parseCSV Number_of_string (text ++ [w])
               = Csv.parseCSV Number_of_string text).
  { intros w H; unfold Csv.parseCSV.
    rewrite trim_cons_white, trim_snoc_white by exact H; split; reflexivity. }
  split.
  { unfold Csv.parseCSV; rewrite trim_withCR, split_withCR.
    apply parseLines_CR, addCR_same. }
  split; [apply Hw; reflexivity|].
  split; [exact Hw|].
  unfold linesOf; pose proof (noLead_trim text) as Hn.
  destruct (Csv.trim text) as [|c t]; [reflexivity|].
  cbn [noLead] in Hn; cbn [Csv.split].
  destruct (N.eqb c Csv.newline) eqn:En.
  - rewrite (newline_white c En) in Hn; discriminate.
  - pose proof (split_nonempty Csv.newline t) as Hne.
    destruct (Csv.split Csv.newline t) as [|p ps]; [contradiction|].
    cbn [hd Csv.stripBom].
    destruct (N.eqb_spec c Csv.bom) as [E|E]; [|reflexivity].
    subst c; discriminate.
Qed.

End CsvFacts.

(* ================================================================== *)
(** * Period keys, innings on display, filters *)
(* ================================================================== *)

Lemma append_inj_l a b c : String.append a b = String.append a c -> b = c.
Proof.
  induction a as [|x a IH]; simpl; [tauto|].
  intros H; injection H as H; exact (IH H).
Qed.

(** The digits written for [n], read back in front of any other
    character. *)
Lemma of_Z_read_prefix n c rest :
  0 <= n -> JsString.digit_val c = None ->
  JsString.digits_prefix None (String.append (JsString.of_Z n) (String c rest))
  = Some n.
Proof.
  intros Hn Hc; destruct (of_Z_read n Hn) as [Hall [Hread _]].
  rewrite digits_prefix_app by exact Hall.
  destruct (Hread None) as [k [_ Hk]]; rewrite Hk.
  cbn [JsString.digits_prefix]; rewrite Hc; f_equal; simpl; lia.
Qed.

Lemma of_Z_read_all n :
  0 <= n -> JsString.digits_prefix None (JsString.of_Z n) = Some n.
Proof. intros Hn; apply (numeral_read false n Hn). Qed.

Lemma of_Z_inj n n' :
  0 <= n -> 0 <= n' -> JsString.of_Z n = JsString.of_Z n' -> n = n'.
Proof.
  intros Hn Hn' E; pose proof (of_Z_read_all n Hn) as H.
  rewrite E, (of_Z_read_all n' Hn') in H; congruence.
Qed.

Lemma padded_inj n n' :
  0 <= n -> 0 <= n' ->
  JsString.padStart2 (JsString.of_Z n) = JsString.padStart2 (JsString.of_Z n')
  -> n = n'.
Proof.
  intros Hn Hn' E.
  destruct (numeral_read true n Hn) as [_ [H _]].
  destruct (numeral_read true n' Hn') as [_ [H' _]].
  unfold numeral in H, H'; rewrite E, H' in H; congruence.
Qed.

Lemma monthKey_inj y m y' m' :
  0 <= y -> 0 <= y' -> 0 <= m -> 0 <= m' ->
  monthKey y m = monthKey y' m' -> y = y' /\ m = m'.
Proof.
  intros Hy Hy' Hm Hm' E; unfold monthKey in E.
  assert (Ey : y = y').
  { pose proof (of_Z_read_prefix y "-"%char
                  (JsString.padStart2 (JsString.of_Z (m + 1))) Hy eq_refl) as H.
    change (String.append "-" ?s) with (String "-"%char s) in E.
    rewrite E, of_Z_read_prefix in H by (assumption || reflexivity).
    congruence. }
  subst y'; split; [reflexivity|].
  apply append_inj_l in E; injection E as E.
  apply padded_inj in E; lia.
Qed.

Lemma quarterKey_inj y q y' q' :
  0 <= y -> 0 <= y' -> 0 <= q -> 0 <= q' ->
  String.append (JsString.of_Z y) (String.append "-Q" (JsString.of_Z q))
  = String.append (JsString.of_Z y') (String.append "-Q" (JsString.of_Z q'))
  -> y = y' /\ q = q'.
Proof.
  intros Hy Hy' Hq Hq' E.
  change (String.append "-Q" ?s) with (String "-"%char (String "Q"%char s)) in E.
  assert (Ey : y = y').
  { pose proof (of_Z_read_prefix y "-"%char
                  (String "Q"%char (JsString.of_Z q)) Hy eq_refl) as H.
    rewrite E, of_Z_read_prefix in H by (assumption || reflexivity).
    congruence. }
  subst y'; split; [reflexivity|].
  apply append_inj_l in E; injection E as E.
  apply of_Z_inj in E; assumption.
Qed.

Lemma month_quarter_keys_differ y m y' m' :
  0 <= y -> 0 <= y' -> 0 <= m ->
  monthKey y m <> quarterKey y' m'.
Proof.
  intros Hy Hy' Hm E; unfold monthKey, quarterKey in E.
  change (String.append "-Q" ?s) with (String "-"%char (String "Q"%char s)) in E.
  change (String.append "-" ?s) with (String "-"%char s) in E.
  assert (Ey : y = y').
  { pose proof (of_Z_read_prefix y "-"%char
                  (JsString.padStart2 (JsString.of_Z (m + 1))) Hy eq_refl) as H.
    rewrite E, of_Z_read_prefix in H by (assumption || reflexivity).
    congruence. }
  subst y'; apply append_inj_l in E; injection E as E.
  destruct (numeral_read true (m + 1) ltac:(lia)) as [Hall _].
  unfold numeral in Hall; rewrite E in Hall; discriminate Hall.
Qed.

Lemma calendar_month_range tza t :
  0 <= JsDate.getMonth tza t <= 11.
Proof.
  unfold JsDate.getMonth.
  pose proof (proj2 (civil_roundtrip (JsDate.Day (t + tza)))); lia.
Qed.

(** X17: rows are filed by calendar month and by calendar quarter, in the team
    trend and in the player trends alike: two rows with readable dates of
    years from 0 on get the same monthly key exactly when their dates lie
    in the same month of the same year, the same quarterly key exactly
    when they lie in the same three months of the same year, and a monthly
    key is never a quarterly one. *)
Theorem period_keys_identify_periods host row row' t t' :
  parseDate host (r_date row) = Some t ->
  parseDate host (r_date row') = Some t' ->
  0 <= JsDate.getFullYear (tza host) t ->
  0 <= JsDate.getFullYear (tza host) t' ->
  let year := JsDate.getFullYear (tza host) in
  let month := JsDate.getMonth (tza host) in
  (forall period,
     PlayerTrend.getKey host row period
     = match period with
       | Game => c_date row
       | _ => TeamTrend.getKey host row period
       end)
  /\ (TeamTrend.getKey host row Monthly = TeamTrend.getKey host row' Monthly
      <-> year t = year t' /\ month t = month t')
  /\ (TeamTrend.getKey host row Quarterly
      = TeamTrend.getKey host row' Quarterly
      <-> year t = year t' /\ month t / 3 = month t' / 3)
  /\ TeamTrend.getKey host row Monthly
     <> TeamTrend.getKey host row' Quarterly
  /\ (forall period,
        period <> Game ->
        teamKeyOf host period row = TeamTrend.getKey host row period).
Proof.
  intros Ht Ht' Hy Hy'; cbv zeta.
  pose proof (calendar_month_range (tza host) t) as Hm.
  pose proof (calendar_month_range (tza host) t') as Hm'.
  unfold teamKeyOf, PlayerTrend.getKey, TeamTrend.getKey; rewrite Ht, Ht'.
  split; [intros []; reflexivity|].
  split; [|split; [|split]].
  - split.
    + intros E; injection E as E; apply monthKey_inj in E; tauto || lia.
    + intros [-> ->]; reflexivity.
  - split.
    + intros E; injection E as E; unfold quarterKey in E.
      apply quarterKey_inj in E;
        try assumption; try (Z.to_euclidean_division_equations; lia).
    + intros [E1 E2]; unfold quarterKey; rewrite E1, E2; reflexivity.
  - intros E; injection E as E.
    apply month_quarter_keys_differ in E; tauto || lia.
  - intros [] Hp; try contradiction; cbn [usableKey].
    + rewrite monthKey_truthy; reflexivity.
    + unfold quarterKey; destruct (String.append _ _) eqn:E; [|reflexivity].
      exfalso; revert E; apply append_nonempty; discriminate.
Qed.

Lemma period_keys_identify_periods_witness :
  TeamTrend.getKey Sample.jst (Sample.bat "a" "g1" "2025-10-01" 3 1 0) Monthly
  = TeamTrend.getKey Sample.jst (Sample.bat "b" "g2" "2025-10-08" 4 2 1) Monthly.
Proof.
  refine (proj2 (proj1 (proj2 (period_keys_identify_periods Sample.jst
            (Sample.bat "a" "g1" "2025-10-01" 3 1 0)
            (Sample.bat "b" "g2" "2025-10-08" 4 2 1)
            _ _ _ _ _ _))) _).
  - vm_compute; reflexivity.
  - vm_compute; reflexivity.
  - vm_compute; discriminate.
  - vm_compute; discriminate.
  - split; vm_compute; reflexivity.
Defined.

Lemma thirds_cases outs :
  0 <= outs ->
  (if 0 <? Z.rem outs 3
   then String.append "." (JsString.of_Z (Z.rem outs 3))
   else EmptyString) = thirds (outs mod 3).
Proof.
  intros H; rewrite Z.rem_mod_nonneg by lia.
  assert (Hr : outs mod 3 = 0 \/ outs mod 3 = 1 \/ outs mod 3 = 2)
    by (pose proof (Z.mod_pos_bound outs 3); lia).
  destruct Hr as [->|[->| ->]]; reflexivity.
Qed.

(** X12: the innings on display are a full account of the outs: the whole
    innings, then [.1] or [.2] for one or two outs more; the number read
    from the display is the whole innings, and two counts of outs are
    displayed alike only when they are equal. *)
Theorem displayInnings_reads_back outs :
  0 <= outs ->
  displayInningsOf outs
  = String.append (JsString.of_Z (outs / 3)) (thirds (outs mod 3))
  /\ JsString.parseInt10 (displayInningsOf outs) = Some (outs / 3)
  /\ (forall outs', 0 <= outs' ->
        displayInningsOf outs' = displayInningsOf outs -> outs' = outs).
Proof.
  intros H.
  assert (Hform : forall o, 0 <= o ->
            displayInningsOf o
            = String.append (JsString.of_Z (o / 3)) (thirds (o mod 3))).
  { intros o Ho; unfold displayInningsOf; rewrite thirds_cases by exact Ho.
    reflexivity. }
  assert (Hq : forall o, 0 <= o -> 0 <= o / 3)
    by (intros; apply Z.div_pos; lia).
  assert (Hread : forall o, 0 <= o ->
            JsString.digits_prefix None (displayInningsOf o) = Some (o / 3)).
  { intros o Ho; rewrite (Hform o Ho).
    assert (Hr : o mod 3 = 0 \/ o mod 3 = 1 \/ o mod 3 = 2)
      by (pose proof (Z.mod_pos_bound o 3); lia).
    destruct (of_Z_read (o / 3) (Hq o Ho)) as [Hall _].
    destruct Hr as [->|[->| ->]]; cbn [thirds Z.eqb Pos.eqb].
    - rewrite digits_prefix_app by exact Hall; cbn [JsString.digits_prefix].
      apply of_Z_read_all, Hq, Ho.
    - apply of_Z_read_prefix; [apply Hq, Ho | reflexivity].
    - apply of_Z_read_prefix; [apply Hq, Ho | reflexivity]. }
  split; [apply Hform, H|]; split.
  - rewrite <- (Hread outs H), (Hform outs H).
    destruct (of_Z_read (outs / 3) (Hq outs H)) as [Hall [Hr _]].
    unfold JsString.parseInt10.
    destruct (JsString.of_Z (outs / 3)) as [|c s] eqn:E.
    + destruct (Hr None) as [k [_ Hk]]; discriminate Hk.
    + cbn [String.append]; cbn [JsObject.all_digits] in Hall.
      destruct (JsString.digit_val c) as [v|] eqn:Ec; [|discriminate].
      destruct (digit_val_not_sep c v Ec) as [_ [Hws [Hm Hp]]].
      rewrite Hws.
      destruct c as [[] [] [] [] [] [] [] []]; try reflexivity; congruence.
  - intros outs' H' E.
    pose proof (Hread outs' H') as R; rewrite E, (Hread outs H) in R.
    injection R as R.
    rewrite (Hform outs H), (Hform outs' H'), R in E.
    apply append_inj_l in E.
    assert (Hr : outs mod 3 = 0 \/ outs mod 3 = 1 \/ outs mod 3 = 2)
      by (pose proof (Z.mod_pos_bound outs 3); lia).
    assert (Hr' : outs' mod 3 = 0 \/ outs' mod 3 = 1 \/ outs' mod 3 = 2)
      by (pose proof (Z.mod_pos_bound outs' 3); lia).
    assert (Em : outs' mod 3 = outs mod 3).
    { destruct Hr as [E1|[E1|E1]], Hr' as [E2|[E2|E2]]; rewrite E1, E2 in E |- *;
        first [reflexivity | discriminate E]. }
    rewrite (Z.div_mod outs 3), (Z.div_mod outs' 3) by lia; lia.
Qed.

Lemma displayInnings_reads_back_witness :
  displayInningsOf 5 = "1.2"%string
  /\ JsString.parseInt10 (displayInningsOf 5) = Some 1.
Proof.
  split.
  - exact (proj1 (displayInnings_reads_back 5 ltac:(lia))).
  - exact (proj1 (proj2 (displayInnings_reads_back 5 ltac:(lia)))).
Defined.

Lemma rowPasses_reset host row : rowPasses host resetFilters row = true.
Proof. reflexivity. Qed.

(** X9: after [resetFilters] every row is shown again; filtering what has
    been filtered changes nothing, two filters may be applied in either
    order, and the rows that remain keep their order. *)
Theorem filterData_reset_and_repeat host data :
  filterData host data resetFilters = data
  /\ (forall f, filterData host (filterData host data f) f
                = filterData host data f)
  /\ (forall f g, filterData host (filterData host data f) g
                  = filterData host (filterData host data g) f)
  /\ (forall f before after,
        data = before ++ after ->
        filterData host data f
        = filterData host before f ++ filterData host after f).
Proof.
  unfold filterData; split; [|split; [|split]].
  - induction data as [|r data IH]; [reflexivity|].
    cbn [filter]; rewrite rowPasses_reset, IH; reflexivity.
  - intros f; induction data as [|r data IH]; [reflexivity|].
    cbn [filter]; destruct (rowPasses host f r) eqn:E; [|exact IH].
    cbn [filter]; rewrite E, IH; reflexivity.
  - intros f g; induction data as [|r data IH]; [reflexivity|].
    cbn [filter].
    destruct (rowPasses host f r) eqn:Ef, (rowPasses host g r) eqn:Eg;
      cbn [filter]; rewrite ?Ef, ?Eg, IH; reflexivity.
  - intros f before after ->; apply filter_app.
Qed.

(* ================================================================== *)
(** * Sample runs of the further properties *)
(* ================================================================== *)

Lemma BatColumn_eqb_spec a b : BatColumn_eqb a b = true <-> a = b.
Proof.
  split; [destruct a, b; intros H; first [reflexivity | discriminate H]|].
  intros <-; destruct a; reflexivity.
Qed.

Lemma table_sort_by_column_witness :
  StronglySorted
    (fun a b => le (numberIn (batCell b BcHr)) (numberIn (batCell a BcHr))
                = true)
    (TableSort.sortedData SampleText.numberOfString batCell
       (aggregatedBatting Sample.twoSluggers)
       {| sc_key := Some BcHr; sc_direction := Desc |}).
Proof.
  refine (proj1 (proj2 (proj2 (proj2 (proj2 (proj2 (proj2 (proj2
            (table_sort_by_column SampleText.numberOfString batCell
               BatColumn_eqb BatColumn_eqb_spec
               (aggregatedBatting Sample.twoSluggers) BcHr))))))) _)).
  intros a Ha; vm_compute in Ha.
  destruct Ha as [<-|[<-|[]]]; eexists; split; vm_compute; reflexivity.
Defined.

Lemma aggregated_tables_order_witness :
  StronglySorted (fun a b => le (b_avg b) (b_avg a) = true)
                 (aggregatedBatting Sample.twoSluggers)
  /\ StronglySorted (fun a b => le (p_era a) (p_era b) = true)
                    (aggregatedPitching Sample.twoPitchers).
Proof.
  apply (aggregated_tables_order Sample.twoSluggers Sample.twoPitchers).
  - intros p Hp; vm_compute in Hp.
    destruct Hp as [<-|[<-|[]]]; vm_compute; repeat split; discriminate.
  - intros p Hp; vm_compute in Hp.
    destruct Hp as [<-|[<-|[]]]; vm_compute; repeat split; discriminate.
Defined.

Lemma chart_bars_order_witness :
  StronglySorted (ascending snd)
    (chartSortedData snd true Sample.threeItems).
Proof.
  refine (proj1 (proj2 (chart_bars_order snd true Sample.threeItems _))
            eq_refl).
  intros a v Hin Hv; vm_compute in Hin.
  destruct Hin as [<-|[<-|[<-|[]]]]; cbn in Hv; try discriminate Hv;
    injection Hv as <-; vm_compute; reflexivity.
Defined.

Lemma parseCSV_values_witness :
  In SampleText.record (Csv.parseCSV SampleText.number SampleText.text)
  /\ Csv.get SampleText.record SampleText.atBats
     = Some (Csv.Number (of_Z 3))
  /\ isNaN (of_Z 3) = false.
Proof.
  assert (Hin : In SampleText.record
                  (Csv.parseCSV SampleText.number SampleText.text))
    by (vm_compute; left; reflexivity).
  assert (Hget : Csv.get SampleText.record SampleText.atBats
                 = Some (Csv.Number (of_Z 3))) by reflexivity.
  split; [exact Hin|]; split; [exact Hget|].
  exact (proj1 (proj1 (proj2 (parseCSV_values SampleText.number
                                SampleText.text SampleText.record
                                SampleText.atBats
                                (Csv.Number (of_Z 3)) Hin Hget))
                  (of_Z 3) eq_refl)).
Defined.

Lemma playerList_spec_witness :
  StronglySorted (fun a b => sortKey a <= sortKey b)
    (playerList Sample.squadBatting Sample.squadPitching)
  /\ map (fun p => (pl_id p, pl_number p, sortKey p))
         (playerList Sample.squadBatting Sample.squadPitching)
     = [(Some "b"%string, Some "2"%string, 2);
        (Some "d"%string, Some "7"%string, 7);
        (Some "a"%string, Some "10"%string, 10);
        (Some "c"%string, Some EmptyString, 999)].
Proof.
  split; [|vm_compute; reflexivity].
  refine (proj2 (proj2 (proj2 (playerList_spec Sample.squadBatting
                                 Sample.squadPitching))) _).
  intros row H; vm_compute in H.
  repeat (destruct H as [<-|H]; [vm_compute; reflexivity|]).
  destruct H.
Defined.
